(** * flo-ts-graph: a shallow embedding of the directed-graph engine
      ([graph.ts]) and of the traversal algorithms ([algorithms.ts]).

    Conventions of the embedding.
    - A [NodeId] / [EdgeId] is a JavaScript string, modelled as a [string]
      (a sequence of code units); [s.length] is [String.length s].
    - A JavaScript [Map] iterates in insertion order and [set] on an existing
      key keeps the key's position: it is an association list ([JsMap]).
      A JavaScript [Set] is an insertion-ordered duplicate-free list
      ([JsSet]).
    - [throw] is modelled by a sum type; the mutating methods of the engine
      run in a state-and-error monad that hands back the state reached at
      the moment of the [throw].
    - Loops whose termination is not structural ([while (head < q.length)],
      recursive depth-first searches, parent walks) take a [fuel] argument and
      answer [None] when it runs out. *)

From Stdlib Require Import String Ascii.
From Stdlib Require Import List Bool Arith ZArith Lia.
From Stdlib Require Import DecimalString DecimalNat Permutation Sorted.
Import ListNotations.

Set Implicit Arguments.

(* ================================================================== *)
(** * Part I: definitions                                              *)
(* ================================================================== *)

(** ** Keys with a decidable equality ([===] on strings and numbers) *)

Class Key (K : Type) := {
  keqb : K -> K -> bool;
  keqb_spec : forall a b : K, reflect (a = b) (keqb a b)
}.

#[export] Instance Key_string : Key string :=
  {| keqb := String.eqb; keqb_spec := String.eqb_spec |}.

#[export] Instance Key_nat : Key nat :=
  {| keqb := Nat.eqb; keqb_spec := Nat.eqb_spec |}.

(** ** JavaScript [Map] *)

Definition JsMap (K V : Type) := list (K * V).

Module JsMap.
Section Ops.
Context {K V : Type} `{Key K}.

Definition empty : JsMap K V := [].

Fixpoint get (k : K) (m : JsMap K V) : option V :=
  match m with
  | [] => None
  | (k', v) :: r => if keqb k k' then Some v else get k r
  end.

Definition has (k : K) (m : JsMap K V) : bool :=
  match get k m with Some _ => true | None => false end.

(** [set] overwrites in place when the key exists, appends otherwise. *)
Fixpoint set (k : K) (v : V) (m : JsMap K V) : JsMap K V :=
  match m with
  | [] => [(k, v)]
  | (k', v') :: r => if keqb k k' then (k, v) :: r else (k', v') :: set k v r
  end.

Definition keys (m : JsMap K V) : list K := map fst m.
Definition values (m : JsMap K V) : list V := map snd m.
Definition size (m : JsMap K V) : nat := length m.
End Ops.
End JsMap.

(** ** JavaScript [Set] *)

Definition JsSet (K : Type) := list K.

Module JsSet.
Section Ops.
Context {K : Type} `{Key K}.

Definition empty : JsSet K := [].
Definition has (x : K) (s : JsSet K) : bool := existsb (keqb x) s.
Definition add (x : K) (s : JsSet K) : JsSet K :=
  if has x s then s else s ++ [x].
Definition delete (x : K) (s : JsSet K) : JsSet K :=
  filter (fun y => negb (keqb x y)) s.
Definition size (s : JsSet K) : nat := length s.
End Ops.
End JsSet.

(** ** Strings *)

Definition NodeId := string.
Definition EdgeId := string.

(** [`${n}`] for a non-negative integer [n]: its decimal numeral. *)
Definition num_to_string (n : nat) : string :=
  NilZero.string_of_uint (Nat.to_uint n).

Infix "+++" := String.append (right associativity, at level 60).

(** ** [types.ts] *)

Inductive EdgeType := tree | back | forward | cross.

Record Edge (EdgeMeta : Type) := {
  edge_id : EdgeId;
  edge_from : NodeId;
  edge_to : NodeId;
  edge_metadata : option EdgeMeta
}.

Record Node (NodeMeta : Type) := {
  node_id : NodeId;
  node_metadata : option NodeMeta
}.

Record SCC := {
  scc_id : nat;
  scc_nodes : list NodeId;
  isAcyclic : bool
}.

Record CondensationComponent (EdgeMeta : Type) := {
  cc_id : nat;
  members : list NodeId;
  isLoop : bool;
  entryEdges : list (Edge EdgeMeta);
  exitEdges : list (Edge EdgeMeta);
  internalEdges : list (Edge EdgeMeta);
  feedbackEdges : list (Edge EdgeMeta)
}.

Record CondensationGraph (EdgeMeta : Type) := {
  components : list (CondensationComponent EdgeMeta);
  componentMap : JsMap NodeId nat;
  topologicalOrder : list nat
}.

Record Cycle := {
  cycle_nodes : list NodeId;
  cycle_edges : list EdgeId;
  cycle_backEdges : list EdgeId
}.

Record GraphAnalysis (EdgeMeta : Type) := {
  ga_nodeCount : nat;
  ga_edgeCount : nat;
  ga_isAcyclic : bool;
  ga_sccs : list SCC;
  ga_cycles : list Cycle;
  ga_topologicalOrder : option (list NodeId);          (* [NodeId[] | null] *)
  ga_condensationGraph : option (CondensationGraph EdgeMeta);
  ga_edgeClassifications : JsMap EdgeId EdgeType
}.

(** [GraphOptions] as the caller passes it (every field optional) and as the
    constructor stores it ([Required<GraphOptions>]). *)
Record GraphOptions := {
  opt_allowSelfLoops : option bool;
  opt_allowMultiEdges : option bool;
  opt_validateOnConstruction : option bool
}.

Record RequiredGraphOptions := {
  allowSelfLoops : bool;
  allowMultiEdges : bool;
  validateOnConstruction : bool
}.

(** [a ?? b] *)
Definition nullish {A : Type} (a : option A) (b : A) : A :=
  match a with Some x => x | None => b end.
Infix "??" := nullish (at level 45, left associativity).

(** Every [throw new Error(...)] of the engine, one constructor per site. *)
Inductive GraphError :=
| NodeAlreadyExists (id : NodeId)
| SourceNodeMissing (from : NodeId)
| TargetNodeMissing (to : NodeId)
| SelfLoopNotAllowed (from to : NodeId)
| EdgeAlreadyExists (edgeKey : string)
| UnknownNode (id : NodeId)
| InvariantAdjacency (from to : NodeId)
| InvariantReverseAdjacency (from to : NodeId)
| CondensationMissingMapping
| CondensationLookupFailed
| TypeErrorUndefined.

(** The spec's first error category (section 7). *)
Definition isUsageError (e : GraphError) : bool :=
  match e with
  | NodeAlreadyExists _ | SourceNodeMissing _ | TargetNodeMissing _
  | SelfLoopNotAllowed _ _ | EdgeAlreadyExists _ | UnknownNode _ => true
  | _ => false
  end.

(** ** Loops shared by several methods *)

(** [for (const x of l) { s = f(s, x) }] where the body may fail. *)
Fixpoint forEachM {S A : Type} (f : S -> A -> option S) (l : list A) (s : S)
  : option S :=
  match l with
  | [] => Some s
  | x :: r => match f s x with
              | Some s' => forEachM f r s'
              | None => None
              end
  end.

(** [for (const x of l) { ... }] where the body may throw [E]. *)
Fixpoint forEachE {E S A : Type} (f : S -> A -> E + S) (l : list A) (s : S)
  : E + S :=
  match l with
  | [] => inr s
  | x :: r => match f s x with
              | inr s' => forEachE f r s'
              | inl e => inl e
              end
  end.

(** Kahn's algorithm as both [topologicalSort] and [buildCondensationGraph]
    run it: a pointer queue ([head] walks over [queue], nothing is shifted),
    an in-degree map that is decremented per visited arc, and the vertices
    appended to the result in the order in which they leave the queue. *)
Record KahnState (K : Type) := {
  inDegree : JsMap K Z;
  queue : list K;
  head : nat;
  result : list K
}.

Section Kahn.
Context {K : Type} `{Key K}.

(** [const nd = (inDegree.get(v) ?? 0) - 1; inDegree.set(v, nd);
     if (nd === 0) queue.push(v);] *)
Definition kahnVisit (st : KahnState K) (v : K) : KahnState K :=
  let nd := (JsMap.get v (inDegree st) ?? 0 - 1)%Z in
  {| inDegree := JsMap.set v nd (inDegree st);
     queue := if (nd =? 0)%Z then queue st ++ [v] else queue st;
     head := head st;
     result := result st |}.

(** [const u = queue[head++]; result.push(u);] *)
Definition kahnTake (st : KahnState K) (u : K) : KahnState K :=
  {| inDegree := inDegree st; queue := queue st;
     head := S (head st); result := result st ++ [u] |}.

(** [while (head < queue.length) { ... for (const v of succs(u)) ... }] *)
Fixpoint kahnLoop (fuel : nat) (succs : K -> list K) (st : KahnState K)
  : option (KahnState K) :=
  match fuel with
  | 0 => None
  | S fuel' =>
      match nth_error (queue st) (head st) with
      | None => Some st
      | Some u =>
          kahnLoop fuel' succs (fold_left kahnVisit (succs u) (kahnTake st u))
      end
  end.

(** The same loop over [compAdj.get(current)!]: iterating [undefined]
    raises a [TypeError]. *)
Fixpoint kahnLoopStrict {E : Type} (typeError : E) (fuel : nat)
    (succs : K -> option (list K)) (st : KahnState K)
  : option (E + KahnState K) :=
  match fuel with
  | 0 => None
  | S fuel' =>
      match nth_error (queue st) (head st) with
      | None => Some (inr st)
      | Some current =>
          match succs current with
          | None => Some (inl typeError)
          | Some nbs =>
              kahnLoopStrict typeError fuel' succs
                (fold_left kahnVisit nbs (kahnTake st current))
          end
      end
  end.

(** [for (const [k, d] of inDegree) if (d === 0) queue.push(k);] *)
Definition kahnSeeds (inDegree : JsMap K Z) : list K :=
  map fst (filter (fun kd => (snd kd =? 0)%Z) inDegree).
End Kahn.

(** [xs[i] = f(xs[i])]: an update of the object stored at position [i]. *)
Fixpoint updateAt {A : Type} (i : nat) (f : A -> A) (l : list A) : list A :=
  match l, i with
  | [], _ => []
  | x :: r, 0 => f x :: r
  | x :: r, S i' => x :: updateAt i' f r
  end.

(** [a === b] on possibly undefined numbers. *)
Definition optNatEqb (a b : option nat) : bool :=
  match a, b with
  | Some x, Some y => x =? y
  | None, None => true
  | _, _ => false
  end.

(** ** [graph.ts]: class [DirectedGraph] *)

Section Engine.
Context {NodeMeta EdgeMeta : Type}.

Record DirectedGraph := {
  nodes : JsMap NodeId (Node NodeMeta);
  edges : JsMap EdgeId (Edge EdgeMeta);
  adjacencyList : JsMap NodeId (JsSet NodeId);
  reverseAdjacencyList : JsMap NodeId (JsSet NodeId);
  edgeIndex : JsMap string (JsSet EdgeId);
  nextEdgeId : nat;
  options : RequiredGraphOptions
}.

Definition constructor (o : GraphOptions) : DirectedGraph := {|
  nodes := JsMap.empty;
  edges := JsMap.empty;
  adjacencyList := JsMap.empty;
  reverseAdjacencyList := JsMap.empty;
  edgeIndex := JsMap.empty;
  nextEdgeId := 0;
  options := {|
    allowSelfLoops := opt_allowSelfLoops o ?? true;
    allowMultiEdges := opt_allowMultiEdges o ?? false;
    validateOnConstruction := opt_validateOnConstruction o ?? true |}
|}.

(** *** The state-and-error monad of the mutating methods *)

Definition M (A : Type) : Type :=
  DirectedGraph -> DirectedGraph * (GraphError + A).

Definition ret {A} (a : A) : M A := fun g => (g, inr a).
Definition throw {A} (e : GraphError) : M A := fun g => (g, inl e).
Definition bind {A B} (c : M A) (k : A -> M B) : M B :=
  fun g => match c g with
           | (g', inl e) => (g', inl e)
           | (g', inr a) => k a g'
           end.
Definition this : M DirectedGraph := fun g => (g, inr g).
Definition modify (f : DirectedGraph -> DirectedGraph) : M unit :=
  fun g => (f g, inr tt).
Definition when (b : bool) (c : M unit) : M unit :=
  if b then c else ret tt.

Notation "x <- c ;; k" := (bind c (fun x => k))
  (at level 61, c at next level, right associativity).
Notation "c ;;; k" := (bind c (fun _ => k))
  (at level 61, right associativity).

(** Field assignments. *)
Definition set_nodes v g := {|
  nodes := v; edges := edges g; adjacencyList := adjacencyList g;
  reverseAdjacencyList := reverseAdjacencyList g; edgeIndex := edgeIndex g;
  nextEdgeId := nextEdgeId g; options := options g |}.
Definition set_edges v g := {|
  nodes := nodes g; edges := v; adjacencyList := adjacencyList g;
  reverseAdjacencyList := reverseAdjacencyList g; edgeIndex := edgeIndex g;
  nextEdgeId := nextEdgeId g; options := options g |}.
Definition set_adjacencyList v g := {|
  nodes := nodes g; edges := edges g; adjacencyList := v;
  reverseAdjacencyList := reverseAdjacencyList g; edgeIndex := edgeIndex g;
  nextEdgeId := nextEdgeId g; options := options g |}.
Definition set_reverseAdjacencyList v g := {|
  nodes := nodes g; edges := edges g; adjacencyList := adjacencyList g;
  reverseAdjacencyList := v; edgeIndex := edgeIndex g;
  nextEdgeId := nextEdgeId g; options := options g |}.
Definition set_edgeIndex v g := {|
  nodes := nodes g; edges := edges g; adjacencyList := adjacencyList g;
  reverseAdjacencyList := reverseAdjacencyList g; edgeIndex := v;
  nextEdgeId := nextEdgeId g; options := options g |}.
Definition set_nextEdgeId v g := {|
  nodes := nodes g; edges := edges g; adjacencyList := adjacencyList g;
  reverseAdjacencyList := reverseAdjacencyList g; edgeIndex := edgeIndex g;
  nextEdgeId := v; options := options g |}.

(** [getEdgeKey]: [`${from.length}:${from}|${to.length}:${to}`]. *)
Definition getEdgeKey (from to : NodeId) : string :=
  (num_to_string (String.length from) +++ ":" +++ from +++ "|" +++
   num_to_string (String.length to) +++ ":" +++ to)%string.

(** [addNode] *)
Definition addNode (id : NodeId) (metadata : option NodeMeta) : M unit :=
  g <- this ;;
  if JsMap.has id (nodes g) then throw (NodeAlreadyExists id)
  else
    modify (fun g => set_nodes
      (JsMap.set id {| node_id := id; node_metadata := metadata |} (nodes g)) g) ;;;
    modify (fun g => set_adjacencyList
      (JsMap.set id JsSet.empty (adjacencyList g)) g) ;;;
    modify (fun g => set_reverseAdjacencyList
      (JsMap.set id JsSet.empty (reverseAdjacencyList g)) g).

(** [validateEdgeInvariants]; [m.get(k)?.has(x)] is falsy on a missing
    bucket. *)
Definition validateEdgeInvariants (from to : NodeId) : M unit :=
  g <- this ;;
  if negb (match JsMap.get from (adjacencyList g) with
           | Some s => JsSet.has to s | None => false end)
  then throw (InvariantAdjacency from to)
  else if negb (match JsMap.get to (reverseAdjacencyList g) with
                | Some s => JsSet.has from s | None => false end)
  then throw (InvariantReverseAdjacency from to)
  else ret tt.

(** [addEdge] *)
Definition addEdge (from to : NodeId) (metadata : option EdgeMeta) : M EdgeId :=
  g <- this ;;
  if negb (JsMap.has from (nodes g)) then throw (SourceNodeMissing from)
  else if negb (JsMap.has to (nodes g)) then throw (TargetNodeMissing to)
  else if negb (allowSelfLoops (options g)) && keqb from to
  then throw (SelfLoopNotAllowed from to)
  else
    let edgeKey := getEdgeKey from to in
    if negb (allowMultiEdges (options g)) && JsMap.has edgeKey (edgeIndex g)
    then throw (EdgeAlreadyExists edgeKey)
    else
      edgeId <- (if allowMultiEdges (options g)
                 then (* `${edgeKey}#${this.nextEdgeId++}` *)
                   modify (fun g' => set_nextEdgeId (S (nextEdgeId g')) g') ;;;
                   ret (edgeKey +++ "#" +++ num_to_string (nextEdgeId g))%string
                 else ret edgeKey) ;;
      let edge := {| edge_id := edgeId; edge_from := from; edge_to := to;
                     edge_metadata := metadata |} in
      modify (fun g => set_edges (JsMap.set edgeId edge (edges g)) g) ;;;
      (* the bucket is created when missing, then receives the edge id *)
      modify (fun g => set_edgeIndex
        (JsMap.set edgeKey
           (JsSet.add edgeId (JsMap.get edgeKey (edgeIndex g) ?? JsSet.empty))
           (edgeIndex g)) g) ;;;
      modify (fun g =>
        match JsMap.get from (adjacencyList g) with
        | Some fromAdj =>
            set_adjacencyList
              (JsMap.set from (JsSet.add to fromAdj) (adjacencyList g)) g
        | None => g
        end) ;;;
      modify (fun g =>
        match JsMap.get to (reverseAdjacencyList g) with
        | Some toRev =>
            set_reverseAdjacencyList
              (JsMap.set to (JsSet.add from toRev) (reverseAdjacencyList g)) g
        | None => g
        end) ;;;
      when (validateOnConstruction (options g))
           (validateEdgeInvariants from to) ;;;
      ret edgeId.

(** [clear] *)
Definition clear : M unit :=
  modify (fun g => {|
    nodes := JsMap.empty; edges := JsMap.empty;
    adjacencyList := JsMap.empty; reverseAdjacencyList := JsMap.empty;
    edgeIndex := JsMap.empty; nextEdgeId := 0; options := options g |}).

(** Read-only accessors. *)
Definition getNodes (g : DirectedGraph) : list (Node NodeMeta) :=
  JsMap.values (nodes g).
Definition getEdges (g : DirectedGraph) : list (Edge EdgeMeta) :=
  JsMap.values (edges g).
Definition getSuccessors (g : DirectedGraph) (nodeId : NodeId) : list NodeId :=
  JsMap.get nodeId (adjacencyList g) ?? [].
Definition getPredecessors (g : DirectedGraph) (nodeId : NodeId) : list NodeId :=
  JsMap.get nodeId (reverseAdjacencyList g) ?? [].
Definition hasNode (g : DirectedGraph) (nodeId : NodeId) : bool :=
  JsMap.has nodeId (nodes g).
Definition hasEdge (g : DirectedGraph) (from to : NodeId) : bool :=
  match JsMap.get (getEdgeKey from to) (edgeIndex g) with
  | Some es => 0 <? JsSet.size es
  | None => false
  end.
Definition getEdgeIdsBetween (g : DirectedGraph) (from to : NodeId) : list EdgeId :=
  JsMap.get (getEdgeKey from to) (edgeIndex g) ?? [].

(** *** [findSCCs]: Tarjan's algorithm *)

Record TarjanState := {
  sccs : list SCC;
  index : JsMap NodeId nat;
  lowlink : JsMap NodeId nat;
  onStack : JsSet NodeId;
  stack : list NodeId;   (* the array's last element is the list's head *)
  currentIndex : nat
}.

(** [lowlink.set(nodeId, Math.min(lowlink.get(nodeId)!, other!))];
    [Math.min] of an undefined operand is outside the model. *)
Definition lowlinkMin (nodeId : NodeId) (other : option nat) (st : TarjanState)
  : option TarjanState :=
  match JsMap.get nodeId (lowlink st), other with
  | Some a, Some b =>
      Some {| sccs := sccs st; index := index st;
              lowlink := JsMap.set nodeId (Nat.min a b) (lowlink st);
              onStack := onStack st; stack := stack st;
              currentIndex := currentIndex st |}
  | _, _ => None
  end.

(** [do { w = stack.pop()!; onStack.delete(w); sccNodes.push(w); }
     while (w !== nodeId);]
    On an exhausted stack [pop] yields [undefined] for ever: no result. *)
Fixpoint popComponent (nodeId : NodeId) (stack : list NodeId)
    (onStack : JsSet NodeId) (sccNodes : list NodeId)
  : option (list NodeId * JsSet NodeId * list NodeId) :=
  match stack with
  | [] => None
  | w :: stack' =>
      let onStack' := JsSet.delete w onStack in
      let sccNodes' := sccNodes ++ [w] in
      if keqb w nodeId then Some (stack', onStack', sccNodes')
      else popComponent nodeId stack' onStack' sccNodes'
  end.

(** [index.set(nodeId, currentIndex); lowlink.set(nodeId, currentIndex);
     currentIndex++; stack.push(nodeId); onStack.add(nodeId);] *)
Definition pushNode (nodeId : NodeId) (st : TarjanState) : TarjanState :=
  {| sccs := sccs st;
     index := JsMap.set nodeId (currentIndex st) (index st);
     lowlink := JsMap.set nodeId (currentIndex st) (lowlink st);
     onStack := JsSet.add nodeId (onStack st);
     stack := nodeId :: stack st;
     currentIndex := S (currentIndex st) |}.

(** The body of [for (const successor of successors)]; [recurse] is the
    recursive call [strongConnect(successor)]. *)
Definition visitSuccessor
    (recurse : NodeId -> TarjanState -> option TarjanState)
    (nodeId : NodeId) (st : TarjanState) (successor : NodeId)
  : option TarjanState :=
  if negb (JsMap.has successor (index st)) then
    match recurse successor st with
    | Some st => lowlinkMin nodeId (JsMap.get successor (lowlink st)) st
    | None => None
    end
  else if JsSet.has successor (onStack st) then
    lowlinkMin nodeId (JsMap.get successor (index st)) st
  else Some st.

(** [if (lowlink.get(nodeId) === index.get(nodeId)) { pop the component;
     sccs.push({ id: sccs.length, nodes: sccNodes, isAcyclic: ... }); }] *)
Definition closeComponent (g : DirectedGraph) (nodeId : NodeId)
    (st : TarjanState) : option TarjanState :=
  if optNatEqb (JsMap.get nodeId (lowlink st)) (JsMap.get nodeId (index st))
  then
    match popComponent nodeId (stack st) (onStack st) [] with
    | None => None
    | Some (stack', onStack', sccNodes) =>
        Some {| sccs := sccs st ++
                  [{| scc_id := length (sccs st);
                      scc_nodes := sccNodes;
                      isAcyclic := (length sccNodes =? 1)
                                   && negb (hasEdge g nodeId nodeId) |}];
                index := index st; lowlink := lowlink st;
                onStack := onStack'; stack := stack';
                currentIndex := currentIndex st |}
    end
  else Some st.

Fixpoint strongConnect (g : DirectedGraph) (fuel : nat) (nodeId : NodeId)
    (st : TarjanState) : option TarjanState :=
  match fuel with
  | 0 => None
  | S fuel' =>
      match forEachM (visitSuccessor (strongConnect g fuel') nodeId)
              (getSuccessors g nodeId) (pushNode nodeId st) with
      | None => None
      | Some st => closeComponent g nodeId st
      end
  end.

Definition tarjanInit : TarjanState :=
  {| sccs := []; index := JsMap.empty; lowlink := JsMap.empty;
     onStack := JsSet.empty; stack := []; currentIndex := 0 |}.

Definition findSCCs (fuel : nat) (g : DirectedGraph) : option (list SCC) :=
  option_map sccs
    (forEachM (fun st nodeId =>
       if negb (JsMap.has nodeId (index st)) then strongConnect g fuel nodeId st
       else Some st)
     (JsMap.keys (nodes g)) tarjanInit).

(** *** [topologicalSort]: Kahn's algorithm *)

Definition topoInDegree (g : DirectedGraph) : JsMap NodeId Z :=
  fold_left (fun inDegree nodeId =>
    JsMap.set nodeId
      (Z.of_nat (option_map JsSet.size
                   (JsMap.get nodeId (reverseAdjacencyList g)) ?? 0))
      inDegree)
    (JsMap.keys (nodes g)) JsMap.empty.

Definition topologicalSort (fuel : nat) (g : DirectedGraph)
  : option (option (list NodeId)) :=
  let inDegree := topoInDegree g in
  match kahnLoop fuel (fun u => JsMap.get u (adjacencyList g) ?? [])
          {| inDegree := inDegree; queue := kahnSeeds inDegree;
             head := 0; result := [] |} with
  | None => None
  | Some st =>
      Some (if length (result st) =? JsMap.size (nodes g)
            then Some (result st) else None)
  end.

(** *** [classifyEdges]: depth-first search with timestamps *)

Record ClassifyState := {
  type : JsMap EdgeId EdgeType;
  disc : JsMap NodeId nat;
  fini : JsMap NodeId nat;
  parent : JsMap NodeId (option NodeId);   (* [NodeId | null] *)
  onStackC : JsSet NodeId;                 (* the method's own [onStack] *)
  time : nat
}.

Definition set_type v st := {|
  type := v; disc := disc st; fini := fini st; parent := parent st;
  onStackC := onStackC st; time := time st |}.
Definition set_parent v st := {|
  type := type st; disc := disc st; fini := fini st; parent := v;
  onStackC := onStackC st; time := time st |}.

(** [parent.get(x) ?? null] *)
Definition parentOf (st : ClassifyState) (x : NodeId) : option NodeId :=
  JsMap.get x (parent st) ?? None.

(** [a < b] on possibly undefined numbers: false when an operand is
    undefined. *)
Definition ltNum (a b : option nat) : bool :=
  match a, b with Some x, Some y => x <? y | _, _ => false end.

(** [(a ?? Infinity) < (b ?? Infinity)] *)
Definition ltInf (a b : option nat) : bool :=
  match a, b with
  | Some x, Some y => x <? y
  | Some _, None => true
  | None, _ => false
  end.

(** [while (ancestor !== null) { if (ancestor === u) {...; break;}
     ancestor = parent.get(ancestor) ?? null; }] *)
Fixpoint ancestorWalk (fuel : nat) (st : ClassifyState) (u : NodeId)
    (ancestor : option NodeId) : option bool :=
  match fuel with
  | 0 => None
  | S fuel' =>
      match ancestor with
      | None => Some false
      | Some a => if keqb a u then Some true
                  else ancestorWalk fuel' st u (parentOf st a)
      end
  end.

Definition classifyNonTree (fuel : nat) (u v : NodeId) (eid : EdgeId)
    (st : ClassifyState) : option ClassifyState :=
  if JsSet.has v (onStackC st) then
    Some (set_type (JsMap.set eid back (type st)) st)
  else
    let du := JsMap.get u (disc st) in
    let dv := JsMap.get v (disc st) in
    let fu := JsMap.get u (fini st) in
    let fv := JsMap.get v (fini st) in
    if ltNum du dv && ltInf fv fu then
      Some (set_type (JsMap.set eid forward (type st)) st)
    else
      match ancestorWalk fuel st u (parentOf st v) with
      | None => None
      | Some isDescendant =>
          Some (set_type
                  (JsMap.set eid (if isDescendant then forward else cross)
                     (type st)) st)
      end.

(** [disc.set(u, time++); onStack.add(u);
     parent.set(u, parent.get(u) ?? null);] *)
Definition discover (u : NodeId) (st : ClassifyState) : ClassifyState :=
  {| type := type st;
     disc := JsMap.set u (time st) (disc st);
     fini := fini st;
     parent := JsMap.set u (parentOf st u) (parent st);
     onStackC := JsSet.add u (onStackC st);
     time := S (time st) |}.

(** [onStack.delete(u); fini.set(u, time++);] *)
Definition finish (u : NodeId) (st : ClassifyState) : ClassifyState :=
  {| type := type st; disc := disc st;
     fini := JsMap.set u (time st) (fini st);
     parent := parent st;
     onStackC := JsSet.delete u (onStackC st);
     time := S (time st) |}.

(** The body of [for (const v of this.adjacencyList.get(u) ?? [])];
    [recurse] is the recursive call [dfs(v)]. *)
Definition classifyArc
    (recurse : NodeId -> ClassifyState -> option ClassifyState)
    (g : DirectedGraph) (walkFuel : nat) (u : NodeId)
    (st : ClassifyState) (v : NodeId) : option ClassifyState :=
  match getEdgeIdsBetween g u v with
  | [] => Some st                                   (* defensive *)
  | first :: rest =>
      if negb (JsMap.has v (disc st)) then
        let st := set_type (JsMap.set first tree (type st)) st in
        let st := set_parent (JsMap.set v (Some u) (parent st)) st in
        match recurse v st with
        | None => None
        | Some st =>
            forEachM (fun st eid => classifyNonTree walkFuel u v eid st)
              rest st
        end
      else
        forEachM (fun st eid => classifyNonTree walkFuel u v eid st)
          (first :: rest) st
  end.

Fixpoint dfsClassify (g : DirectedGraph) (walkFuel fuel : nat) (u : NodeId)
    (st : ClassifyState) : option ClassifyState :=
  match fuel with
  | 0 => None
  | S fuel' =>
      match forEachM (classifyArc (dfsClassify g walkFuel fuel') g walkFuel u)
              (JsMap.get u (adjacencyList g) ?? []) (discover u st) with
      | None => None
      | Some st => Some (finish u st)
      end
  end.

Definition classifyInit : ClassifyState :=
  {| type := JsMap.empty; disc := JsMap.empty; fini := JsMap.empty;
     parent := JsMap.empty; onStackC := JsSet.empty; time := 0 |}.

Definition edgeTypeIsCross (t : option EdgeType) : bool :=
  match t with Some cross => true | _ => false end.
Definition edgeTypeIsBack (t : option EdgeType) : bool :=
  match t with Some back => true | _ => false end.

Definition classifyEdges (fuel : nat) (g : DirectedGraph)
  : option (JsMap EdgeId EdgeType) :=
  match
    forEachM (fun st u =>
      if negb (JsMap.has u (disc st)) then dfsClassify g fuel fuel u st
      else Some st)
    (JsMap.keys (nodes g)) classifyInit
  with
  | None => None
  | Some st =>
      option_map type
        (forEachM (fun st edge =>
           if edgeTypeIsCross (JsMap.get (edge_id edge) (type st)) then
             classifyNonTree fuel (edge_from edge) (edge_to edge)
               (edge_id edge) st
           else Some st)
         (JsMap.values (edges g)) st)
  end.

(** *** [buildCondensationGraph] *)

Record Precomputed := {
  pre_sccs : option (list SCC);
  pre_edgeClassifications : option (JsMap EdgeId EdgeType)
}.

(** The component objects live in the [components] array; [componentById]
    refers to the same objects, here by their position in the array. *)
Record CondState := {
  comps : list (CondensationComponent EdgeMeta);
  compAdj : JsMap nat (JsSet nat);
  indeg : JsMap nat Z
}.

Definition pushInternal (e : Edge EdgeMeta) (c : CondensationComponent EdgeMeta) :=
  {| cc_id := cc_id c; members := members c; isLoop := isLoop c;
     entryEdges := entryEdges c; exitEdges := exitEdges c;
     internalEdges := internalEdges c ++ [e];
     feedbackEdges := feedbackEdges c |}.
Definition pushFeedback (e : Edge EdgeMeta) (c : CondensationComponent EdgeMeta) :=
  {| cc_id := cc_id c; members := members c; isLoop := isLoop c;
     entryEdges := entryEdges c; exitEdges := exitEdges c;
     internalEdges := internalEdges c;
     feedbackEdges := feedbackEdges c ++ [e] |}.
Definition pushExit (e : Edge EdgeMeta) (c : CondensationComponent EdgeMeta) :=
  {| cc_id := cc_id c; members := members c; isLoop := isLoop c;
     entryEdges := entryEdges c; exitEdges := exitEdges c ++ [e];
     internalEdges := internalEdges c;
     feedbackEdges := feedbackEdges c |}.
Definition pushEntry (e : Edge EdgeMeta) (c : CondensationComponent EdgeMeta) :=
  {| cc_id := cc_id c; members := members c; isLoop := isLoop c;
     entryEdges := entryEdges c ++ [e]; exitEdges := exitEdges c;
     internalEdges := internalEdges c;
     feedbackEdges := feedbackEdges c |}.

(** [for (const scc of sccs) for (const n of scc.nodes)
     componentMap.set(n, scc.id);] *)
Definition buildComponentMap (sccs : list SCC) : JsMap NodeId nat :=
  fold_left (fun m scc =>
    fold_left (fun m n => JsMap.set n (scc_id scc) m) (scc_nodes scc) m)
    sccs JsMap.empty.

Definition initialComponents (sccs : list SCC)
  : list (CondensationComponent EdgeMeta) :=
  map (fun scc =>
    {| cc_id := scc_id scc; members := scc_nodes scc;
       isLoop := negb (isAcyclic scc);
       entryEdges := []; exitEdges := []; internalEdges := [];
       feedbackEdges := [] |}) sccs.

Definition buildComponentById (cs : list (CondensationComponent EdgeMeta))
  : JsMap nat nat :=
  fold_left (fun m ic => JsMap.set (cc_id (snd ic)) (fst ic) m)
    (combine (seq 0 (length cs)) cs) JsMap.empty.

(** The body of the single pass over [this.edges.values()]. *)
Definition condenseEdge (componentMap : JsMap NodeId nat)
    (componentById : JsMap nat nat) (edgeClass : JsMap EdgeId EdgeType)
    (st : CondState) (edge : Edge EdgeMeta) : GraphError + CondState :=
  match JsMap.get (edge_from edge) componentMap,
        JsMap.get (edge_to edge) componentMap with
  | Some cf, Some ct =>
      match JsMap.get cf componentById, JsMap.get ct componentById with
      | Some fromComponent, Some toComponent =>
          if cf =? ct then
            let cs := updateAt fromComponent (pushInternal edge) (comps st) in
            let cs := if edgeTypeIsBack (JsMap.get (edge_id edge) edgeClass)
                      then updateAt fromComponent (pushFeedback edge) cs
                      else cs in
            inr {| comps := cs; compAdj := compAdj st; indeg := indeg st |}
          else
            let cs := updateAt fromComponent (pushExit edge) (comps st) in
            let cs := updateAt toComponent (pushEntry edge) cs in
            match JsMap.get cf (compAdj st) with
            | None => inl TypeErrorUndefined           (* [compAdj.get(cf)!] *)
            | Some out =>
                if negb (JsSet.has ct out) then
                  inr {| comps := cs;
                         compAdj := JsMap.set cf (JsSet.add ct out) (compAdj st);
                         indeg := JsMap.set ct
                                    ((JsMap.get ct (indeg st) ?? 0) + 1)%Z
                                    (indeg st) |}
                else
                  inr {| comps := cs; compAdj := compAdj st; indeg := indeg st |}
            end
      | _, _ => inl CondensationLookupFailed
      end
  | _, _ => inl CondensationMissingMapping
  end.

Definition condenseInit (cs : list (CondensationComponent EdgeMeta)) : CondState :=
  fold_left (fun st c =>
    {| comps := comps st;
       compAdj := JsMap.set (cc_id c) JsSet.empty (compAdj st);
       indeg := JsMap.set (cc_id c) 0%Z (indeg st) |})
    cs {| comps := cs; compAdj := JsMap.empty; indeg := JsMap.empty |}.

(** The method's body once [sccs] and [edgeClass] are at hand. *)
Definition condense (fuel : nat) (g : DirectedGraph) (sccs : list SCC)
    (edgeClass : JsMap EdgeId EdgeType)
  : option (GraphError + CondensationGraph EdgeMeta) :=
  let componentMap := buildComponentMap sccs in
  let components := initialComponents sccs in
  let componentById := buildComponentById components in
  match forEachE (condenseEdge componentMap componentById edgeClass)
          (JsMap.values (edges g)) (condenseInit components) with
  | inl e => Some (inl e)
  | inr st =>
      match kahnLoopStrict TypeErrorUndefined fuel
              (fun c => JsMap.get c (compAdj st))
              {| inDegree := indeg st; queue := kahnSeeds (indeg st);
                 head := 0; result := [] |} with
      | None => None
      | Some (inl e) => Some (inl e)
      | Some (inr k) =>
          Some (inr {| components := comps st;
                       componentMap := componentMap;
                       topologicalOrder := result k |})
      end
  end.

(** [precomputed?.sccs ?? this.findSCCs()] and
    [precomputed?.edgeClassifications ?? this.classifyEdges()]. *)
Definition buildCondensationGraph (fuel : nat) (g : DirectedGraph)
    (precomputed : option Precomputed)
  : option (GraphError + CondensationGraph EdgeMeta) :=
  match (match precomputed with
         | Some p => match pre_sccs p with
                     | Some s => Some s | None => findSCCs fuel g end
         | None => findSCCs fuel g
         end) with
  | None => None
  | Some sccs =>
      match (match precomputed with
             | Some p => match pre_edgeClassifications p with
                         | Some c => Some c | None => classifyEdges fuel g end
             | None => classifyEdges fuel g
             end) with
      | None => None
      | Some edgeClass => condense fuel g sccs edgeClass
      end
  end.

(** *** [getSuccessorsStrict], [getPredecessorsStrict] *)

(** [Array.from(m.get(nodeId)!)] throws a [TypeError] on a missing bucket. *)
Definition getSuccessorsStrict (g : DirectedGraph) (nodeId : NodeId)
  : GraphError + list NodeId :=
  if negb (JsMap.has nodeId (nodes g)) then inl (UnknownNode nodeId)
  else match JsMap.get nodeId (adjacencyList g) with
       | Some s => inr s
       | None => inl TypeErrorUndefined
       end.

Definition getPredecessorsStrict (g : DirectedGraph) (nodeId : NodeId)
  : GraphError + list NodeId :=
  if negb (JsMap.has nodeId (nodes g)) then inl (UnknownNode nodeId)
  else match JsMap.get nodeId (reverseAdjacencyList g) with
       | Some s => inr s
       | None => inl TypeErrorUndefined
       end.

(** *** [findCycles] *)

(** The body of [for (const edgeId of edgeIds)]; the state is
    [(cycleEdges, backEdges)]. *)
Definition collectEdge (g : DirectedGraph) (edgeClass : JsMap EdgeId EdgeType)
    (acc : list EdgeId * list EdgeId) (edgeId : EdgeId)
  : list EdgeId * list EdgeId :=
  match JsMap.get edgeId (edges g) with
  | None => acc                                         (* [continue] *)
  | Some edge =>
      (fst acc ++ [edge_id edge],
       if edgeTypeIsBack (JsMap.get (edge_id edge) edgeClass)
       then snd acc ++ [edge_id edge] else snd acc)
  end.

(** The two nested loops over [scc.nodes] and the successors of each. *)
Definition collectCycleEdges (g : DirectedGraph)
    (edgeClass : JsMap EdgeId EdgeType) (scc : SCC)
  : list EdgeId * list EdgeId :=
  fold_left (fun acc nodeId =>
    fold_left (fun acc successor =>
      if existsb (keqb successor) (scc_nodes scc)      (* [includes] *)
      then fold_left (collectEdge g edgeClass)
             (getEdgeIdsBetween g nodeId successor) acc
      else acc)
      (getSuccessors g nodeId) acc)
    (scc_nodes scc) ([], []).

(** The loop over [sccs] once both inputs are at hand. *)
Definition findCyclesIn (g : DirectedGraph) (sccs : list SCC)
    (edgeClass : JsMap EdgeId EdgeType) : list Cycle :=
  fold_left (fun cycles scc =>
    if isAcyclic scc then cycles                         (* [continue] *)
    else
      let acc := collectCycleEdges g edgeClass scc in
      cycles ++ [{| cycle_nodes := scc_nodes scc;
                    cycle_edges := fst acc;
                    cycle_backEdges := snd acc |}])
    sccs [].

(** [precomputed?.edgeClassifications ?? this.classifyEdges()] first, then
    [precomputed?.sccs ?? this.findSCCs()]. *)
Definition findCycles (fuel : nat) (g : DirectedGraph)
    (precomputed : option Precomputed) : option (list Cycle) :=
  match (match precomputed with
         | Some p => match pre_edgeClassifications p with
                     | Some c => Some c | None => classifyEdges fuel g end
         | None => classifyEdges fuel g
         end) with
  | None => None
  | Some edgeClass =>
      match (match precomputed with
             | Some p => match pre_sccs p with
                         | Some s => Some s | None => findSCCs fuel g end
             | None => findSCCs fuel g
             end) with
      | None => None
      | Some sccs => Some (findCyclesIn g sccs edgeClass)
      end
  end.

(** *** [analyze] *)

Definition analyze (fuel : nat) (g : DirectedGraph)
  : option (GraphError + GraphAnalysis EdgeMeta) :=
  match findSCCs fuel g with
  | None => None
  | Some sccs =>
  match classifyEdges fuel g with
  | None => None
  | Some edgeClassifications =>
  let pre := Some {| pre_sccs := Some sccs;
                     pre_edgeClassifications := Some edgeClassifications |} in
  match findCycles fuel g pre with
  | None => None
  | Some cycles =>
  match topologicalSort fuel g with
  | None => None
  | Some topologicalOrder =>
  let isAcyclic := match topologicalOrder with
                   | Some _ => true | None => false end in
  match buildCondensationGraph fuel g pre with
  | None => None
  | Some (inl e) => Some (inl e)
  | Some (inr condensationGraph) =>
      Some (inr {| ga_nodeCount := JsMap.size (nodes g);
                   ga_edgeCount := JsMap.size (edges g);
                   ga_isAcyclic := isAcyclic;
                   ga_sccs := sccs;
                   ga_cycles := cycles;
                   ga_topologicalOrder := topologicalOrder;
                   ga_condensationGraph := Some condensationGraph;
                   ga_edgeClassifications := edgeClassifications |})
  end end end end end.

End Engine.

Arguments DirectedGraph : clear implicits.

(** ** [algorithms.ts] *)

Section Algorithms.
(** The caller's successor lookup, a pure function. *)
Variable getSuccessors : NodeId -> list NodeId.

(** *** [isReachable] *)

(** The [for] loop over the successors of one vertex; [inl tt] is the
    early [return true]. *)
Fixpoint reachScan (to : NodeId) (vs : list NodeId)
    (seen : JsSet NodeId) (q : list NodeId)
  : unit + (JsSet NodeId * list NodeId) :=
  match vs with
  | [] => inr (seen, q)
  | v :: vs' =>
      if JsSet.has v seen then reachScan to vs' seen q
      else if keqb v to then inl tt
      else reachScan to vs' (JsSet.add v seen) (q ++ [v])
  end.

Fixpoint reachLoop (fuel : nat) (to : NodeId)
    (seen : JsSet NodeId) (q : list NodeId) (head : nat) : option bool :=
  match fuel with
  | 0 => None
  | S fuel' =>
      match nth_error q head with
      | None => Some false
      | Some u =>
          match reachScan to (getSuccessors u) seen q with
          | inl _ => Some true
          | inr (seen', q') => reachLoop fuel' to seen' q' (S head)
          end
      end
  end.

Definition isReachable (fuel : nat) (from to : NodeId) : option bool :=
  if keqb from to then Some true
  else reachLoop fuel to [from] [from] 0.

(** *** [shortestPath] *)

(** [while (cur !== undefined) { path.unshift(cur); cur = parent.get(cur); }] *)
Fixpoint reconstruct (fuel : nat) (parent : JsMap NodeId NodeId)
    (cur : option NodeId) (path : list NodeId) : option (list NodeId) :=
  match fuel with
  | 0 => None
  | S fuel' =>
      match cur with
      | None => Some path
      | Some c => reconstruct fuel' parent (JsMap.get c parent) (c :: path)
      end
  end.

(** The [for] loop over the successors of [u]; [inl parent] is the point
    where [v === to] and the path is rebuilt from [parent]. *)
Fixpoint pathScan (to u : NodeId) (vs : list NodeId)
    (seen : JsSet NodeId) (parent : JsMap NodeId NodeId) (q : list NodeId)
  : JsMap NodeId NodeId + (JsSet NodeId * JsMap NodeId NodeId * list NodeId) :=
  match vs with
  | [] => inr (seen, parent, q)
  | v :: vs' =>
      if JsSet.has v seen then pathScan to u vs' seen parent q
      else
        let seen' := JsSet.add v seen in
        let parent' := JsMap.set v u parent in
        if keqb v to then inl parent'
        else pathScan to u vs' seen' parent' (q ++ [v])
  end.

Fixpoint pathLoop (fuel : nat) (to : NodeId)
    (seen : JsSet NodeId) (parent : JsMap NodeId NodeId)
    (q : list NodeId) (head : nat) : option (option (list NodeId)) :=
  match fuel with
  | 0 => None
  | S fuel' =>
      match nth_error q head with
      | None => Some None
      | Some u =>
          match pathScan to u (getSuccessors u) seen parent q with
          | inl parent' =>
              option_map Some (reconstruct fuel' parent' (Some to) [])
          | inr (seen', parent', q') =>
              pathLoop fuel' to seen' parent' q' (S head)
          end
      end
  end.

Definition shortestPath (fuel : nat) (from to : NodeId)
  : option (option (list NodeId)) :=
  if keqb from to then Some (Some [from])
  else pathLoop fuel to [from] JsMap.empty [from] 0.

(** *** [findAllPaths] *)

Inductive AlgoError :=
| MaxDepthNegative
| OrderUndefinedEntry
| OrderSizeMismatch
| OrderMissingNodes
| OrderEdgeBackward
| NotIterable.

(** The inner [dfs(u, path, depth)].  It is only ever called with
    [depth <= maxDepth + 1], and the recursion is on
    [remaining = maxDepth + 1 - depth]: [remaining = 0] is the test
    [depth > maxDepth].  The state is [(paths, visited)]. *)
Fixpoint allPathsDfs (remaining : nat) (to u : NodeId) (path : list NodeId)
    (st : list (list NodeId) * JsSet NodeId)
  : list (list NodeId) * JsSet NodeId :=
  match remaining with
  | 0 => st
  | S remaining' =>
      if keqb u to then (fst st ++ [path], snd st)
      else
        fold_left (fun st v =>
          if JsSet.has v (snd st) then st
          else
            let st' := allPathsDfs remaining' to v (path ++ [v])
                         (fst st, JsSet.add v (snd st)) in
            (fst st', JsSet.delete v (snd st')))
          (getSuccessors u) st
  end.

Definition findAllPaths (from to : NodeId) (maxDepth : Z)
  : AlgoError + list (list NodeId) :=
  if (maxDepth <? 0)%Z then inl MaxDepthNegative
  else inr (fst (allPathsDfs (S (Z.to_nat maxDepth)) to from [from] ([], [from]))).

(** *** [transitiveClosure] *)

(** The [for] loop over the successors of one vertex; the state is
    [(seen, reach, q)]. *)
Fixpoint closureScan (vs : list NodeId)
    (st : JsSet NodeId * JsSet NodeId * list NodeId)
  : JsSet NodeId * JsSet NodeId * list NodeId :=
  match vs with
  | [] => st
  | v :: vs' =>
      let '(seen, reach, q) := st in
      if JsSet.has v seen then closureScan vs' st
      else closureScan vs' (JsSet.add v seen, JsSet.add v reach, q ++ [v])
  end.

Fixpoint closureLoop (fuel : nat)
    (st : JsSet NodeId * JsSet NodeId * list NodeId) (head : nat)
  : option (JsSet NodeId) :=
  match fuel with
  | 0 => None
  | S fuel' =>
      let '(seen, reach, q) := st in
      match nth_error q head with
      | None => Some reach
      | Some u => closureLoop fuel' (closureScan (getSuccessors u) st) (S head)
      end
  end.

Definition transitiveClosure (fuel : nat) (nodes : list NodeId)
  : option (JsMap NodeId (JsSet NodeId)) :=
  forEachM (fun closure s =>
    match closureLoop fuel ([s], JsSet.empty, [s]) 0 with
    | None => None
    | Some reach => Some (JsMap.set s reach closure)
    end) nodes JsMap.empty.

(** *** [longestPathDAG] *)

(** The first loop: [pos.set(node, i)], throwing on an undefined entry. *)
Fixpoint orderPositions (order : list (option NodeId)) (i : nat)
    (pos : JsMap NodeId nat) : AlgoError + JsMap NodeId nat :=
  match order with
  | [] => inr pos
  | None :: _ => inl OrderUndefinedEntry
  | Some node :: rest => orderPositions rest (S i) (JsMap.set node i pos)
  end.

(** The check of one edge [u -> v] against [pos]. *)
Definition checkEdge (pos : JsMap NodeId nat) (u : NodeId) (_ : unit)
    (v : NodeId) : AlgoError + unit :=
  match JsMap.get u pos, JsMap.get v pos with
  | Some pu, Some pv => if pv <=? pu then inl OrderEdgeBackward else inr tt
  | _, _ => inl OrderMissingNodes
  end.

Definition checkEdges (pos : JsMap NodeId nat) (nodes : list NodeId)
  : AlgoError + unit :=
  forEachE (fun _ u => forEachE (checkEdge pos u) (getSuccessors u) tt)
    nodes tt.

(** The dynamic program over the order: the state is [(dist, parent)]. *)
Definition relax (u : NodeId) (du : nat)
    (st : JsMap NodeId nat * JsMap NodeId (option NodeId)) (v : NodeId) :=
  let cand := du + 1 in
  match JsMap.get v (fst st) with
  | Some dv =>
      if dv <? cand
      then (JsMap.set v cand (fst st), JsMap.set v (Some u) (snd st))
      else st
  | None => (JsMap.set v cand (fst st), JsMap.set v (Some u) (snd st))
  end.

Definition longestStep
    (st : JsMap NodeId nat * JsMap NodeId (option NodeId)) (u : NodeId) :=
  let st := if negb (JsMap.has u (fst st))
            then (JsMap.set u 0 (fst st), JsMap.set u None (snd st))
            else st in
  let du := JsMap.get u (fst st) ?? 0 in
  fold_left (relax u du) (getSuccessors u) st.

(** [for (const u of order) { const du = dist.get(u) ?? 0;
     if (du > best) { best = du; end = u; } }] *)
Definition pickEnd (dist : JsMap NodeId nat)
    (be : nat * option NodeId) (u : NodeId) :=
  let du := JsMap.get u dist ?? 0 in
  if fst be <? du then (du, Some u) else be.

(** [while (cur !== null) { path.unshift(cur);
     cur = parent.get(cur) ?? null; }] *)
Fixpoint unwindPath (fuel : nat) (parent : JsMap NodeId (option NodeId))
    (cur : option NodeId) (path : list NodeId) : option (list NodeId) :=
  match fuel with
  | 0 => None
  | S fuel' =>
      match cur with
      | None => Some path
      | Some c =>
          unwindPath fuel' parent (JsMap.get c parent ?? None) (c :: path)
      end
  end.

(** Entries of the order after validation (none is undefined). *)
Definition definedEntries (order : list (option NodeId)) : list NodeId :=
  flat_map (fun o => match o with Some x => [x] | None => [] end) order.

Record LongestPath := { lp_length : nat; lp_path : list NodeId }.

Definition longestPathDAG (fuel : nat) (nodes : list NodeId)
    (topologicalOrder : list (option NodeId))
  : option (AlgoError + LongestPath) :=
  match orderPositions topologicalOrder 0 JsMap.empty with
  | inl e => Some (inl e)
  | inr pos =>
      if negb (JsMap.size pos =? length nodes) then Some (inl OrderSizeMismatch)
      else
        match checkEdges pos nodes with
        | inl e => Some (inl e)
        | inr _ =>
            let order := definedEntries topologicalOrder in
            let '(dist, parent) :=
              fold_left longestStep order (JsMap.empty, JsMap.empty) in
            let end0 := hd_error order in
            let best0 := match end0 with
                         | Some e => JsMap.get e dist ?? 0
                         | None => 0
                         end in
            let '(best, end_) := fold_left (pickEnd dist) order (best0, end0) in
            match unwindPath fuel parent end_ [] with
            | None => None
            | Some path => Some (inr {| lp_length := best; lp_path := path |})
            end
        end
  end.

(** *** [isBipartite] *)

Record Bipartite := {
  bip_isBipartite : bool;
  bip_partition : option (JsSet NodeId * JsSet NodeId)
}.

(** [neighbors.get(u)!.add(v); neighbors.get(v)?.add(u);
     if (u === v) return { isBipartite: false };]
    [inl tt] is the early return. *)
Definition addNeighbor (k x : NodeId) (m : JsMap NodeId (JsSet NodeId)) :=
  match JsMap.get k m with
  | Some s => JsMap.set k (JsSet.add x s) m
  | None => m
  end.

Fixpoint neighborScan (u : NodeId) (vs : list NodeId)
    (neighbors : JsMap NodeId (JsSet NodeId))
  : unit + JsMap NodeId (JsSet NodeId) :=
  match vs with
  | [] => inr neighbors
  | v :: vs' =>
      let neighbors := addNeighbor u v neighbors in
      let neighbors := addNeighbor v u neighbors in
      if keqb u v then inl tt else neighborScan u vs' neighbors
  end.

Fixpoint buildNeighbors (nodes : list NodeId)
    (neighbors : JsMap NodeId (JsSet NodeId))
  : unit + JsMap NodeId (JsSet NodeId) :=
  match nodes with
  | [] => inr neighbors
  | u :: rest =>
      match neighborScan u (getSuccessors u) neighbors with
      | inl _ => inl tt
      | inr neighbors' => buildNeighbors rest neighbors'
      end
  end.

Record ColorState := {
  color : JsMap NodeId nat;
  setA : JsSet NodeId;
  setB : JsSet NodeId;
  bq : list NodeId
}.

(** The [for] loop over [neighbors.get(u)!]; [inl tt] is the early
    [return { isBipartite: false }]. *)
Fixpoint colorScan (cu : nat) (vs : list NodeId) (st : ColorState)
  : unit + ColorState :=
  match vs with
  | [] => inr st
  | v :: vs' =>
      match JsMap.get v (color st) with
      | None =>
          let cv := 1 - cu in
          colorScan cu vs'
            {| color := JsMap.set v cv (color st);
               setA := if cv =? 0 then JsSet.add v (setA st) else setA st;
               setB := if cv =? 0 then setB st else JsSet.add v (setB st);
               bq := bq st ++ [v] |}
      | Some c => if c =? cu then inl tt else colorScan cu vs' st
      end
  end.

(** [while (head < q.length)]: [Some (inl (inl tt))] is the early return,
    [Some (inl (inr e))] a [TypeError] on a missing neighbour bucket. *)
Fixpoint colorLoop (fuel : nat) (neighbors : JsMap NodeId (JsSet NodeId))
    (st : ColorState) (head : nat)
  : option ((unit + AlgoError) + ColorState) :=
  match fuel with
  | 0 => None
  | S fuel' =>
      match nth_error (bq st) head with
      | None => Some (inr st)
      | Some u =>
          match JsMap.get u neighbors with
          | None => Some (inl (inr NotIterable))
          | Some vs =>
              match colorScan (JsMap.get u (color st) ?? 0) vs st with
              | inl _ => Some (inl (inl tt))
              | inr st' => colorLoop fuel' neighbors st' (S head)
              end
          end
      end
  end.

(** The outer [for (const s of nodes)] of the colouring phase. *)
Fixpoint colorAll (fuel : nat) (neighbors : JsMap NodeId (JsSet NodeId))
    (nodes : list NodeId) (st : ColorState)
  : option ((unit + AlgoError) + ColorState) :=
  match nodes with
  | [] => Some (inr st)
  | s :: rest =>
      if JsMap.has s (color st) then colorAll fuel neighbors rest st
      else
        match colorLoop fuel neighbors
                {| color := JsMap.set s 0 (color st);
                   setA := JsSet.add s (setA st);
                   setB := setB st;
                   bq := [s] |} 0 with
        | None => None
        | Some (inl r) => Some (inl r)
        | Some (inr st') => colorAll fuel neighbors rest st'
        end
  end.

Definition isBipartite (fuel : nat) (nodes : list NodeId)
  : option (AlgoError + Bipartite) :=
  let neighbors :=
    fold_left (fun m u => JsMap.set u JsSet.empty m) nodes JsMap.empty in
  match buildNeighbors nodes neighbors with
  | inl _ => Some (inr {| bip_isBipartite := false; bip_partition := None |})
  | inr neighbors =>
      match colorAll fuel neighbors nodes
              {| color := JsMap.empty; setA := JsSet.empty;
                 setB := JsSet.empty; bq := [] |} with
      | None => None
      | Some (inl (inl _)) =>
          Some (inr {| bip_isBipartite := false; bip_partition := None |})
      | Some (inl (inr e)) => Some (inl e)
      | Some (inr st) =>
          Some (inr {| bip_isBipartite := true;
                       bip_partition := Some (setA st, setB st) |})
      end
  end.

End Algorithms.

(* ================================================================== *)
(** * Vocabulary of the statements                                     *)
(* ================================================================== *)

(** No character of the string is a colon. *)
Fixpoint colonFree (s : string) : Prop :=
  match s with
  | EmptyString => True
  | String c r => c <> ":"%char /\ colonFree r
  end.


(** A small engine used by the examples: nodes [A] and [B], edge [A -> B],
    built through the public operations. *)
Definition runM {NodeMeta EdgeMeta A : Type}
    (c : @M NodeMeta EdgeMeta A) (g : DirectedGraph NodeMeta EdgeMeta) :=
  fst (c g).

Definition exampleAB (multi : bool) : DirectedGraph unit unit :=
  runM (addEdge "A"%string "B"%string None)
    (runM (addNode "B"%string None)
       (runM (addNode "A"%string None)
          (constructor {| opt_allowSelfLoops := None;
                          opt_allowMultiEdges := Some multi;
                          opt_validateOnConstruction := None |}))).


(** A walk of the successor relation: every node is a successor of the one
    before it. *)
Fixpoint isWalk (succs : NodeId -> list NodeId) (p : list NodeId) : Prop :=
  match p with
  | [] => True
  | x :: r => match r with
              | [] => True
              | y :: _ => In y (succs x) /\ isWalk succs r
              end
  end.

(** [p] leads from [from] to [to] along the successor relation. *)
Definition walkFromTo (succs : NodeId -> list NodeId) (from to : NodeId)
    (p : list NodeId) : Prop :=
  isWalk succs p /\ hd_error p = Some from /\ last p from = to.

(** The number of edges of a path given by its nodes. *)
Definition edgeCount (p : list NodeId) : nat := length p - 1.

(** [d] with the value at [v] replaced by [n]. *)
Definition upd (d : NodeId -> nat) (v : NodeId) (n : nat) : NodeId -> nat :=
  fun x => if keqb x v then n else d x.

(** The invariant of the breadth-first loops of [isReachable] and
    [shortestPath].  The queue is [P ++ W] with [P] the part behind [head];
    [d] is the level at which a node was discovered (a ghost). *)
Record BfsInv (succs : NodeId -> list NodeId) (from to : NodeId)
    (d : NodeId -> nat) (seen : JsSet NodeId) (parent : JsMap NodeId NodeId)
    (P W : list NodeId) : Prop := {
  bfs_seen : forall x, In x seen <-> In x (P ++ W);
  bfs_from : In from (P ++ W) /\ d from = 0;
  bfs_sorted : StronglySorted (fun a b => d a <= d b) W;
  bfs_done_le : forall x y, In x P -> In y W -> d x <= d y;
  bfs_bound : forall u W0, W = u :: W0 ->
              forall x, In x (P ++ W) -> d x <= d u + 1;
  bfs_root : JsMap.get from parent = None;
  bfs_parent : forall v, In v (P ++ W) -> v <> from ->
               exists u, JsMap.get v parent = Some u /\ In v (succs u) /\
                         d v = d u + 1 /\ In u (P ++ W);
  bfs_closed : forall x y, In x P -> In y (succs x) ->
               In y (P ++ W) /\ d y <= d x + 1;
  bfs_target : ~ In to (P ++ W)
}.

(** ** Vocabulary for Kahn's algorithm *)

Section KahnVocabulary.
Context {K : Type} `{Key K}.
Variable N : list K.            (* the vertices *)
Variable adj : K -> list K.     (* the successors of a vertex *)

(** [u] is a predecessor of [v] that is not in [P]. *)
Definition pendingPred (P : list K) (v u : K) : bool :=
  existsb (keqb v) (adj u) && negb (existsb (keqb u) P).

(** The number of predecessors of [v] outside [P]. *)
Definition pendingCount (P : list K) (v : K) : nat :=
  length (filter (pendingPred P v) N).

(** In [l], every vertex comes after all its predecessors. *)
Definition topoOrdered (l : list K) : Prop :=
  forall l1 v l2, l = l1 ++ v :: l2 ->
  forall u, In u N -> In v (adj u) -> In u l1.

(** The loop invariant: the queue is [P ++ W], [head] is [length P] and the
    result is [P]. *)
Record KahnInv (P W : list K) (inDegree : JsMap K Z) : Prop := {
  kahn_nodup : NoDup (P ++ W);
  kahn_incl : incl (P ++ W) N;
  kahn_degree : forall v, In v N ->
                JsMap.get v inDegree = Some (Z.of_nat (pendingCount P v));
  kahn_queued : forall v, In v N -> (In v (P ++ W) <-> pendingCount P v = 0);
  kahn_ordered : topoOrdered P
}.
End KahnVocabulary.

(** [a] occurs before [b] in [l]. *)
Definition occursBefore {A : Type} (a b : A) (l : list A) : Prop :=
  exists l1 l2 l3, l = l1 ++ a :: l2 ++ b :: l3.

(** The position of the first occurrence of [x] in [l]. *)
Fixpoint posIn {K : Type} `{Key K} (x : K) (l : list K) : nat :=
  match l with
  | [] => 0
  | y :: r => if keqb x y then 0 else S (posIn x r)
  end.

(** ** Vocabulary for the engine *)

Section EngineVocabulary.
Context {NodeMeta EdgeMeta : Type}.

(** The graphs that the public operations can produce, whether the calls
    succeed or throw. *)
Inductive Built : DirectedGraph NodeMeta EdgeMeta -> Prop :=
| Built_constructor (o : GraphOptions) : Built (constructor o)
| Built_addNode g id md : Built g -> Built (fst (addNode id md g))
| Built_addEdge g from to md : Built g -> Built (fst (addEdge from to md g))
| Built_clear g : Built g -> Built (fst (clear g)).

(** The four index updates of a committed [addEdge], as one function. *)
Definition insertEdge (from to : NodeId) (edgeId : EdgeId)
    (md : option EdgeMeta) (g : DirectedGraph NodeMeta EdgeMeta)
  : DirectedGraph NodeMeta EdgeMeta :=
  let edgeKey := getEdgeKey from to in
  let g := set_edges
    (JsMap.set edgeId {| edge_id := edgeId; edge_from := from; edge_to := to;
                         edge_metadata := md |} (edges g)) g in
  let g := set_edgeIndex
    (JsMap.set edgeKey
       (JsSet.add edgeId (JsMap.get edgeKey (edgeIndex g) ?? JsSet.empty))
       (edgeIndex g)) g in
  let g := match JsMap.get from (adjacencyList g) with
           | Some fromAdj =>
               set_adjacencyList
                 (JsMap.set from (JsSet.add to fromAdj) (adjacencyList g)) g
           | None => g
           end in
  match JsMap.get to (reverseAdjacencyList g) with
  | Some toRev =>
      set_reverseAdjacencyList
        (JsMap.set to (JsSet.add from toRev) (reverseAdjacencyList g)) g
  | None => g
  end.

(** Consistency of the engine's indices. *)
Record WellFormed (g : DirectedGraph NodeMeta EdgeMeta) : Prop := {
  wf_nodes : NoDup (JsMap.keys (nodes g));
  wf_adj_keys : forall u, JsMap.has u (adjacencyList g) = JsMap.has u (nodes g);
  wf_radj_keys : forall u,
      JsMap.has u (reverseAdjacencyList g) = JsMap.has u (nodes g);
  wf_succ : forall u, NoDup (getSuccessors g u) /\
                      incl (getSuccessors g u) (JsMap.keys (nodes g));
  wf_pred : forall v, NoDup (getPredecessors g v) /\
                      incl (getPredecessors g v) (JsMap.keys (nodes g));
  wf_mirror : forall u v,
      In v (getSuccessors g u) <-> In u (getPredecessors g v);
  wf_index : forall u v, hasEdge g u v = true <-> In v (getSuccessors g u);
  wf_edges : forall e, In e (JsMap.values (edges g)) ->
                       In (edge_to e) (getSuccessors g (edge_from e))
}.
End EngineVocabulary.

(** ** Vocabulary for Tarjan's algorithm *)

(** The position of the first component that contains [x]. *)
Fixpoint compIndex (x : NodeId) (l : list SCC) : nat :=
  match l with
  | [] => 0
  | c :: r => if JsSet.has x (scc_nodes c) then 0 else S (compIndex x r)
  end.

Section TarjanVocabulary.
Context {NodeMeta EdgeMeta : Type}.
Variable g : DirectedGraph NodeMeta EdgeMeta.

Definition visited (s : TarjanState) (x : NodeId) : Prop :=
  JsMap.has x (index s) = true.
Definition indexOf (s : TarjanState) (x : NodeId) : nat :=
  JsMap.get x (index s) ?? 0.
Definition lowOf (s : TarjanState) (x : NodeId) : nat :=
  JsMap.get x (lowlink s) ?? 0.

(** [x] belongs to the [i]-th component pushed to [sccs]. *)
Definition emittedAt (s : TarjanState) (x : NodeId) (i : nat) : Prop :=
  exists c, nth_error (sccs s) i = Some c /\ In x (scc_nodes c).
Definition emitted (s : TarjanState) (x : NodeId) : Prop :=
  exists i, emittedAt s x i.

(** The number of nodes of the graph without a discovery index. *)
Definition unvisitedCount (s : TarjanState) : nat :=
  length (filter (fun x => negb (JsMap.has x (index s)))
            (JsMap.keys (nodes g))).

(** A successor [w] of a node whose visit is over: it lies in a component
    already pushed, or on the stack at an index not below [low]. *)
Definition settled (s : TarjanState) (low : nat) (w : NodeId) : Prop :=
  emitted s w \/ (In w (stack s) /\ low <= indexOf s w).

(** What holds of the search state between any two steps. *)
Record TarjanInv (s : TarjanState) : Prop := {
  tj_low_keys : forall x, JsMap.has x (lowlink s) = JsMap.has x (index s);
  tj_index_lt : forall x, visited s x -> indexOf s x < currentIndex s;
  tj_onStack : forall x, JsSet.has x (onStack s) = true <-> In x (stack s);
  tj_stack_visited : forall x, In x (stack s) -> visited s x;
  tj_stack_sorted :
    StronglySorted (fun a b => indexOf s b < indexOf s a) (stack s);
  tj_visited : forall x, visited s x -> In x (stack s) \/ emitted s x;
  tj_emitted : forall x, emitted s x -> visited s x /\ ~ In x (stack s);
  tj_closed : forall u i v, emittedAt s u i -> In v (getSuccessors g u) ->
              exists j, j <= i /\ emittedAt s v j;
  tj_unique : forall x i j, emittedAt s x i -> emittedAt s x j -> i = j;
  tj_ids : forall i c, nth_error (sccs s) i = Some c -> scc_id c = i;
  tj_flags : forall c, In c (sccs s) ->
             exists rest r, scc_nodes c = rest ++ [r] /\
               isAcyclic c = (length (scc_nodes c) =? 1)
                             && negb (hasEdge g r r)
}.

(** The state [s] inside the loop over the successors of [v], entered from
    [s0]; [done] are the successors already handled. *)
Record TarjanLoop (s0 : TarjanState) (v : NodeId) (s : TarjanState)
    (done : list NodeId) : Prop := {
  tl_inv : TarjanInv s;
  tl_index_old : forall x, visited s0 x ->
                 JsMap.get x (index s) = JsMap.get x (index s0);
  tl_fresh : ~ visited s0 v;
  tl_low_old : forall x, visited s0 x ->
               JsMap.get x (lowlink s) = JsMap.get x (lowlink s0);
  tl_index_v : JsMap.get v (index s) = Some (currentIndex s0);
  tl_low_v : exists L, JsMap.get v (lowlink s) = Some L /\
             L <= currentIndex s0 /\
             forall b, b <= currentIndex s0 ->
               (forall x, In x (stack s0) -> b <= indexOf s0 x) -> b <= L;
  tl_sccs : exists new, sccs s = sccs s0 ++ new;
  tl_stack : exists above,
      stack s = above ++ v :: stack s0 /\
      (forall x, In x above -> currentIndex s0 < indexOf s x) /\
      (forall u w, In u above -> In w (getSuccessors g u) ->
                   settled s (lowOf s v) w);
  tl_done : forall w, In w done -> settled s (lowOf s v) w;
  tl_count : unvisitedCount s < unvisitedCount s0
}.

(** The state [s'] in which [strongConnect(v)], entered from [s], returns. *)
Record TarjanPost (s : TarjanState) (v : NodeId) (s' : TarjanState)
  : Prop := {
  tp_inv : TarjanInv s';
  tp_index_old : forall x, visited s x ->
                 JsMap.get x (index s') = JsMap.get x (index s);
  tp_low_old : forall x, visited s x ->
               JsMap.get x (lowlink s') = JsMap.get x (lowlink s);
  tp_index_v : JsMap.get v (index s') = Some (currentIndex s);
  tp_low_le : lowOf s' v <= currentIndex s;
  tp_low_bound : forall b, b <= currentIndex s ->
      (forall x, In x (stack s) -> b <= indexOf s x) -> b <= lowOf s' v;
  tp_sccs : exists new, sccs s' = sccs s ++ new;
  tp_stack : exists new,
      stack s' = new ++ stack s /\
      (forall x, In x new -> currentIndex s <= indexOf s' x) /\
      (forall u w, In u new -> In w (getSuccessors g u) ->
                   settled s' (lowOf s' v) w) /\
      (lowOf s' v = currentIndex s -> new = []);
  tp_count : unvisitedCount s' < unvisitedCount s
}.

(** The simpler picture when a rank grows along every arc: the stack is the
    chain of calls and every component is a single node. *)
Definition singletonAcyclic (c : SCC) : Prop :=
  isAcyclic c = true /\ exists n, scc_nodes c = [n].

Record AcyclicInv (s : TarjanState) : Prop := {
  ac_low_keys : forall x, JsMap.has x (lowlink s) = JsMap.has x (index s);
  ac_index_lt : forall x, visited s x -> indexOf s x < currentIndex s;
  ac_onStack : forall x, JsSet.has x (onStack s) = true <-> In x (stack s);
  ac_stack_visited : forall x, In x (stack s) -> visited s x;
  ac_sccs : Forall singletonAcyclic (sccs s)
}.

Record AcyclicPost (s : TarjanState) (v : NodeId) (s' : TarjanState)
  : Prop := {
  ap_inv : AcyclicInv s';
  ap_stack : stack s' = stack s;
  ap_index_old : forall x, visited s x ->
                 JsMap.get x (index s') = JsMap.get x (index s);
  ap_low_old : forall x, visited s x ->
               JsMap.get x (lowlink s') = JsMap.get x (lowlink s);
  ap_index_v : JsMap.get v (index s') = Some (currentIndex s);
  ap_low_v : JsMap.get v (lowlink s') = Some (currentIndex s);
  ap_count : unvisitedCount s' < unvisitedCount s
}.
End TarjanVocabulary.

(** The state after [lowlink.set(v, n)]. *)
Definition setLow (v : NodeId) (n : nat) (s : TarjanState) : TarjanState :=
  {| sccs := sccs s; index := index s;
     lowlink := JsMap.set v n (lowlink s);
     onStack := onStack s; stack := stack s;
     currentIndex := currentIndex s |}.

(** What [findSCCs] guarantees about the list it returns. *)
Record SccResult {NodeMeta EdgeMeta : Type}
    (g : DirectedGraph NodeMeta EdgeMeta) (l : list SCC) : Prop := {
  sr_cover : forall x, In x (JsMap.keys (nodes g)) ->
             exists i c, nth_error l i = Some c /\ In x (scc_nodes c);
  sr_closed : forall u v i c,
      nth_error l i = Some c -> In u (scc_nodes c) ->
      In v (getSuccessors g u) ->
      exists j c', j <= i /\ nth_error l j = Some c' /\ In v (scc_nodes c');
  sr_unique : forall x i j c c',
      nth_error l i = Some c -> In x (scc_nodes c) ->
      nth_error l j = Some c' -> In x (scc_nodes c') -> i = j;
  sr_ids : forall i c, nth_error l i = Some c -> scc_id c = i;
  sr_flags : forall c, In c l ->
      exists rest r, scc_nodes c = rest ++ [r] /\
        isAcyclic c = (length (scc_nodes c) =? 1) && negb (hasEdge g r r)
}.

(** The loop over the successors of [v] in the acyclic picture. *)
Record AcyclicLoop {NodeMeta EdgeMeta : Type}
    (g : DirectedGraph NodeMeta EdgeMeta)
    (s0 : TarjanState) (v : NodeId) (s : TarjanState) : Prop := {
  al_inv : AcyclicInv s;
  al_stack : stack s = v :: stack s0;
  al_fresh : ~ visited s0 v;
  al_index_old : forall x, visited s0 x ->
                 JsMap.get x (index s) = JsMap.get x (index s0);
  al_low_old : forall x, visited s0 x ->
               JsMap.get x (lowlink s) = JsMap.get x (lowlink s0);
  al_index_v : JsMap.get v (index s) = Some (currentIndex s0);
  al_low_v : JsMap.get v (lowlink s) = Some (currentIndex s0);
  al_count : unvisitedCount g s < unvisitedCount g s0
}.

(** ** Vocabulary for the condensation graph *)

Section CondVocabulary.
Context {EdgeMeta : Type}.

(** The component-level successors recorded so far. *)
Definition compSuccs (st : @CondState EdgeMeta) (c : nat) : list nat :=
  JsMap.get c (compAdj st) ?? [].

(** The state of the single pass over the edges, for [k] components numbered
    in completion order; [done] are the edges already routed. *)
Record CondInv (k : nat) (cmap : JsMap NodeId nat)
    (st : @CondState EdgeMeta) (done : list (Edge EdgeMeta)) : Prop := {
  cd_ids : map (@cc_id EdgeMeta) (comps st) = seq 0 k;
  cd_adj_keys : forall c, JsMap.has c (compAdj st) = (c <? k);
  cd_indeg_keys : JsMap.keys (indeg st) = seq 0 k;
  cd_adj : forall c, NoDup (compSuccs st c) /\
                     forall ct, In ct (compSuccs st c) -> ct < c;
  cd_indeg : forall ct, ct < k ->
      JsMap.get ct (indeg st)
        = Some (Z.of_nat (pendingCount (seq 0 k) (compSuccs st) [] ct));
  cd_done : forall e cf ct, In e done ->
      JsMap.get (edge_from e) cmap = Some cf ->
      JsMap.get (edge_to e) cmap = Some ct ->
      cf <> ct -> In ct (compSuccs st cf)
}.
End CondVocabulary.

(** A successor function with two routes from "A" to "D". *)
Definition diamond (n : NodeId) : list NodeId :=
  if keqb n "A"%string then ["B"%string; "C"%string]
  else if keqb n "B"%string then ["D"%string]
  else if keqb n "C"%string then ["D"%string]
  else [].

(** ** Vocabulary for [classifyEdges] *)

Section ClassifyVocabulary.
Context {NodeMeta EdgeMeta : Type}.
Variable g : DirectedGraph NodeMeta EdgeMeta.

(** How many nodes have no discovery time yet. *)
Definition undiscovered (st : ClassifyState) : nat :=
  length (filter (fun x => negb (JsMap.has x (disc st)))
            (JsMap.keys (nodes g))).

(** Discovery times lie below the clock, a parent was discovered before
    its child, and the clock never exceeds two ticks per node. *)
Record ClassifyInv (st : ClassifyState) : Prop := {
  ci_time : forall x dx, JsMap.get x (disc st) = Some dx -> dx < time st;
  ci_parent : forall x p, parentOf st x = Some p ->
      exists dp, JsMap.get p (disc st) = Some dp /\
                 forall dx, JsMap.get x (disc st) = Some dx -> dp < dx;
  ci_bound : time st + 2 * undiscovered st <= 2 * JsMap.size (nodes g)
}.

(** [st'] is a later state of the search than [st]. *)
Record ClassifyExt (st st' : ClassifyState) : Prop := {
  ce_disc : forall x d, JsMap.get x (disc st) = Some d ->
                        JsMap.get x (disc st') = Some d;
  ce_clock : time st' + 2 * undiscovered st' <= time st + 2 * undiscovered st
}.
End ClassifyVocabulary.

(** ** Vocabulary for the edge store *)

Section EdgeStoreVocabulary.
Context {NodeMeta EdgeMeta : Type}.

(** The identifier that [addEdge] gives the next edge [from -> to]. *)
Definition nextEdgeIdFor (g : DirectedGraph NodeMeta EdgeMeta)
    (from to : NodeId) : EdgeId :=
  if allowMultiEdges (options g)
  then (getEdgeKey from to +++ "#" +++ num_to_string (nextEdgeId g))%string
  else getEdgeKey from to.

(** How the edge map, the edge index and the edge counter fit together. *)
Record EdgeStore (g : DirectedGraph NodeMeta EdgeMeta) : Prop := {
  es_keys : NoDup (JsMap.keys (edges g));
  es_edge : forall id e, JsMap.get id (edges g) = Some e ->
      edge_id e = id /\
      In id (getEdgeIdsBetween g (edge_from e) (edge_to e));
  es_bucket : forall key ids, JsMap.get key (edgeIndex g) = Some ids ->
      ids <> [] /\ NoDup ids /\
      forall id, In id ids ->
        exists e, JsMap.get id (edges g) = Some e /\
                  getEdgeKey (edge_from e) (edge_to e) = key;
  es_ids : forall id e, JsMap.get id (edges g) = Some e ->
      if allowMultiEdges (options g)
      then exists n, n < nextEdgeId g /\
             id = (getEdgeKey (edge_from e) (edge_to e) +++ "#" +++
                   num_to_string n)%string
      else id = getEdgeKey (edge_from e) (edge_to e);
  es_loops : allowSelfLoops (options g) = false ->
      forall id e, JsMap.get id (edges g) = Some e -> edge_from e <> edge_to e
}.
End EdgeStoreVocabulary.

(** The engine of [exampleAB] with self-loops disabled. *)
Definition exampleNoLoops : DirectedGraph unit unit :=
  runM (addEdge "A"%string "B"%string None)
    (runM (addNode "B"%string None)
       (runM (addNode "A"%string None)
          (constructor {| opt_allowSelfLoops := Some false;
                          opt_allowMultiEdges := None;
                          opt_validateOnConstruction := None |}))).

(** The engine with the two edges A -> B and B -> A. *)
Definition exampleCycle : DirectedGraph unit unit :=
  runM (addEdge "B"%string "A"%string None) (exampleAB false).

(** The identifier of [e] is the key of its endpoints followed by [#] and
    the decimal numeral of [n]. *)
Definition suffixedBy {EdgeMeta : Type} (e : Edge EdgeMeta) (n : nat) : Prop :=
  edge_id e = (getEdgeKey (edge_from e) (edge_to e) +++ "#" +++
               num_to_string n)%string.

(* ================================================================== *)
(** * Part II: lemmas and theorems                                     *)
(* ================================================================== *)

(** ** Containers *)

Section KeyFacts.
Context {K : Type} `{Key K}.

Lemma keqb_refl (a : K) : keqb a a = true.
Proof. destruct (keqb_spec a a); congruence. Qed.

Lemma keqb_eq (a b : K) : keqb a b = true <-> a = b.
Proof. destruct (keqb_spec a b); split; congruence. Qed.

Lemma keqb_neq (a b : K) : keqb a b = false <-> a <> b.
Proof. destruct (keqb_spec a b); split; congruence. Qed.

Lemma key_eq_dec (a b : K) : {a = b} + {a <> b}.
Proof. destruct (keqb_spec a b); [left | right]; assumption. Qed.
End KeyFacts.

Ltac key_cases a b :=
  let E := fresh "E" in
  destruct (keqb_spec a b) as [E | E]; [try subst | idtac].

(** ** The edge-key encoding *)

Section EdgeKey.
Local Open Scope string_scope.

Lemma colonFree_uint (d : Decimal.uint) :
  colonFree (NilEmpty.string_of_uint d).
Proof. induction d; simpl; auto; split; auto; discriminate. Qed.

Lemma to_uint_not_nil (n : nat) : Nat.to_uint n <> Decimal.Nil.
Proof.
  intro E. pose proof (Unsigned.of_to n) as R. rewrite E in R.
  destruct n; [cbv in E; discriminate | cbv in R; discriminate].
Qed.

Lemma num_to_string_nilempty (n : nat) :
  num_to_string n = NilEmpty.string_of_uint (Nat.to_uint n).
Proof.
  unfold num_to_string, NilZero.string_of_uint.
  pose proof (to_uint_not_nil n). destruct (Nat.to_uint n); congruence.
Qed.

Lemma colonFree_num (n : nat) : colonFree (num_to_string n).
Proof. rewrite num_to_string_nilempty. apply colonFree_uint. Qed.

Lemma num_to_string_inj (n m : nat) :
  num_to_string n = num_to_string m -> n = m.
Proof.
  rewrite !num_to_string_nilempty. intro E.
  apply Unsigned.to_uint_inj.
  pose proof (NilEmpty.usu (Nat.to_uint n)) as A.
  pose proof (NilEmpty.usu (Nat.to_uint m)) as B.
  rewrite E in A. congruence.
Qed.

(** Two colon-free prefixes followed by a colon split a string in one way. *)
Lemma colon_split (d1 d2 r1 r2 : string) :
  colonFree d1 -> colonFree d2 ->
  d1 ++ String ":" r1 = d2 ++ String ":" r2 -> d1 = d2 /\ r1 = r2.
Proof.
  revert d2. induction d1 as [| c d1 IH]; intros [| c2 d2]; simpl.
  - intros _ _ E. inversion E. auto.
  - intros _ [N _] E. inversion E. subst. congruence.
  - intros [N _] _ E. inversion E. subst. congruence.
  - intros [_ F1] [_ F2] E. inversion E. subst.
    destruct (IH d2 F1 F2 H1) as [-> ->]. auto.
Qed.

(** Prefixes of equal length split a string in one way. *)
Lemma length_split (a c r1 r2 : string) :
  String.length a = String.length c ->
  a ++ r1 = c ++ r2 -> a = c /\ r1 = r2.
Proof.
  revert c. induction a as [| x a IH]; intros [| y c]; simpl; try discriminate.
  - auto.
  - intros L E. inversion E. subst. injection L as L.
    destruct (IH c L H1) as [-> ->]. auto.
Qed.

Lemma getEdgeKey_inj (a b c d : NodeId) :
  getEdgeKey a b = getEdgeKey c d -> a = c /\ b = d.
Proof.
  unfold getEdgeKey. intro E.
  apply colon_split in E; try apply colonFree_num.
  destruct E as [La E]. apply num_to_string_inj in La.
  apply length_split in E; [| exact La].
  destruct E as [-> E]. inversion E as [E'].
  apply colon_split in E'; try apply colonFree_num.
  destruct E' as [_ ->]. auto.
Qed.
End EdgeKey.

(** C6. The edge-key encoding is injective on ordered pairs of node ids:
    two different pairs never receive the same key. *)
Theorem getEdgeKey_injective (a b c d : NodeId) :
  (a, b) <> (c, d) -> getEdgeKey a b <> getEdgeKey c d.
Proof.
  intros N E. apply getEdgeKey_inj in E. destruct E; subst. congruence.
Qed.

Lemma getEdgeKey_injective_witness :
  ("ab", "c")%string <> ("a", "bc")%string /\
  getEdgeKey "ab"%string "c"%string <> getEdgeKey "a"%string "bc"%string.
Proof.
  split; [discriminate | apply getEdgeKey_injective; discriminate].
Defined.

(** Case analysis on a [match] whose scrutinee contains no other [match]. *)
Ltac destruct_innermost :=
  match goal with
  | |- context [match ?x with _ => _ end] =>
      lazymatch x with
      | context [match _ with _ => _ end] => fail
      | _ => destruct x eqn:?; simpl
      end
  end.

(** ** Mutations of the engine *)

Section Mutations.
Context {NodeMeta EdgeMeta : Type}.
Let Graph := DirectedGraph NodeMeta EdgeMeta.

(** [addNode] throws only before its first assignment. *)
Lemma addNode_error_unchanged (id : NodeId) (md : option NodeMeta)
    (g g' : Graph) (e : GraphError) :
  addNode id md g = (g', inl e) -> g' = g /\ e = NodeAlreadyExists id.
Proof.
  unfold addNode, bind, this, modify, throw.
  destruct (JsMap.has id (nodes g)); intro E; inversion E; auto.
Qed.

(** A usage error of [addEdge] is thrown before its first assignment; the
    only errors thrown later are the two invariant violations. *)
Lemma addEdge_error_unchanged (from to : NodeId) (md : option EdgeMeta)
    (g g' : Graph) (e : GraphError) :
  addEdge from to md g = (g', inl e) -> isUsageError e = true -> g' = g.
Proof.
  unfold addEdge, bind, this, throw.
  destruct (negb (JsMap.has from (nodes g))); [intro E; inversion E; auto |].
  destruct (negb (JsMap.has to (nodes g))); [intro E; inversion E; auto |].
  destruct (negb (allowSelfLoops (options g)) && keqb from to);
    [intro E; inversion E; auto |].
  destruct (negb (allowMultiEdges (options g)) &&
            JsMap.has (getEdgeKey from to) (edgeIndex g));
    [intro E; inversion E; auto |].
  unfold when, validateEdgeInvariants, modify, bind, this, throw, ret.
  destruct (allowMultiEdges (options g)); simpl.
  all: repeat destruct_innermost.
  all: intros E U; inversion E; subst; simpl in U; try discriminate.
Qed.

(** The identifier and the counter after a successful [addEdge]. *)
Lemma addEdge_ok_id (from to : NodeId) (md : option EdgeMeta)
    (g g' : Graph) (id : EdgeId) :
  addEdge from to md g = (g', inr id) ->
  options g' = options g /\
  if allowMultiEdges (options g)
  then id = (getEdgeKey from to +++ "#" +++ num_to_string (nextEdgeId g))%string
       /\ nextEdgeId g' = S (nextEdgeId g)
  else id = getEdgeKey from to /\ nextEdgeId g' = nextEdgeId g.
Proof.
  unfold addEdge, bind, this, throw.
  destruct (negb (JsMap.has from (nodes g))); [intro E; inversion E |].
  destruct (negb (JsMap.has to (nodes g))); [intro E; inversion E |].
  destruct (negb (allowSelfLoops (options g)) && keqb from to);
    [intro E; inversion E |].
  destruct (negb (allowMultiEdges (options g)) &&
            JsMap.has (getEdgeKey from to) (edgeIndex g));
    [intro E; inversion E |].
  unfold when, validateEdgeInvariants, modify, bind, this, throw, ret.
  destruct (allowMultiEdges (options g)); simpl.
  all: repeat destruct_innermost.
  all: intros E; inversion E; subst; simpl; auto.
Qed.
End Mutations.

(** C5. A usage error of [addNode] or [addEdge] leaves the whole engine
    state (node map, edge map, both adjacency indices, edge index, edge-id
    counter) exactly as it was before the call. *)
Theorem usage_error_leaves_state_unchanged
    (NodeMeta EdgeMeta : Type) (g g' : DirectedGraph NodeMeta EdgeMeta)
    (e : GraphError) :
  (exists id md, addNode id md g = (g', inl e)) \/
  (exists from to md, addEdge from to md g = (g', inl e)) ->
  isUsageError e = true ->
  g' = g.
Proof.
  intros [(id & md & E) | (from & to & md & E)] U.
  - apply addNode_error_unchanged in E. tauto.
  - eapply addEdge_error_unchanged; eauto.
Qed.

Lemma usage_error_leaves_state_unchanged_witness :
  fst (addEdge "A"%string "B"%string None (exampleAB false)) = exampleAB false.
Proof.
  apply (@usage_error_leaves_state_unchanged unit unit (exampleAB false) _
           (EdgeAlreadyExists (getEdgeKey "A"%string "B"%string))).
  - right. exists "A"%string, "B"%string, None. vm_compute. reflexivity.
  - reflexivity.
Defined.

(** C4 as stated fails: under multi-edge mode the first edge of a pair
    already carries a suffix. *)
Lemma first_parallel_edge_is_suffixed :
  ~ (forall (g g' : DirectedGraph unit unit) (from to : NodeId)
            (md : option unit) (id : EdgeId),
       allowMultiEdges (options g) = true ->
       hasEdge g from to = false ->
       addEdge from to md g = (g', inr id) ->
       id = getEdgeKey from to).
Proof.
  intro H.
  pose (g := runM (addNode "B"%string None)
               (runM (addNode "A"%string None)
                  (constructor {| opt_allowSelfLoops := None;
                                  opt_allowMultiEdges := Some true;
                                  opt_validateOnConstruction := None |}))
             : DirectedGraph unit unit).
  specialize (H g (fst (addEdge "A"%string "B"%string None g))
                "A"%string "B"%string None "1:A|1:B#0"%string).
  vm_compute in H. discriminate H; reflexivity.
Qed.

(** ** Path enumeration, bipartiteness, longest path *)

Section AlgorithmFacts.
Variable succs : NodeId -> list NodeId.

Lemma neighborScan_self_loop (u : NodeId) (vs : list NodeId) :
  In u vs -> forall m, neighborScan u vs m = inl tt.
Proof.
  induction vs as [| v vs IH]; cbn [neighborScan In]; [tauto |].
  intros [-> | Hin] m.
  - rewrite keqb_refl. reflexivity.
  - destruct (keqb u v); auto.
Qed.

Lemma buildNeighbors_self_loop (nodes : list NodeId) (u : NodeId) :
  In u nodes -> In u (succs u) ->
  forall m, buildNeighbors succs nodes m = inl tt.
Proof.
  induction nodes as [| x nodes IH]; cbn [buildNeighbors In]; [tauto |].
  intros [-> | Hin] Hloop m.
  - rewrite neighborScan_self_loop; auto.
  - destruct (neighborScan x (succs x) m) as [[] | m']; auto.
Qed.
End AlgorithmFacts.

(** C8. When some node of the list is among its own successors,
    [isBipartite] answers [isBipartite = false] without a partition. *)
Theorem isBipartite_self_loop
    (succs : NodeId -> list NodeId) (fuel : nat) (nodes : list NodeId)
    (u : NodeId) :
  In u nodes -> In u (succs u) ->
  isBipartite succs fuel nodes
    = Some (inr {| bip_isBipartite := false; bip_partition := None |}).
Proof.
  intros Hin Hloop. unfold isBipartite.
  rewrite (buildNeighbors_self_loop succs nodes u Hin Hloop). reflexivity.
Qed.

Lemma isBipartite_self_loop_witness :
  isBipartite (fun n => if keqb n "B"%string then ["B"%string] else ["B"%string])
    0 ["A"%string; "B"%string]
    = Some (inr {| bip_isBipartite := false; bip_partition := None |}).
Proof.
  apply (@isBipartite_self_loop _ 0 ["A"%string; "B"%string] "B"%string);
    simpl; auto.
Defined.

(** C10. For a non-negative depth bound, [findAllPaths] from a node to
    itself returns exactly the one-node path; no cycle through the start
    node is enumerated. *)
Theorem findAllPaths_same_endpoint
    (succs : NodeId -> list NodeId) (from : NodeId) (maxDepth : Z) :
  (0 <= maxDepth)%Z ->
  findAllPaths succs from from maxDepth = inr [[from]].
Proof.
  intro Hd. unfold findAllPaths.
  destruct (Z.ltb_spec maxDepth 0); [lia |].
  cbn [allPathsDfs]. rewrite keqb_refl. reflexivity.
Qed.

Lemma findAllPaths_same_endpoint_witness :
  findAllPaths (fun _ => ["A"%string; "B"%string]) "A"%string "A"%string 3
    = inr [["A"%string]].
Proof.
  apply (@findAllPaths_same_endpoint (fun _ => ["A"%string; "B"%string])
           "A"%string 3%Z).
  lia.
Defined.

(** C3, the failing input: the order [A, C] does not cover the node list
    [A, B], yet on a graph without edges the call validates it and returns a
    result, because only the sizes are compared. *)
Theorem longestPathDAG_accepts_foreign_order :
  longestPathDAG (fun _ => []) 2 ["A"%string; "B"%string]
    [Some "A"%string; Some "C"%string]
    = Some (inr {| lp_length := 0; lp_path := ["A"%string] |}).
Proof. vm_compute. reflexivity. Qed.

(** ** Facts about [JsSet] and [JsMap] *)

Section ContainerFacts.
Context {K : Type} `{Key K}.

Lemma JsSet_has_In (x : K) (s : JsSet K) : JsSet.has x s = true <-> In x s.
Proof.
  unfold JsSet.has. rewrite existsb_exists. split.
  - intros (y & Hy & E). apply keqb_eq in E. congruence.
  - intro Hx. exists x. split; [assumption | apply keqb_refl].
Qed.

Lemma JsSet_has_false (x : K) (s : JsSet K) : JsSet.has x s = false <-> ~ In x s.
Proof.
  rewrite <- JsSet_has_In. destruct (JsSet.has x s); split; congruence.
Qed.

Lemma JsSet_In_add (x y : K) (s : JsSet K) :
  In y (JsSet.add x s) <-> y = x \/ In y s.
Proof.
  unfold JsSet.add. destruct (JsSet.has x s) eqn:E.
  - apply JsSet_has_In in E. split; [tauto | intros [-> | ?]; assumption].
  - rewrite in_app_iff. simpl. split; [intros [? | [-> | []]] | intros [-> | ?]]; auto.
Qed.

Lemma JsSet_add_fresh (x : K) (s : JsSet K) :
  ~ In x s -> JsSet.add x s = s ++ [x].
Proof.
  intro N. unfold JsSet.add. apply JsSet_has_false in N. rewrite N. reflexivity.
Qed.

Lemma JsSet_In_delete (x y : K) (s : JsSet K) :
  In y (JsSet.delete x s) <-> In y s /\ y <> x.
Proof.
  unfold JsSet.delete. rewrite filter_In.
  destruct (keqb_spec x y) as [-> | N]; simpl; split; intros [? ?]; split;
    auto; congruence.
Qed.

Lemma JsSet_NoDup_add (x : K) (s : JsSet K) : NoDup s -> NoDup (JsSet.add x s).
Proof.
  intro N. unfold JsSet.add. destruct (JsSet.has x s) eqn:E; [assumption |].
  apply JsSet_has_false in E.
  apply NoDup_app; auto.
  - constructor; [simpl; tauto | constructor].
  - intros y Hy [-> | []]. contradiction.
Qed.

Context {V : Type}.

Lemma JsMap_get_set_same (k : K) (v : V) (m : JsMap K V) :
  JsMap.get k (JsMap.set k v m) = Some v.
Proof.
  induction m as [| [k' v'] m IH]; simpl.
  - rewrite keqb_refl. reflexivity.
  - destruct (keqb k k') eqn:E; simpl; rewrite ?keqb_refl, ?E; auto.
Qed.

Lemma JsMap_get_set_other (k k' : K) (v : V) (m : JsMap K V) :
  k <> k' -> JsMap.get k' (JsMap.set k v m) = JsMap.get k' m.
Proof.
  intro N. induction m as [| [k0 v0] m IH]; simpl.
  - apply not_eq_sym in N. apply keqb_neq in N. rewrite N. reflexivity.
  - destruct (keqb_spec k k0) as [<- | N0]; simpl.
    + apply not_eq_sym in N. apply keqb_neq in N. rewrite N. reflexivity.
    + destruct (keqb k' k0); auto.
Qed.

Lemma JsMap_get_set (k k' : K) (v : V) (m : JsMap K V) :
  JsMap.get k' (JsMap.set k v m) = if keqb k' k then Some v else JsMap.get k' m.
Proof.
  destruct (keqb_spec k' k) as [-> | N].
  - apply JsMap_get_set_same.
  - apply JsMap_get_set_other. congruence.
Qed.

Lemma JsMap_get_In_keys (k : K) (m : JsMap K V) :
  JsMap.get k m <> None <-> In k (JsMap.keys m).
Proof.
  induction m as [| [k' v'] m IH]; simpl.
  - tauto.
  - destruct (keqb_spec k k') as [-> | N]; split; auto; try discriminate.
    + intro G. right. apply IH. assumption.
    + intros [E | G]; [congruence | apply IH; assumption].
Qed.

Lemma JsMap_has_In_keys (k : K) (m : JsMap K V) :
  JsMap.has k m = true <-> In k (JsMap.keys m).
Proof.
  rewrite <- JsMap_get_In_keys. unfold JsMap.has.
  destruct (JsMap.get k m); split; congruence.
Qed.

Lemma JsMap_has_false (k : K) (m : JsMap K V) :
  JsMap.has k m = false <-> JsMap.get k m = None.
Proof. unfold JsMap.has. destruct (JsMap.get k m); split; congruence. Qed.

Lemma JsMap_keys_set (k : K) (v : V) (m : JsMap K V) :
  JsMap.keys (JsMap.set k v m)
    = if JsMap.has k m then JsMap.keys m else JsMap.keys m ++ [k].
Proof.
  unfold JsMap.has. induction m as [| [k' v'] m IH]; simpl; auto.
  destruct (keqb_spec k k') as [-> | N]; simpl; auto.
  unfold JsMap.keys in *. rewrite IH.
  destruct (JsMap.get k m); reflexivity.
Qed.

Lemma JsMap_In_keys_set (k k' : K) (v : V) (m : JsMap K V) :
  In k' (JsMap.keys (JsMap.set k v m)) <-> k' = k \/ In k' (JsMap.keys m).
Proof.
  rewrite <- !JsMap_get_In_keys, JsMap_get_set.
  destruct (keqb_spec k' k); split; auto; try discriminate; tauto.
Qed.
End ContainerFacts.

(** ** Breadth-first search: [isReachable] and [shortestPath] *)

Ltac in_list :=
  repeat (rewrite in_app_iff in * || simpl In in *).

Section ListFacts.
Context {A : Type}.

Lemma nth_error_at_length (P W : list A) :
  nth_error (P ++ W) (length P) = hd_error W.
Proof.
  rewrite nth_error_app2 by lia. rewrite Nat.sub_diag. destruct W; reflexivity.
Qed.

Lemma StronglySorted_snoc (R : A -> A -> Prop) (W : list A) (v : A) :
  StronglySorted R W -> (forall y, In y W -> R y v) ->
  StronglySorted R (W ++ [v]).
Proof.
  induction 1 as [| a l S IH F]; intro Hv; simpl.
  - constructor; constructor.
  - constructor.
    + apply IH. intros y Hy. apply Hv. right. assumption.
    + apply Forall_app. split; [assumption |].
      constructor; [apply Hv; left; reflexivity | constructor].
Qed.

Lemma StronglySorted_ext (R R' : A -> A -> Prop) (W : list A) :
  (forall x y, In x W -> In y W -> R x y -> R' x y) ->
  StronglySorted R W -> StronglySorted R' W.
Proof.
  intros HR S. induction S as [| a l S IH F].
  - constructor.
  - constructor.
    + apply IH. intros x y Hx Hy. apply HR; right; assumption.
    + rewrite Forall_forall in *. intros y Hy.
      apply HR; [left; reflexivity | right; assumption | auto].
Qed.

Lemma last_snoc (p : list A) (v x0 : A) : last (p ++ [v]) x0 = v.
Proof. apply last_last. Qed.
End ListFacts.

Section Walks.
Variable succs : NodeId -> list NodeId.

Lemma isWalk_snoc (p : list NodeId) (u v x0 : NodeId) :
  isWalk succs p -> p <> [] -> last p x0 = u -> In v (succs u) ->
  isWalk succs (p ++ [v]).
Proof.
  induction p as [| x p IH]; [congruence |].
  intros Hw _ Hl Hv. destruct p as [| y p].
  - simpl in *. subst. auto.
  - change ((x :: y :: p) ++ [v]) with (x :: (y :: p) ++ [v]).
    destruct Hw as [Hxy Hw]. split; [assumption |].
    apply IH; auto; discriminate.
Qed.

Lemma isWalk_tail (x : NodeId) (p : list NodeId) :
  isWalk succs (x :: p) -> isWalk succs p.
Proof. destruct p; simpl; tauto. Qed.
End Walks.

Section BFS.
Variable succs : NodeId -> list NodeId.
Variables from to : NodeId.

Local Abbreviation Inv := (BfsInv succs from to).

Lemma scan_simulation (u : NodeId) (vs : list NodeId) :
  forall seen parent q,
    reachScan to vs seen q =
    match pathScan to u vs seen parent q with
    | inl _ => inl tt
    | inr (seen', _, q') => inr (seen', q')
    end.
Proof.
  induction vs as [| v vs IH]; intros seen parent q; cbn [reachScan pathScan].
  - reflexivity.
  - destruct (JsSet.has v seen); [apply IH |].
    destruct (keqb v to); [reflexivity | apply IH].
Qed.

Lemma BfsInv_init : from <> to -> Inv (fun _ => 0) [from] JsMap.empty [] [from].
Proof.
  intro N. constructor; simpl; try tauto; try (intros; lia).
  - repeat constructor.
  - intros v [<- | []] Hv. congruence.
Qed.

Lemma BfsInv_push d seen parent P u W0 v :
  Inv d seen parent P (u :: W0) ->
  ~ In v seen -> v <> to -> In v (succs u) ->
  Inv (upd d v (d u + 1)) (JsSet.add v seen) (JsMap.set v u parent)
      P (u :: W0 ++ [v]).
Proof.
  intros I Hv Hto Hs.
  assert (Hfresh : ~ In v (P ++ u :: W0)) by (rewrite <- (bfs_seen I); exact Hv).
  assert (Hd : forall x, In x (P ++ u :: W0) -> upd d v (d u + 1) x = d x).
  { intros x Hx. unfold upd. key_cases x v; [contradiction | reflexivity]. }
  assert (Hdv : upd d v (d u + 1) v = d u + 1).
  { unfold upd. rewrite keqb_refl. reflexivity. }
  assert (Hu : In u (P ++ u :: W0)) by (in_list; auto).
  assert (Hold : forall x, In x (P ++ u :: W0 ++ [v]) <->
                           In x (P ++ u :: W0) \/ x = v).
  { intro x. in_list. intuition. }
  constructor.
  - intro x. rewrite JsSet_In_add, Hold, (bfs_seen I). tauto.
  - destruct (bfs_from I) as [Hf H0]. split.
    + apply Hold. auto.
    + rewrite Hd; auto.
  - change (u :: W0 ++ [v]) with ((u :: W0) ++ [v]).
    apply StronglySorted_snoc.
    + eapply StronglySorted_ext; [| exact (bfs_sorted I)].
      intros x y Hx Hy L. rewrite !Hd; auto; in_list; auto.
    + intros y Hy. rewrite Hdv, Hd by (in_list; auto).
      eapply (bfs_bound I); [reflexivity | in_list; auto].
  - intros x y Hx Hy.
    rewrite (Hd x) by (in_list; auto).
    change (u :: W0 ++ [v]) with ((u :: W0) ++ [v]) in Hy.
    apply in_app_iff in Hy. destruct Hy as [Hy | [<- | []]].
    + rewrite Hd by (in_list; auto). apply (bfs_done_le I); auto.
    + rewrite Hdv. eapply (bfs_bound I); [reflexivity | in_list; auto].
  - intros u' W' E x Hx. injection E as <- <-.
    rewrite (Hd u) by assumption.
    apply Hold in Hx. destruct Hx as [Hx | ->].
    + rewrite Hd by assumption. eapply (bfs_bound I); [reflexivity | assumption].
    + rewrite Hdv. lia.
  - rewrite JsMap_get_set_other; [apply (bfs_root I) |].
    intros ->. apply Hfresh. apply (bfs_from I).
  - intros x Hx Hxf. apply Hold in Hx. destruct Hx as [Hx | ->].
    + destruct (bfs_parent I Hx Hxf) as (p & Hp & Hsp & Hdp & Hin).
      exists p. rewrite JsMap_get_set_other by (intros ->; contradiction).
      rewrite !Hd by assumption. rewrite Hold. auto.
    + exists u. rewrite JsMap_get_set_same, Hdv, Hd by assumption.
      rewrite Hold. auto.
  - intros x y Hx Hy.
    edestruct (bfs_closed I) as [Hin Hle]; [exact Hx | exact Hy |].
    rewrite Hold, !Hd; auto. in_list; auto.
  - rewrite Hold. intros [H | H]; [exact (bfs_target I H) | congruence].
Qed.

Lemma queue_push_assoc (P W0 : list NodeId) (u v : NodeId) :
  (P ++ u :: W0) ++ [v] = P ++ u :: W0 ++ [v].
Proof. rewrite <- app_assoc. reflexivity. Qed.

(** One complete [for] loop of [shortestPath] over the successors [vs] of
    the vertex [u] at [head]. *)
Lemma pathScan_spec P u (vs : list NodeId) :
  incl vs (succs u) ->
  forall d seen parent W0,
    Inv d seen parent P (u :: W0) ->
    match pathScan to u vs seen parent (P ++ u :: W0) with
    | inl parent' =>
        exists d' seen' parent0 W0',
          Inv d' seen' parent0 P (u :: W0') /\
          parent' = JsMap.set to u parent0 /\ In to (succs u)
    | inr (seen', parent', q') =>
        exists d' W0',
          q' = P ++ u :: W0' /\
          Inv d' seen' parent' P (u :: W0') /\
          (forall x, In x (P ++ u :: W0) -> In x (P ++ u :: W0')) /\
          (forall v, In v vs -> In v (P ++ u :: W0'))
    end.
Proof.
  induction vs as [| v vs IH]; intros Hincl d seen parent W0 I;
    cbn [pathScan].
  - exists d, W0. split; [reflexivity |]. split; [exact I |].
    split; [auto | intros v []].
  - assert (Hv : In v (succs u)) by (apply Hincl; left; reflexivity).
    assert (Hvs : incl vs (succs u)) by (intros x Hx; apply Hincl; right; exact Hx).
    destruct (JsSet.has v seen) eqn:Hseen.
    + apply JsSet_has_In in Hseen. apply (bfs_seen I) in Hseen.
      specialize (IH Hvs d seen parent W0 I).
      destruct (pathScan to u vs seen parent (P ++ u :: W0))
        as [parent' | [[seen' parent'] q']]; [exact IH |].
      destruct IH as (d' & W0' & -> & I' & Hmono & Hall).
      exists d', W0'. split; [reflexivity |]. split; [exact I' |].
      split; [exact Hmono |].
      intros x [<- | Hx]; auto.
    + apply JsSet_has_false in Hseen.
      destruct (keqb_spec v to) as [-> | Hto].
      * exists d, seen, parent, W0. auto.
      * pose proof (BfsInv_push I Hseen Hto Hv) as I1.
        rewrite queue_push_assoc.
        specialize (IH Hvs _ _ _ _ I1).
        destruct (pathScan to u vs (JsSet.add v seen) (JsMap.set v u parent)
                    (P ++ u :: W0 ++ [v]))
          as [parent' | [[seen' parent'] q']]; [exact IH |].
        destruct IH as (d' & W0' & -> & I' & Hmono & Hall).
        exists d', W0'. split; [reflexivity |]. split; [exact I' |]. split.
        -- intros x Hx. apply Hmono. in_list. tauto.
        -- intros x [<- | Hx]; auto. apply Hmono. in_list. auto.
Qed.

(** Moving [head] past a fully scanned vertex. *)
Lemma BfsInv_advance d seen parent P u W0 :
  Inv d seen parent P (u :: W0) ->
  (forall v, In v (succs u) -> In v (P ++ u :: W0)) ->
  Inv d seen parent (P ++ [u]) W0.
Proof.
  intros I Hall.
  assert (Hq : forall x, In x ((P ++ [u]) ++ W0) <-> In x (P ++ u :: W0)).
  { intro x. in_list. tauto. }
  pose proof (bfs_sorted I) as S. inversion S as [| a l S0 F]; subst.
  rewrite Forall_forall in F.
  constructor.
  - intro x. rewrite Hq. apply (bfs_seen I).
  - rewrite Hq. apply (bfs_from I).
  - exact S0.
  - intros x y Hx Hy. apply in_app_iff in Hx. destruct Hx as [Hx | [<- | []]].
    + apply (bfs_done_le I); [assumption | right; assumption].
    + apply F. assumption.
  - intros u' W1 -> x Hx. apply Hq in Hx.
    assert (d x <= d u + 1) by (eapply (bfs_bound I); [reflexivity | assumption]).
    assert (d u <= d u') by (apply F; left; reflexivity).
    lia.
  - apply (bfs_root I).
  - intros v Hv Hvf. apply Hq in Hv.
    destruct (bfs_parent I Hv Hvf) as (p & ? & ? & ? & ?).
    exists p. rewrite Hq. auto.
  - intros x y Hx Hy. rewrite Hq.
    apply in_app_iff in Hx. destruct Hx as [Hx | [<- | []]].
    + edestruct (bfs_closed I); [exact Hx | exact Hy |]. auto.
    + split; [apply Hall; assumption |].
      eapply (bfs_bound I); [reflexivity | apply Hall; assumption].
  - rewrite Hq. apply (bfs_target I).
Qed.

(** The parent walk from a queued node: it needs exactly [d v + 2] rounds
    and yields a walk of [d v] edges from [from]. *)
Lemma reconstruct_spec d seen parent P W (parent' : JsMap NodeId NodeId) :
  Inv d seen parent P W ->
  (forall x, In x (P ++ W) -> JsMap.get x parent' = JsMap.get x parent) ->
  forall n v, In v (P ++ W) -> d v = n ->
    exists pth, length pth = n + 1 /\ walkFromTo succs from v pth /\
      forall fuel acc,
        reconstruct fuel parent' (Some v) acc
          = if n + 2 <=? fuel then Some (pth ++ acc) else None.
Proof.
  intros I Hagree. induction n as [| n IH]; intros v Hv Hd.
  - assert (v = from) as ->.
    { destruct (key_eq_dec v from) as [E | N]; [exact E |].
      destruct (bfs_parent I Hv N) as (p & _ & _ & Hp & _). lia. }
    exists [from]. split; [reflexivity |]. split; [repeat split |].
    intros fuel acc. destruct fuel as [| [| fuel]]; cbn [reconstruct]; auto.
    rewrite Hagree, (bfs_root I) by assumption. reflexivity.
  - assert (N : v <> from).
    { intros ->. destruct (bfs_from I). lia. }
    destruct (bfs_parent I Hv N) as (p & Hp & Hsp & Hdp & Hin).
    destruct (IH p Hin ltac:(lia)) as (pth & Hlen & (Hw & Hhd & Hlast) & Hrec).
    exists (pth ++ [v]). split; [rewrite length_app; simpl; lia |]. split.
    + split; [| split].
      * eapply isWalk_snoc; eauto. destruct pth; simpl in *; [lia | discriminate].
      * destruct pth; simpl in *; [lia | assumption].
      * apply last_snoc.
    + intros fuel acc. destruct fuel as [| fuel]; cbn [reconstruct]; auto.
      rewrite Hagree, Hp, Hrec by assumption.
      rewrite <- app_assoc. simpl.
      destruct (Nat.leb_spec (n + 2) fuel), (Nat.leb_spec (S n + 2) (S fuel));
        auto; lia.
Qed.

(** Every walk to the target leaves the queue at or after the vertex under
    scan, hence is at least one edge longer than that vertex's level. *)
Lemma walk_lower_bound d seen parent P u W0 :
  Inv d seen parent P (u :: W0) ->
  forall xs x,
    isWalk succs (x :: xs) -> last (x :: xs) from = to ->
    In x (P ++ u :: W0) -> d u + 1 <= d x + length xs.
Proof.
  intros I. induction xs as [| y ys IH]; intros x Hw Hl Hx.
  - simpl in Hl. subst x. destruct (bfs_target I Hx).
  - destruct Hw as [Hxy Hw].
    apply in_app_iff in Hx. destruct Hx as [Hx | Hx].
    + edestruct (bfs_closed I) as [Hy Hle]; [exact Hx | exact Hxy |].
      assert (d u + 1 <= d y + length ys).
      { apply IH; auto. }
      simpl. lia.
    + assert (d u <= d x).
      { pose proof (bfs_sorted I) as S. inversion S as [| a l S0 F]; subst.
        rewrite Forall_forall in F. destruct Hx as [<- | Hx]; auto. }
      simpl. lia.
Qed.

(** The queue after a scan, read at the advanced head. *)
Lemma queue_advance (P W0 : list NodeId) (u : NodeId) :
  P ++ u :: W0 = (P ++ [u]) ++ W0 /\ S (length P) = length (P ++ [u]).
Proof. rewrite <- app_assoc, length_app. simpl. split; [reflexivity | lia]. Qed.

(** [shortestPath]'s loop: a returned path is a walk from [from] to [to],
    and no walk between them has fewer nodes. *)
Lemma pathLoop_shortest (fuel : nat) :
  forall d seen parent P W p,
    Inv d seen parent P W ->
    pathLoop succs fuel to seen parent (P ++ W) (length P) = Some (Some p) ->
    walkFromTo succs from to p /\
    forall p', walkFromTo succs from to p' -> length p <= length p'.
Proof.
  induction fuel as [| fuel IH]; intros d seen parent P W p I; cbn [pathLoop];
    [discriminate |].
  rewrite nth_error_at_length. destruct W as [| u W0]; [discriminate |].
  cbn [hd_error].
  pose proof (@pathScan_spec P u (succs u) (incl_refl _) d seen parent W0 I) as Sc.
  destruct (pathScan to u (succs u) seen parent (P ++ u :: W0))
    as [parent' | [[seen' parent'] q']].
  - destruct Sc as (d' & seen' & parent0 & W0' & I' & -> & Hto).
    destruct fuel as [| fuel]; [discriminate |]. cbn [reconstruct].
    rewrite JsMap_get_set_same.
    assert (Hu : In u (P ++ u :: W0')) by (in_list; auto).
    destruct (@reconstruct_spec d' seen' parent0 P (u :: W0')
                (JsMap.set to u parent0) I') with (n := d' u) (v := u)
      as (pth & Hlen & (Hw & Hhd & Hlast) & Hrec); auto.
    { intros x Hx. apply JsMap_get_set_other. intros <-.
      exact (bfs_target I' Hx). }
    rewrite Hrec. destruct (d' u + 2 <=? fuel); [| discriminate].
    intro E. injection E as <-. split.
    + split; [| split].
      * eapply isWalk_snoc; eauto. destruct pth; simpl in *; [lia | discriminate].
      * destruct pth; simpl in *; [lia | assumption].
      * apply last_snoc.
    + intros p' (Hw' & Hhd' & Hlast').
      destruct p' as [| x xs]; [discriminate |]. injection Hhd' as ->.
      assert (d' u + 1 <= d' from + length xs).
      { eapply walk_lower_bound; eauto. apply (bfs_from I'). }
      destruct (bfs_from I') as [_ H0]. rewrite length_app. simpl. lia.
  - destruct Sc as (d' & W0' & -> & I' & Hmono & Hall).
    destruct (queue_advance P W0' u) as [-> ->].
    apply IH with (d := d'). apply BfsInv_advance; assumption.
Qed.

(** [isReachable] and [shortestPath] run the same traversal. *)
Lemma pathLoop_to_reachLoop (fuel : nat) :
  forall seen parent q head,
    match pathLoop succs fuel to seen parent q head with
    | Some (Some _) => reachLoop succs fuel to seen q head = Some true
    | Some None => reachLoop succs fuel to seen q head = Some false
    | None => True
    end.
Proof.
  induction fuel as [| fuel IH]; intros seen parent q head;
    cbn [pathLoop reachLoop]; [exact I |].
  destruct (nth_error q head) as [u |]; [| reflexivity].
  rewrite (scan_simulation u (succs u) seen parent q).
  destruct (pathScan to u (succs u) seen parent q)
    as [parent' | [[seen' parent'] q']].
  - destruct (reconstruct fuel parent' (Some to) []); simpl; auto.
  - apply IH.
Qed.

Lemma reachLoop_to_pathLoop (fuel : nat) :
  forall d seen parent P W,
    Inv d seen parent P W ->
    match reachLoop succs fuel to seen (P ++ W) (length P) with
    | Some true =>
        exists fuel' p,
          pathLoop succs fuel' to seen parent (P ++ W) (length P) = Some (Some p)
    | Some false =>
        pathLoop succs fuel to seen parent (P ++ W) (length P) = Some None
    | None => True
    end.
Proof.
  induction fuel as [| fuel IH]; intros d seen parent P W I;
    cbn [reachLoop]; [exact Logic.I |].
  cbn [pathLoop].
  rewrite nth_error_at_length. destruct W as [| u W0]; [reflexivity |].
  cbn [hd_error].
  rewrite (scan_simulation u (succs u) seen parent (P ++ u :: W0)).
  pose proof (@pathScan_spec P u (succs u) (incl_refl _) d seen parent W0 I) as Sc.
  destruct (pathScan to u (succs u) seen parent (P ++ u :: W0))
    as [parent' | [[seen' parent'] q']] eqn:Escan.
  - destruct Sc as (d' & seen' & parent0 & W0' & I' & -> & Hto).
    assert (Hu : In u (P ++ u :: W0')) by (in_list; auto).
    destruct (@reconstruct_spec d' seen' parent0 P (u :: W0')
                (JsMap.set to u parent0) I') with (n := d' u) (v := u)
      as (pth & Hlen & _ & Hrec); auto.
    { intros x Hx. apply JsMap_get_set_other. intros <-.
      exact (bfs_target I' Hx). }
    exists (S (S (d' u + 2))), (pth ++ [to]).
    cbn [pathLoop]. rewrite nth_error_at_length. cbn [hd_error].
    rewrite Escan. cbn [reconstruct]. rewrite JsMap_get_set_same, Hrec.
    rewrite Nat.leb_refl. reflexivity.
  - destruct Sc as (d' & W0' & -> & I' & Hmono & Hall).
    destruct (queue_advance P W0' u) as [E1 E2].
    specialize (IH d' seen' parent' (P ++ [u]) W0'
                  (BfsInv_advance I' Hall)).
    rewrite <- E1, <- E2 in IH.
    destruct (reachLoop succs fuel to seen' (P ++ u :: W0') (S (length P)))
      as [[|] |]; auto.
    destruct IH as (fuel' & p & Hp). exists (S fuel'), p.
    cbn [pathLoop]. rewrite nth_error_at_length. cbn [hd_error].
    rewrite Escan. exact Hp.
Qed.
End BFS.

Section PathEnumeration.
Variable succs : NodeId -> list NodeId.
Variables from to : NodeId.

Lemma walkFromTo_snoc (u v : NodeId) (path : list NodeId) :
  walkFromTo succs from u path -> In v (succs u) ->
  walkFromTo succs from v (path ++ [v]).
Proof.
  intros (Hw & Hhd & Hlast) Hv.
  destruct path as [| x path]; [discriminate |].
  split; [| split].
  - eapply isWalk_snoc; eauto. discriminate.
  - exact Hhd.
  - apply last_snoc.
Qed.

(** Every path collected by [findAllPaths]' search is a walk from [from] to
    [to]. *)
Lemma allPathsDfs_walks (remaining : nat) :
  forall u path st,
    walkFromTo succs from u path ->
    Forall (walkFromTo succs from to) (fst st) ->
    Forall (walkFromTo succs from to)
           (fst (allPathsDfs succs remaining to u path st)).
Proof.
  induction remaining as [| r IH]; intros u path st Hp Hst; cbn [allPathsDfs].
  - exact Hst.
  - destruct (keqb_spec u to) as [-> | Hne].
    + simpl. apply Forall_app. split; [exact Hst | constructor; auto].
    + assert (Hincl : incl (succs u) (succs u)) by apply incl_refl.
      revert st Hst Hincl. generalize (succs u) at 1 3 as vs.
      induction vs as [| v vs IHvs]; intros st Hst Hincl; cbn [fold_left].
      * exact Hst.
      * apply IHvs.
        -- destruct (JsSet.has v (snd st)); [exact Hst |].
           cbn [fst]. apply IH; [| exact Hst].
           apply walkFromTo_snoc with (u := u); [exact Hp |].
           apply Hincl. left. reflexivity.
        -- intros x Hx. apply Hincl. right. exact Hx.
Qed.

Lemma findAllPaths_walks (maxDepth : Z) (paths : list (list NodeId)) :
  findAllPaths succs from to maxDepth = inr paths ->
  Forall (walkFromTo succs from to) paths.
Proof.
  unfold findAllPaths. destruct (maxDepth <? 0)%Z; [discriminate |].
  intro E.
  replace paths
    with (fst (allPathsDfs succs (S (Z.to_nat maxDepth)) to from [from]
                 ([], [from])))
    by congruence.
  apply allPathsDfs_walks; [| constructor].
  repeat split.
Qed.
End PathEnumeration.

(** C7. When [shortestPath] returns a path, its edge count is at most the
    edge count of every path that [findAllPaths] returns for the same
    endpoints and successor function, whatever the (non-negative) depth
    bound. *)
Theorem shortestPath_not_longer_than_any_found_path
    (succs : NodeId -> list NodeId) (fuel : nat) (from to : NodeId)
    (maxDepth : Z) (p q : list NodeId) (paths : list (list NodeId)) :
  shortestPath succs fuel from to = Some (Some p) ->
  findAllPaths succs from to maxDepth = inr paths ->
  In q paths ->
  edgeCount p <= edgeCount q.
Proof.
  intros Hs Hf Hq. unfold edgeCount.
  apply findAllPaths_walks in Hf. rewrite Forall_forall in Hf.
  specialize (Hf q Hq).
  unfold shortestPath in Hs. destruct (keqb_spec from to) as [E | N].
  - injection Hs as <-. simpl. lia.
  - pose proof (@pathLoop_shortest succs from to fuel _ _ _ [] [from] p
                  (BfsInv_init succs N) Hs) as [_ Hmin].
    specialize (Hmin q Hf). lia.
Qed.

Lemma shortestPath_not_longer_than_any_found_path_witness :
  edgeCount ["A"%string; "B"%string; "D"%string]
    <= edgeCount ["A"%string; "C"%string; "D"%string].
Proof.
  apply (@shortestPath_not_longer_than_any_found_path diamond 10
           "A"%string "D"%string 4%Z
           ["A"%string; "B"%string; "D"%string]
           ["A"%string; "C"%string; "D"%string]
           [["A"%string; "B"%string; "D"%string];
            ["A"%string; "C"%string; "D"%string]]).
  - vm_compute. reflexivity.
  - vm_compute. reflexivity.
  - simpl. auto.
Defined.

(** C9. [shortestPath] returns a path exactly when [isReachable] returns
    true, and it returns null exactly when [isReachable] returns false
    ("returns" is: for some amount of fuel). *)
Theorem shortestPath_iff_isReachable
    (succs : NodeId -> list NodeId) (from to : NodeId) :
  ((exists fuel p, shortestPath succs fuel from to = Some (Some p)) <->
   (exists fuel, isReachable succs fuel from to = Some true)) /\
  ((exists fuel, shortestPath succs fuel from to = Some None) <->
   (exists fuel, isReachable succs fuel from to = Some false)).
Proof.
  unfold shortestPath, isReachable.
  destruct (keqb_spec from to) as [E | N].
  - split; split.
    + intros _. exists 0. reflexivity.
    + intros _. exists 0, [from]. reflexivity.
    + intros [fuel H]. discriminate.
    + intros [fuel H]. discriminate.
  - pose proof (BfsInv_init succs N) as I.
    split; split.
    + intros (fuel & p & Hp). exists fuel.
      pose proof (pathLoop_to_reachLoop succs to fuel [from] JsMap.empty [from] 0) as S.
      rewrite Hp in S. exact S.
    + intros (fuel & Hr).
      pose proof (@reachLoop_to_pathLoop succs from to fuel _ _ _ [] [from] I) as S.
      cbn [app length] in S. rewrite Hr in S. exact S.
    + intros (fuel & Hp). exists fuel.
      pose proof (pathLoop_to_reachLoop succs to fuel [from] JsMap.empty [from] 0) as S.
      rewrite Hp in S. exact S.
    + intros (fuel & Hr). exists fuel.
      pose proof (@reachLoop_to_pathLoop succs from to fuel _ _ _ [] [from] I) as S.
      cbn [app length] in S. rewrite Hr in S. exact S.
Qed.

(** ** Kahn's algorithm *)

Section KahnFacts.
Context {K : Type} `{Key K}.
Variable N : list K.
Variable adj : K -> list K.
Hypothesis N_nodup : NoDup N.
Hypothesis adj_nodup : forall u, In u N -> NoDup (adj u).
Hypothesis adj_incl : forall u, In u N -> incl (adj u) N.

Lemma mem_In (x : K) (l : list K) : existsb (keqb x) l = true <-> In x l.
Proof. exact (JsSet_has_In x l). Qed.

Lemma mem_false (x : K) (l : list K) : existsb (keqb x) l = false <-> ~ In x l.
Proof. exact (JsSet_has_false x l). Qed.

Lemma filter_without (f : K -> bool) (u : K) (l : list K) :
  NoDup l -> In u l ->
  length (filter (fun x => f x && negb (keqb x u)) l)
    + (if f u then 1 else 0)
  = length (filter f l).
Proof.
  induction 1 as [| a l Ha Hl IH]; intros Hu; [destruct Hu |].
  cbn [filter]. destruct Hu as [-> | Hu].
  - rewrite keqb_refl, andb_false_r.
    assert (E : filter (fun x => f x && negb (keqb x u)) l = filter f l).
    { apply filter_ext_in. intros x Hx.
      assert (x <> u) by (intros ->; contradiction).
      apply keqb_neq in H0. rewrite H0. apply andb_true_r. }
    rewrite E. destruct (f u); simpl; lia.
  - assert (Na : a <> u) by (intros ->; contradiction).
    apply keqb_neq in Na. rewrite Na, andb_true_r.
    specialize (IH Hu). destruct (f a); simpl; lia.
Qed.

Lemma pendingCount_snoc (P : list K) (u v : K) :
  In u N -> ~ In u P ->
  pendingCount N adj (P ++ [u]) v
    + (if existsb (keqb v) (adj u) then 1 else 0)
  = pendingCount N adj P v.
Proof.
  intros Hu Hp. unfold pendingCount.
  rewrite <- (@filter_without (pendingPred adj P v) u N N_nodup Hu).
  f_equal.
  - f_equal. apply filter_ext. intro x. unfold pendingPred.
    rewrite existsb_app. simpl. rewrite orb_false_r, negb_orb.
    apply andb_assoc.
  - unfold pendingPred. apply mem_false in Hp. rewrite Hp, andb_true_r.
    reflexivity.
Qed.

Lemma pendingCount_zero (P : list K) (v : K) :
  pendingCount N adj P v = 0 <->
  (forall u, In u N -> In v (adj u) -> In u P).
Proof.
  unfold pendingCount. rewrite length_zero_iff_nil. split.
  - intros E u Hu Hv.
    destruct (existsb (keqb u) P) eqn:Ep; [apply mem_In; exact Ep |].
    assert (Hin : In u (filter (pendingPred adj P v) N)).
    { apply filter_In. split; [exact Hu |]. unfold pendingPred.
      apply mem_In in Hv. rewrite Hv, Ep. reflexivity. }
    rewrite E in Hin. destruct Hin.
  - intros Hall.
    destruct (filter (pendingPred adj P v) N) as [| u l] eqn:E; [reflexivity |].
    assert (Hin : In u (filter (pendingPred adj P v) N)) by (rewrite E; left; reflexivity).
    apply filter_In in Hin. destruct Hin as [Hu Hp].
    unfold pendingPred in Hp. apply andb_true_iff in Hp. destruct Hp as [Hv Hn].
    apply mem_In in Hv.
    rewrite (proj2 (mem_In u P) (Hall u Hu Hv)) in Hn. discriminate.
Qed.

(** The [for] loop over the successors [vs] of the vertex just taken. *)
Lemma kahnVisit_fold (vs : list K) :
  NoDup vs ->
  forall st : KahnState K,
    let st' := fold_left kahnVisit vs st in
    head st' = head st /\ result st' = result st /\
    (forall v, JsMap.get v (inDegree st') =
               if existsb (keqb v) vs
               then Some (JsMap.get v (inDegree st) ?? 0 - 1)%Z
               else JsMap.get v (inDegree st)) /\
    queue st' = queue st ++
      filter (fun v => (JsMap.get v (inDegree st) ?? 0 - 1 =? 0)%Z) vs.
Proof.
  induction 1 as [| v0 vs Hv0 Hvs IH]; intro st; cbn [fold_left].
  - cbv zeta. cbn [existsb filter]. rewrite app_nil_r. auto.
  - specialize (IH (kahnVisit st v0)). cbv zeta in IH.
    destruct IH as (Hh & Hr & Hd & Hq). cbv zeta.
    split; [rewrite Hh; reflexivity |]. split; [rewrite Hr; reflexivity |].
    split.
    + intro v. rewrite Hd. cbn [existsb kahnVisit inDegree].
      rewrite JsMap_get_set.
      destruct (keqb_spec v v0) as [-> | Nv]; cbn [orb].
      * apply mem_false in Hv0. rewrite Hv0. reflexivity.
      * reflexivity.
    + rewrite Hq. cbn [kahnVisit queue inDegree filter].
      assert (E : filter (fun v => (JsMap.get v
                   (JsMap.set v0 (JsMap.get v0 (inDegree st) ?? 0 - 1)%Z
                      (inDegree st)) ?? 0 - 1 =? 0)%Z) vs
                = filter (fun v => (JsMap.get v (inDegree st) ?? 0 - 1 =? 0)%Z) vs).
      { apply filter_ext_in. intros x Hx.
        rewrite JsMap_get_set_other; [reflexivity |].
        intros ->. contradiction. }
      rewrite E.
      destruct ((JsMap.get v0 (inDegree st) ?? 0 - 1 =? 0)%Z).
      * rewrite <- app_assoc. reflexivity.
      * reflexivity.
Qed.

Lemma snoc_split (l1 l2 P : list K) (v u : K) :
  l1 ++ v :: l2 = P ++ [u] ->
  (l2 = [] /\ l1 = P /\ v = u) \/
  (exists l2', l2 = l2' ++ [u] /\ P = l1 ++ v :: l2').
Proof.
  destruct l2 as [| x l2] using rev_ind; intro E.
  - left. change (l1 ++ [v]) with (l1 ++ [v]) in E.
    apply app_inj_tail in E. tauto.
  - right. exists l2.
    change (l1 ++ v :: l2 ++ [x]) with (l1 ++ (v :: l2) ++ [x]) in E.
    rewrite app_assoc in E. apply app_inj_tail in E.
    destruct E as [E ->]. auto.
Qed.

Lemma KahnInv_step (P W0 : list K) (u : K) (st : KahnState K) :
  queue st = P ++ u :: W0 -> head st = length P -> result st = P ->
  KahnInv N adj P (u :: W0) (inDegree st) ->
  let st' := fold_left kahnVisit (adj u) (kahnTake st u) in
  exists W', queue st' = (P ++ [u]) ++ W' /\
             head st' = length (P ++ [u]) /\
             result st' = P ++ [u] /\
             KahnInv N adj (P ++ [u]) W' (inDegree st').
Proof.
  intros Hq Hh Hr I.
  assert (Hu : In u N) by (apply (kahn_incl I); in_list; auto).
  assert (HuP : ~ In u P).
  { pose proof (kahn_nodup I) as ND. apply NoDup_remove_2 in ND.
    intro C. apply ND. in_list. auto. }
  destruct (kahnVisit_fold (adj_nodup u Hu) (kahnTake st u)) as (Eh & Er & Ed & Eq).
  cbv zeta. cbn [kahnTake head result queue inDegree] in Eh, Er, Ed, Eq.
  set (F := filter (fun v => (JsMap.get v (inDegree st) ?? 0 - 1 =? 0)%Z) (adj u)) in *.
  assert (Hcnt : forall v, pendingCount N adj (P ++ [u]) v
                   + (if existsb (keqb v) (adj u) then 1 else 0)
                   = pendingCount N adj P v).
  { intro v. apply pendingCount_snoc; assumption. }
  assert (HF : forall v, In v F <->
                 In v (adj u) /\ pendingCount N adj (P ++ [u]) v = 0).
  { intro v. unfold F. rewrite filter_In. split; intros [Hv Hc]; split; auto.
    - assert (Hn : In v N) by (eapply adj_incl; eauto).
      rewrite (kahn_degree I _ Hn) in Hc. cbn [nullish] in Hc.
      specialize (Hcnt v). rewrite (proj2 (mem_In v (adj u)) Hv) in Hcnt.
      apply Z.eqb_eq in Hc. lia.
    - assert (Hn : In v N) by (eapply adj_incl; eauto).
      rewrite (kahn_degree I _ Hn). cbn [nullish].
      specialize (Hcnt v). rewrite (proj2 (mem_In v (adj u)) Hv) in Hcnt.
      apply Z.eqb_eq. lia. }
  assert (Hqueue : forall v, In v ((P ++ [u]) ++ W0 ++ F) <->
                             In v (P ++ u :: W0) \/ In v F).
  { intro v. in_list. tauto. }
  exists (W0 ++ F). split; [| split; [| split]].
  - rewrite Eq, Hq. rewrite <- !app_assoc. reflexivity.
  - rewrite Eh, Hh, length_app. simpl. lia.
  - rewrite Er, Hr. reflexivity.
  - constructor.
    + replace ((P ++ [u]) ++ W0 ++ F) with ((P ++ u :: W0) ++ F)
        by (rewrite <- !app_assoc; reflexivity).
      apply NoDup_app; [exact (kahn_nodup I) | apply NoDup_filter; auto |].
      intros v Hv HvF. apply HF in HvF. destruct HvF as [Hadj Hz].
      assert (Hn : In v N) by (eapply adj_incl; eauto).
      apply (kahn_queued I _ Hn) in Hv.
      specialize (Hcnt v). rewrite (proj2 (mem_In v (adj u)) Hadj) in Hcnt. lia.
    + intros v Hv. apply Hqueue in Hv. destruct Hv as [Hv | Hv].
      * apply (kahn_incl I). exact Hv.
      * apply HF in Hv. eapply adj_incl; [exact Hu | tauto].
    + intros v Hn. rewrite Ed, (kahn_degree I _ Hn). cbn [nullish].
      specialize (Hcnt v). destruct (existsb (keqb v) (adj u)); f_equal; lia.
    + intros v Hn. rewrite Hqueue, HF, (kahn_queued I _ Hn).
      specialize (Hcnt v). rewrite <- mem_In.
      destruct (existsb (keqb v) (adj u)); split; intros; try lia; intuition.
    + intros l1 v l2 E w Hw Hv.
      symmetry in E.
      apply snoc_split in E. destruct E as [(-> & -> & ->) | (l2' & -> & ->)].
      * assert (Hz : pendingCount N adj P u = 0).
        { apply (kahn_queued I _ Hu). in_list. auto. }
        rewrite pendingCount_zero in Hz. auto.
      * eapply (kahn_ordered I); eauto.
Qed.

(** Enough fuel is one more than the number of vertices not yet taken. *)
Lemma kahnLoop_total (fuel : nat) :
  forall (st : KahnState K) (P W : list K),
    queue st = P ++ W -> head st = length P -> result st = P ->
    KahnInv N adj P W (inDegree st) ->
    length N - length P < fuel ->
    exists st', kahnLoop fuel adj st = Some st' /\
                queue st' = result st' /\
                KahnInv N adj (result st') [] (inDegree st').
Proof.
  induction fuel as [| fuel IH]; intros st P W Hq Hh Hr I Hf; [lia |].
  cbn [kahnLoop]. rewrite Hq, Hh, nth_error_at_length.
  destruct W as [| u W0]; cbn [hd_error].
  - exists st. rewrite Hq, Hr, app_nil_r. auto.
  - destruct (KahnInv_step st Hq Hh Hr I) as (W' & Eq & Eh & Er & I').
    assert (Hlen : length (P ++ u :: W0) <= length N).
    { apply NoDup_incl_length; [apply (kahn_nodup I) | apply (kahn_incl I)]. }
    rewrite length_app in Hlen. simpl in Hlen.
    apply (IH _ (P ++ [u]) W'); auto.
    rewrite length_app. simpl. lia.
Qed.

(** With a rank that grows along every arc, every vertex is output. *)
Lemma kahn_complete (P : list K) (ind : JsMap K Z) (rank : K -> nat) :
  KahnInv N adj P [] ind ->
  (forall u v, In u N -> In v (adj u) -> rank u < rank v) ->
  incl N P.
Proof.
  intros I Hrank.
  assert (G : forall n v, rank v < n -> In v N -> In v P).
  { induction n as [| n IH]; intros v Hv Hn; [lia |].
    pose proof (kahn_queued I _ Hn) as Q. rewrite app_nil_r in Q.
    apply Q. apply pendingCount_zero. intros u Hu Huv.
    apply IH; [| exact Hu]. specialize (Hrank u v Hu Huv). lia. }
  intros v Hv. apply (G (S (rank v))); auto.
Qed.

(** A full output lists every vertex after all its predecessors. *)
Lemma kahn_full_ordered (P : list K) (ind : JsMap K Z) :
  KahnInv N adj P [] ind -> length P = length N ->
  Permutation N P /\
  forall u v, In u N -> In v (adj u) -> occursBefore u v P.
Proof.
  intros I Hlen.
  pose proof (kahn_nodup I) as ND. rewrite app_nil_r in ND.
  pose proof (kahn_incl I) as Hincl. rewrite app_nil_r in Hincl.
  assert (Hfull : incl N P).
  { apply NoDup_length_incl; auto. lia. }
  split.
  - apply NoDup_Permutation; auto. intro x. split; auto.
  - intros u v Hu Hv.
    assert (HvP : In v P) by (apply Hfull; eapply adj_incl; eauto).
    apply in_split in HvP. destruct HvP as (l1 & l2 & E).
    pose proof (kahn_ordered I _ _ _ E _ Hu Hv) as Hl1.
    apply in_split in Hl1. destruct Hl1 as (a & b & ->).
    exists a, b, l2. rewrite E, <- app_assoc. reflexivity.
Qed.

Lemma posIn_app_fresh (x : K) (l1 l2 : list K) :
  ~ In x l1 -> posIn x (l1 ++ l2) = length l1 + posIn x l2.
Proof.
  induction l1 as [| y l1 IH]; intro Hx; simpl; [reflexivity |].
  destruct (keqb_spec x y) as [-> | Ny]; [exfalso; apply Hx; left; reflexivity |].
  rewrite IH; [reflexivity |]. intro C. apply Hx. right. exact C.
Qed.

Lemma occursBefore_posIn (a b : K) (l : list K) :
  NoDup l -> occursBefore a b l -> posIn a l < posIn b l.
Proof.
  intros ND (l1 & l2 & l3 & ->).
  assert (Ha : ~ In a l1).
  { intro C. apply NoDup_remove_2 in ND. apply ND. in_list. auto. }
  rewrite app_comm_cons, app_assoc in ND.
  assert (Hb : ~ In b (l1 ++ a :: l2)).
  { intro C. apply NoDup_remove_2 in ND. apply ND. in_list. tauto. }
  rewrite <- app_assoc, <- app_comm_cons in ND.
  rewrite posIn_app_fresh by exact Ha. cbn [posIn]. rewrite keqb_refl.
  replace (l1 ++ a :: l2 ++ b :: l3) with ((l1 ++ a :: l2) ++ b :: l3)
    by (rewrite <- app_assoc; reflexivity).
  rewrite posIn_app_fresh by exact Hb. rewrite length_app. simpl. lia.
Qed.

(** The invariant at the start: the seeds are the vertices whose in-degree
    entry is zero. *)
Lemma KahnInv_init (ind : JsMap K Z) :
  NoDup (JsMap.keys ind) ->
  (forall v, In v (JsMap.keys ind) <-> In v N) ->
  (forall v, In v N ->
     JsMap.get v ind = Some (Z.of_nat (pendingCount N adj [] v))) ->
  KahnInv N adj [] (kahnSeeds ind) ind.
Proof.
  intros ND Hkeys Hdeg.
  assert (Hseed : forall v, In v (kahnSeeds ind) <->
                    In v N /\ pendingCount N adj [] v = 0).
  { intro v. unfold kahnSeeds. rewrite in_map_iff. split.
    - intros ([k z] & <- & Hin). apply filter_In in Hin.
      destruct Hin as [Hin Hz]. cbn [fst snd] in *.
      assert (Hk : In k N).
      { apply Hkeys. unfold JsMap.keys. apply in_map_iff.
        exists (k, z). auto. }
      split; [exact Hk |].
      assert (G : JsMap.get k ind = Some z).
      { clear - ND Hin. induction ind as [| [k' z'] m IH]; [destruct Hin |].
        cbn [JsMap.get]. unfold JsMap.keys in ND. cbn [map fst] in ND.
        inversion ND as [| ? ? Hk' ND']; subst.
        destruct Hin as [E | Hin].
        - injection E as -> ->. rewrite keqb_refl. reflexivity.
        - destruct (keqb_spec k k') as [-> | Nk].
          + exfalso. apply Hk'. apply in_map_iff. exists (k', z). auto.
          + apply IH; auto. }
      rewrite (Hdeg k Hk) in G. injection G as <-.
      apply Z.eqb_eq in Hz. lia.
    - intros [Hn Hz]. pose proof (Hdeg v Hn) as G. rewrite Hz in G.
      exists (v, 0%Z). split; [reflexivity |]. apply filter_In. split; [| reflexivity].
      clear - G. induction ind as [| [k' z'] m IH]; [discriminate |].
      simpl in G. destruct (keqb_spec v k') as [E | Nk].
      + injection G as G. left. congruence.
      + right. apply IH. exact G. }
  constructor; cbn [app].
  - unfold kahnSeeds. clear - ND. unfold JsMap.keys in ND.
    induction ind as [| [k z] m IH]; cbn [filter map]; [constructor |].
    cbn [map fst] in ND. inversion ND as [| ? ? Hk ND']; subst.
    destruct (snd (k, z) =? 0)%Z; cbn [map fst]; auto.
    constructor; auto. intro C. apply Hk.
    apply in_map_iff in C. destruct C as (p & <- & Hp).
    apply filter_In in Hp. apply in_map. tauto.
  - intros v Hv. apply Hseed in Hv. tauto.
  - exact Hdeg.
  - intros v Hn. rewrite Hseed. tauto.
  - intros l1 v l2 E. destruct l1; discriminate.
Qed.
End KahnFacts.

(** ** Well-formedness of every graph the operations build *)

Section MoreContainerFacts.
Context {K V : Type} `{Key K}.

Lemma JsMap_has_set (k u : K) (v : V) (m : JsMap K V) :
  JsMap.has u (JsMap.set k v m) = keqb u k || JsMap.has u m.
Proof.
  unfold JsMap.has. rewrite JsMap_get_set. destruct (keqb u k); reflexivity.
Qed.

Lemma JsMap_values_set (k : K) (v e : V) (m : JsMap K V) :
  In e (JsMap.values (JsMap.set k v m)) -> e = v \/ In e (JsMap.values m).
Proof.
  unfold JsMap.values. induction m as [| [k' v'] m IH]; simpl.
  - intros [<- | []]. auto.
  - destruct (keqb k k'); simpl; intros [<- | Hin]; auto.
    destruct (IH Hin); auto.
Qed.

Lemma JsSet_add_nonempty (x : K) (s : JsSet K) : 0 < length (JsSet.add x s).
Proof.
  unfold JsSet.add. destruct (JsSet.has x s) eqn:E.
  - destruct s; [discriminate | simpl; lia].
  - rewrite length_app. simpl. lia.
Qed.
End MoreContainerFacts.

Section WellFormedness.
Context {NodeMeta EdgeMeta : Type}.
Local Abbreviation Graph := (DirectedGraph NodeMeta EdgeMeta).

Lemma WellFormed_empty (o : RequiredGraphOptions) :
  WellFormed ({| nodes := JsMap.empty; edges := JsMap.empty;
                 adjacencyList := JsMap.empty;
                 reverseAdjacencyList := JsMap.empty;
                 edgeIndex := JsMap.empty; nextEdgeId := 0;
                 options := o |} : Graph).
Proof.
  constructor; unfold getSuccessors, getPredecessors, hasEdge; simpl;
    try tauto; try (intros; split; [constructor | intros x []]).
  - constructor.
  - intros. split; [discriminate | tauto].
Qed.

Lemma WellFormed_addNode (g : Graph) (id : NodeId) (md : option NodeMeta) :
  WellFormed g -> WellFormed (fst (addNode id md g)).
Proof.
  intro W. unfold addNode, bind, this, modify, throw.
  destruct (JsMap.has id (nodes g)) eqn:Hid; [exact W |].
  unfold set_reverseAdjacencyList, set_adjacencyList, set_nodes. simpl.
  assert (Hadj : JsMap.get id (adjacencyList g) = None).
  { apply JsMap_has_false. rewrite (wf_adj_keys W). exact Hid. }
  assert (Hradj : JsMap.get id (reverseAdjacencyList g) = None).
  { apply JsMap_has_false. rewrite (wf_radj_keys W). exact Hid. }
  match goal with |- WellFormed ?x => set (g' := x) end.
  assert (Hs : forall u, getSuccessors g' u = getSuccessors g u).
  { intro u. unfold getSuccessors, g'. cbn [adjacencyList].
    rewrite JsMap_get_set. destruct (keqb_spec u id) as [-> | N]; auto.
    rewrite Hadj. reflexivity. }
  assert (Hp : forall u, getPredecessors g' u = getPredecessors g u).
  { intro u. unfold getPredecessors, g'. cbn [reverseAdjacencyList].
    rewrite JsMap_get_set. destruct (keqb_spec u id) as [-> | N]; auto.
    rewrite Hradj. reflexivity. }
  assert (Hk : JsMap.keys (nodes g') = JsMap.keys (nodes g) ++ [id]).
  { unfold g'. cbn [nodes]. rewrite JsMap_keys_set, Hid. reflexivity. }
  constructor.
  - rewrite Hk. apply NoDup_app; [apply (wf_nodes W) | repeat constructor; simpl; tauto |].
    intros x Hx [<- | []]. apply JsMap_has_In_keys in Hx. congruence.
  - intro u. unfold g'. cbn [adjacencyList nodes].
    rewrite !JsMap_has_set, (wf_adj_keys W). reflexivity.
  - intro u. unfold g'. cbn [reverseAdjacencyList nodes].
    rewrite !JsMap_has_set, (wf_radj_keys W). reflexivity.
  - intro u. rewrite Hs, Hk. destruct (wf_succ W u). split; auto.
    apply incl_appl. assumption.
  - intro u. rewrite Hp, Hk. destruct (wf_pred W u). split; auto.
    apply incl_appl. assumption.
  - intros u v. rewrite Hs, Hp. apply (wf_mirror W).
  - intros u v. rewrite Hs. apply (wf_index W).
  - intros e He. rewrite Hs. apply (wf_edges W). exact He.
Qed.

Lemma WellFormed_set_nextEdgeId (g : Graph) (n : nat) :
  WellFormed g -> WellFormed (set_nextEdgeId n g).
Proof.
  intro W. constructor.
  - exact (wf_nodes W).
  - exact (wf_adj_keys W).
  - exact (wf_radj_keys W).
  - exact (wf_succ W).
  - exact (wf_pred W).
  - exact (wf_mirror W).
  - exact (wf_index W).
  - exact (wf_edges W).
Qed.

Lemma WellFormed_insertEdge (g : Graph) (from to : NodeId) (id : EdgeId)
    (md : option EdgeMeta) :
  WellFormed g ->
  JsMap.has from (nodes g) = true -> JsMap.has to (nodes g) = true ->
  WellFormed (insertEdge from to id md g).
Proof.
  intros W Hfrom Hto.
  assert (Hfa : JsMap.has from (adjacencyList g) = true)
    by (rewrite (wf_adj_keys W); exact Hfrom).
  assert (Htr : JsMap.has to (reverseAdjacencyList g) = true)
    by (rewrite (wf_radj_keys W); exact Hto).
  unfold insertEdge, JsMap.has in *. cbv zeta.
  unfold set_reverseAdjacencyList, set_adjacencyList, set_edgeIndex, set_edges.
  simpl.
  destruct (JsMap.get from (adjacencyList g)) as [fromAdj |] eqn:Efa;
    [| discriminate].
  simpl. destruct (JsMap.get to (reverseAdjacencyList g)) as [toRev |] eqn:Etr;
    [| discriminate].
  match goal with |- WellFormed ?x => set (g' := x) end.
  assert (Hs : forall u, getSuccessors g' u =
             if keqb u from then JsSet.add to (getSuccessors g from)
             else getSuccessors g u).
  { intro u. unfold getSuccessors, g'. cbn [adjacencyList].
    rewrite JsMap_get_set, Efa. destruct (keqb u from); reflexivity. }
  assert (Hp : forall v, getPredecessors g' v =
             if keqb v to then JsSet.add from (getPredecessors g to)
             else getPredecessors g v).
  { intro v. unfold getPredecessors, g'. cbn [reverseAdjacencyList].
    rewrite JsMap_get_set, Etr. destruct (keqb v to); reflexivity. }
  assert (HsIn : forall u v, In v (getSuccessors g' u) <->
                   (u = from /\ v = to) \/ In v (getSuccessors g u)).
  { intros u v. rewrite Hs. destruct (keqb_spec u from) as [-> | N].
    - rewrite JsSet_In_add. tauto.
    - tauto. }
  assert (HpIn : forall u v, In u (getPredecessors g' v) <->
                   (u = from /\ v = to) \/ In u (getPredecessors g v)).
  { intros u v. rewrite Hp. destruct (keqb_spec v to) as [-> | N].
    - rewrite JsSet_In_add. tauto.
    - tauto. }
  assert (HfromN : In from (JsMap.keys (nodes g))).
  { apply JsMap_has_In_keys. unfold JsMap.has.
    destruct (JsMap.get from (nodes g)); congruence. }
  assert (HtoN : In to (JsMap.keys (nodes g))).
  { apply JsMap_has_In_keys. unfold JsMap.has.
    destruct (JsMap.get to (nodes g)); congruence. }
  constructor.
  - exact (wf_nodes W).
  - intro u. unfold g'. simpl. rewrite JsMap_has_set, (wf_adj_keys W).
    destruct (keqb_spec u from) as [-> | N]; [| reflexivity].
    simpl. symmetry. unfold JsMap.has.
    destruct (JsMap.get from (nodes g)); congruence.
  - intro u. unfold g'. simpl. rewrite JsMap_has_set, (wf_radj_keys W).
    destruct (keqb_spec u to) as [-> | N]; [| reflexivity].
    simpl. symmetry. unfold JsMap.has.
    destruct (JsMap.get to (nodes g)); congruence.
  - intro u. split.
    + rewrite Hs. destruct (keqb u from); [| apply (wf_succ W)].
      apply JsSet_NoDup_add. apply (wf_succ W).
    + intros v Hv. apply HsIn in Hv. destruct Hv as [[-> ->] | Hv].
      * exact HtoN.
      * apply (wf_succ W u). exact Hv.
  - intro v. split.
    + rewrite Hp. destruct (keqb v to); [| apply (wf_pred W)].
      apply JsSet_NoDup_add. apply (wf_pred W).
    + intros u Hu. apply HpIn in Hu. destruct Hu as [[-> ->] | Hu].
      * exact HfromN.
      * apply (wf_pred W v). exact Hu.
  - intros u v. rewrite HsIn, HpIn, (wf_mirror W). tauto.
  - intros u v. rewrite HsIn, <- (wf_index W).
    unfold hasEdge, g'. simpl. rewrite JsMap_get_set.
    destruct (keqb_spec (getEdgeKey u v) (getEdgeKey from to)) as [E | N].
    + apply getEdgeKey_inj in E. destruct E as [-> ->].
      pose proof (JsSet_add_nonempty id
                    (JsMap.get (getEdgeKey from to) (edgeIndex g) ?? JsSet.empty)).
      unfold JsSet.size. split; [auto |]. intros _. apply Nat.ltb_lt. assumption.
    + split; [auto |]. intros [[-> ->] | Hh]; [congruence | exact Hh].
  - intros e He. unfold g' in He. simpl in He.
    apply JsMap_values_set in He. apply HsIn. destruct He as [-> | He].
    + left. simpl. auto.
    + right. apply (wf_edges W). exact He.
Qed.

Lemma addEdge_state (g : Graph) (from to : NodeId) (md : option EdgeMeta) :
  fst (addEdge from to md g) = g \/
  (JsMap.has from (nodes g) = true /\ JsMap.has to (nodes g) = true /\
   exists id g0, (g0 = g \/ g0 = set_nextEdgeId (S (nextEdgeId g)) g) /\
                 fst (addEdge from to md g) = insertEdge from to id md g0).
Proof.
  unfold addEdge, bind, this, throw.
  destruct (JsMap.has from (nodes g)); [| left; reflexivity].
  destruct (JsMap.has to (nodes g)); [| left; reflexivity].
  cbn [negb].
  destruct (negb (allowSelfLoops (options g)) && keqb from to);
    [left; reflexivity |].
  destruct (negb (allowMultiEdges (options g)) &&
            JsMap.has (getEdgeKey from to) (edgeIndex g));
    [left; reflexivity |].
  right. split; [reflexivity |]. split; [reflexivity |].
  unfold when, validateEdgeInvariants, modify, bind, this, throw, ret.
  destruct (allowMultiEdges (options g)).
  - exists (getEdgeKey from to +++ "#" +++ num_to_string (nextEdgeId g))%string,
           (set_nextEdgeId (S (nextEdgeId g)) g).
    split; [right; reflexivity |].
    unfold insertEdge. cbv zeta. simpl.
    repeat destruct_innermost; reflexivity.
  - exists (getEdgeKey from to), g.
    split; [left; reflexivity |].
    unfold insertEdge. cbv zeta. simpl.
    repeat destruct_innermost; reflexivity.
Qed.

(** Every graph built through the public operations is well formed. *)
Lemma Built_WellFormed (g : Graph) : Built g -> WellFormed g.
Proof.
  induction 1 as [o | g id md B IH | g from to md B IH | g B IH].
  - apply WellFormed_empty.
  - apply WellFormed_addNode. exact IH.
  - destruct (addEdge_state g from to md)
      as [-> | (Hf & Ht & id & g0 & [-> | ->] & ->)].
    + exact IH.
    + apply WellFormed_insertEdge; assumption.
    + apply WellFormed_insertEdge;
        [apply WellFormed_set_nextEdgeId; exact IH | exact Hf | exact Ht].
  - apply WellFormed_empty.
Qed.
End WellFormedness.

(** ** Tarjan's algorithm: [findSCCs] *)

Section FilterFacts.
Context {A : Type}.

Lemma filter_length_mono (f h : A -> bool) (l : list A) :
  (forall x, In x l -> f x = true -> h x = true) ->
  length (filter f l) <= length (filter h l).
Proof.
  induction l as [| a l IH]; intro Hfh; simpl; [lia |].
  assert (IH' : length (filter f l) <= length (filter h l)).
  { apply IH. intros x Hx. apply Hfh. right. exact Hx. }
  destruct (f a) eqn:Ef.
  - rewrite (Hfh a (or_introl eq_refl) Ef). simpl. lia.
  - destruct (h a); simpl; lia.
Qed.

Lemma filter_length_strict (f h : A -> bool) (l : list A) (v : A) :
  (forall x, In x l -> f x = true -> h x = true) ->
  In v l -> f v = false -> h v = true ->
  length (filter f l) < length (filter h l).
Proof.
  induction l as [| a l IH]; intros Hfh Hv Hf Hh; [destruct Hv |].
  assert (Hfh' : forall x, In x l -> f x = true -> h x = true).
  { intros x Hx. apply Hfh. right. exact Hx. }
  simpl. destruct Hv as [-> | Hv].
  - rewrite Hf, Hh. simpl.
    pose proof (filter_length_mono f h l Hfh'). lia.
  - specialize (IH Hfh' Hv Hf Hh).
    destruct (f a) eqn:Ef.
    + rewrite (Hfh a (or_introl eq_refl) Ef). simpl. lia.
    + destruct (h a); simpl; lia.
Qed.

Lemma StronglySorted_app_r (R : A -> A -> Prop) (l1 l2 : list A) :
  StronglySorted R (l1 ++ l2) -> StronglySorted R l2.
Proof.
  induction l1 as [| a l1 IH]; simpl; intro S; [exact S |].
  inversion S; subst. auto.
Qed.

Lemma StronglySorted_app_lt (R : A -> A -> Prop) (l1 l2 : list A) :
  StronglySorted R (l1 ++ l2) ->
  forall x y, In x l1 -> In y l2 -> R x y.
Proof.
  induction l1 as [| a l1 IH]; simpl; intros S x y Hx Hy; [destruct Hx |].
  inversion S as [| ? ? S' F]; subst. destruct Hx as [<- | Hx].
  - rewrite Forall_forall in F. apply F. apply in_app_iff. auto.
  - apply IH; auto.
Qed.
End FilterFacts.

Section TarjanFacts.
Context {NodeMeta EdgeMeta : Type}.
Variable g : DirectedGraph NodeMeta EdgeMeta.
Hypothesis g_wf : WellFormed g.

Local Abbreviation N := (JsMap.keys (nodes g)).
Local Abbreviation succs := (getSuccessors g).

Lemma visited_get (s : TarjanState) (x : NodeId) :
  visited s x <-> exists i, JsMap.get x (index s) = Some i.
Proof.
  unfold visited, JsMap.has. destruct (JsMap.get x (index s)).
  - split; eauto.
  - split; [discriminate | intros [i E]; discriminate].
Qed.

Lemma not_visited_get (s : TarjanState) (x : NodeId) :
  ~ visited s x <-> JsMap.get x (index s) = None.
Proof.
  unfold visited, JsMap.has. destruct (JsMap.get x (index s));
    split; congruence.
Qed.

Lemma indexOf_get (s : TarjanState) (x : NodeId) (i : nat) :
  JsMap.get x (index s) = Some i -> indexOf s x = i.
Proof. unfold indexOf. intros ->. reflexivity. Qed.

Lemma indexOf_old (s s' : TarjanState) (x : NodeId) :
  JsMap.get x (index s') = JsMap.get x (index s) -> indexOf s' x = indexOf s x.
Proof. unfold indexOf. intros ->. reflexivity. Qed.

Lemma emittedAt_extend (s s' : TarjanState) (new : list SCC) x i :
  sccs s' = sccs s ++ new -> emittedAt s x i -> emittedAt s' x i.
Proof.
  intros E (c & Hc & Hx). exists c. split; [| exact Hx].
  rewrite E. rewrite nth_error_app1; [exact Hc |].
  apply nth_error_Some. congruence.
Qed.

Lemma emitted_extend (s s' : TarjanState) (new : list SCC) x :
  sccs s' = sccs s ++ new -> emitted s x -> emitted s' x.
Proof. intros E [i H]. exists i. eapply emittedAt_extend; eauto. Qed.

Lemma emittedAt_lt (s : TarjanState) x i :
  emittedAt s x i -> i < length (sccs s).
Proof. intros (c & Hc & _). apply nth_error_Some. congruence. Qed.

Lemma emittedAt_snoc (s s' : TarjanState) (c : SCC) x i :
  sccs s' = sccs s ++ [c] -> emittedAt s' x i ->
  emittedAt s x i \/ (i = length (sccs s) /\ In x (scc_nodes c)).
Proof.
  intros E (c' & Hc & Hx). rewrite E in Hc.
  destruct (Nat.lt_ge_cases i (length (sccs s))) as [L | L].
  - left. exists c'. rewrite nth_error_app1 in Hc by exact L. auto.
  - right. rewrite nth_error_app2 in Hc by exact L.
    destruct (i - length (sccs s)) as [| k] eqn:Ek.
    + simpl in Hc. injection Hc as <-. split; [lia | exact Hx].
    + simpl in Hc. destruct k; discriminate.
Qed.

Lemma unvisitedCount_le (s s' : TarjanState) :
  (forall x, visited s x -> visited s' x) ->
  unvisitedCount g s' <= unvisitedCount g s.
Proof.
  intro Hm. unfold unvisitedCount. apply filter_length_mono.
  intros x _ Hx. apply negb_true_iff in Hx. apply negb_true_iff.
  destruct (JsMap.has x (index s)) eqn:E; [| reflexivity].
  specialize (Hm x E). unfold visited in Hm. congruence.
Qed.

Lemma unvisitedCount_lt (s s' : TarjanState) (v : NodeId) :
  (forall x, visited s x -> visited s' x) ->
  In v N -> ~ visited s v -> visited s' v ->
  unvisitedCount g s' < unvisitedCount g s.
Proof.
  intros Hm Hv Hn Hv'. unfold unvisitedCount.
  apply filter_length_strict with (v := v); auto.
  - intros x _ Hx. apply negb_true_iff in Hx. apply negb_true_iff.
    destruct (JsMap.has x (index s)) eqn:E; [| reflexivity].
    specialize (Hm x E). unfold visited in Hm. congruence.
  - unfold visited in Hv'. rewrite Hv'. reflexivity.
  - unfold visited in Hn. destruct (JsMap.has v (index s)); [tauto | reflexivity].
Qed.

(** A settled successor stays settled while components and stack entries
    are only added and the bound only decreases. *)
Lemma settled_transport (s s' : TarjanState) (low low' : nat) (w : NodeId)
    (newc : list SCC) (news : list NodeId) :
  TarjanInv g s ->
  sccs s' = sccs s ++ newc ->
  stack s' = news ++ stack s ->
  (forall x, visited s x -> JsMap.get x (index s') = JsMap.get x (index s)) ->
  low' <= low ->
  settled s low w -> settled s' low' w.
Proof.
  intros I Ec Es Hi Hl [He | [Hs Hb]].
  - left. eapply emitted_extend; eauto.
  - right. split.
    + rewrite Es. apply in_app_iff. auto.
    + rewrite (indexOf_old s s' w); [lia |].
      apply Hi. apply (tj_stack_visited I). exact Hs.
Qed.

Lemma lowlinkMin_eq (v : NodeId) (L m : nat) (s : TarjanState) :
  JsMap.get v (lowlink s) = Some L ->
  lowlinkMin v (Some m) s = Some (setLow v (Nat.min L m) s).
Proof. unfold lowlinkMin. intros ->. reflexivity. Qed.

Lemma has_get_some {V : Type} (x : NodeId) (m : JsMap NodeId V) :
  JsMap.has x m = true -> exists y, JsMap.get x m = Some y.
Proof. unfold JsMap.has. destruct (JsMap.get x m); [eauto | discriminate]. Qed.

Lemma get_some_has {V : Type} (x : NodeId) (m : JsMap NodeId V) (y : V) :
  JsMap.get x m = Some y -> JsMap.has x m = true.
Proof. unfold JsMap.has. intros ->. reflexivity. Qed.

Lemma TarjanInv_setLow (s : TarjanState) (v : NodeId) (n : nat) :
  TarjanInv g s -> visited s v -> TarjanInv g (setLow v n s).
Proof.
  intros I Hv. constructor.
  - intro x. cbn [setLow lowlink index]. rewrite JsMap_has_set, (tj_low_keys I).
    destruct (keqb_spec x v) as [-> | Nx]; [| reflexivity].
    simpl. symmetry. exact Hv.
  - exact (tj_index_lt I).
  - exact (tj_onStack I).
  - exact (tj_stack_visited I).
  - exact (tj_stack_sorted I).
  - exact (tj_visited I).
  - exact (tj_emitted I).
  - exact (tj_closed I).
  - exact (tj_unique I).
  - exact (tj_ids I).
  - exact (tj_flags I).
Qed.

(** Entering [strongConnect(v)]: the state after the pushes. *)
Lemma TarjanLoop_init (s0 : TarjanState) (v : NodeId) :
  TarjanInv g s0 -> ~ visited s0 v -> In v N ->
  TarjanLoop g s0 v (pushNode v s0) [].
Proof.
  intros I Hn Hv.
  assert (Hold : forall x, visited s0 x ->
            JsMap.get x (index (pushNode v s0)) = JsMap.get x (index s0)).
  { intros x Hx. cbn [pushNode index]. apply JsMap_get_set_other.
    intros ->. contradiction. }
  assert (Hiv : JsMap.get v (index (pushNode v s0)) = Some (currentIndex s0)).
  { cbn [pushNode index]. apply JsMap_get_set_same. }
  assert (Hvis : forall x, visited (pushNode v s0) x <-> x = v \/ visited s0 x).
  { intro x. unfold visited. cbn [pushNode index]. rewrite JsMap_has_set.
    destruct (keqb_spec x v) as [-> | Nx]; simpl; intuition. }
  assert (Hem : forall x i, emittedAt (pushNode v s0) x i <-> emittedAt s0 x i)
    by (intros; reflexivity).
  assert (Hidx : forall x, In x (stack s0) ->
            indexOf (pushNode v s0) x = indexOf s0 x).
  { intros x Hx. apply indexOf_old, Hold, (tj_stack_visited I), Hx. }
  constructor.
  - constructor.
    + intro x. cbn [pushNode lowlink index]. rewrite !JsMap_has_set, (tj_low_keys I).
      reflexivity.
    + intros x Hx. cbn [pushNode currentIndex]. apply Hvis in Hx.
      destruct (key_eq_dec x v) as [-> | Nx].
      * rewrite (indexOf_get _ _ Hiv). lia.
      * destruct Hx as [-> | Hx]; [congruence |].
        rewrite (indexOf_old s0 (pushNode v s0) x (Hold x Hx)).
        pose proof ((tj_index_lt I) x Hx). lia.
    + intro x. cbn [pushNode onStack stack]. rewrite JsSet_has_In, JsSet_In_add.
      pose proof ((tj_onStack I) x) as T. rewrite JsSet_has_In in T.
      simpl. intuition.
    + intros x [<- | Hx]; apply Hvis; [left; reflexivity | right].
      apply (tj_stack_visited I). exact Hx.
    + cbn [pushNode stack]. constructor.
      * eapply StronglySorted_ext; [| exact (tj_stack_sorted I)].
        intros x y Hx Hy. rewrite !Hidx by assumption. auto.
      * apply Forall_forall. intros x Hx.
        rewrite (indexOf_get _ _ Hiv), (Hidx x Hx).
        apply (tj_index_lt I). apply (tj_stack_visited I). exact Hx.
    + intros x Hx. apply Hvis in Hx. destruct Hx as [-> | Hx].
      * left. left. reflexivity.
      * destruct ((tj_visited I) x Hx) as [Hs | He]; [left; right; exact Hs |].
        right. exact He.
    + intros x Hx. destruct ((tj_emitted I) x Hx) as [Hx1 Hx2]. split.
      * apply Hvis. right. exact Hx1.
      * intros [<- | C]; [contradiction | contradiction].
    + exact (tj_closed I).
    + exact (tj_unique I).
    + exact (tj_ids I).
    + exact (tj_flags I).
  - exact Hold.
  - exact Hn.
  - intros x Hx. cbn [pushNode lowlink]. apply JsMap_get_set_other.
    intros ->. contradiction.
  - exact Hiv.
  - exists (currentIndex s0). split; [| split].
    + cbn [pushNode lowlink]. apply JsMap_get_set_same.
    + lia.
    + intros b Hb _. exact Hb.
  - exists []. cbn [pushNode sccs]. rewrite app_nil_r. reflexivity.
  - exists []. split; [reflexivity |]. split; [intros x [] | intros u w []].
  - intros w [].
  - apply unvisitedCount_lt with (v := v); auto.
    + intros x Hx. apply Hvis. right. exact Hx.
    + apply Hvis. left. reflexivity.
Qed.

Lemma settled_lower (s : TarjanState) (low low' : nat) (w : NodeId) :
  low' <= low -> settled s low w -> settled s low' w.
Proof. intros Hl [He | [Hs Hb]]; [left | right; split]; auto. lia. Qed.

Lemma TarjanLoop_visited_old (s0 s : TarjanState) v done x :
  TarjanLoop g s0 v s done -> visited s0 x -> visited s x.
Proof.
  intros T Hx. pose proof ((tl_index_old T) x Hx) as E.
  apply visited_get in Hx. destruct Hx as [i Hi].
  apply visited_get. exists i. congruence.
Qed.

Lemma TarjanLoop_visited_v (s0 s : TarjanState) v done :
  TarjanLoop g s0 v s done -> visited s v.
Proof. intro T. apply visited_get. eexists. exact (tl_index_v T). Qed.

Lemma TarjanLoop_stack_bound (s0 s : TarjanState) v done (b : nat) :
  TarjanInv g s0 -> TarjanLoop g s0 v s done ->
  b <= currentIndex s0 ->
  (forall x, In x (stack s0) -> b <= indexOf s0 x) ->
  forall x, In x (stack s) -> b <= indexOf s x.
Proof.
  intros I0 T Hb Hs0 x Hx.
  destruct (tl_stack T) as (above & Es & Hab & _).
  rewrite Es in Hx. apply in_app_iff in Hx. destruct Hx as [Hx | [<- | Hx]].
  - specialize (Hab x Hx). lia.
  - rewrite (indexOf_get _ _ (tl_index_v T)). exact Hb.
  - rewrite (indexOf_old s0 s x).
    + apply Hs0. exact Hx.
    + apply (tl_index_old T). apply (tj_stack_visited I0). exact Hx.
Qed.

(** The successor is on the stack: [lowlink(v)] takes its index into
    account. *)
Lemma TarjanLoop_onstack (s0 s : TarjanState) v done w :
  TarjanInv g s0 -> TarjanLoop g s0 v s done -> In w (stack s) ->
  exists s', lowlinkMin v (JsMap.get w (index s)) s = Some s' /\
             TarjanLoop g s0 v s' (done ++ [w]).
Proof.
  intros I0 T Hw.
  pose proof (tl_inv T) as I.
  destruct (tl_low_v T) as (L & HL & HLle & HLb).
  assert (Hwv : visited s w) by (apply (tj_stack_visited I); exact Hw).
  apply visited_get in Hwv. destruct Hwv as [iw Hiw].
  rewrite Hiw, (lowlinkMin_eq v iw s HL). eexists. split; [reflexivity |].
  assert (Hlow : lowOf (setLow v (Nat.min L iw) s) v = Nat.min L iw).
  { unfold lowOf. cbn [setLow lowlink]. rewrite JsMap_get_set_same. reflexivity. }
  assert (HlowOld : lowOf s v = L) by (unfold lowOf; rewrite HL; reflexivity).
  destruct (tl_stack T) as (above & Es & Hab & Hset).
  constructor.
  - apply TarjanInv_setLow; [exact I | exact (TarjanLoop_visited_v T)].
  - exact (tl_index_old T).
  - exact (tl_fresh T).
  - intros x Hx. cbn [setLow lowlink]. rewrite JsMap_get_set_other.
    + apply (tl_low_old T). exact Hx.
    + intros ->. exact ((tl_fresh T) Hx).
  - exact (tl_index_v T).
  - exists (Nat.min L iw). split; [| split].
    + cbn [setLow lowlink]. apply JsMap_get_set_same.
    + lia.
    + intros b Hb Hs0. apply Nat.min_glb; [apply HLb; assumption |].
      rewrite <- (indexOf_get _ _ Hiw).
      apply (TarjanLoop_stack_bound I0 T Hb Hs0). exact Hw.
  - exact (tl_sccs T).
  - exists above. split; [exact Es |]. split; [exact Hab |].
    intros u x Hu Hx. rewrite Hlow.
    apply (settled_lower (s := s) (low := L)); [lia |].
    rewrite <- HlowOld. eapply Hset; eauto.
  - intros x Hx. rewrite Hlow. apply in_app_iff in Hx.
    destruct Hx as [Hx | [<- | []]].
    + apply (settled_lower (s := s) (low := L)); [lia |].
      rewrite <- HlowOld. apply (tl_done T). exact Hx.
    + right. split; [exact Hw |].
      change (indexOf (setLow v (Nat.min L iw) s) w) with (indexOf s w).
      rewrite (indexOf_get _ _ Hiw). lia.
  - exact (tl_count T).
Qed.

(** The successor was visited and has left the stack: nothing changes. *)
Lemma TarjanLoop_skip (s0 s : TarjanState) v done w :
  TarjanLoop g s0 v s done -> visited s w -> ~ In w (stack s) ->
  TarjanLoop g s0 v s (done ++ [w]).
Proof.
  intros T Hv Hs. constructor; try apply T.
  intros x Hx. apply in_app_iff in Hx. destruct Hx as [Hx | [<- | []]].
  - apply (tl_done T). exact Hx.
  - left. destruct ((tj_visited (tl_inv T)) w Hv); [contradiction | assumption].
Qed.

(** The successor was unvisited: the recursive call returns in [s'], then
    [lowlink(v)] takes [lowlink(w)] into account. *)
Lemma TarjanLoop_call (s0 s s' : TarjanState) v done w :
  TarjanInv g s0 -> TarjanLoop g s0 v s done ->
  TarjanPost g s w s' ->
  exists s'', lowlinkMin v (JsMap.get w (lowlink s')) s' = Some s'' /\
              TarjanLoop g s0 v s'' (done ++ [w]).
Proof.
  intros I0 T Q.
  pose proof (tl_inv T) as I. pose proof (tp_inv Q) as I'.
  destruct (tl_low_v T) as (L & HL & HLle & HLb).
  pose proof (TarjanLoop_visited_v T) as Hvs.
  assert (HL' : JsMap.get v (lowlink s') = Some L).
  { rewrite ((tp_low_old Q) v Hvs). exact HL. }
  assert (Hiv' : JsMap.get v (index s') = Some (currentIndex s0)).
  { rewrite ((tp_index_old Q) v Hvs). exact (tl_index_v T). }
  assert (Hwv : visited s' w).
  { apply visited_get. eexists. exact (tp_index_v Q). }
  assert (Hwl : exists Lw, JsMap.get w (lowlink s') = Some Lw).
  { apply has_get_some. rewrite (tj_low_keys I'). exact Hwv. }
  destruct Hwl as [Lw HLw].
  assert (HlowW : lowOf s' w = Lw) by (unfold lowOf; rewrite HLw; reflexivity).
  rewrite HLw, (lowlinkMin_eq v Lw s' HL'). eexists. split; [reflexivity |].
  set (s'' := setLow v (Nat.min L Lw) s').
  assert (Hlow : lowOf s'' v = Nat.min L Lw).
  { unfold lowOf, s''. cbn [setLow lowlink]. rewrite JsMap_get_set_same.
    reflexivity. }
  assert (HlowOld : lowOf s v = L) by (unfold lowOf; rewrite HL; reflexivity).
  assert (Hci : currentIndex s0 < currentIndex s).
  { pose proof ((tj_index_lt I) v Hvs) as X.
    rewrite (indexOf_get _ _ (tl_index_v T)) in X. exact X. }
  destruct (tl_stack T) as (above & Es & Hab & Hset).
  destruct (tp_stack Q) as (new & Es' & Hnew & Hsetn & _).
  destruct (tl_sccs T) as (c1 & Ec1). destruct (tp_sccs Q) as (c2 & Ec2).
  assert (Htrans : forall low x, low <= L -> settled s L x -> settled s'' low x).
  { intros low x Hl Hx.
    exact (@settled_transport s s' L low x c2 new I Ec2 Es'
             (tp_index_old Q) Hl Hx). }
  constructor.
  - apply TarjanInv_setLow; [exact I' |].
    apply visited_get. eexists. exact Hiv'.
  - intros x Hx. cbn [s'' setLow index].
    rewrite ((tp_index_old Q) x (TarjanLoop_visited_old T Hx)).
    apply (tl_index_old T). exact Hx.
  - exact (tl_fresh T).
  - intros x Hx. cbn [s'' setLow lowlink]. rewrite JsMap_get_set_other.
    + rewrite ((tp_low_old Q) x (TarjanLoop_visited_old T Hx)).
      apply (tl_low_old T). exact Hx.
    + intros ->. exact ((tl_fresh T) Hx).
  - exact Hiv'.
  - exists (Nat.min L Lw). split; [| split].
    + cbn [s'' setLow lowlink]. apply JsMap_get_set_same.
    + lia.
    + intros b Hb Hs0. apply Nat.min_glb; [apply HLb; assumption |].
      rewrite <- HlowW. apply (tp_low_bound Q); [lia |].
      apply (TarjanLoop_stack_bound I0 T Hb Hs0).
  - exists (c1 ++ c2). cbn [s'' setLow sccs]. rewrite Ec2, Ec1, app_assoc.
    reflexivity.
  - exists (new ++ above). split; [| split].
    + cbn [s'' setLow stack]. rewrite Es', Es, app_assoc. reflexivity.
    + intros x Hx. change (indexOf s'' x) with (indexOf s' x).
      apply in_app_iff in Hx. destruct Hx as [Hx | Hx].
      * specialize (Hnew x Hx). lia.
      * rewrite (indexOf_old s s' x); [apply Hab; exact Hx |].
        apply (tp_index_old Q). apply (tj_stack_visited I).
        rewrite Es. apply in_app_iff. auto.
    + intros u x Hu Hx. rewrite Hlow. apply in_app_iff in Hu.
      destruct Hu as [Hu | Hu].
      * apply (settled_lower (s := s') (low := Lw)); [lia |].
        rewrite <- HlowW. eapply Hsetn; eauto.
      * apply Htrans; [lia |]. rewrite <- HlowOld. eapply Hset; eauto.
  - intros x Hx. rewrite Hlow. apply in_app_iff in Hx.
    destruct Hx as [Hx | [<- | []]].
    + apply Htrans; [lia |]. rewrite <- HlowOld. apply (tl_done T). exact Hx.
    + destruct ((tj_visited I') w Hwv) as [Hs | He].
      * right. split; [exact Hs |].
        change (indexOf s'' w) with (indexOf s' w).
        rewrite (indexOf_get _ _ (tp_index_v Q)). lia.
      * left. exact He.
  - pose proof (tp_count Q). pose proof (tl_count T).
    change (unvisitedCount g s'') with (unvisitedCount g s'). lia.
Qed.

Lemma popComponent_spec (v : NodeId) (above : list NodeId) :
  forall rest os acc,
    ~ In v above ->
    popComponent v (above ++ v :: rest) os acc
      = Some (rest,
              fold_left (fun o w => JsSet.delete w o) (above ++ [v]) os,
              acc ++ above ++ [v]).
Proof.
  induction above as [| a above IH]; intros rest os acc Hv;
    cbn [popComponent app fold_left].
  - rewrite keqb_refl. reflexivity.
  - destruct (keqb_spec a v) as [-> | Na]; [exfalso; apply Hv; left; reflexivity |].
    rewrite IH by (intro C; apply Hv; right; exact C).
    rewrite <- app_assoc. reflexivity.
Qed.

Lemma In_fold_delete (l : list NodeId) :
  forall (os : JsSet NodeId) (x : NodeId),
    In x (fold_left (fun o w => JsSet.delete w o) l os) <->
    In x os /\ ~ In x l.
Proof.
  induction l as [| a l IH]; intros os x; cbn [fold_left].
  - simpl. tauto.
  - rewrite IH, JsSet_In_delete. simpl. intuition.
Qed.

Lemma stack_split_assoc (above rest : list NodeId) (v : NodeId) :
  above ++ v :: rest = (above ++ [v]) ++ rest.
Proof. rewrite <- app_assoc. reflexivity. Qed.

(** Leaving [strongConnect(v)] once every successor has been handled. *)
Lemma TarjanLoop_close (s0 s : TarjanState) (v : NodeId) :
  TarjanInv g s0 -> TarjanLoop g s0 v s (succs v) ->
  exists s', closeComponent g v s = Some s' /\ TarjanPost g s0 v s'.
Proof.
  intros I0 T.
  pose proof (tl_inv T) as I.
  destruct (tl_low_v T) as (L & HL & HLle & HLb).
  pose proof (tl_index_v T) as Hiv.
  destruct (tl_stack T) as (above & Es & Hab & Hset).
  destruct (tl_sccs T) as (c1 & Ec1).
  assert (HlowOld : lowOf s v = L) by (unfold lowOf; rewrite HL; reflexivity).
  assert (Hidxv : indexOf s v = currentIndex s0) by (apply indexOf_get; exact Hiv).
  unfold closeComponent. rewrite HL, Hiv. cbn [optNatEqb].
  destruct (Nat.eqb_spec L (currentIndex s0)) as [EL | NL].
  - (* the root of a component *)
    assert (Hva : ~ In v above).
    { intro C. specialize (Hab v C). lia. }
    rewrite Es, (popComponent_spec v above (stack s0) (onStack s) [] Hva).
    cbn [app]. eexists. split; [reflexivity |].
    set (comp := above ++ [v]).
    set (c := {| scc_id := length (sccs s); scc_nodes := comp;
                 isAcyclic := (length comp =? 1) && negb (hasEdge g v v) |}).
    set (s' := {| sccs := sccs s ++ [c] |}).
    assert (Esc : sccs s' = sccs s ++ [c]) by reflexivity.
    assert (Hsplit : stack s = comp ++ stack s0).
    { rewrite Es. apply stack_split_assoc. }
    assert (Hsorted : forall a y, In a comp -> In y (stack s0) ->
                                  indexOf s y < indexOf s a).
    { intros a y Ha Hy. pose proof (tj_stack_sorted I) as S.
      rewrite Hsplit in S.
      exact (@StronglySorted_app_lt _ _ _ _ S a y Ha Hy). }
    assert (Hdisj : forall x, In x comp -> ~ In x (stack s0)).
    { intros x Hx Hy. specialize (Hsorted x x Hx Hy). lia. }
    assert (Hcomp_stack : forall x, In x comp -> In x (stack s)).
    { intros x Hx. rewrite Hsplit. apply in_app_iff. auto. }
    assert (Hnew : forall x, In x comp -> emittedAt s' x (length (sccs s))).
    { intros x Hx. exists c. split; [| exact Hx].
      rewrite Esc, nth_error_app2, Nat.sub_diag by lia. reflexivity. }
    assert (Hext : forall x i, emittedAt s x i -> emittedAt s' x i).
    { intros x i. exact (@emittedAt_extend s s' [c] x i Esc). }
    assert (Hcases : forall x i, emittedAt s' x i ->
              emittedAt s x i \/ (i = length (sccs s) /\ In x comp)).
    { intros x i. exact (@emittedAt_snoc s s' c x i Esc). }
    assert (Hsettled : forall u w, In u comp -> In w (succs u) ->
              settled s L w).
    { intros u w Hu Hw. rewrite <- HlowOld. apply in_app_iff in Hu.
      destruct Hu as [Hu | [<- | []]].
      - eapply Hset; eauto.
      - apply (tl_done T). exact Hw. }
    constructor.
    + constructor.
      * exact (tj_low_keys I).
      * exact (tj_index_lt I).
      * intro x. cbn [s' onStack stack]. rewrite JsSet_has_In, In_fold_delete.
        pose proof ((tj_onStack I) x) as O. rewrite JsSet_has_In in O.
        rewrite O, Hsplit, in_app_iff. fold comp. split.
        -- tauto.
        -- intro Hx. split; [auto |]. intro C. exact (Hdisj x C Hx).
      * intros x Hx. apply (tj_stack_visited I). rewrite Hsplit.
        apply in_app_iff. auto.
      * cbn [s' stack]. pose proof (tj_stack_sorted I) as S.
        rewrite Hsplit in S. exact (@StronglySorted_app_r _ _ _ _ S).
      * intros x Hx. destruct ((tj_visited I) x Hx) as [Hs | [i He]].
        -- rewrite Hsplit in Hs. apply in_app_iff in Hs.
           destruct Hs as [Hs | Hs]; [right | left; exact Hs].
           eexists. apply Hnew. exact Hs.
        -- right. exists i. apply Hext. exact He.
      * intros x [i He]. apply Hcases in He. destruct He as [He | [_ Hx]].
        -- destruct ((tj_emitted I) x (ex_intro _ i He)) as [Hv Hs].
           split; [exact Hv |]. intro C. apply Hs. rewrite Hsplit.
           apply in_app_iff. auto.
        -- split; [| apply Hdisj; exact Hx].
           apply (tj_stack_visited I). apply Hcomp_stack. exact Hx.
      * intros u i w He Hw. apply Hcases in He.
        destruct He as [He | [-> Hu]].
        -- destruct ((tj_closed I) u i w He Hw) as (j & Hj & Hej).
           exists j. split; [exact Hj | apply Hext; exact Hej].
        -- destruct (Hsettled u w Hu Hw) as [[j Hej] | [Hs Hb]].
           ++ exists j. split; [| apply Hext; exact Hej].
              apply emittedAt_lt in Hej. lia.
           ++ exists (length (sccs s)). split; [lia |]. apply Hnew.
              rewrite Hsplit in Hs. apply in_app_iff in Hs.
              destruct Hs as [Hs | Hs]; [exact Hs |].
              assert (Hvc : In v comp) by (apply in_app_iff; right; left; reflexivity).
              specialize (Hsorted v w Hvc Hs). lia.
      * intros x i j Hi Hj. apply Hcases in Hi. apply Hcases in Hj.
        destruct Hi as [Hi | [-> Hxi]], Hj as [Hj | [-> Hxj]].
        -- exact ((tj_unique I) x i j Hi Hj).
        -- destruct ((tj_emitted I) x (ex_intro _ i Hi)) as [_ C].
           exfalso. apply C. apply Hcomp_stack. exact Hxj.
        -- destruct ((tj_emitted I) x (ex_intro _ j Hj)) as [_ C].
           exfalso. apply C. apply Hcomp_stack. exact Hxi.
        -- reflexivity.
      * intros i c' Hc'. rewrite Esc in Hc'.
        destruct (Nat.lt_ge_cases i (length (sccs s))) as [Hlt | Hge].
        -- rewrite nth_error_app1 in Hc' by exact Hlt.
           exact ((tj_ids I) i c' Hc').
        -- rewrite nth_error_app2 in Hc' by exact Hge.
           destruct (i - length (sccs s)) as [| k] eqn:Ek.
           ++ simpl in Hc'. injection Hc' as <-. cbn [c scc_id]. lia.
           ++ simpl in Hc'. destruct k; discriminate.
      * intros c' Hc'. rewrite Esc in Hc'. apply in_app_iff in Hc'.
        destruct Hc' as [Hc' | [<- | []]].
        -- exact ((tj_flags I) c' Hc').
        -- exists above, v. split; reflexivity.
    + exact (tl_index_old T).
    + exact (tl_low_old T).
    + exact Hiv.
    + change (lowOf s' v) with (lowOf s v). lia.
    + intros b Hb _. change (lowOf s' v) with (lowOf s v). lia.
    + exists (c1 ++ [c]). rewrite Esc, Ec1, app_assoc. reflexivity.
    + exists []. split; [reflexivity |]. split; [intros x [] |].
      split; [intros u w [] | reflexivity].
    + exact (tl_count T).
  - (* not a root: the node stays on the stack *)
    exists s. split; [reflexivity |]. constructor.
    + exact I.
    + exact (tl_index_old T).
    + exact (tl_low_old T).
    + exact Hiv.
    + lia.
    + intros b Hb Hs0. rewrite HlowOld. apply HLb; assumption.
    + exists c1. exact Ec1.
    + exists (above ++ [v]). split; [| split; [| split]].
      * rewrite Es. apply stack_split_assoc.
      * intros x Hx. apply in_app_iff in Hx. destruct Hx as [Hx | [<- | []]].
        -- specialize (Hab x Hx). lia.
        -- lia.
      * intros u w Hu Hw. apply in_app_iff in Hu.
        destruct Hu as [Hu | [<- | []]].
        -- eapply Hset; eauto.
        -- apply (tl_done T). exact Hw.
      * intro C. lia.
    + exact (tl_count T).
Qed.

Lemma visitLoop_spec (f : nat) (s0 : TarjanState) (v : NodeId) :
  (forall s w, TarjanInv g s -> In w N -> ~ visited s w ->
               unvisitedCount g s < f ->
               exists s', strongConnect g f w s = Some s' /\
                          TarjanPost g s w s') ->
  TarjanInv g s0 -> unvisitedCount g s0 <= f ->
  forall vs done s,
    done ++ vs = succs v -> TarjanLoop g s0 v s done ->
    exists s', forEachM (visitSuccessor (strongConnect g f) v) vs s = Some s' /\
               TarjanLoop g s0 v s' (succs v).
Proof.
  intros IHf I0 Hf. induction vs as [| w vs IH]; intros done s E T;
    cbn [forEachM].
  - rewrite app_nil_r in E. subst done. eauto.
  - assert (Hw : In w (succs v)).
    { rewrite <- E. apply in_app_iff. right. left. reflexivity. }
    assert (HwN : In w N) by (apply (wf_succ g_wf v); exact Hw).
    assert (E' : (done ++ [w]) ++ vs = succs v).
    { rewrite <- app_assoc. exact E. }
    unfold visitSuccessor at 1.
    destruct (JsMap.has w (index s)) eqn:Hvis; cbn [negb].
    + destruct (JsSet.has w (onStack s)) eqn:Hos.
      * apply (tj_onStack (tl_inv T)) in Hos.
        destruct (@TarjanLoop_onstack s0 s v done w I0 T Hos) as (s' & -> & T').
        exact (IH _ _ E' T').
      * assert (Hns : ~ In w (stack s)).
        { intro C. apply (tj_onStack (tl_inv T)) in C. congruence. }
        exact (IH _ _ E' (@TarjanLoop_skip s0 s v done w T Hvis Hns)).
    + assert (Hnv : ~ visited s w) by (unfold visited; congruence).
      destruct (IHf s w (tl_inv T) HwN Hnv) as (s' & -> & Q).
      { pose proof (tl_count T). lia. }
      destruct (@TarjanLoop_call s0 s s' v done w I0 T Q) as (s'' & -> & T').
      exact (IH _ _ E' T').
Qed.

(** Total correctness of [strongConnect]: the fuel only needs to exceed the
    number of nodes still unvisited. *)
Lemma strongConnect_spec (fuel : nat) :
  forall s v, TarjanInv g s -> In v N -> ~ visited s v ->
              unvisitedCount g s < fuel ->
              exists s', strongConnect g fuel v s = Some s' /\
                         TarjanPost g s v s'.
Proof.
  induction fuel as [| f IH]; intros s v I Hv Hn Hf; [lia |].
  cbn [strongConnect].
  destruct (@visitLoop_spec f s v IH I ltac:(lia) (succs v) [] (pushNode v s)
              eq_refl (@TarjanLoop_init s v I Hn Hv)) as (s1 & -> & T).
  exact (@TarjanLoop_close s s1 v I T).
Qed.

Lemma TarjanInv_init : TarjanInv g tarjanInit.
Proof.
  constructor; cbn [tarjanInit index lowlink onStack stack sccs currentIndex].
  - reflexivity.
  - intros x Hx. discriminate.
  - intro x. simpl. split; [discriminate | tauto].
  - intros x [].
  - constructor.
  - intros x Hx. discriminate.
  - intros x (i & c & Hc & _). destruct i; discriminate.
  - intros u i v (c & Hc & _). destruct i; discriminate.
  - intros x i j (c & Hc & _). destruct i; discriminate.
  - intros i c Hc. destruct i; discriminate.
  - intros c [].
Qed.

Lemma unvisitedCount_bound (s : TarjanState) :
  unvisitedCount g s <= length N.
Proof. unfold unvisitedCount. apply List.filter_length_le. Qed.

(** The outer loop of [findSCCs] over [this.nodes.keys()]. *)
Lemma findSCCs_loop (fuel : nat) :
  length N < fuel ->
  forall l s, incl l N -> TarjanInv g s -> stack s = [] ->
    exists s',
      forEachM (fun st nodeId =>
                  if negb (JsMap.has nodeId (index st))
                  then strongConnect g fuel nodeId st else Some st) l s
        = Some s' /\
      TarjanInv g s' /\ stack s' = [] /\
      (forall x, visited s x -> visited s' x) /\
      (forall x, In x l -> visited s' x).
Proof.
  intro Hf. induction l as [| v l IH]; intros s Hl I Hs; cbn [forEachM].
  - exists s. split; [reflexivity |]. split; [exact I |]. split; [exact Hs |].
    split; [auto | intros x []].
  - assert (Hv : In v N) by (apply Hl; left; reflexivity).
    assert (Hl' : incl l N) by (intros x Hx; apply Hl; right; exact Hx).
    destruct (JsMap.has v (index s)) eqn:Hvis; cbn [negb].
    + destruct (IH s Hl' I Hs) as (s' & E & I' & Hs' & Hm & Hall).
      exists s'. split; [exact E |]. split; [exact I' |]. split; [exact Hs' |].
      split; [exact Hm |]. intros x [<- | Hx]; auto.
    + assert (Hnv : ~ visited s v) by (unfold visited; congruence).
      destruct (@strongConnect_spec fuel s v I Hv Hnv) as (s1 & -> & Q).
      { pose proof (unvisitedCount_bound s). lia. }
      assert (Hs1 : stack s1 = []).
      { destruct (tp_stack Q) as (new & Es & _ & _ & Hroot).
        rewrite Es, Hs, app_nil_r. apply Hroot.
        pose proof (tp_low_le Q).
        assert (currentIndex s <= lowOf s1 v).
        { apply (tp_low_bound Q); [lia |]. rewrite Hs. intros x []. }
        lia. }
      assert (Hm1 : forall x, visited s x -> visited s1 x).
      { intros x Hx. pose proof ((tp_index_old Q) x Hx) as E.
        apply visited_get in Hx. destruct Hx as [i Hi].
        apply visited_get. exists i. congruence. }
      destruct (IH s1 Hl' (tp_inv Q) Hs1) as (s' & E & I' & Hs' & Hm & Hall).
      exists s'. split; [exact E |]. split; [exact I' |]. split; [exact Hs' |].
      split; [auto |]. intros x [<- | Hx]; auto.
      apply Hm. apply visited_get. eexists. exact (tp_index_v Q).
Qed.

(** [findSCCs] returns, and what it returns covers the nodes, numbers the
    components in the order of their completion and never has an arc from
    a component to a later one. *)
Lemma findSCCs_spec (fuel : nat) :
  length N < fuel ->
  exists l, findSCCs fuel g = Some l /\ SccResult g l.
Proof.
  intro Hf. unfold findSCCs.
  destruct (@findSCCs_loop fuel Hf N tarjanInit (incl_refl N) TarjanInv_init
              eq_refl) as (s & -> & I & Hs & _ & Hall).
  cbn [option_map]. eexists. split; [reflexivity |].
  constructor.
  - intros x Hx. destruct ((tj_visited I) x (Hall x Hx)) as [C | (i & c & Hc & Hin)].
    + rewrite Hs in C. destruct C.
    + eauto.
  - intros u v i c Hc Hu Hv.
    destruct ((tj_closed I) u i v (ex_intro _ c (conj Hc Hu)) Hv)
      as (j & Hj & c' & Hc' & Hin).
    eauto.
  - intros x i j c c' Hc Hx Hc' Hx'.
    exact ((tj_unique I) x i j (ex_intro _ c (conj Hc Hx))
             (ex_intro _ c' (conj Hc' Hx'))).
  - exact (tj_ids I).
  - exact (tj_flags I).
Qed.

(** *** The acyclic case: every component is a single node *)

Section AcyclicMode.
Variable rank : NodeId -> nat.
Hypothesis rank_grows : forall u v, In v (succs u) -> rank u < rank v.

Lemma no_self_loop (v : NodeId) : hasEdge g v v = false.
Proof.
  destruct (hasEdge g v v) eqn:E; [| reflexivity].
  apply (wf_index g_wf) in E. specialize (rank_grows v v E). lia.
Qed.

Lemma AcyclicInv_setLow (s : TarjanState) (v : NodeId) (n : nat) :
  AcyclicInv s -> visited s v -> AcyclicInv (setLow v n s).
Proof.
  intros I Hv. constructor.
  - intro x. cbn [setLow lowlink index]. rewrite JsMap_has_set, (ac_low_keys I).
    destruct (keqb_spec x v) as [-> | Nx]; [| reflexivity].
    simpl. symmetry. exact Hv.
  - exact (ac_index_lt I).
  - exact (ac_onStack I).
  - exact (ac_stack_visited I).
  - exact (ac_sccs I).
Qed.

Lemma AcyclicLoop_init (s0 : TarjanState) (v : NodeId) :
  AcyclicInv s0 -> ~ visited s0 v -> In v N ->
  AcyclicLoop g s0 v (pushNode v s0).
Proof.
  intros I Hn Hv.
  assert (Hold : forall x, visited s0 x ->
            JsMap.get x (index (pushNode v s0)) = JsMap.get x (index s0)).
  { intros x Hx. cbn [pushNode index]. apply JsMap_get_set_other.
    intros ->. contradiction. }
  assert (Hiv : JsMap.get v (index (pushNode v s0)) = Some (currentIndex s0)).
  { cbn [pushNode index]. apply JsMap_get_set_same. }
  assert (Hvis : forall x, visited (pushNode v s0) x <-> x = v \/ visited s0 x).
  { intro x. unfold visited. cbn [pushNode index]. rewrite JsMap_has_set.
    destruct (keqb_spec x v) as [-> | Nx]; simpl; intuition. }
  constructor.
  - constructor.
    + intro x. cbn [pushNode lowlink index]. rewrite !JsMap_has_set, (ac_low_keys I).
      reflexivity.
    + intros x Hx. cbn [pushNode currentIndex]. apply Hvis in Hx.
      destruct (key_eq_dec x v) as [-> | Nx].
      * rewrite (indexOf_get _ _ Hiv). lia.
      * destruct Hx as [-> | Hx]; [congruence |].
        rewrite (indexOf_old s0 (pushNode v s0) x (Hold x Hx)).
        pose proof ((ac_index_lt I) x Hx). lia.
    + intro x. cbn [pushNode onStack stack]. rewrite JsSet_has_In, JsSet_In_add.
      pose proof ((ac_onStack I) x) as T. rewrite JsSet_has_In in T.
      simpl. intuition.
    + intros x [<- | Hx]; apply Hvis; [left; reflexivity | right].
      apply (ac_stack_visited I). exact Hx.
    + exact (ac_sccs I).
  - reflexivity.
  - exact Hn.
  - exact Hold.
  - intros x Hx. cbn [pushNode lowlink]. apply JsMap_get_set_other.
    intros ->. contradiction.
  - exact Hiv.
  - cbn [pushNode lowlink]. apply JsMap_get_set_same.
  - apply unvisitedCount_lt with (v := v); auto.
    + intros x Hx. apply Hvis. right. exact Hx.
    + apply Hvis. left. reflexivity.
Qed.

Lemma AcyclicLoop_visited_old (s0 s : TarjanState) v x :
  AcyclicLoop g s0 v s -> visited s0 x -> visited s x.
Proof.
  intros T Hx. pose proof ((al_index_old T) x Hx) as E.
  apply visited_get in Hx. destruct Hx as [i Hi].
  apply visited_get. exists i. congruence.
Qed.

Lemma AcyclicLoop_call (s0 s s' : TarjanState) v w :
  AcyclicLoop g s0 v s -> AcyclicPost g s w s' ->
  exists s'', lowlinkMin v (JsMap.get w (lowlink s')) s' = Some s'' /\
              AcyclicLoop g s0 v s''.
Proof.
  intros T Q.
  assert (Hvs : visited s v) by (apply visited_get; eexists; exact (al_index_v T)).
  assert (HL' : JsMap.get v (lowlink s') = Some (currentIndex s0)).
  { rewrite ((ap_low_old Q) v Hvs). exact (al_low_v T). }
  assert (Hiv' : JsMap.get v (index s') = Some (currentIndex s0)).
  { rewrite ((ap_index_old Q) v Hvs). exact (al_index_v T). }
  assert (Hci : currentIndex s0 < currentIndex s).
  { pose proof ((ac_index_lt (al_inv T)) v Hvs) as X.
    rewrite (indexOf_get _ _ (al_index_v T)) in X. exact X. }
  rewrite (ap_low_v Q), (lowlinkMin_eq v (currentIndex s) s' HL').
  rewrite Nat.min_l by lia. eexists. split; [reflexivity |].
  constructor.
  - apply AcyclicInv_setLow; [exact (ap_inv Q) |].
    apply visited_get. eexists. exact Hiv'.
  - cbn [setLow stack]. rewrite (ap_stack Q). exact (al_stack T).
  - exact (al_fresh T).
  - intros x Hx. cbn [setLow index].
    rewrite ((ap_index_old Q) x (AcyclicLoop_visited_old T Hx)).
    apply (al_index_old T). exact Hx.
  - intros x Hx. cbn [setLow lowlink]. rewrite JsMap_get_set_other.
    + rewrite ((ap_low_old Q) x (AcyclicLoop_visited_old T Hx)).
      apply (al_low_old T). exact Hx.
    + intros ->. exact (al_fresh T Hx).
  - exact Hiv'.
  - cbn [setLow lowlink]. apply JsMap_get_set_same.
  - pose proof (ap_count Q). pose proof (al_count T).
    change (unvisitedCount g (setLow v (currentIndex s0) s'))
      with (unvisitedCount g s'). lia.
Qed.

Lemma AcyclicLoop_close (s0 s : TarjanState) (v : NodeId) :
  AcyclicInv s0 -> AcyclicLoop g s0 v s ->
  exists s', closeComponent g v s = Some s' /\ AcyclicPost g s0 v s'.
Proof.
  intros I0 T. pose proof (al_inv T) as I.
  unfold closeComponent. rewrite (al_low_v T), (al_index_v T).
  cbn [optNatEqb]. rewrite Nat.eqb_refl, (al_stack T).
  cbn [popComponent]. rewrite keqb_refl. cbn [app length Nat.eqb].
  rewrite no_self_loop. cbn [negb andb].
  eexists. split; [reflexivity |].
  assert (Hvs0 : ~ In v (stack s0)).
  { intro C. apply (al_fresh T). apply (ac_stack_visited I0). exact C. }
  constructor.
  - constructor.
    + exact (ac_low_keys I).
    + exact (ac_index_lt I).
    + intro x. cbn [onStack stack]. rewrite JsSet_has_In, JsSet_In_delete.
      pose proof ((ac_onStack I) x) as O. rewrite JsSet_has_In, (al_stack T) in O.
      rewrite O. simpl. split.
      * intros [[<- | Hx] Hne]; [congruence | exact Hx].
      * intro Hx. split; [right; exact Hx |]. intros ->. contradiction.
    + intros x Hx. apply (ac_stack_visited I). rewrite (al_stack T).
      right. exact Hx.
    + cbn [sccs]. apply Forall_app. split; [exact (ac_sccs I) |].
      constructor; [| constructor]. split; [reflexivity |]. exists v. reflexivity.
  - reflexivity.
  - exact (al_index_old T).
  - exact (al_low_old T).
  - exact (al_index_v T).
  - exact (al_low_v T).
  - exact (al_count T).
Qed.

Lemma acyclicLoop_spec (f : nat) (s0 : TarjanState) (v : NodeId) :
  (forall s w, AcyclicInv s -> In w N -> ~ visited s w ->
               (forall x, In x (stack s) -> rank x < rank w) ->
               unvisitedCount g s < f ->
               exists s', strongConnect g f w s = Some s' /\
                          AcyclicPost g s w s') ->
  unvisitedCount g s0 <= f ->
  (forall x, In x (stack s0) -> rank x < rank v) ->
  forall vs s,
    incl vs (succs v) -> AcyclicLoop g s0 v s ->
    exists s', forEachM (visitSuccessor (strongConnect g f) v) vs s = Some s' /\
               AcyclicLoop g s0 v s'.
Proof.
  intros IHf Hf Hrank. induction vs as [| w vs IH]; intros s Hincl T;
    cbn [forEachM].
  - eauto.
  - assert (Hw : In w (succs v)) by (apply Hincl; left; reflexivity).
    assert (HwN : In w N) by (apply (wf_succ g_wf v); exact Hw).
    assert (Hvs : incl vs (succs v)) by (intros x Hx; apply Hincl; right; exact Hx).
    assert (Hstack : forall x, In x (stack s) -> rank x < rank w).
    { intros x Hx. rewrite (al_stack T) in Hx.
      pose proof (rank_grows v w Hw). destruct Hx as [<- | Hx]; [assumption |].
      specialize (Hrank x Hx). lia. }
    unfold visitSuccessor at 1.
    destruct (JsMap.has w (index s)) eqn:Hvis; cbn [negb].
    + destruct (JsSet.has w (onStack s)) eqn:Hos.
      * apply (ac_onStack (al_inv T)) in Hos.
        specialize (Hstack w Hos). lia.
      * exact (IH s Hvs T).
    + assert (Hnv : ~ visited s w) by (unfold visited; congruence).
      destruct (IHf s w (al_inv T) HwN Hnv Hstack) as (s' & -> & Q).
      { pose proof (al_count T). lia. }
      destruct (@AcyclicLoop_call s0 s s' v w T Q) as (s'' & -> & T').
      exact (IH s'' Hvs T').
Qed.

Lemma strongConnect_acyclic (fuel : nat) :
  forall s v, AcyclicInv s -> In v N -> ~ visited s v ->
              (forall x, In x (stack s) -> rank x < rank v) ->
              unvisitedCount g s < fuel ->
              exists s', strongConnect g fuel v s = Some s' /\
                         AcyclicPost g s v s'.
Proof.
  induction fuel as [| f IH]; intros s v I Hv Hn Hr Hf; [lia |].
  cbn [strongConnect].
  destruct (@acyclicLoop_spec f s v IH ltac:(lia) Hr (succs v) (pushNode v s)
              (incl_refl _) (@AcyclicLoop_init s v I Hn Hv)) as (s1 & -> & T).
  exact (@AcyclicLoop_close s s1 v I T).
Qed.

Lemma findSCCs_acyclic_loop (fuel : nat) :
  length N < fuel ->
  forall l s, incl l N -> AcyclicInv s -> stack s = [] ->
    exists s',
      forEachM (fun st nodeId =>
                  if negb (JsMap.has nodeId (index st))
                  then strongConnect g fuel nodeId st else Some st) l s
        = Some s' /\
      AcyclicInv s' /\ stack s' = [].
Proof.
  intro Hf. induction l as [| v l IH]; intros s Hl I Hs; cbn [forEachM].
  - exists s. auto.
  - assert (Hv : In v N) by (apply Hl; left; reflexivity).
    assert (Hl' : incl l N) by (intros x Hx; apply Hl; right; exact Hx).
    destruct (JsMap.has v (index s)) eqn:Hvis; cbn [negb].
    + exact (IH s Hl' I Hs).
    + assert (Hnv : ~ visited s v) by (unfold visited; congruence).
      destruct (@strongConnect_acyclic fuel s v I Hv Hnv) as (s1 & -> & Q).
      { rewrite Hs. intros x []. }
      { pose proof (unvisitedCount_bound s). lia. }
      apply (IH s1 Hl' (ap_inv Q)). rewrite (ap_stack Q). exact Hs.
Qed.

Lemma findSCCs_acyclic (fuel : nat) :
  length N < fuel ->
  exists l, findSCCs fuel g = Some l /\ Forall singletonAcyclic l.
Proof.
  intro Hf. unfold findSCCs.
  assert (I0 : AcyclicInv tarjanInit).
  { constructor; cbn [tarjanInit index lowlink onStack stack sccs currentIndex].
    - reflexivity.
    - intros x Hx. discriminate.
    - intro x. simpl. split; [discriminate | tauto].
    - intros x [].
    - constructor. }
  destruct (@findSCCs_acyclic_loop fuel Hf N tarjanInit (incl_refl N) I0 eq_refl)
    as (s & -> & I & _).
  cbn [option_map]. eexists. split; [reflexivity | exact (ac_sccs I)].
Qed.
End AcyclicMode.
End TarjanFacts.

(** ** [topologicalSort] *)

Section BuildMap.
Context {K V : Type} `{Key K}.
Variable f : K -> V.

Lemma JsMap_build_get (l : list K) :
  forall (m0 : JsMap K V) (k : K),
    JsMap.get k (fold_left (fun m x => JsMap.set x (f x) m) l m0)
      = if existsb (keqb k) l then Some (f k) else JsMap.get k m0.
Proof.
  induction l as [| a l IH]; intros m0 k; cbn [fold_left existsb].
  - reflexivity.
  - rewrite IH, JsMap_get_set.
    destruct (keqb_spec k a) as [-> | Nk]; cbn [orb].
    + destruct (existsb (keqb a) l); reflexivity.
    + reflexivity.
Qed.

Lemma JsMap_build_keys (l : list K) :
  forall m0 : JsMap K V,
    NoDup l -> (forall k, In k l -> ~ In k (JsMap.keys m0)) ->
    JsMap.keys (fold_left (fun m x => JsMap.set x (f x) m) l m0)
      = JsMap.keys m0 ++ l.
Proof.
  induction l as [| a l IH]; intros m0 ND Hfresh; cbn [fold_left].
  - rewrite app_nil_r. reflexivity.
  - inversion ND as [| ? ? Ha ND']; subst.
    assert (Hnot : JsMap.has a m0 = false).
    { destruct (JsMap.has a m0) eqn:E; [| reflexivity].
      apply JsMap_has_In_keys in E. exfalso.
      exact (Hfresh a (or_introl eq_refl) E). }
    rewrite IH; [| exact ND' |].
    + rewrite JsMap_keys_set, Hnot, <- app_assoc. reflexivity.
    + intros k Hk. rewrite JsMap_keys_set, Hnot, in_app_iff.
      intros [C | [<- | []]]; [| contradiction].
      exact (Hfresh k (or_intror Hk) C).
Qed.
End BuildMap.

Section TopologicalSort.
Context {NodeMeta EdgeMeta : Type}.
Variable g : DirectedGraph NodeMeta EdgeMeta.
Hypothesis g_wf : WellFormed g.

Local Abbreviation N := (JsMap.keys (nodes g)).
Local Abbreviation succs := (getSuccessors g).

Lemma source_is_node (u v : NodeId) : In v (succs u) -> In u N.
Proof.
  unfold getSuccessors. intro Hv.
  apply JsMap_has_In_keys. rewrite <- (wf_adj_keys g_wf).
  unfold JsMap.has. destruct (JsMap.get u (adjacencyList g)); [reflexivity |].
  destruct Hv.
Qed.

Lemma pendingCount_predecessors (v : NodeId) :
  pendingCount N succs [] v = length (getPredecessors g v).
Proof.
  unfold pendingCount. apply Permutation_length. apply NoDup_Permutation.
  - apply NoDup_filter. exact (wf_nodes g_wf).
  - apply (wf_pred g_wf).
  - intro u. rewrite filter_In. unfold pendingPred. cbn [existsb negb].
    rewrite andb_true_r.
    pose proof (JsSet_has_In v (succs u)) as M. unfold JsSet.has in M.
    rewrite M, (wf_mirror g_wf). split.
    + tauto.
    + intro Hu. split; [| exact Hu]. apply (wf_pred g_wf v). exact Hu.
Qed.

Lemma topoInDegree_get (v : NodeId) :
  In v N ->
  JsMap.get v (topoInDegree g) = Some (Z.of_nat (pendingCount N succs [] v)).
Proof.
  intro Hv. unfold topoInDegree.
  rewrite (JsMap_build_get
             (fun nodeId => Z.of_nat (option_map JsSet.size
                (JsMap.get nodeId (reverseAdjacencyList g)) ?? 0))).
  rewrite (proj2 (JsSet_has_In v N) Hv : existsb (keqb v) N = true).
  rewrite pendingCount_predecessors. unfold getPredecessors.
  destruct (JsMap.get v (reverseAdjacencyList g)); reflexivity.
Qed.

Lemma topoInDegree_keys : JsMap.keys (topoInDegree g) = N.
Proof.
  unfold topoInDegree.
  rewrite (JsMap_build_keys
             (fun nodeId => Z.of_nat (option_map JsSet.size
                (JsMap.get nodeId (reverseAdjacencyList g)) ?? 0))).
  - reflexivity.
  - exact (wf_nodes g_wf).
  - intros k _ [].
Qed.

(** [topologicalSort] returns; its answer is read off a final state of
    Kahn's loop. *)
Lemma topologicalSort_spec (fuel : nat) :
  length N < fuel ->
  exists P ind,
    topologicalSort fuel g
      = Some (if length P =? length N then Some P else None) /\
    KahnInv N succs P [] ind.
Proof.
  intro Hf. unfold topologicalSort.
  assert (I0 : KahnInv N succs [] (kahnSeeds (topoInDegree g)) (topoInDegree g)).
  { apply KahnInv_init.
    - rewrite topoInDegree_keys. exact (wf_nodes g_wf).
    - intro v. rewrite topoInDegree_keys. tauto.
    - exact topoInDegree_get. }
  destruct (@kahnLoop_total _ _ N succs (wf_nodes g_wf)
              (fun u _ => proj1 (wf_succ g_wf u))
              (fun u _ => proj2 (wf_succ g_wf u))
              fuel
              {| inDegree := topoInDegree g;
                 queue := kahnSeeds (topoInDegree g);
                 head := 0; result := [] |}
              [] (kahnSeeds (topoInDegree g))
              eq_refl eq_refl eq_refl I0 ltac:(simpl; lia))
    as (st & E & _ & I).
  change (fun u => JsMap.get u (adjacencyList g) ?? []) with succs.
  rewrite E. exists (result st), (inDegree st). split; [| exact I].
  unfold JsMap.size, JsMap.keys. rewrite length_map. reflexivity.
Qed.
End TopologicalSort.

(** ** [topologicalSort] against [findSCCs] *)

Lemma compIndex_unique (x : NodeId) (l : list SCC) :
  forall i c,
    (forall j c', nth_error l j = Some c' -> In x (scc_nodes c') -> j = i) ->
    nth_error l i = Some c -> In x (scc_nodes c) ->
    compIndex x l = i.
Proof.
  induction l as [| c0 l IH]; intros i c Hu Hc Hx.
  - destruct i; discriminate.
  - cbn [compIndex]. destruct (JsSet.has x (scc_nodes c0)) eqn:E.
    + apply JsSet_has_In in E. exact (Hu 0 c0 eq_refl E).
    + apply JsSet_has_false in E. destruct i as [| i].
      * simpl in Hc. injection Hc as ->. contradiction.
      * f_equal. apply (IH i c); auto.
        intros j c' Hj Hx'. specialize (Hu (S j) c' Hj Hx'). lia.
Qed.

Section SortAgainstSCCs.
Context {NodeMeta EdgeMeta : Type}.
Variable g : DirectedGraph NodeMeta EdgeMeta.
Hypothesis g_wf : WellFormed g.

Local Abbreviation N := (JsMap.keys (nodes g)).
Local Abbreviation succs := (getSuccessors g).

(** What the [isAcyclic] flag of a returned component says. *)
Lemma isAcyclic_meaning (l : list SCC) (c : SCC) :
  SccResult g l -> In c l ->
  (isAcyclic c = true <->
   exists n, scc_nodes c = [n] /\ hasEdge g n n = false).
Proof.
  intros R Hc. destruct ((sr_flags R) c Hc) as (rest & r & En & Ef).
  rewrite Ef, En, length_app. cbn [length]. split.
  - intro H. apply andb_true_iff in H. destruct H as [Hl Hh].
    apply Nat.eqb_eq in Hl. destruct rest; [| simpl in Hl; lia].
    exists r. split; [reflexivity |]. apply negb_true_iff. exact Hh.
  - intros (n & E & Hh).
    destruct rest as [| a rest].
    + simpl in E. injection E as ->. rewrite Hh. reflexivity.
    + destruct rest; discriminate.
Qed.

(** When every component is flagged acyclic, the completion order of the
    components is a rank that grows along every arc. *)
Lemma all_acyclic_rank (l : list SCC) :
  SccResult g l -> (forall c, In c l -> isAcyclic c = true) ->
  forall u v, In v (succs u) ->
    length l - compIndex u l < length l - compIndex v l.
Proof.
  intros R Hall u v Huv.
  assert (Hu : In u N) by (eapply source_is_node; eauto).
  destruct ((sr_cover R) u Hu) as (i & c & Hc & Hin).
  destruct ((sr_closed R) u v i c Hc Hin Huv) as (j & c' & Hj & Hc' & Hin').
  assert (Ei : compIndex u l = i).
  { apply (@compIndex_unique u l i c); auto.
    intros k ck Hk Hx. exact ((sr_unique R) u k i ck c Hk Hx Hc Hin). }
  assert (Ej : compIndex v l = j).
  { apply (@compIndex_unique v l j c'); auto.
    intros k ck Hk Hx. exact ((sr_unique R) v k j ck c' Hk Hx Hc' Hin'). }
  assert (Hi : i < length l) by (apply nth_error_Some; congruence).
  assert (Hne : j <> i).
  { intros ->. assert (c' = c) by congruence. subst c'.
    assert (Hcl : In c l) by (eapply nth_error_In; eauto).
    pose proof (Hall c Hcl) as Hacy.
    apply (@isAcyclic_meaning l c R Hcl) in Hacy. destruct Hacy as (n & En & Hh).
    rewrite En in Hin, Hin'. destruct Hin as [<- | []], Hin' as [<- | []].
    apply (wf_index g_wf) in Huv. congruence. }
  rewrite Ei, Ej. lia.
Qed.
End SortAgainstSCCs.

(** C1. For every graph built through the engine's operations,
    [topologicalSort] and [findSCCs] both return (with fuel beyond the
    number of nodes), and the order is non-null exactly when every
    returned component has [isAcyclic = true], that is, is a single node
    without a self-loop. *)
Theorem topologicalSort_iff_sccs_acyclic
    (NodeMeta EdgeMeta : Type) (g : DirectedGraph NodeMeta EdgeMeta)
    (fuel : nat) :
  Built g -> JsMap.size (nodes g) < fuel ->
  exists order comps,
    topologicalSort fuel g = Some order /\
    findSCCs fuel g = Some comps /\
    (order <> None <-> forall c, In c comps -> isAcyclic c = true) /\
    (forall c, In c comps ->
       (isAcyclic c = true <->
        exists n, scc_nodes c = [n] /\ hasEdge g n n = false)).
Proof.
  intros B Hf. pose proof (Built_WellFormed B) as W.
  assert (HfN : length (JsMap.keys (nodes g)) < fuel).
  { unfold JsMap.keys. rewrite length_map. exact Hf. }
  destruct (topologicalSort_spec W HfN) as (P & ind & Et & KI).
  destruct (findSCCs_spec W HfN) as (l & Es & R).
  eexists. exists l. split; [exact Et |]. split; [exact Es |]. split.
  - split.
    + intros Hnn c Hc.
      destruct (Nat.eqb_spec (length P) (length (JsMap.keys (nodes g))))
        as [Elen | Nlen]; [| congruence].
      destruct (@kahn_full_ordered _ _ (JsMap.keys (nodes g)) (getSuccessors g)
                  (wf_nodes W) (fun u _ => proj2 (wf_succ W u)) P ind KI Elen)
        as [_ Hord].
      assert (ND : NoDup P).
      { pose proof (kahn_nodup KI) as X. rewrite app_nil_r in X. exact X. }
      destruct (@findSCCs_acyclic _ _ g W (fun x => posIn x P)) with (fuel := fuel)
        as (l' & Es' & Hall); auto.
      { intros u v Huv. apply occursBefore_posIn; [exact ND |].
        apply Hord; [| exact Huv]. exact (@source_is_node _ _ g W u v Huv). }
      assert (l' = l) by congruence. subst l'.
      rewrite Forall_forall in Hall. destruct (Hall c Hc). assumption.
    + intros Hall.
      assert (Hincl : incl (JsMap.keys (nodes g)) P).
      { apply (@kahn_complete _ _ (JsMap.keys (nodes g)) (getSuccessors g) P ind
                 (fun x => length l - compIndex x l) KI).
        intros u v _ Huv. exact (@all_acyclic_rank _ _ g W l R Hall u v Huv). }
      assert (ND : NoDup P).
      { pose proof (kahn_nodup KI) as X. rewrite app_nil_r in X. exact X. }
      assert (Hincl' : incl P (JsMap.keys (nodes g))).
      { pose proof (kahn_incl KI) as X. rewrite app_nil_r in X. exact X. }
      assert (Elen : length P = length (JsMap.keys (nodes g))).
      { apply Nat.le_antisymm.
        - apply NoDup_incl_length; assumption.
        - apply NoDup_incl_length; [exact (wf_nodes W) | assumption]. }
      rewrite Elen, Nat.eqb_refl. discriminate.
  - intros c Hc. apply isAcyclic_meaning with (l := l); assumption.
Qed.

Lemma topologicalSort_iff_sccs_acyclic_witness :
  exists order comps,
    topologicalSort 3 (exampleAB false) = Some order /\
    findSCCs 3 (exampleAB false) = Some comps /\
    (order <> None <-> forall c, In c comps -> isAcyclic c = true) /\
    (forall c, In c comps ->
       (isAcyclic c = true <->
        exists n, scc_nodes c = [n] /\ hasEdge (exampleAB false) n n = false)).
Proof.
  apply (@topologicalSort_iff_sccs_acyclic unit unit (exampleAB false) 3).
  - unfold exampleAB, runM. repeat constructor.
  - vm_compute. lia.
Defined.

(** ** [buildCondensationGraph] *)

Section FoldSet.
Context {K V X : Type} `{Key K}.
Variable kf : X -> K.
Variable vf : X -> V.

Lemma fold_set_has (L : list X) :
  forall (m0 : JsMap K V) (k : K),
    JsMap.has k (fold_left (fun m x => JsMap.set (kf x) (vf x) m) L m0)
      = existsb (fun x => keqb k (kf x)) L || JsMap.has k m0.
Proof.
  induction L as [| a L IH]; intros m0 k; cbn [fold_left existsb].
  - reflexivity.
  - rewrite IH, JsMap_has_set.
    destruct (existsb (fun x => keqb k (kf x)) L), (keqb k (kf a));
      reflexivity.
Qed.

Lemma fold_set_via_keys (f : K -> V) (L : list X) :
  (forall x, In x L -> vf x = f (kf x)) ->
  forall m0 : JsMap K V,
    fold_left (fun m x => JsMap.set (kf x) (vf x) m) L m0
      = fold_left (fun m k => JsMap.set k (f k) m) (map kf L) m0.
Proof.
  induction L as [| a L IH]; intros Hv m0; cbn [fold_left map].
  - reflexivity.
  - rewrite (Hv a (or_introl eq_refl)). apply IH.
    intros x Hx. apply Hv. right. exact Hx.
Qed.
End FoldSet.

Lemma existsb_map_key {K X : Type} `{Key K} (kf : X -> K) (k : K) (L : list X) :
  existsb (fun x => keqb k (kf x)) L = existsb (keqb k) (map kf L).
Proof.
  induction L as [| a L IH]; simpl; [reflexivity |]. rewrite IH. reflexivity.
Qed.

Lemma ids_are_positions {A : Type} (id : A -> nat) (l : list A) :
  forall a,
    (forall i c, nth_error l i = Some c -> id c = a + i) ->
    map id l = seq a (length l).
Proof.
  induction l as [| c l IH]; intros a Hid; cbn [map length seq].
  - reflexivity.
  - rewrite (Hid 0 c eq_refl), Nat.add_0_r. f_equal.
    apply IH. intros i c' Hc'. rewrite (Hid (S i) c' Hc'). lia.
Qed.

Lemma snd_combine_seq {A : Type} (l : list A) :
  forall a, map snd (combine (seq a (length l)) l) = l.
Proof.
  induction l as [| c l IH]; intro a; cbn [length seq combine map].
  - reflexivity.
  - cbn [snd]. rewrite IH. reflexivity.
Qed.

Lemma updateAt_map_id {A B : Type} (id : A -> B) (f : A -> A) :
  (forall x, id (f x) = id x) ->
  forall (l : list A) (i : nat), map id (updateAt i f l) = map id l.
Proof.
  intros Hf. induction l as [| x l IH]; intros [| i]; cbn [updateAt map];
    try reflexivity.
  - rewrite Hf. reflexivity.
  - rewrite IH. reflexivity.
Qed.

Section ComponentMap.

Lemma buildComponentMap_snoc (l : list SCC) (c : SCC) (x : NodeId) :
  JsMap.get x (buildComponentMap (l ++ [c]))
    = if JsSet.has x (scc_nodes c) then Some (scc_id c)
      else JsMap.get x (buildComponentMap l).
Proof.
  unfold buildComponentMap. rewrite fold_left_app. cbn [fold_left].
  apply (JsMap_build_get (fun _ => scc_id c)).
Qed.

Lemma buildComponentMap_get (l : list SCC) :
  (forall i c, nth_error l i = Some c -> scc_id c = i) ->
  (forall x i j c c',
      nth_error l i = Some c -> In x (scc_nodes c) ->
      nth_error l j = Some c' -> In x (scc_nodes c') -> i = j) ->
  forall x i c,
    nth_error l i = Some c -> In x (scc_nodes c) ->
    JsMap.get x (buildComponentMap l) = Some i.
Proof.
  induction l as [| c0 l IH] using rev_ind; intros Hid Hun x i c Hc Hx.
  - destruct i; discriminate.
  - rewrite buildComponentMap_snoc.
    assert (Hlast : nth_error (l ++ [c0]) (length l) = Some c0).
    { rewrite nth_error_app2, Nat.sub_diag by lia. reflexivity. }
    destruct (JsSet.has x (scc_nodes c0)) eqn:E.
    + apply JsSet_has_In in E.
      rewrite (Hid _ _ Hlast). f_equal.
      exact (Hun x _ _ _ _ Hlast E Hc Hx).
    + apply JsSet_has_false in E.
      assert (Hi : i < length l).
      { assert (i < length (l ++ [c0])) by (apply nth_error_Some; congruence).
        rewrite length_app in H. simpl in H.
        destruct (Nat.eq_dec i (length l)) as [-> | Ni]; [| lia].
        rewrite Hlast in Hc. injection Hc as ->. contradiction. }
      rewrite nth_error_app1 in Hc by exact Hi.
      apply (IH) with (c := c); auto.
      * intros j c' Hj. apply Hid. rewrite nth_error_app1; [exact Hj |].
        apply nth_error_Some. congruence.
      * intros y a b ca cb Ha Hya Hb Hyb.
        apply (Hun y a b ca cb); auto.
        -- rewrite nth_error_app1; [exact Ha |]. apply nth_error_Some. congruence.
        -- rewrite nth_error_app1; [exact Hb |]. apply nth_error_Some. congruence.
Qed.
End ComponentMap.

Lemma filter_none {A : Type} (f : A -> bool) (l : list A) :
  (forall x, In x l -> f x = false) -> filter f l = [].
Proof.
  induction l as [| a l IH]; intro Hf; cbn [filter]; [reflexivity |].
  rewrite (Hf a (or_introl eq_refl)). apply IH.
  intros x Hx. apply Hf. right. exact Hx.
Qed.

Lemma has_get_some_nat {V : Type} (x : nat) (m : JsMap nat V) :
  JsMap.has x m = true -> exists y, JsMap.get x m = Some y.
Proof. unfold JsMap.has. destruct (JsMap.get x m); [eauto | discriminate]. Qed.

Lemma mem_seq (c k : nat) : existsb (keqb c) (seq 0 k) = (c <? k).
Proof.
  destruct (Nat.ltb_spec c k) as [L | L].
  - apply (JsSet_has_In c (seq 0 k)). apply in_seq. lia.
  - apply (JsSet_has_false c (seq 0 k)). rewrite in_seq. lia.
Qed.

Section CondensePass.
Context {EdgeMeta : Type}.
Variable k : nat.
Variable cmap : JsMap NodeId nat.
Variable byId : JsMap nat nat.
Variable edgeClass : JsMap EdgeId EdgeType.
Hypothesis byId_total : forall c, c < k -> exists p, JsMap.get c byId = Some p.

Local Abbreviation Inv := (@CondInv EdgeMeta k cmap).

Lemma condenseInit_fields (cs : list (CondensationComponent EdgeMeta)) :
  forall st0 : @CondState EdgeMeta,
    let st := fold_left (fun st c =>
                {| comps := comps st;
                   compAdj := JsMap.set (cc_id c) JsSet.empty (compAdj st);
                   indeg := JsMap.set (cc_id c) 0%Z (indeg st) |}) cs st0 in
    comps st = comps st0 /\
    compAdj st = fold_left (fun m i => JsMap.set i (@JsSet.empty nat) m)
                   (map (@cc_id EdgeMeta) cs) (compAdj st0) /\
    indeg st = fold_left (fun m i => JsMap.set i 0%Z m)
                 (map (@cc_id EdgeMeta) cs) (indeg st0).
Proof.
  induction cs as [| c cs IH]; intro st0; cbn [fold_left map].
  - auto.
  - specialize (IH {| comps := comps st0;
                      compAdj := JsMap.set (cc_id c) JsSet.empty (compAdj st0);
                      indeg := JsMap.set (cc_id c) 0%Z (indeg st0) |}).
    exact IH.
Qed.

Lemma CondInv_init (cs : list (CondensationComponent EdgeMeta)) :
  map (@cc_id EdgeMeta) cs = seq 0 k ->
  Inv (condenseInit cs) [].
Proof.
  intro Hids. unfold condenseInit.
  destruct (condenseInit_fields cs
              {| comps := cs; compAdj := JsMap.empty; indeg := JsMap.empty |})
    as (Ec & Ea & Ei).
  cbv zeta in Ec, Ea, Ei. cbn [comps compAdj indeg] in Ec, Ea, Ei.
  rewrite Hids in Ea, Ei.
  set (st := fold_left _ cs _) in *.
  assert (Hget : forall c, JsMap.get c (compAdj st)
                   = if c <? k then Some [] else None).
  { intro c. rewrite Ea.
    rewrite (JsMap_build_get (fun _ : nat => @JsSet.empty nat)), mem_seq.
    reflexivity. }
  assert (Hsucc : forall c, compSuccs st c = []).
  { intro c. unfold compSuccs. rewrite Hget. destruct (c <? k); reflexivity. }
  constructor.
  - rewrite Ec. exact Hids.
  - intro c. unfold JsMap.has. rewrite Hget. destruct (c <? k); reflexivity.
  - rewrite Ei, (JsMap_build_keys (fun _ : nat => 0%Z)).
    + reflexivity.
    + apply seq_NoDup.
    + intros c _ [].
  - intro c. rewrite Hsucc. split; [constructor | intros ct []].
  - intros ct Hct. rewrite Ei, (JsMap_build_get (fun _ : nat => 0%Z)), mem_seq.
    apply Nat.ltb_lt in Hct. rewrite Hct. f_equal.
    unfold pendingCount. rewrite filter_none; [reflexivity |].
    intros x _. unfold pendingPred. rewrite Hsucc. reflexivity.
  - intros e cf ct [].
Qed.

Lemma comps_only (st : @CondState EdgeMeta)
    (cs : list (CondensationComponent EdgeMeta)) done :
  map (@cc_id EdgeMeta) cs = map (@cc_id EdgeMeta) (comps st) ->
  Inv st done ->
  Inv {| comps := cs; compAdj := compAdj st; indeg := indeg st |} done.
Proof.
  intros Hc I. constructor.
  - cbn [comps]. rewrite Hc. exact (cd_ids I).
  - exact (cd_adj_keys I).
  - exact (cd_indeg_keys I).
  - exact (cd_adj I).
  - exact (cd_indeg I).
  - exact (cd_done I).
Qed.

Lemma CondInv_more_done (st : @CondState EdgeMeta) done (e : Edge EdgeMeta) :
  Inv st done ->
  (forall cf ct, JsMap.get (edge_from e) cmap = Some cf ->
                 JsMap.get (edge_to e) cmap = Some ct ->
                 cf <> ct -> In ct (compSuccs st cf)) ->
  Inv st (done ++ [e]).
Proof.
  intros I He. constructor; try apply I.
  intros e' cf ct Hin. apply in_app_iff in Hin.
  destruct Hin as [Hin | [<- | []]].
  - apply (cd_done I). exact Hin.
  - apply He.
Qed.

(** Routing one edge whose endpoints lie in the components [cf] and [ct]. *)
Lemma CondInv_route (st : @CondState EdgeMeta) done (e : Edge EdgeMeta)
    (cf ct : nat) :
  Inv st done ->
  JsMap.get (edge_from e) cmap = Some cf ->
  JsMap.get (edge_to e) cmap = Some ct ->
  ct <= cf -> cf < k ->
  exists st', condenseEdge cmap byId edgeClass st e = inr st' /\
              Inv st' (done ++ [e]).
Proof.
  intros I Hf Ht Hle Hk. unfold condenseEdge. rewrite Hf, Ht.
  destruct (byId_total Hk) as (fi & ->).
  destruct (@byId_total ct ltac:(lia)) as (ti & ->).
  destruct (Nat.eqb_spec cf ct) as [E | NE].
  - eexists. split; [reflexivity |].
    apply CondInv_more_done.
    + apply comps_only; [| exact I].
      destruct (edgeTypeIsBack (JsMap.get (edge_id e) edgeClass));
        rewrite ?(updateAt_map_id (@cc_id EdgeMeta) (pushFeedback e)) by reflexivity;
        rewrite (updateAt_map_id (@cc_id EdgeMeta) (pushInternal e)) by reflexivity;
        reflexivity.
    + intros cf' ct' Hf' Ht' N. congruence.
  - assert (Hlt : ct < cf) by lia.
    assert (Hcs : map (@cc_id EdgeMeta)
                    (updateAt ti (pushEntry e) (updateAt fi (pushExit e) (comps st)))
                  = map (@cc_id EdgeMeta) (comps st)).
    { rewrite (updateAt_map_id (@cc_id EdgeMeta) (pushEntry e)) by reflexivity.
      rewrite (updateAt_map_id (@cc_id EdgeMeta) (pushExit e)) by reflexivity.
      reflexivity. }
    assert (Hhas : JsMap.has cf (compAdj st) = true).
    { rewrite (cd_adj_keys I). apply Nat.ltb_lt. exact Hk. }
    destruct (has_get_some_nat cf (compAdj st) Hhas) as (out & Hout).
    rewrite Hout.
    assert (Hsucc_cf : compSuccs st cf = out).
    { unfold compSuccs. rewrite Hout. reflexivity. }
    destruct (JsSet.has ct out) eqn:Hin; cbn [negb].
    + eexists. split; [reflexivity |].
      apply CondInv_more_done.
      * apply comps_only; [exact Hcs | exact I].
      * intros cf' ct' Hf' Ht' N.
        assert (cf' = cf) by congruence. assert (ct' = ct) by congruence.
        subst cf' ct'. change (In ct (compSuccs st cf)). rewrite Hsucc_cf.
        apply JsSet_has_In. exact Hin.
    + eexists. split; [reflexivity |].
      apply JsSet_has_false in Hin.
      set (st' := {| comps := _; compAdj := _; indeg := _ |}).
      assert (Hs' : forall c, compSuccs st' c
                      = if c =? cf then out ++ [ct] else compSuccs st c).
      { intro c. unfold compSuccs, st'. cbn [compAdj].
        rewrite JsMap_get_set. change (keqb c cf) with (c =? cf).
        destruct (c =? cf); [| reflexivity].
        cbn [nullish]. apply JsSet_add_fresh. exact Hin. }
      assert (Hmono : forall c x, In x (compSuccs st c) -> In x (compSuccs st' c)).
      { intros c x Hx. rewrite Hs'. destruct (Nat.eqb_spec c cf) as [-> | N].
        - rewrite Hsucc_cf in Hx. apply in_app_iff. auto.
        - exact Hx. }
      apply CondInv_more_done.
      * constructor.
        -- cbn [st' comps]. rewrite Hcs. exact (cd_ids I).
        -- intro c. cbn [st' compAdj]. rewrite JsMap_has_set, (cd_adj_keys I).
           change (keqb c cf) with (c =? cf).
           destruct (Nat.eqb_spec c cf) as [-> | N]; [| reflexivity].
           symmetry. apply Nat.ltb_lt. exact Hk.
        -- cbn [st' indeg]. rewrite JsMap_keys_set.
           assert (Hct : JsMap.has ct (indeg st) = true).
           { apply JsMap_has_In_keys. rewrite (cd_indeg_keys I).
             apply in_seq. lia. }
           rewrite Hct. exact (cd_indeg_keys I).
        -- intro c. rewrite Hs'. destruct (Nat.eqb_spec c cf) as [-> | N].
           ++ destruct ((cd_adj I) cf) as [ND Hlow]. rewrite Hsucc_cf in ND, Hlow.
              split.
              ** apply NoDup_app; [exact ND | repeat constructor; simpl; tauto |].
                 intros x Hx [<- | []]. contradiction.
              ** intros x Hx. apply in_app_iff in Hx.
                 destruct Hx as [Hx | [<- | []]]; auto.
           ++ exact ((cd_adj I) c).
        -- intros c Hc. cbn [st' indeg]. rewrite JsMap_get_set.
           rewrite ((cd_indeg I) ct ltac:(lia)). cbn [nullish].
           rewrite ((cd_indeg I) c Hc).
           change (keqb c ct) with (c =? ct).
           unfold pendingCount.
           destruct (Nat.eqb_spec c ct) as [-> | Nc].
           ++ f_equal.
              rewrite <- (@filter_without nat _ (pendingPred (compSuccs st') [] ct)
                            cf (seq 0 k) (seq_NoDup k 0)
                            ltac:(apply in_seq; lia)).
              assert (Ecf : pendingPred (compSuccs st') [] ct cf = true).
              { unfold pendingPred. rewrite Hs', Nat.eqb_refl.
                rewrite (proj2 (JsSet_has_In ct (out ++ [ct]))
                           ltac:(apply in_app_iff; right; left; reflexivity)
                         : existsb (keqb ct) (out ++ [ct]) = true).
                reflexivity. }
              rewrite Ecf.
              assert (Eflt : filter (pendingPred (compSuccs st) [] ct) (seq 0 k)
                           = filter (fun x => pendingPred (compSuccs st') [] ct x
                                              && negb (keqb x cf)) (seq 0 k)).
              { apply filter_ext. intro x. unfold pendingPred. rewrite Hs'.
                change (keqb x cf) with (x =? cf).
                destruct (Nat.eqb_spec x cf) as [-> | Nx].
                - rewrite Hsucc_cf.
                  rewrite (proj2 (JsSet_has_false ct out) Hin
                           : existsb (keqb ct) out = false).
                  simpl. rewrite andb_false_r. reflexivity.
                - cbn [existsb negb]. rewrite !andb_true_r. reflexivity. }
              rewrite Eflt. lia.
           ++ f_equal. f_equal. f_equal. apply filter_ext. intro x.
              unfold pendingPred. rewrite Hs'.
              destruct (Nat.eqb_spec x cf) as [-> | Nx]; [| reflexivity].
              rewrite Hsucc_cf, existsb_app. cbn [existsb].
              change (keqb c ct) with (c =? ct).
              rewrite (proj2 (Nat.eqb_neq c ct) Nc). rewrite !orb_false_r.
              reflexivity.
        -- intros e' cf' ct' He' Hf' Ht' N. apply Hmono.
           exact ((cd_done I) e' cf' ct' He' Hf' Ht' N).
      * intros cf' ct' Hf' Ht' N.
        assert (cf' = cf) by congruence. assert (ct' = ct) by congruence.
        subst cf' ct'. rewrite Hs', Nat.eqb_refl. apply in_app_iff. right. left.
        reflexivity.
Qed.

Lemma condense_pass (es : list (Edge EdgeMeta)) :
  (forall e, In e es ->
     exists cf ct, JsMap.get (edge_from e) cmap = Some cf /\
                   JsMap.get (edge_to e) cmap = Some ct /\
                   ct <= cf /\ cf < k) ->
  forall done st, Inv st done ->
    exists st', forEachE (condenseEdge cmap byId edgeClass) es st = inr st' /\
                Inv st' (done ++ es).
Proof.
  induction es as [| e es IH]; intros Hes done st I; cbn [forEachE].
  - exists st. rewrite app_nil_r. auto.
  - destruct (Hes e (or_introl eq_refl)) as (cf & ct & Hf & Ht & Hle & Hk).
    destruct (CondInv_route e I Hf Ht Hle Hk) as (st1 & -> & I1).
    destruct (IH (fun x Hx => Hes x (or_intror Hx)) _ _ I1) as (st' & E & I').
    exists st'. split; [exact E |]. rewrite <- app_assoc in I'. exact I'.
Qed.
End CondensePass.

Section KahnStrict.
Context {K E : Type} `{Key K}.
Variable N : list K.
Variable adj : K -> list K.
Variable sopt : K -> option (list K).
Variable typeError : E.
Hypothesis N_nodup : NoDup N.
Hypothesis adj_nodup : forall u, In u N -> NoDup (adj u).
Hypothesis adj_incl : forall u, In u N -> incl (adj u) N.
Hypothesis sopt_adj : forall u, In u N -> sopt u = Some (adj u).

(** On vertices that all have a bucket, the strict loop is the plain one. *)
Lemma kahnLoopStrict_plain (fuel : nat) :
  forall (st : KahnState K) (P W : list K),
    queue st = P ++ W -> head st = length P -> result st = P ->
    KahnInv N adj P W (inDegree st) ->
    kahnLoopStrict typeError fuel sopt st
      = option_map inr (kahnLoop fuel adj st).
Proof.
  induction fuel as [| fuel IH]; intros st P W Hq Hh Hr I;
    cbn [kahnLoopStrict kahnLoop]; [reflexivity |].
  rewrite Hq, Hh, nth_error_at_length.
  destruct W as [| u W0]; cbn [hd_error]; [reflexivity |].
  assert (Hu : In u N) by (apply (kahn_incl I); in_list; auto).
  rewrite (sopt_adj u Hu).
  destruct (@KahnInv_step _ _ N adj N_nodup adj_nodup adj_incl P W0 u st
              Hq Hh Hr I) as (W' & Eq & Eh & Er & I').
  exact (IH _ _ _ Eq Eh Er I').
Qed.
End KahnStrict.

Section CondenseMembers.
Context {EdgeMeta : Type}.
Variable cmap : JsMap NodeId nat.
Variable byId : JsMap nat nat.
Variable edgeClass : JsMap EdgeId EdgeType.

(** The identity of a component: its id and its members. *)
Local Abbreviation ident :=
  (fun c : CondensationComponent EdgeMeta => (cc_id c, members c)).

Lemma condenseEdge_members (st st' : @CondState EdgeMeta) (e : Edge EdgeMeta) :
  condenseEdge cmap byId edgeClass st e = inr st' ->
  map ident (comps st') = map ident (comps st).
Proof.
  unfold condenseEdge.
  destruct (JsMap.get (edge_from e) cmap) as [cf |]; [| discriminate].
  destruct (JsMap.get (edge_to e) cmap) as [ct |]; [| discriminate].
  destruct (JsMap.get cf byId) as [fc |]; [| discriminate].
  destruct (JsMap.get ct byId) as [tc |]; [| discriminate].
  destruct (cf =? ct).
  - destruct (edgeTypeIsBack _); intro E; injection E as <-; cbn [comps];
      rewrite ?(updateAt_map_id ident (pushFeedback e)),
              ?(updateAt_map_id ident (pushInternal e)); reflexivity.
  - destruct (JsMap.get cf (compAdj st)) as [out |]; [| discriminate].
    destruct (negb (JsSet.has ct out)); intro E; injection E as <-;
      cbn [comps];
      rewrite (updateAt_map_id ident (pushEntry e)),
              (updateAt_map_id ident (pushExit e)); reflexivity.
Qed.

Lemma condense_members (es : list (Edge EdgeMeta)) :
  forall st st' : @CondState EdgeMeta,
    forEachE (condenseEdge cmap byId edgeClass) es st = inr st' ->
    map ident (comps st') = map ident (comps st).
Proof.
  induction es as [| e es IH]; intros st st'; cbn [forEachE].
  - intro E. injection E as <-. reflexivity.
  - destruct (condenseEdge cmap byId edgeClass st e) as [err | s1] eqn:E1;
      [discriminate |].
    intro E. rewrite (IH _ _ E). exact (condenseEdge_members _ _ E1).
Qed.
End CondenseMembers.

Section Condense.
Context {NodeMeta EdgeMeta : Type}.
Variable g : DirectedGraph NodeMeta EdgeMeta.
Hypothesis g_wf : WellFormed g.

(** The body of [buildCondensationGraph] on the components of [findSCCs]:
    it returns a condensation graph whose topological order is a
    permutation of the component ids and puts the component of an edge's
    source before the component of its target. *)
Lemma condense_spec (l : list SCC) (edgeClass : JsMap EdgeId EdgeType)
    (fuel : nat) :
  SccResult g l -> length l < fuel ->
  exists cg,
    condense fuel g l edgeClass = Some (inr cg) /\
    componentMap cg = buildComponentMap l /\
    map (@cc_id EdgeMeta) (components cg) = seq 0 (length l) /\
    Permutation (map (@cc_id EdgeMeta) (components cg)) (topologicalOrder cg) /\
    (forall e cf ct,
       In e (JsMap.values (edges g)) ->
       JsMap.get (edge_from e) (componentMap cg) = Some cf ->
       JsMap.get (edge_to e) (componentMap cg) = Some ct ->
       cf <> ct -> occursBefore cf ct (topologicalOrder cg)) /\
    (forall c x, In c (components cg) -> In x (members c) ->
       JsMap.get x (componentMap cg) = Some (cc_id c)) /\
    (forall x, In x (JsMap.keys (nodes g)) ->
       exists c, In c (components cg) /\ In x (members c)).
Proof.
  intros R Hf. unfold condense.
  set (k := length l).
  set (cmap := buildComponentMap l).
  set (cs := @initialComponents EdgeMeta l).
  assert (Hids : map (@cc_id EdgeMeta) cs = seq 0 k).
  { unfold cs, initialComponents. rewrite map_map. cbn [cc_id].
    apply (ids_are_positions scc_id l 0). exact (sr_ids R). }
  assert (Hlen : length cs = k).
  { unfold cs, initialComponents. apply length_map. }
  assert (HbyId : forall c, c < k ->
            exists p, JsMap.get c (buildComponentById cs) = Some p).
  { intros c Hc. apply has_get_some_nat. unfold buildComponentById.
    rewrite (fold_set_has (fun ic : nat * CondensationComponent EdgeMeta =>
                             cc_id (snd ic)) fst).
    rewrite existsb_map_key, <- (map_map snd (@cc_id EdgeMeta)).
    rewrite snd_combine_seq, Hids, mem_seq.
    apply Nat.ltb_lt in Hc. rewrite Hc. reflexivity. }
  assert (Hcmap : forall x i c, nth_error l i = Some c -> In x (scc_nodes c) ->
            JsMap.get x cmap = Some i).
  { apply buildComponentMap_get; [exact (sr_ids R) | exact (sr_unique R)]. }
  assert (Hedges : forall e, In e (JsMap.values (edges g)) ->
            exists cf ct, JsMap.get (edge_from e) cmap = Some cf /\
                          JsMap.get (edge_to e) cmap = Some ct /\
                          ct <= cf /\ cf < k).
  { intros e He. pose proof ((wf_edges g_wf) e He) as Harc.
    pose proof (source_is_node g_wf _ _ Harc) as Hfrom.
    destruct ((sr_cover R) _ Hfrom) as (i & c & Hc & Hin).
    destruct ((sr_closed R) _ _ i c Hc Hin Harc) as (j & c' & Hj & Hc' & Hin').
    exists i, j. split; [exact (Hcmap _ _ _ Hc Hin) |].
    split; [exact (Hcmap _ _ _ Hc' Hin') |]. split; [exact Hj |].
    apply nth_error_Some. congruence. }
  destruct (@condense_pass EdgeMeta k cmap (buildComponentById cs) edgeClass
              HbyId (JsMap.values (edges g)) Hedges [] (condenseInit cs)
              (@CondInv_init EdgeMeta k cmap cs Hids))
    as (st & Hpass & I).
  pose proof (@condense_members _ _ _ _ _ _ _ Hpass) as Hmem.
  rewrite Hpass. clear Hpass.
  cbn [app] in I.
  assert (Hadj_nodup : forall u, In u (seq 0 k) -> NoDup (compSuccs st u)).
  { intros u _. apply (cd_adj I). }
  assert (Hadj_lt : forall u v, In v (compSuccs st u) -> v < u /\ u < k).
  { intros u v Hv. split; [apply (cd_adj I u); exact Hv |].
    apply Nat.ltb_lt. rewrite <- (cd_adj_keys I). unfold JsMap.has.
    unfold compSuccs in Hv. destruct (JsMap.get u (compAdj st)); [reflexivity |].
    destruct Hv. }
  assert (Hadj_incl : forall u, In u (seq 0 k) -> incl (compSuccs st u) (seq 0 k)).
  { intros u _ v Hv. apply in_seq. destruct (Hadj_lt u v Hv). lia. }
  assert (Hsopt : forall u, In u (seq 0 k) ->
            JsMap.get u (compAdj st) = Some (compSuccs st u)).
  { intros u Hu. apply in_seq in Hu.
    assert (Hh : JsMap.has u (compAdj st) = true).
    { rewrite (cd_adj_keys I). apply Nat.ltb_lt. lia. }
    destruct (has_get_some_nat u (compAdj st) Hh) as (s & Hs).
    unfold compSuccs. rewrite Hs. reflexivity. }
  assert (I0 : KahnInv (seq 0 k) (compSuccs st) [] (kahnSeeds (indeg st)) (indeg st)).
  { apply KahnInv_init.
    - rewrite (cd_indeg_keys I). apply seq_NoDup.
    - intro v. rewrite (cd_indeg_keys I). tauto.
    - intros v Hv. apply (cd_indeg I). apply in_seq in Hv. lia. }
  rewrite (@kahnLoopStrict_plain _ GraphError _ (seq 0 k) (compSuccs st)
             (fun c => JsMap.get c (compAdj st)) TypeErrorUndefined
             (seq_NoDup k 0) Hadj_nodup Hadj_incl Hsopt fuel
             {| inDegree := indeg st; queue := kahnSeeds (indeg st);
                head := 0; result := [] |}
             [] (kahnSeeds (indeg st)) eq_refl eq_refl eq_refl I0).
  destruct (@kahnLoop_total _ _ (seq 0 k) (compSuccs st) (seq_NoDup k 0)
              Hadj_nodup Hadj_incl fuel
              {| inDegree := indeg st; queue := kahnSeeds (indeg st);
                 head := 0; result := [] |}
              [] (kahnSeeds (indeg st)) eq_refl eq_refl eq_refl I0
              ltac:(rewrite length_seq; simpl; lia))
    as (kst & -> & _ & KI).
  cbn [option_map]. eexists. split; [reflexivity |].
  cbn [components componentMap topologicalOrder].
  assert (Hcomplete : incl (seq 0 k) (result kst)).
  { apply (@kahn_complete _ _ (seq 0 k) (compSuccs st) (result kst)
             (inDegree kst) (fun c => k - c) KI).
    intros u v _ Hv. destruct (Hadj_lt u v Hv). lia. }
  assert (ND : NoDup (result kst)).
  { pose proof (kahn_nodup KI) as X. rewrite app_nil_r in X. exact X. }
  assert (Hincl : incl (result kst) (seq 0 k)).
  { pose proof (kahn_incl KI) as X. rewrite app_nil_r in X. exact X. }
  assert (Elen : length (result kst) = length (seq 0 k)).
  { apply Nat.le_antisymm.
    - apply NoDup_incl_length; assumption.
    - apply NoDup_incl_length; [apply seq_NoDup | assumption]. }
  destruct (@kahn_full_ordered _ _ (seq 0 k) (compSuccs st) (seq_NoDup k 0)
              Hadj_incl (result kst) (inDegree kst) KI Elen) as [Hperm Hord].
  split; [reflexivity |]. split; [exact (cd_ids I) |].
  split; [rewrite (cd_ids I); exact Hperm |].
  assert (Hident : map (fun c : CondensationComponent EdgeMeta =>
                          (cc_id c, members c)) (comps st)
                   = map (fun c => (scc_id c, scc_nodes c)) l).
  { pose proof (proj1 (condenseInit_fields cs
                         {| comps := cs; compAdj := JsMap.empty;
                            indeg := JsMap.empty |})) as Ec.
    change (comps (condenseInit cs) = cs) in Ec.
    rewrite Hmem, Ec. unfold cs, initialComponents. rewrite map_map.
    reflexivity. }
  split; [| split].
  - intros e cf ct He Hcf Hct Hne.
    pose proof ((cd_done I) e cf ct He Hcf Hct Hne) as Harc.
    apply Hord; [| exact Harc].
    apply in_seq. destruct (Hadj_lt cf ct Harc). lia.
  - intros c x Hc Hx.
    assert (Hin : In (cc_id c, members c)
                    (map (fun c => (scc_id c, scc_nodes c)) l)).
    { rewrite <- Hident.
      exact (in_map (fun c : CondensationComponent EdgeMeta =>
                       (cc_id c, members c)) _ _ Hc). }
    apply in_map_iff in Hin. destruct Hin as (scc & Eq & Hscc).
    injection Eq as Eid Emem.
    destruct (In_nth_error _ _ Hscc) as (i & Hi).
    rewrite <- Eid, ((sr_ids R) _ _ Hi).
    apply (Hcmap x i scc Hi). rewrite Emem. exact Hx.
  - intros x Hx. destruct ((sr_cover R) _ Hx) as (i & scc & Hi & Hin).
    assert (Hl : In (scc_id scc, scc_nodes scc)
                   (map (fun c : CondensationComponent EdgeMeta =>
                           (cc_id c, members c)) (comps st))).
    { rewrite Hident.
      exact (in_map (fun c => (scc_id c, scc_nodes c)) _ _
               (nth_error_In _ _ Hi)). }
    apply in_map_iff in Hl. destruct Hl as (c & Eq & Hc).
    injection Eq as _ Emem. exists c. split; [exact Hc |].
    rewrite Emem. exact Hin.
Qed.
End Condense.

(** ** [classifyEdges] returns *)

Section ClassifyFacts.
Context {NodeMeta EdgeMeta : Type}.
Variable g : DirectedGraph NodeMeta EdgeMeta.
Hypothesis g_wf : WellFormed g.
Variable walkFuel : nat.
Hypothesis walkFuel_enough : 2 * JsMap.size (nodes g) + 2 <= walkFuel.

Local Abbreviation Inv := (ClassifyInv g).
Local Abbreviation Ext := (ClassifyExt g).

Lemma ClassifyExt_refl (st : ClassifyState) : Ext st st.
Proof. constructor; [auto | lia]. Qed.

Lemma ClassifyExt_trans (a b c : ClassifyState) : Ext a b -> Ext b c -> Ext a c.
Proof.
  intros [D1 C1] [D2 C2]. constructor; [auto | lia].
Qed.

Lemma undiscovered_mono (st st' : ClassifyState) :
  Ext st st' -> undiscovered g st' <= undiscovered g st.
Proof.
  intros [D _]. apply filter_length_mono. intros x _ Hx.
  apply negb_true_iff in Hx. apply negb_true_iff.
  apply JsMap_has_false. apply JsMap_has_false in Hx.
  destruct (JsMap.get x (disc st)) as [d |] eqn:E; [| reflexivity].
  rewrite (D _ _ E) in Hx. discriminate.
Qed.

Lemma undiscovered_le (st : ClassifyState) :
  undiscovered g st <= JsMap.size (nodes g).
Proof.
  unfold undiscovered, JsMap.size, JsMap.keys.
  rewrite <- (length_map fst (nodes g)). apply List.filter_length_le.
Qed.

(** The walk up the parent pointers ends: discovery times decrease. *)
Lemma ancestorWalk_total (st : ClassifyState) (u : NodeId) :
  Inv st ->
  forall fuel anc,
    match anc with
    | None => 1 <= fuel
    | Some a => match JsMap.get a (disc st) with
                | Some da => da + 2 <= fuel
                | None => time st + 2 <= fuel
                end
    end ->
    exists b, ancestorWalk fuel st u anc = Some b.
Proof.
  intro I. induction fuel as [| fuel IH]; intros anc Hf.
  - destruct anc as [a |]; [destruct (JsMap.get a (disc st)) |]; lia.
  - cbn [ancestorWalk]. destruct anc as [a |]; [| eauto].
    destruct (keqb a u); [eauto |].
    apply IH. destruct (parentOf st a) as [p |] eqn:Ep.
    + destruct ((ci_parent I) _ _ Ep) as (dp & Hdp & Hlt). rewrite Hdp.
      destruct (JsMap.get a (disc st)) as [da |] eqn:Ea.
      * pose proof (Hlt _ eq_refl). lia.
      * pose proof ((ci_time I) _ _ Hdp). lia.
    + destruct (JsMap.get a (disc st)) as [da |]; lia.
Qed.

Lemma time_bound (st : ClassifyState) :
  Inv st -> time st + 2 <= walkFuel.
Proof. intro I. pose proof (ci_bound I). lia. Qed.

Lemma classifyNonTree_total (st : ClassifyState) (u v : NodeId) (eid : EdgeId) :
  Inv st ->
  exists t, classifyNonTree walkFuel u v eid st = Some (set_type t st).
Proof.
  intro I. unfold classifyNonTree.
  destruct (JsSet.has v (onStackC st)); [eauto |].
  destruct (ltNum _ _ && ltInf _ _); [eauto |].
  destruct (@ancestorWalk_total st u I walkFuel (parentOf st v)) as (b & ->);
    [| eauto].
  pose proof (time_bound I) as Ht.
  destruct (parentOf st v) as [a |]; [| lia].
  destruct (JsMap.get a (disc st)) as [da |] eqn:Ea; [| exact Ht].
  pose proof ((ci_time I) _ _ Ea). lia.
Qed.

Lemma ClassifyInv_set_type (t : JsMap EdgeId EdgeType) (st : ClassifyState) :
  Inv st -> Inv (set_type t st).
Proof. intros [A B C]. constructor; [exact A | exact B | exact C]. Qed.

Lemma nonTree_loop (u v : NodeId) (eids : list EdgeId) :
  forall st, Inv st ->
    exists t, forEachM (fun st eid => classifyNonTree walkFuel u v eid st)
                eids st = Some (set_type t st).
Proof.
  induction eids as [| eid eids IH]; intros st I; cbn [forEachM].
  - exists (type st). destruct st; reflexivity.
  - destruct (classifyNonTree_total u v eid I) as (t & ->).
    destruct (IH _ (ClassifyInv_set_type t I)) as (t' & ->).
    exists t'. reflexivity.
Qed.

Lemma parentOf_discover (u x : NodeId) (st : ClassifyState) :
  parentOf (discover u st) x = parentOf st x.
Proof.
  unfold parentOf, discover. cbn [parent]. rewrite JsMap_get_set.
  key_cases x u; reflexivity.
Qed.

Lemma ClassifyInv_discover (u : NodeId) (st : ClassifyState) :
  In u (JsMap.keys (nodes g)) -> Inv st -> JsMap.has u (disc st) = false ->
  Inv (discover u st) /\ Ext st (discover u st) /\
  undiscovered g (discover u st) < undiscovered g st /\
  time (discover u st) + 2 * undiscovered g (discover u st) + 1
    <= time st + 2 * undiscovered g st.
Proof.
  intros Hu I Hnew.
  assert (Hnone : JsMap.get u (disc st) = None) by (apply JsMap_has_false; exact Hnew).
  assert (Hlt : undiscovered g (discover u st) < undiscovered g st).
  { unfold undiscovered. apply filter_length_strict with (v := u).
    - intros x _ Hx. apply negb_true_iff in Hx. apply negb_true_iff.
      cbn [disc discover] in Hx. rewrite JsMap_has_set in Hx.
      apply orb_false_iff in Hx. tauto.
    - exact Hu.
    - cbn [disc discover]. rewrite JsMap_has_set, keqb_refl. reflexivity.
    - rewrite Hnew. reflexivity. }
  assert (Hdisc : forall x d, JsMap.get x (disc st) = Some d ->
            JsMap.get x (disc (discover u st)) = Some d).
  { intros x d Hx. cbn [disc discover]. rewrite JsMap_get_set.
    key_cases x u; [congruence | exact Hx]. }
  pose proof (ci_bound I) as Hb. cbn [time discover].
  split; [| split; [| split]].
  - constructor.
    + intros x dx. cbn [disc discover time]. rewrite JsMap_get_set.
      key_cases x u.
      * intro E0. injection E0 as <-. lia.
      * intro E0. pose proof ((ci_time I) _ _ E0). lia.
    + intros x p. rewrite parentOf_discover. intro Ep.
      destruct ((ci_parent I) _ _ Ep) as (dp & Hdp & Hord).
      exists dp. split; [exact (Hdisc _ _ Hdp) |].
      intro dx. cbn [disc discover]. rewrite JsMap_get_set.
      key_cases x u.
      * intro E0. injection E0 as <-. exact ((ci_time I) _ _ Hdp).
      * apply Hord.
    + cbn [time discover]. lia.
  - constructor; [exact Hdisc | cbn [time discover]; lia].
  - exact Hlt.
  - lia.
Qed.

Lemma ClassifyInv_adopt (u v : NodeId) (t : JsMap EdgeId EdgeType)
    (st : ClassifyState) :
  Inv st -> JsMap.has u (disc st) = true -> JsMap.has v (disc st) = false ->
  Inv (set_parent (JsMap.set v (Some u) (parent (set_type t st)))
         (set_type t st)).
Proof.
  intros I Hu Hv. constructor.
  - exact (ci_time I).
  - intros x p. unfold parentOf. cbn [parent set_parent set_type disc].
    rewrite JsMap_get_set. key_cases x v.
    + cbn [nullish]. intro E0. injection E0 as <-.
      destruct (has_get_some _ _ Hu) as (du & Hdu).
      exists du. split; [exact Hdu |].
      intros dx Hdx. apply JsMap_has_false in Hv. congruence.
    + apply (ci_parent I).
  - exact (ci_bound I).
Qed.

Section OneCall.
Variable fuel : nat.
Hypothesis dfs_total : forall u st,
  In u (JsMap.keys (nodes g)) -> Inv st -> JsMap.has u (disc st) = false ->
  undiscovered g st < fuel ->
  exists st', dfsClassify g walkFuel fuel u st = Some st' /\
              Inv st' /\ Ext st st'.

Lemma classifyArc_total (u v : NodeId) (st : ClassifyState) :
  In v (JsMap.keys (nodes g)) -> Inv st ->
  JsMap.has u (disc st) = true -> undiscovered g st < fuel ->
  exists st', classifyArc (dfsClassify g walkFuel fuel) g walkFuel u st v
                = Some st' /\ Inv st' /\ Ext st st'.
Proof.
  intros Hv I Hu Hfuel. unfold classifyArc.
  destruct (getEdgeIdsBetween g u v) as [| first rest].
  { exists st. split; [reflexivity |]. split; [exact I | apply ClassifyExt_refl]. }
  destruct (JsMap.has v (disc st)) eqn:Ev; cbn [negb].
  - destruct (nonTree_loop u v (first :: rest) I) as (t & ->).
    exists (set_type t st). split; [reflexivity |].
    split; [apply ClassifyInv_set_type; exact I |].
    constructor; [auto | cbn [time set_type]; apply Nat.le_refl].
  - cbv zeta.
    pose proof (@ClassifyInv_adopt u v (JsMap.set first tree (type st)) st I Hu Ev) as Ia.
    destruct (@dfs_total v _ Hv Ia Ev Hfuel) as (sb & -> & Ib & [Db Cb]).
    destruct (nonTree_loop u v rest Ib) as (t & ->).
    exists (set_type t sb). split; [reflexivity |].
    split; [apply ClassifyInv_set_type; exact Ib |].
    constructor; [exact Db | exact Cb].
Qed.

Lemma arcLoop_total (u : NodeId) (vs : list NodeId) :
  incl vs (JsMap.keys (nodes g)) ->
  forall st, Inv st -> JsMap.has u (disc st) = true ->
    undiscovered g st < fuel ->
    exists st', forEachM (classifyArc (dfsClassify g walkFuel fuel) g walkFuel u)
                  vs st = Some st' /\ Inv st' /\ Ext st st'.
Proof.
  induction vs as [| v vs IH]; intros Hvs st I Hu Hfuel; cbn [forEachM].
  - exists st. split; [reflexivity |]. split; [exact I | apply ClassifyExt_refl].
  - destruct (@classifyArc_total u v st (Hvs v (or_introl eq_refl)) I Hu Hfuel)
      as (s1 & -> & I1 & E1).
    destruct (IH (fun x Hx => Hvs x (or_intror Hx)) s1 I1) as (s2 & R & I2 & E2).
    + destruct (has_get_some _ _ Hu) as (du & Hdu).
      apply get_some_has with (y := du). exact ((ce_disc E1) _ _ Hdu).
    + pose proof (undiscovered_mono E1). lia.
    + exists s2. split; [exact R |]. split; [exact I2 |].
      exact (ClassifyExt_trans E1 E2).
Qed.
End OneCall.

Lemma dfsClassify_total (fuel : nat) :
  forall u st,
    In u (JsMap.keys (nodes g)) -> Inv st -> JsMap.has u (disc st) = false ->
    undiscovered g st < fuel ->
    exists st', dfsClassify g walkFuel fuel u st = Some st' /\
                Inv st' /\ Ext st st'.
Proof.
  induction fuel as [| fuel IH]; intros u st Hu I Hnew Hfuel; [lia |].
  cbn [dfsClassify].
  destruct (@ClassifyInv_discover u st Hu I Hnew) as (I1 & E1 & Hlt & Hclock).
  destruct (@arcLoop_total fuel IH u (getSuccessors g u)
              (proj2 ((wf_succ g_wf) u)) (discover u st) I1) as (s2 & R & I2 & E2).
  - cbn [disc discover]. rewrite JsMap_has_set, keqb_refl. reflexivity.
  - lia.
  - unfold getSuccessors in R. rewrite R.
    exists (finish u s2). split; [reflexivity |].
    pose proof (ce_clock E2) as C2. split.
    + constructor.
      * intros x dx Hx. cbn [disc finish time] in *.
        pose proof ((ci_time I2) _ _ Hx). lia.
      * exact (ci_parent I2).
      * pose proof (ci_bound I). cbn [time finish].
        change (undiscovered g (finish u s2)) with (undiscovered g s2). lia.
    + constructor.
      * intros x d Hx. cbn [disc finish].
        exact ((ce_disc E2) _ _ ((ce_disc E1) _ _ Hx)).
      * cbn [time finish].
        change (undiscovered g (finish u s2)) with (undiscovered g s2). lia.
Qed.
End ClassifyFacts.

Section ClassifyEdges.
Context {NodeMeta EdgeMeta : Type}.
Variable g : DirectedGraph NodeMeta EdgeMeta.
Hypothesis g_wf : WellFormed g.
Variable fuel : nat.
Hypothesis fuel_enough : 2 * JsMap.size (nodes g) + 2 <= fuel.

Lemma ClassifyInv_init : ClassifyInv g classifyInit.
Proof.
  constructor.
  - intros x dx Hx. discriminate Hx.
  - intros x p Hp. discriminate Hp.
  - pose proof (undiscovered_le g classifyInit). cbn [time classifyInit]. lia.
Qed.

Lemma classifyRoots_total (us : list NodeId) :
  incl us (JsMap.keys (nodes g)) ->
  forall st, ClassifyInv g st ->
    exists st',
      forEachM (fun st u =>
        if negb (JsMap.has u (disc st)) then dfsClassify g fuel fuel u st
        else Some st) us st = Some st' /\ ClassifyInv g st'.
Proof.
  induction us as [| u us IH]; intros Hus st I; cbn [forEachM].
  - exists st. auto.
  - destruct (JsMap.has u (disc st)) eqn:Eu; cbn [negb].
    + apply IH; [intros x Hx; apply Hus; right; exact Hx | exact I].
    + destruct (@dfsClassify_total _ _ g g_wf fuel fuel_enough fuel u st
                  (Hus u (or_introl eq_refl)) I Eu) as (s1 & -> & I1 & _).
      * pose proof (undiscovered_le g st). lia.
      * apply IH; [intros x Hx; apply Hus; right; exact Hx | exact I1].
Qed.

Lemma classifyCross_total (es : list (Edge EdgeMeta)) :
  forall st, ClassifyInv g st ->
    exists st',
      forEachM (fun st edge =>
        if edgeTypeIsCross (JsMap.get (edge_id edge) (type st)) then
          classifyNonTree fuel (edge_from edge) (edge_to edge)
            (edge_id edge) st
        else Some st) es st = Some st'.
Proof.
  induction es as [| e es IH]; intros st I; cbn [forEachM].
  - eauto.
  - destruct (edgeTypeIsCross _).
    + destruct (@classifyNonTree_total _ _ g fuel fuel_enough st
                  (edge_from e) (edge_to e) (edge_id e) I) as (t & ->).
      apply IH. apply ClassifyInv_set_type. exact I.
    + apply IH. exact I.
Qed.

(** With two units of fuel per node and two to spare, [classifyEdges]
    returns. *)
Lemma classifyEdges_total : exists ec, classifyEdges fuel g = Some ec.
Proof.
  unfold classifyEdges.
  destruct (classifyRoots_total (incl_refl _) ClassifyInv_init) as (st & -> & I).
  destruct (classifyCross_total (JsMap.values (edges g)) I) as (st' & ->).
  cbn [option_map]. eauto.
Qed.
End ClassifyEdges.

(** ** No more components than nodes *)

Section ComponentCount.
Context {NodeMeta EdgeMeta : Type}.
Variable g : DirectedGraph NodeMeta EdgeMeta.
Hypothesis g_wf : WellFormed g.

(** Components emitted, nodes waiting on the stack, nodes not yet seen. *)
Local Abbreviation load s :=
  (length (sccs s) + length (stack s) + unvisitedCount g s).

Lemma lowlinkMin_load (v : NodeId) (o : option nat) (s s' : TarjanState) :
  lowlinkMin v o s = Some s' -> load s' = load s.
Proof.
  unfold lowlinkMin. destruct (JsMap.get v (lowlink s)); [| discriminate].
  destruct o; [| discriminate]. intro E. injection E as <-. reflexivity.
Qed.

Lemma popComponent_shorter (v : NodeId) (st : list NodeId) :
  forall on acc st' on' acc',
    popComponent v st on acc = Some (st', on', acc') -> length st' < length st.
Proof.
  induction st as [| w st IH]; intros on acc st' on' acc' E;
    cbn [popComponent] in E; [discriminate |].
  cbv zeta in E. destruct (keqb w v).
  - injection E as <- _ _. simpl. lia.
  - apply IH in E. simpl. lia.
Qed.

Lemma closeComponent_load (v : NodeId) (s s' : TarjanState) :
  closeComponent g v s = Some s' -> load s' <= load s.
Proof.
  unfold closeComponent. destruct (optNatEqb _ _).
  - destruct (popComponent v (stack s) (onStack s) [])
      as [[[st' on'] acc'] |] eqn:Ep; [| discriminate].
    intro E. injection E as <-. apply popComponent_shorter in Ep.
    cbn [sccs stack]. rewrite length_app. cbn [length].
    change (unvisitedCount g _) with (unvisitedCount g s). lia.
  - intro E. injection E as <-. lia.
Qed.

Lemma pushNode_load (v : NodeId) (s : TarjanState) :
  In v (JsMap.keys (nodes g)) -> JsMap.has v (index s) = false ->
  load (pushNode v s) <= load s.
Proof.
  intros Hv Hnew.
  assert (Hlt : unvisitedCount g (pushNode v s) < unvisitedCount g s).
  { unfold unvisitedCount. apply filter_length_strict with (v := v).
    - intros x _ Hx. apply negb_true_iff in Hx. apply negb_true_iff.
      cbn [index pushNode] in Hx. rewrite JsMap_has_set in Hx.
      apply orb_false_iff in Hx. tauto.
    - exact Hv.
    - cbn [index pushNode]. rewrite JsMap_has_set, keqb_refl. reflexivity.
    - rewrite Hnew. reflexivity. }
  cbn [sccs stack pushNode length]. lia.
Qed.

Lemma strongConnect_load (fuel : nat) :
  forall v s s',
    In v (JsMap.keys (nodes g)) -> JsMap.has v (index s) = false ->
    strongConnect g fuel v s = Some s' -> load s' <= load s.
Proof.
  induction fuel as [| fuel IH]; intros v s s' Hv Hnew E;
    cbn [strongConnect] in E; [discriminate |].
  destruct (forEachM (visitSuccessor (strongConnect g fuel) v)
              (getSuccessors g v) (pushNode v s)) as [s1 |] eqn:Eloop;
    [| discriminate].
  apply closeComponent_load in E.
  pose proof (@pushNode_load v s Hv Hnew) as Hpush.
  assert (Hloop : forall ws a b,
            incl ws (JsMap.keys (nodes g)) ->
            forEachM (visitSuccessor (strongConnect g fuel) v) ws a = Some b ->
            load b <= load a).
  { induction ws as [| w ws IHws]; intros a b Hws Eab; cbn [forEachM] in Eab.
    - injection Eab as <-. lia.
    - destruct (visitSuccessor (strongConnect g fuel) v a w) as [a' |] eqn:Ew;
        [| discriminate].
      apply IHws in Eab; [| intros x Hx; apply Hws; right; exact Hx].
      assert (Ha : load a' <= load a).
      { unfold visitSuccessor in Ew.
        destruct (JsMap.has w (index a)) eqn:Hw; cbn [negb] in Ew.
        - destruct (JsSet.has w (onStack a)).
          + apply lowlinkMin_load in Ew. lia.
          + injection Ew as <-. lia.
        - destruct (strongConnect g fuel w a) as [a1 |] eqn:Ea1;
            [| discriminate].
          apply lowlinkMin_load in Ew.
          apply IH in Ea1; [lia | apply Hws; left; reflexivity | exact Hw]. }
      lia. }
  apply Hloop in Eloop; [lia | exact (proj2 ((wf_succ g_wf) v))].
Qed.

Lemma findSCCs_length (fuel : nat) (l : list SCC) :
  findSCCs fuel g = Some l -> length l <= JsMap.size (nodes g).
Proof.
  unfold findSCCs.
  assert (Hloop : forall us a b,
            incl us (JsMap.keys (nodes g)) ->
            forEachM (fun st nodeId =>
              if negb (JsMap.has nodeId (index st))
              then strongConnect g fuel nodeId st else Some st) us a = Some b ->
            load b <= load a).
  { induction us as [| u us IHus]; intros a b Hus Eab; cbn [forEachM] in Eab.
    - injection Eab as <-. lia.
    - destruct (JsMap.has u (index a)) eqn:Hu; cbn [negb] in Eab.
      + apply IHus in Eab; [exact Eab | intros x Hx; apply Hus; right; exact Hx].
      + destruct (strongConnect g fuel u a) as [a1 |] eqn:Ea1; [| discriminate].
        apply IHus in Eab; [| intros x Hx; apply Hus; right; exact Hx].
        apply strongConnect_load in Ea1;
          [lia | apply Hus; left; reflexivity | exact Hu]. }
  destruct (forEachM _ (JsMap.keys (nodes g)) tarjanInit) as [s |] eqn:E;
    [| discriminate].
  cbn [option_map]. intro El. injection El as <-.
  apply Hloop in E; [| apply incl_refl].
  cbn [sccs stack tarjanInit length] in E.
  assert (Hb : unvisitedCount g tarjanInit <= JsMap.size (nodes g)).
  { unfold unvisitedCount, JsMap.size, JsMap.keys.
    rewrite <- (length_map fst (nodes g)). apply List.filter_length_le. }
  lia.
Qed.
End ComponentCount.

(** C2. On every graph built through the interface, and with two units of
    fuel per node and two to spare, [buildCondensationGraph()] returns a
    condensation graph; its [topologicalOrder] has no repetition and is a
    rearrangement of the ids of its components; every node lies in a
    component; and for every edge whose source lies in a component [c1] and
    whose target lies in a component [c2] of another id, the id of [c1]
    occurs before the id of [c2] in [topologicalOrder]. *)
Theorem condensation_order_covers_and_respects_edges
    (NodeMeta EdgeMeta : Type) (g : DirectedGraph NodeMeta EdgeMeta)
    (fuel : nat) :
  Built g -> 2 * JsMap.size (nodes g) + 2 <= fuel ->
  exists cg,
    buildCondensationGraph fuel g None = Some (inr cg) /\
    NoDup (topologicalOrder cg) /\
    Permutation (map (@cc_id EdgeMeta) (components cg)) (topologicalOrder cg) /\
    (forall x, hasNode g x = true ->
       exists c, In c (components cg) /\ In x (members c)) /\
    (forall e c1 c2,
       In e (getEdges g) ->
       In c1 (components cg) -> In (edge_from e) (members c1) ->
       In c2 (components cg) -> In (edge_to e) (members c2) ->
       cc_id c1 <> cc_id c2 ->
       occursBefore (cc_id c1) (cc_id c2) (topologicalOrder cg)).
Proof.
  intros B Hf. pose proof (Built_WellFormed B) as W.
  assert (HfN : length (JsMap.keys (nodes g)) < fuel).
  { unfold JsMap.keys. rewrite length_map. unfold JsMap.size in Hf. lia. }
  destruct (findSCCs_spec W HfN) as (l & Es & R).
  destruct (@classifyEdges_total _ _ g W fuel Hf) as (ec & Ec).
  assert (Hl : length l < fuel).
  { pose proof (@findSCCs_length _ _ g W fuel l Es). lia. }
  destruct (@condense_spec _ _ g W l ec fuel R Hl)
    as (cg & Ecg & Emap & Eids & Hperm & Hord & Hmem & Hcover).
  exists cg. unfold buildCondensationGraph. rewrite Es, Ec.
  split; [exact Ecg |]. split; [| split; [exact Hperm | split]].
  - apply (Permutation_NoDup Hperm). rewrite Eids. apply seq_NoDup.
  - intros x Hx. apply Hcover. apply JsMap_has_In_keys. exact Hx.
  - intros e c1 c2 He Hc1 Hfrom Hc2 Hto Hne.
    apply (Hord e); [exact He | | | exact Hne].
    + exact (Hmem _ _ Hc1 Hfrom).
    + exact (Hmem _ _ Hc2 Hto).
Qed.

Lemma condensation_order_covers_and_respects_edges_witness :
  exists cg,
    buildCondensationGraph 6 (exampleAB false) None = Some (inr cg) /\
    NoDup (topologicalOrder cg) /\
    Permutation (map (@cc_id unit) (components cg)) (topologicalOrder cg) /\
    (forall x, hasNode (exampleAB false) x = true ->
       exists c, In c (components cg) /\ In x (members c)) /\
    (forall e c1 c2,
       In e (getEdges (exampleAB false)) ->
       In c1 (components cg) -> In (edge_from e) (members c1) ->
       In c2 (components cg) -> In (edge_to e) (members c2) ->
       cc_id c1 <> cc_id c2 ->
       occursBefore (cc_id c1) (cc_id c2) (topologicalOrder cg)).
Proof.
  apply (@condensation_order_covers_and_respects_edges unit unit
           (exampleAB false) 6).
  - unfold exampleAB, runM. repeat constructor.
  - vm_compute. lia.
Defined.

(** ** The edge store of a built graph *)

Section EdgeIds.
Local Open Scope string_scope.

Lemma string_app_assoc (a b c : string) : (a ++ b) ++ c = a ++ (b ++ c).
Proof. induction a as [| x a IH]; simpl; [reflexivity | rewrite IH; reflexivity]. Qed.

(** An edge key followed by anything parses back in one way. *)
Lemma getEdgeKey_prefix (a b c d : NodeId) (r1 r2 : string) :
  getEdgeKey a b ++ r1 = getEdgeKey c d ++ r2 -> a = c /\ b = d /\ r1 = r2.
Proof.
  unfold getEdgeKey. rewrite !string_app_assoc. intro E.
  apply colon_split in E; try apply colonFree_num.
  destruct E as [La E]. apply num_to_string_inj in La.
  rewrite ?string_app_assoc in E.
  apply length_split in E; [| exact La].
  destruct E as [-> E]. rewrite ?string_app_assoc in E.
  inversion E as [E'].
  apply colon_split in E'; try apply colonFree_num.
  destruct E' as [Lb E']. apply num_to_string_inj in Lb.
  apply length_split in E'; [| exact Lb].
  destruct E' as [-> ->]. auto.
Qed.

(** The identifiers of multi-edge mode determine endpoints and counter. *)
Lemma multiEdgeId_inj (a b c d : NodeId) (n m : nat) :
  getEdgeKey a b ++ "#" ++ num_to_string n
    = getEdgeKey c d ++ "#" ++ num_to_string m ->
  a = c /\ b = d /\ n = m.
Proof.
  intro E. apply getEdgeKey_prefix in E. destruct E as (-> & -> & E).
  inversion E as [E']. apply num_to_string_inj in E'. auto.
Qed.
End EdgeIds.

Section EdgeStoreFacts.
Context {NodeMeta EdgeMeta : Type}.
Local Abbreviation Graph := (DirectedGraph NodeMeta EdgeMeta).

(** Past its four checks, [addEdge] on a well-formed graph commits the
    edge and returns its identifier: the invariant check cannot fail. *)
Lemma addEdge_commit (g : Graph) (from to : NodeId) (md : option EdgeMeta) :
  WellFormed g ->
  JsMap.has from (nodes g) = true -> JsMap.has to (nodes g) = true ->
  negb (allowSelfLoops (options g)) && keqb from to = false ->
  negb (allowMultiEdges (options g)) &&
    JsMap.has (getEdgeKey from to) (edgeIndex g) = false ->
  addEdge from to md g =
    (insertEdge from to (nextEdgeIdFor g from to) md
       (if allowMultiEdges (options g)
        then set_nextEdgeId (S (nextEdgeId g)) g else g),
     inr (nextEdgeIdFor g from to)).
Proof.
  intros W Hf Ht Hl Hd.
  assert (Hfa : JsMap.has from (adjacencyList g) = true)
    by (rewrite (wf_adj_keys W); exact Hf).
  assert (Htr : JsMap.has to (reverseAdjacencyList g) = true)
    by (rewrite (wf_radj_keys W); exact Ht).
  apply has_get_some in Hfa. destruct Hfa as (fromAdj & Efa).
  apply has_get_some in Htr. destruct Htr as (toRev & Etr).
  assert (Hin1 : JsSet.has to (JsSet.add to fromAdj) = true).
  { apply JsSet_has_In. apply JsSet_In_add. auto. }
  assert (Hin2 : JsSet.has from (JsSet.add from toRev) = true).
  { apply JsSet_has_In. apply JsSet_In_add. auto. }
  unfold addEdge, bind, this, throw. rewrite Hf, Ht. cbn [negb].
  rewrite Hl, Hd.
  unfold when, validateEdgeInvariants, modify, bind, this, throw, ret,
    nextEdgeIdFor, insertEdge.
  destruct (allowMultiEdges (options g)); cbn; rewrite Efa; cbn; rewrite Etr;
    cbn; destruct (validateOnConstruction (options g)); cbn;
    rewrite ?JsMap_get_set_same, ?Hin1; cbn; rewrite ?Hin2; reflexivity.
Qed.
(** The four checks of [addEdge], in order; nothing is assigned before
    they pass. *)
Lemma addEdge_checks (g : Graph) (from to : NodeId) (md : option EdgeMeta) :
  addEdge from to md g =
    if negb (JsMap.has from (nodes g)) then (g, inl (SourceNodeMissing from))
    else if negb (JsMap.has to (nodes g)) then (g, inl (TargetNodeMissing to))
    else if negb (allowSelfLoops (options g)) && keqb from to
    then (g, inl (SelfLoopNotAllowed from to))
    else if negb (allowMultiEdges (options g)) &&
            JsMap.has (getEdgeKey from to) (edgeIndex g)
    then (g, inl (EdgeAlreadyExists (getEdgeKey from to)))
    else addEdge from to md g.
Proof.
  unfold addEdge at 1. unfold bind, this, throw.
  destruct (negb (JsMap.has from (nodes g))) eqn:E1; [reflexivity |].
  destruct (negb (JsMap.has to (nodes g))) eqn:E2; [reflexivity |].
  destruct (negb (allowSelfLoops (options g)) && keqb from to) eqn:E3;
    [reflexivity |].
  destruct (negb (allowMultiEdges (options g)) &&
            JsMap.has (getEdgeKey from to) (edgeIndex g)) eqn:E4;
    [reflexivity |].
  unfold addEdge, bind, this, throw. rewrite E1, E2, E3, E4. reflexivity.
Qed.

Lemma JsMap_values_set_fresh {K V : Type} `{Key K} (k : K) (v : V)
    (m : JsMap K V) :
  JsMap.get k m = None -> JsMap.values (JsMap.set k v m) = JsMap.values m ++ [v].
Proof.
  unfold JsMap.values. induction m as [| [k' v'] m IH]; simpl; [reflexivity |].
  destruct (keqb k k'); [discriminate |]. intro E. simpl. rewrite IH; auto.
Qed.

Lemma JsMap_In_values {K V : Type} `{Key K} (v : V) (m : JsMap K V) :
  NoDup (JsMap.keys m) ->
  (In v (JsMap.values m) <-> exists k, JsMap.get k m = Some v).
Proof.
  unfold JsMap.values, JsMap.keys.
  induction m as [| [k' v'] m IH]; simpl; intro ND.
  - split; [intros [] | intros (k & E); discriminate].
  - inversion ND as [| ? ? Hk ND']; subst. split.
    + intros [<- | Hin].
      * exists k'. rewrite keqb_refl. reflexivity.
      * apply (IH ND') in Hin. destruct Hin as (k & E). exists k.
        destruct (keqb_spec k k') as [-> | N]; [| exact E].
        exfalso. apply Hk. apply (JsMap_get_In_keys k' m). congruence.
    + intros (k & E). destruct (keqb k k').
      * left. congruence.
      * right. apply (IH ND'). eauto.
Qed.

Lemma EdgeStore_empty (o : RequiredGraphOptions) :
  EdgeStore ({| nodes := JsMap.empty; edges := JsMap.empty;
                adjacencyList := JsMap.empty;
                reverseAdjacencyList := JsMap.empty;
                edgeIndex := JsMap.empty; nextEdgeId := 0;
                options := o |} : Graph).
Proof.
  constructor; cbn.
  - constructor.
  - intros id e E. discriminate.
  - intros key ids E. discriminate.
  - intros id e E. discriminate.
  - intros _ id e E. discriminate.
Qed.

Lemma EdgeStore_same (g g' : Graph) :
  edges g' = edges g -> edgeIndex g' = edgeIndex g ->
  options g' = options g -> nextEdgeId g <= nextEdgeId g' ->
  EdgeStore g -> EdgeStore g'.
Proof.
  intros Ee Ei Eo Hn S. constructor.
  - rewrite Ee. exact (es_keys S).
  - intros id e. rewrite Ee. unfold getEdgeIdsBetween. rewrite Ei.
    exact ((es_edge S) id e).
  - intros key ids. rewrite Ei, Ee. exact ((es_bucket S) key ids).
  - intros id e. rewrite Ee, Eo. intro E. pose proof ((es_ids S) id e E) as X.
    destruct (allowMultiEdges (options g)); [| exact X].
    destruct X as (n & Hlt & ->). exists n. split; [lia | reflexivity].
  - rewrite Eo, Ee. exact (es_loops S).
Qed.

(** The identifier chosen by [addEdge] is not in use. *)
Lemma nextEdgeIdFor_fresh (g : Graph) (from to : NodeId) :
  EdgeStore g ->
  negb (allowMultiEdges (options g)) &&
    JsMap.has (getEdgeKey from to) (edgeIndex g) = false ->
  JsMap.get (nextEdgeIdFor g from to) (edges g) = None.
Proof.
  intros S Hd. unfold nextEdgeIdFor.
  destruct (JsMap.get _ (edges g)) as [e |] eqn:E; [exfalso | reflexivity].
  pose proof ((es_ids S) _ _ E) as Hid.
  destruct (allowMultiEdges (options g)).
  - destruct Hid as (n & Hlt & Hid). apply multiEdgeId_inj in Hid.
    destruct Hid as (_ & _ & <-). lia.
  - cbn [negb andb] in Hd. destruct ((es_edge S) _ _ E) as [_ Hin].
    unfold getEdgeIdsBetween in Hin. rewrite <- Hid in Hin.
    apply JsMap_has_false in Hd. rewrite Hd in Hin. destruct Hin.
Qed.

Lemma EdgeStore_insertEdge (g : Graph) (from to : NodeId) (id : EdgeId)
    (md : option EdgeMeta) :
  WellFormed g -> EdgeStore g ->
  JsMap.has from (nodes g) = true -> JsMap.has to (nodes g) = true ->
  JsMap.get id (edges g) = None ->
  (if allowMultiEdges (options g)
   then exists n, n < nextEdgeId g /\
          id = (getEdgeKey from to +++ "#" +++ num_to_string n)%string
   else id = getEdgeKey from to) ->
  (allowSelfLoops (options g) = false -> from <> to) ->
  EdgeStore (insertEdge from to id md g) /\
  getEdges (insertEdge from to id md g)
    = getEdges g ++ [{| edge_id := id; edge_from := from; edge_to := to;
                        edge_metadata := md |}].
Proof.
  intros W S Hfrom Hto Hfresh Hid Hloop.
  assert (Hfa : JsMap.has from (adjacencyList g) = true)
    by (rewrite (wf_adj_keys W); exact Hfrom).
  assert (Htr : JsMap.has to (reverseAdjacencyList g) = true)
    by (rewrite (wf_radj_keys W); exact Hto).
  apply has_get_some in Hfa. destruct Hfa as (fromAdj & Efa).
  apply has_get_some in Htr. destruct Htr as (toRev & Etr).
  unfold insertEdge. cbv zeta.
  unfold set_reverseAdjacencyList, set_adjacencyList, set_edgeIndex, set_edges.
  cbn. rewrite Efa. cbn. rewrite Etr.
  match goal with |- EdgeStore ?x /\ _ => set (g' := x) end.
  set (e0 := {| edge_id := id; edge_from := from; edge_to := to;
                edge_metadata := md |}).
  assert (Hget : forall id', JsMap.get id' (edges g')
                   = if keqb id' id then Some e0 else JsMap.get id' (edges g)).
  { intro id'. unfold g'. cbn [edges]. apply JsMap_get_set. }
  assert (Hbk : forall u v, getEdgeIdsBetween g' u v
                  = if keqb (getEdgeKey u v) (getEdgeKey from to)
                    then JsSet.add id (getEdgeIdsBetween g from to)
                    else getEdgeIdsBetween g u v).
  { intros u v. unfold getEdgeIdsBetween, g'. cbn [edgeIndex].
    rewrite JsMap_get_set.
    destruct (keqb (getEdgeKey u v) (getEdgeKey from to)); reflexivity. }
  assert (Hold : forall id' e, JsMap.get id' (edges g) = Some e ->
                   JsMap.get id' (edges g') = Some e).
  { intros id' e E. rewrite Hget. key_cases id' id; [congruence | exact E]. }
  split.
  - constructor.
    + unfold g'. cbn [edges]. rewrite JsMap_keys_set.
      destruct (JsMap.has id (edges g)) eqn:Eh; [exact (es_keys S) |].
      apply NoDup_app; [exact (es_keys S) | repeat constructor; simpl; tauto |].
      intros x Hx [<- | []]. apply JsMap_has_In_keys in Hx. congruence.
    + intros id' e. rewrite Hget. key_cases id' id.
      * intro E0. injection E0 as <-. split; [reflexivity |].
        cbn [edge_from edge_to e0]. rewrite Hbk, keqb_refl.
        apply JsSet_In_add. auto.
      * intro E0. destruct ((es_edge S) _ _ E0) as [Hi Hin].
        split; [exact Hi |]. rewrite Hbk.
        destruct (keqb_spec (getEdgeKey (edge_from e) (edge_to e))
                    (getEdgeKey from to)) as [Ek | Nk]; [| exact Hin].
        apply getEdgeKey_inj in Ek. destruct Ek as [Ef Et].
        rewrite Ef, Et in Hin. apply JsSet_In_add. auto.
    + intros key ids. unfold g'. cbn [edgeIndex]. rewrite JsMap_get_set.
      destruct (keqb_spec key (getEdgeKey from to)) as [-> | Nk].
      * intro E0. injection E0 as <-.
        split; [| split].
        -- intro E0.
           pose proof (JsSet_add_nonempty id
             (JsMap.get (getEdgeKey from to) (edgeIndex g) ?? JsSet.empty)) as X.
           rewrite E0 in X. simpl in X. lia.
        -- apply JsSet_NoDup_add.
           destruct (JsMap.get (getEdgeKey from to) (edgeIndex g)) as [old |] eqn:Eo;
             cbn [nullish]; [apply ((es_bucket S) _ _ Eo) | constructor].
        -- intros id' Hin. apply JsSet_In_add in Hin.
           destruct Hin as [-> | Hin].
           ++ exists e0. rewrite Hget, keqb_refl. auto.
           ++ destruct (JsMap.get (getEdgeKey from to) (edgeIndex g)) as [old |] eqn:Eo;
                cbn [nullish] in Hin; [| destruct Hin].
              destruct ((es_bucket S) _ _ Eo) as (_ & _ & Hm).
              destruct (Hm _ Hin) as (e & Ee & Ek). exists e. auto.
      * intro E0. destruct ((es_bucket S) _ _ E0) as (Hne & Hnd & Hm).
        split; [exact Hne |]. split; [exact Hnd |].
        intros id' Hin. destruct (Hm _ Hin) as (e & Ee & Ek). exists e. auto.
    + intros id' e. rewrite Hget. change (options g') with (options g).
      change (nextEdgeId g') with (nextEdgeId g). key_cases id' id.
      * intro E0. injection E0 as <-. exact Hid.
      * apply (es_ids S).
    + change (options g') with (options g). intros Hl id' e. rewrite Hget.
      key_cases id' id.
      * intro E0. injection E0 as <-. exact (Hloop Hl).
      * apply (es_loops S Hl).
  - unfold getEdges, g'. cbn [edges]. apply JsMap_values_set_fresh. exact Hfresh.
Qed.

(** Every graph built through the public operations has a consistent
    edge store. *)
Lemma Built_EdgeStore (g : Graph) : Built g -> EdgeStore g.
Proof.
  induction 1 as [o | g id md B IH | g from to md B IH | g B IH].
  - apply EdgeStore_empty.
  - unfold addNode, bind, this, modify, throw.
    destruct (JsMap.has id (nodes g)); [exact IH |].
    apply EdgeStore_same with (g := g); auto.
  - pose proof (Built_WellFormed B) as W.
    rewrite addEdge_checks.
    destruct (JsMap.has from (nodes g)) eqn:Hf; cbn [negb]; [| exact IH].
    destruct (JsMap.has to (nodes g)) eqn:Ht; cbn [negb]; [| exact IH].
    destruct (negb (allowSelfLoops (options g)) && keqb from to) eqn:Hl;
      [exact IH |].
    destruct (negb (allowMultiEdges (options g)) &&
              JsMap.has (getEdgeKey from to) (edgeIndex g)) eqn:Hd;
      [exact IH |].
    rewrite (@addEdge_commit g from to md W Hf Ht Hl Hd). cbn [fst].
    pose proof (@nextEdgeIdFor_fresh g from to IH Hd) as Hfresh.
    assert (Hloop : allowSelfLoops (options g) = false -> from <> to).
    { intros Hs. rewrite Hs in Hl. cbn in Hl. apply keqb_neq. exact Hl. }
    unfold nextEdgeIdFor in *.
    destruct (allowMultiEdges (options g)) eqn:Em.
    + apply (fun a b c d e f h =>
               proj1 (@EdgeStore_insertEdge (set_nextEdgeId (S (nextEdgeId g)) g)
                        from to _ md a b c d e f h)).
      * apply WellFormed_set_nextEdgeId. exact W.
      * apply EdgeStore_same with (g := g); auto. cbn. lia.
      * exact Hf.
      * exact Ht.
      * exact Hfresh.
      * cbn [options set_nextEdgeId nextEdgeId]. rewrite Em.
        exists (nextEdgeId g). split; [lia | reflexivity].
      * exact Hloop.
    + apply (fun a b c d e f h =>
               proj1 (@EdgeStore_insertEdge g from to _ md a b c d e f h));
        try assumption.
      rewrite Em. reflexivity.
  - apply EdgeStore_empty.
Qed.
End EdgeStoreFacts.

(** ** The suffixes of multi-edge identifiers *)

Section SuffixOrder.
Context {NodeMeta EdgeMeta : Type}.
Local Abbreviation Graph := (DirectedGraph NodeMeta EdgeMeta).

Lemma suffix_is_not_empty (s t : string) : (s +++ "#" +++ t)%string <> s.
Proof.
  induction s as [| c s IH]; cbn [String.append]; [discriminate |].
  intro E. injection E as E. exact (IH E).
Qed.

Lemma suffixedBy_inj (e : Edge EdgeMeta) (n m : nat) :
  suffixedBy e n -> suffixedBy e m -> n = m.
Proof.
  unfold suffixedBy. intros En Em. rewrite En in Em.
  apply multiEdgeId_inj in Em. tauto.
Qed.

(** A successful [addEdge] on a built graph puts its edge at the end of
    [getEdges()]. *)
Lemma addEdge_appends (g g' : Graph) (from to : NodeId)
    (md : option EdgeMeta) (id : EdgeId) :
  Built g -> addEdge from to md g = (g', inr id) ->
  getEdges g' = getEdges g ++ [{| edge_id := id; edge_from := from;
                                  edge_to := to; edge_metadata := md |}].
Proof.
  intros B E. pose proof (Built_WellFormed B) as W.
  pose proof (Built_EdgeStore B) as St.
  rewrite addEdge_checks in E.
  destruct (JsMap.has from (nodes g)) eqn:Hf; cbn [negb] in E;
    [| discriminate].
  destruct (JsMap.has to (nodes g)) eqn:Ht; cbn [negb] in E; [| discriminate].
  destruct (negb (allowSelfLoops (options g)) && keqb from to) eqn:Hl;
    [discriminate |].
  destruct (negb (allowMultiEdges (options g)) &&
            JsMap.has (getEdgeKey from to) (edgeIndex g)) eqn:Hd;
    [discriminate |].
  rewrite (@addEdge_commit _ _ g from to md W Hf Ht Hl Hd) in E.
  injection E as Eg Eid.
  pose proof (@nextEdgeIdFor_fresh _ _ g from to St Hd) as Hfresh.
  assert (Hloop : allowSelfLoops (options g) = false -> from <> to).
  { intros Hs. rewrite Hs in Hl. cbn in Hl. apply keqb_neq. exact Hl. }
  rewrite Eid in Eg, Hfresh. subst g'.
  unfold nextEdgeIdFor in Eid.
  destruct (allowMultiEdges (options g)) eqn:Em.
  - destruct (@EdgeStore_insertEdge _ _ (set_nextEdgeId (S (nextEdgeId g)) g)
                from to id md) as [_ Hedges].
    + apply WellFormed_set_nextEdgeId. exact W.
    + apply EdgeStore_same with (g := g); auto. cbn. lia.
    + exact Hf.
    + exact Ht.
    + exact Hfresh.
    + cbn [options set_nextEdgeId nextEdgeId]. rewrite Em.
      exists (nextEdgeId g). split; [lia | symmetry; exact Eid].
    + exact Hloop.
    + exact Hedges.
  - destruct (@EdgeStore_insertEdge _ _ g from to id md W St Hf Ht Hfresh)
      as [_ Hedges].
    + rewrite Em. symmetry. exact Eid.
    + exact Hloop.
    + exact Hedges.
Qed.

(** In multi-edge mode the edges of a built graph, in the order of
    [getEdges()], carry strictly increasing counter values, all below the
    engine's counter. *)
Lemma Built_suffixes (g : Graph) :
  Built g -> allowMultiEdges (options g) = true ->
  exists ns,
    Forall2 suffixedBy (getEdges g) ns /\
    StronglySorted lt ns /\
    (forall n, In n ns -> n < nextEdgeId g).
Proof.
  induction 1 as [o | g id md B IH | g from to md B IH | g B IH]; intro Hm.
  - exists []. split; [constructor |]. split; [constructor | intros n []].
  - revert Hm. unfold addNode, bind, this, modify, throw.
    destruct (JsMap.has id (nodes g)); cbn [fst]; exact IH.
  - destruct (addEdge from to md g) as [g' [e | eid]] eqn:E; cbn [fst] in *.
    + revert E Hm. rewrite addEdge_checks.
      pose proof (Built_WellFormed B) as W.
      destruct (JsMap.has from (nodes g)) eqn:Hf; cbn [negb];
        [| intros E; injection E as <- _; exact IH].
      destruct (JsMap.has to (nodes g)) eqn:Ht; cbn [negb];
        [| intros E; injection E as <- _; exact IH].
      destruct (negb (allowSelfLoops (options g)) && keqb from to) eqn:Hl;
        [intros E; injection E as <- _; exact IH |].
      destruct (negb (allowMultiEdges (options g)) &&
                JsMap.has (getEdgeKey from to) (edgeIndex g)) eqn:Hd;
        [intros E; injection E as <- _; exact IH |].
      rewrite (@addEdge_commit _ _ g from to md W Hf Ht Hl Hd). discriminate.
    + pose proof (@addEdge_appends g g' from to md eid B E) as Happ.
      destruct (addEdge_ok_id _ _ _ _ E) as [Eo Hid].
      rewrite Eo in Hm. rewrite Hm in Hid. destruct Hid as [Eid En].
      destruct (IH Hm) as (ns & F & Srt & Hlt).
      exists (ns ++ [nextEdgeId g]). split; [| split].
      * rewrite Happ. apply Forall2_app; [exact F |].
        constructor; [| constructor]. exact Eid.
      * apply StronglySorted_snoc; [exact Srt | exact Hlt].
      * intros n Hn. rewrite En. apply in_app_iff in Hn.
        destruct Hn as [Hn | [<- | []]]; [specialize (Hlt n Hn) |]; lia.
  - exists []. split; [constructor |]. split; [constructor | intros n []].
Qed.

(** Two edges of a list with increasing suffixes, the first before the
    second. *)
Lemma suffixes_in_order (l : list (Edge EdgeMeta)) (ns : list nat)
    (l1 l2 l3 : list (Edge EdgeMeta)) (e1 e2 : Edge EdgeMeta) (n1 n2 : nat) :
  Forall2 suffixedBy l ns -> StronglySorted lt ns ->
  l = l1 ++ e1 :: l2 ++ e2 :: l3 ->
  suffixedBy e1 n1 -> suffixedBy e2 n2 -> n1 < n2.
Proof.
  intros F Srt -> H1 H2.
  apply Forall2_app_inv_l in F. destruct F as (ns1 & r1 & _ & F & ->).
  inversion F as [| ? m1 ? r2 Hm1 F' ]; subst.
  apply Forall2_app_inv_l in F'. destruct F' as (ns2 & r3 & _ & F' & ->).
  inversion F' as [| ? m2 ? r4 Hm2 _]; subst.
  rewrite (suffixedBy_inj H1 Hm1), (suffixedBy_inj H2 Hm2).
  apply StronglySorted_app_r in Srt. inversion Srt as [| ? ? _ Hall]; subst.
  rewrite Forall_forall in Hall. apply Hall. apply in_app_iff. right. left.
  reflexivity.
Qed.
End SuffixOrder.

(** C4, amended. Under multi-edge mode the identifier of every edge
    inserted into a built graph, the first of its pair included, is the
    ordered-pair encoding followed by [#] and the decimal value of the
    engine's edge counter, never the bare encoding; the counter, shared by
    all pairs, grows by one with the insertion.  The new edge goes to the
    end of [getEdges()], every edge already stored carries a smaller
    counter value, and along [getEdges()], that is in insertion order, the
    suffixes strictly increase, those of parallel edges in particular. *)
Theorem multi_edge_id_is_key_and_counter
    (NodeMeta EdgeMeta : Type) (g g' : DirectedGraph NodeMeta EdgeMeta)
    (from to : NodeId) (md : option EdgeMeta) (id : EdgeId) :
  Built g ->
  allowMultiEdges (options g) = true ->
  addEdge from to md g = (g', inr id) ->
  id = (getEdgeKey from to +++ "#" +++ num_to_string (nextEdgeId g))%string /\
  id <> getEdgeKey from to /\
  nextEdgeId g' = S (nextEdgeId g) /\
  allowMultiEdges (options g') = true /\
  getEdges g' = getEdges g ++ [{| edge_id := id; edge_from := from;
                                  edge_to := to; edge_metadata := md |}] /\
  (forall e, In e (getEdges g) ->
     exists n, n < nextEdgeId g /\ suffixedBy e n) /\
  (forall l1 e1 l2 e2 l3 n1 n2,
     getEdges g' = l1 ++ e1 :: l2 ++ e2 :: l3 ->
     suffixedBy e1 n1 -> suffixedBy e2 n2 -> n1 < n2).
Proof.
  intros B Hm E.
  assert (B' : Built g').
  { replace g' with (fst (addEdge from to md g)) by (rewrite E; reflexivity).
    constructor. exact B. }
  pose proof (@addEdge_appends _ _ g g' from to md id B E) as Happ.
  destruct (addEdge_ok_id _ _ _ _ E) as [Eo Hid].
  rewrite Hm in Hid. destruct Hid as [Eid En].
  assert (Hm' : allowMultiEdges (options g') = true) by (rewrite Eo; exact Hm).
  split; [exact Eid |]. split; [rewrite Eid; apply suffix_is_not_empty |].
  split; [exact En |]. split; [exact Hm' |]. split; [exact Happ |]. split.
  - destruct (Built_suffixes B Hm) as (ns & F & _ & Hlt).
    intros e He. clear - F Hlt He.
    induction F as [| e0 n0 l ns0 H0 F IH]; [destruct He |].
    destruct He as [<- | He].
    + exists n0. split; [apply Hlt; left; reflexivity | exact H0].
    + apply IH; [| exact He]. intros n Hn. apply Hlt. right. exact Hn.
  - destruct (Built_suffixes B' Hm') as (ns & F & Srt & _).
    intros l1 e1 l2 e2 l3 n1 n2 El.
    exact (@suffixes_in_order _ _ ns l1 l2 l3 e1 e2 n1 n2 F Srt El).
Qed.

Lemma multi_edge_id_is_key_and_counter_witness :
  "1:A|1:B#1"%string
    = (getEdgeKey "A"%string "B"%string +++ "#" +++
       num_to_string (nextEdgeId (exampleAB true)))%string /\
  "1:A|1:B#1"%string <> getEdgeKey "A"%string "B"%string /\
  nextEdgeId (fst (addEdge "A"%string "B"%string None (exampleAB true)))
    = S (nextEdgeId (exampleAB true)) /\
  allowMultiEdges
    (options (fst (addEdge "A"%string "B"%string None (exampleAB true)))) = true /\
  getEdges (fst (addEdge "A"%string "B"%string None (exampleAB true)))
    = getEdges (exampleAB true)
        ++ [{| edge_id := "1:A|1:B#1"%string; edge_from := "A"%string;
               edge_to := "B"%string; edge_metadata := None |}] /\
  (forall e, In e (getEdges (exampleAB true)) ->
     exists n, n < nextEdgeId (exampleAB true) /\ suffixedBy e n) /\
  (forall l1 e1 l2 e2 l3 n1 n2,
     getEdges (fst (addEdge "A"%string "B"%string None (exampleAB true)))
       = l1 ++ e1 :: l2 ++ e2 :: l3 ->
     suffixedBy e1 n1 -> suffixedBy e2 n2 -> n1 < n2).
Proof.
  refine (@multi_edge_id_is_key_and_counter unit unit (exampleAB true)
            (fst (addEdge "A"%string "B"%string None (exampleAB true)))
            "A"%string "B"%string None "1:A|1:B#1"%string _ _ _).
  - unfold exampleAB, runM. repeat constructor.
  - reflexivity.
  - vm_compute. reflexivity.
Defined.

(** ** What the mutating methods do to a built graph *)

Section EngineBehaviour.
Context {NodeMeta EdgeMeta : Type}.
Local Abbreviation Graph := (DirectedGraph NodeMeta EdgeMeta).

Lemma insertEdge_views (g : Graph) (from to : NodeId) (id : EdgeId)
    (md : option EdgeMeta) :
  WellFormed g ->
  JsMap.has from (nodes g) = true -> JsMap.has to (nodes g) = true ->
  nodes (insertEdge from to id md g) = nodes g /\
  (forall u v, In v (getSuccessors (insertEdge from to id md g) u) <->
               (u = from /\ v = to) \/ In v (getSuccessors g u)) /\
  (forall u v, In u (getPredecessors (insertEdge from to id md g) v) <->
               (u = from /\ v = to) \/ In u (getPredecessors g v)).
Proof.
  intros W Hfrom Hto.
  assert (Hfa : JsMap.has from (adjacencyList g) = true)
    by (rewrite (wf_adj_keys W); exact Hfrom).
  assert (Htr : JsMap.has to (reverseAdjacencyList g) = true)
    by (rewrite (wf_radj_keys W); exact Hto).
  apply has_get_some in Hfa. destruct Hfa as (fromAdj & Efa).
  apply has_get_some in Htr. destruct Htr as (toRev & Etr).
  unfold insertEdge. cbv zeta.
  unfold set_reverseAdjacencyList, set_adjacencyList, set_edgeIndex, set_edges.
  cbn. rewrite Efa. cbn. rewrite Etr.
  split; [reflexivity |]. split.
  - intros u v. unfold getSuccessors. cbn [adjacencyList].
    rewrite JsMap_get_set. key_cases u from.
    + cbn [nullish]. rewrite JsSet_In_add, Efa. cbn [nullish].
      split; [intros [-> | Hin]; auto | intros [[_ ->] | Hin]; auto].
    + split; [auto | intros [[-> _] | Hin]; [congruence | exact Hin]].
  - intros u v. unfold getPredecessors. cbn [reverseAdjacencyList].
    rewrite JsMap_get_set. key_cases v to.
    + cbn [nullish]. rewrite JsSet_In_add, Etr. cbn [nullish].
      split; [intros [-> | Hin]; auto | intros [[-> _] | Hin]; auto].
    + split; [auto | intros [[_ ->] | Hin]; [congruence | exact Hin]].
Qed.

(** On a built graph the duplicate check of [addEdge] is [hasEdge]. *)
Lemma hasEdge_index (g : Graph) (from to : NodeId) :
  EdgeStore g ->
  JsMap.has (getEdgeKey from to) (edgeIndex g) = hasEdge g from to.
Proof.
  intro S. unfold JsMap.has, hasEdge.
  destruct (JsMap.get (getEdgeKey from to) (edgeIndex g)) as [ids |] eqn:E;
    [| reflexivity].
  destruct ((es_bucket S) _ _ E) as (Hne & _ & _).
  unfold JsSet.size. destruct ids; [congruence | reflexivity].
Qed.
(** An index bucket that answers [hasEdge] holds a stored edge. *)
Lemma edge_store_edge_of_hasEdge (g : Graph) (u v : NodeId) :
  EdgeStore g -> hasEdge g u v = true ->
  exists e, In e (getEdges g) /\ edge_from e = u /\ edge_to e = v.
Proof.
  intros St Hh. unfold hasEdge in Hh.
  destruct (JsMap.get (getEdgeKey u v) (edgeIndex g)) as [ids |] eqn:Ei;
    [| discriminate].
  destruct ((es_bucket St) _ _ Ei) as (Hne & _ & Hm).
  destruct ids as [| id ids]; [congruence |].
  destruct (Hm id (or_introl eq_refl)) as (e & Ee & Ek).
  apply getEdgeKey_inj in Ek. destruct Ek as [Ef Et].
  exists e. split; [| auto].
  apply (JsMap_In_values e (edges g) (es_keys St)). eauto.
Qed.
End EngineBehaviour.

(** X1. [addNode(id)] throws "already exists" when [hasNode(id)] and changes
    nothing; otherwise it succeeds, [id] becomes a node without successors
    or predecessors, the node list grows by the new node at its end, and
    every other node keeps its membership, successors and predecessors;
    the edges are untouched. *)
Theorem addNode_outcome
    (NodeMeta EdgeMeta : Type) (g : DirectedGraph NodeMeta EdgeMeta)
    (id : NodeId) (md : option NodeMeta) :
  if hasNode g id
  then addNode id md g = (g, inl (NodeAlreadyExists id))
  else exists g',
    addNode id md g = (g', inr tt) /\
    hasNode g' id = true /\
    getSuccessors g' id = [] /\ getPredecessors g' id = [] /\
    getNodes g' = getNodes g ++ [{| node_id := id; node_metadata := md |}] /\
    getEdges g' = getEdges g /\
    (forall x, x <> id ->
       hasNode g' x = hasNode g x /\
       getSuccessors g' x = getSuccessors g x /\
       getPredecessors g' x = getPredecessors g x) /\
    (forall u v, hasEdge g' u v = hasEdge g u v).
Proof.
  unfold hasNode, addNode, bind, this, modify, throw.
  destruct (JsMap.has id (nodes g)) eqn:Hid; [reflexivity |].
  eexists. split; [reflexivity |].
  unfold set_reverseAdjacencyList, set_adjacencyList, set_nodes,
    getSuccessors, getPredecessors, getNodes, getEdges, hasEdge.
  cbn [nodes edges adjacencyList reverseAdjacencyList edgeIndex].
  split; [rewrite JsMap_has_set, keqb_refl; reflexivity |].
  split; [rewrite JsMap_get_set_same; reflexivity |].
  split; [rewrite JsMap_get_set_same; reflexivity |].
  split; [apply JsMap_values_set_fresh; apply JsMap_has_false; exact Hid |].
  split; [reflexivity |]. split; [| reflexivity].
  intros x Hx. rewrite JsMap_has_set.
  rewrite !(JsMap_get_set_other _ _ (fun E => Hx (eq_sym E))).
  apply keqb_neq in Hx. rewrite Hx. auto.
Qed.

(** X2. On a graph built through the public operations [addEdge(from, to)]
    never fails its internal invariant check.  It throws, in this order of
    precedence, when [from] is not a node, when [to] is not a node, when
    self-loops are disabled and [from = to], and when multi-edges are
    disabled and [hasEdge(from, to)]; otherwise it returns the new edge's
    identifier. *)
Theorem addEdge_result
    (NodeMeta EdgeMeta : Type) (g : DirectedGraph NodeMeta EdgeMeta)
    (from to : NodeId) (md : option EdgeMeta) :
  Built g ->
  snd (addEdge from to md g) =
    if negb (hasNode g from) then inl (SourceNodeMissing from)
    else if negb (hasNode g to) then inl (TargetNodeMissing to)
    else if negb (allowSelfLoops (options g)) && String.eqb from to
    then inl (SelfLoopNotAllowed from to)
    else if negb (allowMultiEdges (options g)) && hasEdge g from to
    then inl (EdgeAlreadyExists (getEdgeKey from to))
    else inr (nextEdgeIdFor g from to).
Proof.
  intro B. pose proof (Built_WellFormed B) as W.
  pose proof (Built_EdgeStore B) as S.
  rewrite addEdge_checks. unfold hasNode.
  rewrite <- (hasEdge_index from to S).
  change (String.eqb from to) with (keqb from to).
  destruct (JsMap.has from (nodes g)) eqn:Hf; cbn [negb]; [| reflexivity].
  destruct (JsMap.has to (nodes g)) eqn:Ht; cbn [negb]; [| reflexivity].
  destruct (negb (allowSelfLoops (options g)) && keqb from to) eqn:Hl;
    [reflexivity |].
  destruct (negb (allowMultiEdges (options g)) &&
            JsMap.has (getEdgeKey from to) (edgeIndex g)) eqn:Hd;
    [reflexivity |].
  rewrite (@addEdge_commit _ _ g from to md W Hf Ht Hl Hd). reflexivity.
Qed.

Lemma addEdge_result_witness :
  snd (addEdge "B"%string "A"%string None (exampleAB false))
    = inr (getEdgeKey "B"%string "A"%string).
Proof.
  rewrite (@addEdge_result unit unit (exampleAB false) "B"%string "A"%string
             None).
  - reflexivity.
  - unfold exampleAB, runM. repeat constructor.
Defined.

(** X3. A successful [addEdge(from, to)] on a built graph appends exactly
    one edge record to [getEdges()] (no stored edge is overwritten), leaves
    the nodes alone, and adds exactly the pair [(from, to)] to the
    successor relation, to the predecessor relation and to [hasEdge]. *)
Theorem addEdge_effect
    (NodeMeta EdgeMeta : Type) (g g' : DirectedGraph NodeMeta EdgeMeta)
    (from to : NodeId) (md : option EdgeMeta) (id : EdgeId) :
  Built g ->
  addEdge from to md g = (g', inr id) ->
  getEdges g' = getEdges g ++ [{| edge_id := id; edge_from := from;
                                  edge_to := to; edge_metadata := md |}] /\
  getNodes g' = getNodes g /\
  (forall u v, In v (getSuccessors g' u) <->
               (u = from /\ v = to) \/ In v (getSuccessors g u)) /\
  (forall u v, In u (getPredecessors g' v) <->
               (u = from /\ v = to) \/ In u (getPredecessors g v)) /\
  (forall u v, hasEdge g' u v = true <->
               (u = from /\ v = to) \/ hasEdge g u v = true).
Proof.
  intros B E. pose proof (Built_WellFormed B) as W.
  pose proof (Built_EdgeStore B) as St.
  assert (B' : Built g').
  { replace g' with (fst (addEdge from to md g)) by (rewrite E; reflexivity).
    constructor. exact B. }
  pose proof (Built_WellFormed B') as W'.
  rewrite addEdge_checks in E.
  destruct (JsMap.has from (nodes g)) eqn:Hf; cbn [negb] in E;
    [| discriminate].
  destruct (JsMap.has to (nodes g)) eqn:Ht; cbn [negb] in E; [| discriminate].
  destruct (negb (allowSelfLoops (options g)) && keqb from to) eqn:Hl;
    [discriminate |].
  destruct (negb (allowMultiEdges (options g)) &&
            JsMap.has (getEdgeKey from to) (edgeIndex g)) eqn:Hd;
    [discriminate |].
  rewrite (@addEdge_commit _ _ g from to md W Hf Ht Hl Hd) in E.
  injection E as Eg Eid.
  pose proof (@nextEdgeIdFor_fresh _ _ g from to St Hd) as Hfresh.
  assert (Hloop : allowSelfLoops (options g) = false -> from <> to).
  { intros Hs. rewrite Hs in Hl. cbn in Hl. apply keqb_neq. exact Hl. }
  set (g0 := if allowMultiEdges (options g)
             then set_nextEdgeId (S (nextEdgeId g)) g else g) in *.
  assert (W0 : WellFormed g0).
  { unfold g0. destruct (allowMultiEdges (options g));
      [apply WellFormed_set_nextEdgeId |]; exact W. }
  assert (S0 : EdgeStore g0).
  { unfold g0. destruct (allowMultiEdges (options g)); [| exact St].
    apply EdgeStore_same with (g := g); auto. cbn. lia. }
  assert (Hsame : nodes g0 = nodes g /\ edges g0 = edges g /\
                  adjacencyList g0 = adjacencyList g /\
                  reverseAdjacencyList g0 = reverseAdjacencyList g /\
                  options g0 = options g).
  { unfold g0. destruct (allowMultiEdges (options g)); repeat split. }
  destruct Hsame as (En & Ee & Ea & Er & Eo).
  assert (Hf0 : JsMap.has from (nodes g0) = true) by (rewrite En; exact Hf).
  assert (Ht0 : JsMap.has to (nodes g0) = true) by (rewrite En; exact Ht).
  assert (Hid0 : if allowMultiEdges (options g0)
                 then exists n, n < nextEdgeId g0 /\
                        id = (getEdgeKey from to +++ "#" +++
                              num_to_string n)%string
                 else id = getEdgeKey from to).
  { rewrite Eo. subst id. unfold nextEdgeIdFor, g0.
    destruct (allowMultiEdges (options g)); [| reflexivity].
    exists (nextEdgeId g). split; [cbn; lia | reflexivity]. }
  rewrite Eid in Eg.
  destruct (@EdgeStore_insertEdge _ _ g0 from to id md W0 S0 Hf0 Ht0
              ltac:(rewrite Ee, <- Eid; exact Hfresh) Hid0
              ltac:(rewrite Eo; exact Hloop)) as [_ Hedges].
  destruct (@insertEdge_views _ _ g0 from to id md W0 Hf0 Ht0)
    as (Hnodes & Hsucc & Hpred).
  rewrite Eg in Hedges, Hnodes, Hsucc, Hpred.
  assert (Hs0 : forall u, getSuccessors g0 u = getSuccessors g u)
    by (intro u; unfold getSuccessors; rewrite Ea; reflexivity).
  assert (Hp0 : forall u, getPredecessors g0 u = getPredecessors g u)
    by (intro u; unfold getPredecessors; rewrite Er; reflexivity).
  split; [rewrite Hedges; unfold getEdges; rewrite Ee; reflexivity |].
  split; [unfold getNodes; rewrite Hnodes, En; reflexivity |].
  split; [intros u v; rewrite Hsucc, Hs0; reflexivity |].
  split; [intros u v; rewrite Hpred, Hp0; reflexivity |].
  intros u v. rewrite (wf_index W'), (wf_index W), Hsucc, Hs0. reflexivity.
Qed.

Lemma addEdge_effect_witness :
  getEdges (fst (addEdge "B"%string "A"%string None (exampleAB false)))
    = getEdges (exampleAB false)
        ++ [{| edge_id := getEdgeKey "B"%string "A"%string;
               edge_from := "B"%string; edge_to := "A"%string;
               edge_metadata := None |}].
Proof.
  refine (proj1 (@addEdge_effect unit unit (exampleAB false)
                   (fst (addEdge "B"%string "A"%string None (exampleAB false)))
                   "B"%string "A"%string None
                   (getEdgeKey "B"%string "A"%string) _ _)).
  - unfold exampleAB, runM. repeat constructor.
  - vm_compute. reflexivity.
Defined.

(** X4. On a built graph the four views of the edge relation agree:
    [v] is a successor of [u] exactly when [u] is a predecessor of [v],
    exactly when [hasEdge(u, v)], exactly when [getEdges()] holds an edge
    from [u] to [v]; both endpoints of such a pair are nodes, and no
    successor or predecessor list repeats a node. *)
Theorem edge_views_agree
    (NodeMeta EdgeMeta : Type) (g : DirectedGraph NodeMeta EdgeMeta)
    (u v : NodeId) :
  Built g ->
  (In v (getSuccessors g u) <-> In u (getPredecessors g v)) /\
  (In v (getSuccessors g u) <-> hasEdge g u v = true) /\
  (In v (getSuccessors g u) <->
     exists e, In e (getEdges g) /\ edge_from e = u /\ edge_to e = v) /\
  (In v (getSuccessors g u) -> hasNode g u = true /\ hasNode g v = true) /\
  NoDup (getSuccessors g u) /\ NoDup (getPredecessors g v).
Proof.
  intro B. pose proof (Built_WellFormed B) as W.
  pose proof (Built_EdgeStore B) as St.
  split; [apply (wf_mirror W) |].
  split; [symmetry; apply (wf_index W) |].
  split; [| split; [| split]].
  - rewrite <- (wf_index W). split.
    + exact (@edge_store_edge_of_hasEdge _ _ g u v St).
    + intros (e & He & <- & <-).
      apply (JsMap_In_values e (edges g) (es_keys St)) in He.
      destruct He as (id & Ee).
      destruct ((es_edge St) _ _ Ee) as [_ Hin].
      unfold getEdgeIdsBetween in Hin. unfold hasEdge.
      destruct (JsMap.get (getEdgeKey (edge_from e) (edge_to e)) (edgeIndex g))
        as [ids |]; [| destruct Hin].
      destruct ids; [destruct Hin | reflexivity].
  - intro Hs. unfold hasNode. split; apply JsMap_has_In_keys.
    + exact (source_is_node W _ _ Hs).
    + exact (proj2 ((wf_succ W) u) _ Hs).
  - exact (proj1 ((wf_succ W) u)).
  - exact (proj1 ((wf_pred W) v)).
Qed.

Lemma edge_views_agree_witness :
  In "B"%string (getSuccessors (exampleAB false) "A"%string) <->
  In "A"%string (getPredecessors (exampleAB false) "B"%string).
Proof.
  refine (proj1 (@edge_views_agree unit unit (exampleAB false)
                   "A"%string "B"%string _)).
  unfold exampleAB, runM. repeat constructor.
Defined.

(** X5. With multi-edges disabled a built graph holds at most one edge per
    ordered pair of nodes, and that edge's identifier is the pair's key. *)
Theorem single_mode_one_edge_per_pair
    (NodeMeta EdgeMeta : Type) (g : DirectedGraph NodeMeta EdgeMeta)
    (e1 e2 : Edge EdgeMeta) :
  Built g -> allowMultiEdges (options g) = false ->
  In e1 (getEdges g) -> In e2 (getEdges g) ->
  edge_id e1 = getEdgeKey (edge_from e1) (edge_to e1) /\
  (edge_from e1 = edge_from e2 -> edge_to e1 = edge_to e2 -> e1 = e2).
Proof.
  intros B Hm H1 H2. pose proof (Built_EdgeStore B) as St.
  apply (JsMap_In_values e1 (edges g) (es_keys St)) in H1.
  apply (JsMap_In_values e2 (edges g) (es_keys St)) in H2.
  destruct H1 as (id1 & E1). destruct H2 as (id2 & E2).
  pose proof ((es_ids St) _ _ E1) as I1. pose proof ((es_ids St) _ _ E2) as I2.
  rewrite Hm in I1, I2. split.
  - destruct ((es_edge St) _ _ E1) as [-> _]. exact I1.
  - intros Ef Et. rewrite Ef, Et in I1. congruence.
Qed.

Lemma single_mode_one_edge_per_pair_witness :
  edge_id {| edge_id := getEdgeKey "A"%string "B"%string;
             edge_from := "A"%string; edge_to := "B"%string;
             edge_metadata := @None unit |}
    = getEdgeKey "A"%string "B"%string.
Proof.
  refine (proj1 (@single_mode_one_edge_per_pair unit unit (exampleAB false)
                   {| edge_id := getEdgeKey "A"%string "B"%string;
                      edge_from := "A"%string; edge_to := "B"%string;
                      edge_metadata := None |}
                   {| edge_id := getEdgeKey "A"%string "B"%string;
                      edge_from := "A"%string; edge_to := "B"%string;
                      edge_metadata := None |} _ _ _ _)).
  - unfold exampleAB, runM. repeat constructor.
  - reflexivity.
  - vm_compute. auto.
  - vm_compute. auto.
Defined.

(** X6. With self-loops disabled a built graph never holds a self-loop:
    no edge of [getEdges()] has equal endpoints and [hasEdge(u, u)] is
    false for every [u]. *)
Theorem no_self_loops_when_disabled
    (NodeMeta EdgeMeta : Type) (g : DirectedGraph NodeMeta EdgeMeta) :
  Built g -> allowSelfLoops (options g) = false ->
  (forall e, In e (getEdges g) -> edge_from e <> edge_to e) /\
  (forall u, hasEdge g u u = false).
Proof.
  intros B Hl. pose proof (Built_EdgeStore B) as St.
  assert (Hedges : forall e, In e (getEdges g) -> edge_from e <> edge_to e).
  { intros e He.
    apply (JsMap_In_values e (edges g) (es_keys St)) in He.
    destruct He as (id & Ee). exact ((es_loops St) Hl _ _ Ee). }
  split; [exact Hedges |].
  intro u. destruct (hasEdge g u u) eqn:Eh; [exfalso | reflexivity].
  destruct (@edge_store_edge_of_hasEdge _ _ g u u St Eh) as (e & He & Ef & Et).
  apply (Hedges e He). congruence.
Qed.

Lemma no_self_loops_when_disabled_witness :
  hasEdge exampleNoLoops "A"%string "A"%string = false.
Proof.
  refine (proj2 (@no_self_loops_when_disabled unit unit exampleNoLoops _ _)
            "A"%string).
  - unfold exampleNoLoops, runM. repeat constructor.
  - reflexivity.
Defined.

(** X7. On a built graph [getSuccessorsStrict] and [getPredecessorsStrict]
    throw "Unknown node" exactly when the node is absent, and otherwise
    return what [getSuccessors] and [getPredecessors] return; the
    non-strict getters return the empty list for an absent node. *)
Theorem strict_getters
    (NodeMeta EdgeMeta : Type) (g : DirectedGraph NodeMeta EdgeMeta)
    (n : NodeId) :
  Built g ->
  if hasNode g n
  then getSuccessorsStrict g n = inr (getSuccessors g n) /\
       getPredecessorsStrict g n = inr (getPredecessors g n)
  else getSuccessorsStrict g n = inl (UnknownNode n) /\
       getPredecessorsStrict g n = inl (UnknownNode n) /\
       getSuccessors g n = [] /\ getPredecessors g n = [].
Proof.
  intro B. pose proof (Built_WellFormed B) as W.
  unfold hasNode, getSuccessorsStrict, getPredecessorsStrict,
    getSuccessors, getPredecessors.
  pose proof ((wf_adj_keys W) n) as Ha. pose proof ((wf_radj_keys W) n) as Hr.
  unfold JsMap.has in Ha, Hr |- *.
  destruct (JsMap.get n (nodes g));
    destruct (JsMap.get n (adjacencyList g)); try discriminate;
    destruct (JsMap.get n (reverseAdjacencyList g)); try discriminate;
    cbn; auto.
Qed.

Lemma strict_getters_witness :
  getSuccessorsStrict (exampleAB false) "A"%string
    = inr (getSuccessors (exampleAB false) "A"%string).
Proof.
  refine (proj1 (@strict_getters unit unit (exampleAB false) "A"%string _)).
  unfold exampleAB, runM. repeat constructor.
Defined.

(** X8. In a built graph every stored edge is filed under its own
    identifier, identifiers are pairwise distinct, and an identifier
    encodes the endpoints: it is the pair's key, followed in multi-edge
    mode by "#" and a counter value below the engine's current counter. *)
Theorem edge_ids_unique_and_encoded
    (NodeMeta EdgeMeta : Type) (g : DirectedGraph NodeMeta EdgeMeta) :
  Built g ->
  NoDup (map (@edge_id EdgeMeta) (getEdges g)) /\
  forall e, In e (getEdges g) ->
    JsMap.get (edge_id e) (edges g) = Some e /\
    In (edge_id e) (getEdgeIdsBetween g (edge_from e) (edge_to e)) /\
    if allowMultiEdges (options g)
    then exists n, n < nextEdgeId g /\
           edge_id e = (getEdgeKey (edge_from e) (edge_to e) +++ "#" +++
                        num_to_string n)%string
    else edge_id e = getEdgeKey (edge_from e) (edge_to e).
Proof.
  intro B. pose proof (Built_EdgeStore B) as St.
  assert (Hstored : forall e, In e (getEdges g) ->
            JsMap.get (edge_id e) (edges g) = Some e).
  { intros e He.
    apply (JsMap_In_values e (edges g) (es_keys St)) in He.
    destruct He as (id & Ee).
    destruct ((es_edge St) _ _ Ee) as [-> _]. exact Ee. }
  split.
  - assert (Hkeys : forall m : JsMap EdgeId (Edge EdgeMeta),
              (forall id e, In (id, e) m -> edge_id e = id) ->
              map (@edge_id EdgeMeta) (JsMap.values m) = JsMap.keys m).
    { unfold JsMap.values, JsMap.keys.
      induction m as [| [id e] m IH]; intro Hm; [reflexivity |].
      cbn [map fst snd]. rewrite (Hm id e (or_introl eq_refl)).
      rewrite IH; [reflexivity |]. intros id' e' Hin. apply Hm. right. exact Hin. }
    unfold getEdges. rewrite Hkeys; [exact (es_keys St) |].
    intros id e Hin.
    assert (He : In e (getEdges g)).
    { unfold getEdges, JsMap.values. apply in_map_iff. exists (id, e). auto. }
    pose proof (Hstored e He) as Hs.
    assert (Hget : JsMap.get id (edges g) = Some e).
    { pose proof (es_keys St) as ND. revert Hin ND. clear.
      unfold JsMap.keys.
      induction (edges g) as [| [k x] m IH]; cbn [JsMap.get In map fst].
      - intros [].
      - intros [E | Hin] ND; inversion ND as [| ? ? Hk ND']; subst.
        + injection E as -> ->. rewrite keqb_refl. reflexivity.
        + destruct (keqb_spec id k) as [-> | N]; [| exact (IH Hin ND')].
          exfalso. apply Hk. apply in_map_iff. exists (k, e). auto. }
    exact (proj1 ((es_edge St) _ _ Hget)).
  - intros e He. pose proof (Hstored e He) as Hs.
    split; [exact Hs |]. split.
    + exact (proj2 ((es_edge St) _ _ Hs)).
    + exact ((es_ids St) _ _ Hs).
Qed.

Lemma edge_ids_unique_and_encoded_witness :
  NoDup (map (@edge_id unit) (getEdges (exampleAB true))).
Proof.
  refine (proj1 (@edge_ids_unique_and_encoded unit unit (exampleAB true) _)).
  unfold exampleAB, runM. repeat constructor.
Defined.

(** ** The analyses of a built graph *)

Section AnalysisFacts.
Context {NodeMeta EdgeMeta : Type}.
Variable g : DirectedGraph NodeMeta EdgeMeta.
Hypothesis g_wf : WellFormed g.
Variable fuel : nat.
Hypothesis fuel_enough : length (JsMap.keys (nodes g)) < fuel.

Local Abbreviation N := (JsMap.keys (nodes g)).

(** Kahn's loop and Tarjan's search side by side. *)
Lemma sort_and_components :
  exists P ind l,
    topologicalSort fuel g
      = Some (if length P =? length N then Some P else None) /\
    KahnInv N (getSuccessors g) P [] ind /\
    NoDup P /\ incl P N /\
    findSCCs fuel g = Some l /\ SccResult g l /\
    ((length P =? length N) = true <->
     forall c, In c l -> isAcyclic c = true).
Proof.
  destruct (topologicalSort_spec g_wf fuel_enough) as (P & ind & Et & KI).
  destruct (findSCCs_spec g_wf fuel_enough) as (l & Es & R).
  assert (ND : NoDup P).
  { pose proof (kahn_nodup KI) as X. rewrite app_nil_r in X. exact X. }
  assert (Hincl' : incl P N).
  { pose proof (kahn_incl KI) as X. rewrite app_nil_r in X. exact X. }
  exists P, ind, l. split; [exact Et |]. split; [exact KI |].
  split; [exact ND |]. split; [exact Hincl' |].
  split; [exact Es |]. split; [exact R |]. split.
  - intros Elen c Hc. apply Nat.eqb_eq in Elen.
    destruct (@kahn_full_ordered _ _ N (getSuccessors g)
                (wf_nodes g_wf) (fun u _ => proj2 (wf_succ g_wf u)) P ind KI Elen)
      as [_ Hord].
    destruct (@findSCCs_acyclic _ _ g g_wf (fun x => posIn x P)) with (fuel := fuel)
      as (l' & Es' & Hall); auto.
    { intros u v Huv. apply occursBefore_posIn; [exact ND |].
      apply Hord; [| exact Huv]. exact (@source_is_node _ _ g g_wf u v Huv). }
    assert (l' = l) by congruence. subst l'.
    rewrite Forall_forall in Hall. destruct (Hall c Hc). assumption.
  - intros Hall.
    assert (Hincl : incl N P).
    { apply (@kahn_complete _ _ N (getSuccessors g) P ind
               (fun x => length l - compIndex x l) KI).
      intros u v _ Huv. exact (@all_acyclic_rank _ _ g g_wf l R Hall u v Huv). }
    apply Nat.eqb_eq. apply Nat.le_antisymm.
    + apply NoDup_incl_length; assumption.
    + apply NoDup_incl_length; [exact (wf_nodes g_wf) | assumption].
Qed.
End AnalysisFacts.

(** X9. On a built graph, whenever [topologicalSort()] returns an order
    (not null), that order lists every node exactly once and places the
    source of every edge before its target. *)
Theorem topologicalSort_order_is_valid
    (NodeMeta EdgeMeta : Type) (g : DirectedGraph NodeMeta EdgeMeta)
    (fuel : nat) :
  Built g -> JsMap.size (nodes g) < fuel ->
  exists r,
    topologicalSort fuel g = Some r /\
    forall order, r = Some order ->
      NoDup order /\
      (forall x, In x order <-> hasNode g x = true) /\
      length order = length (getNodes g) /\
      (forall u v, hasEdge g u v = true -> occursBefore u v order).
Proof.
  intros B Hf. pose proof (Built_WellFormed B) as W.
  assert (HfN : length (JsMap.keys (nodes g)) < fuel).
  { unfold JsMap.keys. rewrite length_map. exact Hf. }
  destruct (sort_and_components W HfN)
    as (P & ind & l & Et & KI & ND & Hincl & _ & _ & _).
  eexists. split; [exact Et |]. intros order Eo.
  destruct (Nat.eqb_spec (length P) (length (JsMap.keys (nodes g))))
    as [Elen | Nlen]; [| discriminate].
  injection Eo as <-.
  destruct (@kahn_full_ordered _ _ (JsMap.keys (nodes g)) (getSuccessors g)
              (wf_nodes W) (fun u _ => proj2 (wf_succ W u)) P ind KI Elen)
    as [Hperm Hord].
  split; [exact ND |]. split; [| split].
  - intro x. unfold hasNode. rewrite JsMap_has_In_keys. split.
    + apply Hincl.
    + apply (Permutation_in x Hperm).
  - rewrite Elen. unfold getNodes, JsMap.keys, JsMap.values.
    rewrite !length_map. reflexivity.
  - intros u v Huv. apply (wf_index W) in Huv.
    apply Hord; [| exact Huv]. exact (@source_is_node _ _ g W u v Huv).
Qed.

Lemma topologicalSort_order_is_valid_witness :
  exists r,
    topologicalSort 3 (exampleAB false) = Some r /\
    forall order, r = Some order ->
      NoDup order /\
      (forall x, In x order <-> hasNode (exampleAB false) x = true) /\
      length order = length (getNodes (exampleAB false)) /\
      (forall u v, hasEdge (exampleAB false) u v = true ->
                   occursBefore u v order).
Proof.
  refine (@topologicalSort_order_is_valid unit unit (exampleAB false) 3 _ _).
  - unfold exampleAB, runM. repeat constructor.
  - vm_compute. lia.
Defined.

Section ComponentNodes.
Context {NodeMeta EdgeMeta : Type}.
Variable g : DirectedGraph NodeMeta EdgeMeta.
Hypothesis g_wf : WellFormed g.

Local Abbreviation N := (JsMap.keys (nodes g)).

(** The stack and the emitted components hold nodes of the graph, each at
    most once. *)
Local Abbreviation tidy s :=
  (NoDup (stack s) /\
   (forall x, In x (stack s) -> In x N /\ JsMap.has x (index s) = true) /\
   (forall c, In c (sccs s) ->
      scc_nodes c <> [] /\ NoDup (scc_nodes c) /\ incl (scc_nodes c) N)).

Lemma popComponent_parts (v : NodeId) (st : list NodeId) :
  forall on acc st' on' acc',
    popComponent v st on acc = Some (st', on', acc') ->
    exists popped, st = popped ++ st' /\ acc' = acc ++ popped /\ popped <> [].
Proof.
  induction st as [| w st IH]; intros on acc st' on' acc' E;
    cbn [popComponent] in E; [discriminate |].
  cbv zeta in E. destruct (keqb w v).
  - injection E as <- _ <-. exists [w]. repeat split. discriminate.
  - apply IH in E. destruct E as (popped & -> & -> & _).
    exists (w :: popped). rewrite <- app_assoc. repeat split. discriminate.
Qed.

Lemma lowlinkMin_tidy (v : NodeId) (o : option nat) (s s' : TarjanState) :
  lowlinkMin v o s = Some s' ->
  sccs s' = sccs s /\ stack s' = stack s /\ index s' = index s.
Proof.
  unfold lowlinkMin. destruct (JsMap.get v (lowlink s)); [| discriminate].
  destruct o; [| discriminate]. intro E. injection E as <-. auto.
Qed.

Lemma closeComponent_tidy (v : NodeId) (s s' : TarjanState) :
  tidy s -> closeComponent g v s = Some s' ->
  tidy s' /\ index s' = index s.
Proof.
  intros (ND & Hst & Hc). unfold closeComponent. destruct (optNatEqb _ _).
  - destruct (popComponent v (stack s) (onStack s) [])
      as [[[st' on'] acc'] |] eqn:Ep; [| discriminate].
    intro E. injection E as <-. cbn [stack sccs index].
    apply popComponent_parts in Ep.
    destruct Ep as (popped & Est & -> & Hne). cbn [app].
    rewrite Est in ND, Hst. split; [| reflexivity].
    split; [exact (NoDup_app_remove_l _ _ ND) |].
    split; [intros x Hx; apply Hst; in_list; auto |].
    intros c Hin. apply in_app_iff in Hin. destruct Hin as [Hin | [<- | []]].
    + exact (Hc c Hin).
    + cbn [scc_nodes]. split; [exact Hne |].
      split; [exact (NoDup_app_remove_r _ _ ND) |].
      intros x Hx. apply Hst. in_list. auto.
  - intro E. injection E as <-. auto.
Qed.

Lemma strongConnect_tidy (fuel : nat) :
  forall v s s',
    tidy s -> In v N -> JsMap.has v (index s) = false ->
    strongConnect g fuel v s = Some s' ->
    tidy s' /\
    forall x, JsMap.has x (index s) = true -> JsMap.has x (index s') = true.
Proof.
  induction fuel as [| fuel IH]; intros v s s' T Hv Hnew E;
    cbn [strongConnect] in E; [discriminate |].
  destruct (forEachM (visitSuccessor (strongConnect g fuel) v)
              (getSuccessors g v) (pushNode v s)) as [s1 |] eqn:Eloop;
    [| discriminate].
  assert (T0 : tidy (pushNode v s)).
  { destruct T as (ND & Hst & Hc). cbn [stack sccs index pushNode].
    split; [| split].
    - constructor; [| exact ND]. intro Hin.
      destruct (Hst v Hin) as [_ Hh]. congruence.
    - intros x [<- | Hx].
      + split; [exact Hv |]. rewrite JsMap_has_set, keqb_refl. reflexivity.
      + destruct (Hst x Hx) as [Hn Hh]. split; [exact Hn |].
        rewrite JsMap_has_set, Hh. apply orb_true_r.
    - exact Hc. }
  assert (M0 : forall x, JsMap.has x (index s) = true ->
                 JsMap.has x (index (pushNode v s)) = true).
  { intros x Hx. cbn [index pushNode]. rewrite JsMap_has_set, Hx.
    apply orb_true_r. }
  assert (Hloop : forall ws a b,
            incl ws N -> tidy a ->
            forEachM (visitSuccessor (strongConnect g fuel) v) ws a = Some b ->
            tidy b /\
            forall x, JsMap.has x (index a) = true -> JsMap.has x (index b) = true).
  { induction ws as [| w ws IHws]; intros a b Hws Ta Eab; cbn [forEachM] in Eab.
    - injection Eab as <-. auto.
    - destruct (visitSuccessor (strongConnect g fuel) v a w) as [a' |] eqn:Ew;
        [| discriminate].
      assert (Ha : tidy a' /\
                   forall x, JsMap.has x (index a) = true ->
                             JsMap.has x (index a') = true).
      { unfold visitSuccessor in Ew.
        destruct (JsMap.has w (index a)) eqn:Hw; cbn [negb] in Ew.
        - destruct (JsSet.has w (onStack a)).
          + apply lowlinkMin_tidy in Ew. destruct Ew as (-> & -> & ->). auto.
          + injection Ew as <-. auto.
        - destruct (strongConnect g fuel w a) as [a1 |] eqn:Ea1;
            [| discriminate].
          apply lowlinkMin_tidy in Ew. destruct Ew as (-> & -> & ->).
          apply (IH w a a1 Ta); [apply Hws; left; reflexivity | exact Hw
                                | exact Ea1]. }
      destruct Ha as [Ta' Ma'].
      destruct (IHws a' b (fun x Hx => Hws x (or_intror Hx)) Ta' Eab)
        as [Tb Mb].
      split; [exact Tb | auto]. }
  destruct (Hloop _ _ _ (proj2 ((wf_succ g_wf) v)) T0 Eloop) as [T1 M1].
  destruct (@closeComponent_tidy v s1 s' T1 E) as [T2 Ei].
  split; [exact T2 |]. intros x Hx. rewrite Ei. auto.
Qed.

(** Every component returned by [findSCCs] is a non-empty, duplicate-free
    list of nodes of the graph. *)
Lemma findSCCs_nodes (fuel : nat) (l : list SCC) :
  findSCCs fuel g = Some l ->
  forall c, In c l ->
    scc_nodes c <> [] /\ NoDup (scc_nodes c) /\ incl (scc_nodes c) N.
Proof.
  unfold findSCCs.
  assert (Hloop : forall us a b,
            incl us N -> tidy a ->
            forEachM (fun st nodeId =>
              if negb (JsMap.has nodeId (index st))
              then strongConnect g fuel nodeId st else Some st) us a = Some b ->
            tidy b).
  { induction us as [| u us IHus]; intros a b Hus Ta Eab; cbn [forEachM] in Eab.
    - injection Eab as <-. exact Ta.
    - destruct (JsMap.has u (index a)) eqn:Hu; cbn [negb] in Eab.
      + exact (IHus a b (fun x Hx => Hus x (or_intror Hx)) Ta Eab).
      + destruct (strongConnect g fuel u a) as [a1 |] eqn:Ea1; [| discriminate].
        destruct (@strongConnect_tidy fuel u a a1 Ta
                    (Hus u (or_introl eq_refl)) Hu Ea1) as [T1 _].
        exact (IHus a1 b (fun x Hx => Hus x (or_intror Hx)) T1 Eab). }
  destruct (forEachM _ N tarjanInit) as [s |] eqn:E; [| discriminate].
  cbn [option_map]. intro El. injection El as <-.
  apply Hloop in E; [| apply incl_refl |].
  - exact (proj2 (proj2 E)).
  - cbn [stack sccs tarjanInit]. split; [constructor |].
    split; [intros x [] | intros c []].
Qed.
End ComponentNodes.

(** X10. On a built graph [findSCCs()] returns at most as many components
    as there are nodes; each component is a non-empty list of nodes of the
    graph without repetition; a component's [id] is its position in the
    result; every node lies in exactly one component; and the result is in
    reverse topological order: an edge never leads from a component to a
    later one. *)
Theorem findSCCs_partitions_nodes
    (NodeMeta EdgeMeta : Type) (g : DirectedGraph NodeMeta EdgeMeta)
    (fuel : nat) :
  Built g -> JsMap.size (nodes g) < fuel ->
  exists l,
    findSCCs fuel g = Some l /\
    length l <= length (getNodes g) /\
    (forall i c, nth_error l i = Some c ->
       scc_id c = i /\ scc_nodes c <> [] /\ NoDup (scc_nodes c) /\
       forall x, In x (scc_nodes c) -> hasNode g x = true) /\
    (forall x, hasNode g x = true ->
       exists i c, nth_error l i = Some c /\ In x (scc_nodes c) /\
         forall j c', nth_error l j = Some c' -> In x (scc_nodes c') -> j = i) /\
    (forall u v i c, nth_error l i = Some c -> In u (scc_nodes c) ->
       hasEdge g u v = true ->
       exists j c', j <= i /\ nth_error l j = Some c' /\ In v (scc_nodes c')).
Proof.
  intros B Hf. pose proof (Built_WellFormed B) as W.
  assert (HfN : length (JsMap.keys (nodes g)) < fuel).
  { unfold JsMap.keys. rewrite length_map. exact Hf. }
  destruct (findSCCs_spec W HfN) as (l & Es & R).
  exists l. split; [exact Es |]. split; [| split; [| split]].
  - pose proof (@findSCCs_length _ _ g W fuel l Es) as Hl.
    unfold getNodes, JsMap.values. rewrite length_map. exact Hl.
  - intros i c Hi. split; [exact ((sr_ids R) _ _ Hi) |].
    destruct (@findSCCs_nodes _ _ g W fuel l Es c (nth_error_In _ _ Hi))
      as (Hne & Hnd & Hin).
    split; [exact Hne |]. split; [exact Hnd |].
    intros x Hx. apply JsMap_has_In_keys. exact (Hin x Hx).
  - intros x Hx. apply JsMap_has_In_keys in Hx.
    destruct ((sr_cover R) x Hx) as (i & c & Hi & Hin).
    exists i, c. split; [exact Hi |]. split; [exact Hin |].
    intros j c' Hj Hin'. exact ((sr_unique R) x j i c' c Hj Hin' Hi Hin).
  - intros u v i c Hi Hu Huv. apply (wf_index W) in Huv.
    exact ((sr_closed R) u v i c Hi Hu Huv).
Qed.

Lemma findSCCs_partitions_nodes_witness :
  exists l,
    findSCCs 3 (exampleAB false) = Some l /\
    length l <= length (getNodes (exampleAB false)) /\
    (forall i c, nth_error l i = Some c ->
       scc_id c = i /\ scc_nodes c <> [] /\ NoDup (scc_nodes c) /\
       forall x, In x (scc_nodes c) -> hasNode (exampleAB false) x = true) /\
    (forall x, hasNode (exampleAB false) x = true ->
       exists i c, nth_error l i = Some c /\ In x (scc_nodes c) /\
         forall j c', nth_error l j = Some c' -> In x (scc_nodes c') -> j = i) /\
    (forall u v i c, nth_error l i = Some c -> In u (scc_nodes c) ->
       hasEdge (exampleAB false) u v = true ->
       exists j c', j <= i /\ nth_error l j = Some c' /\ In v (scc_nodes c')).
Proof.
  refine (@findSCCs_partitions_nodes unit unit (exampleAB false) 3 _ _).
  - unfold exampleAB, runM. repeat constructor.
  - vm_compute. lia.
Defined.

(** ** [classifyEdges] classifies exactly the edges *)

Section ClassifyCoverage.
Context {NodeMeta EdgeMeta : Type}.
Variable g : DirectedGraph NodeMeta EdgeMeta.
Hypothesis g_wf : WellFormed g.
Hypothesis g_es : EdgeStore g.
Variable walkFuel : nat.

Local Abbreviation N := (JsMap.keys (nodes g)).
Local Abbreviation typed st id := (JsMap.has id (type st) = true).
Local Abbreviation seen st x := (JsMap.has x (disc st) = true).
(** Every edge that leaves [x] has a type. *)
Local Abbreviation served st x :=
  (forall v, In v (getSuccessors g x) ->
     forall id, In id (getEdgeIdsBetween g x v) -> typed st id).
(** Only identifiers of stored edges have a type. *)
Local Abbreviation sound st :=
  (forall id, typed st id -> JsMap.has id (edges g) = true).
(** [b] is a later state than [a]; nodes discovered in between are served. *)
Local Abbreviation later a b :=
  ((forall id, typed a id -> typed b id) /\
   (forall x, seen a x -> seen b x) /\
   (forall x, seen b x -> seen a x \/ served b x)).

Lemma bucket_is_edge (u v : NodeId) (id : EdgeId) :
  In id (getEdgeIdsBetween g u v) -> JsMap.has id (edges g) = true.
Proof.
  unfold getEdgeIdsBetween. intro Hin.
  destruct (JsMap.get (getEdgeKey u v) (edgeIndex g)) as [ids |] eqn:E;
    [| destruct Hin].
  destruct ((es_bucket g_es) _ _ E) as (_ & _ & Hm).
  destruct (Hm id Hin) as (e & Ee & _). unfold JsMap.has. rewrite Ee.
  reflexivity.
Qed.

Lemma classifyNonTree_types (u v : NodeId) (eid : EdgeId)
    (st st' : ClassifyState) :
  classifyNonTree walkFuel u v eid st = Some st' ->
  exists t, st' = set_type (JsMap.set eid t (type st)) st.
Proof.
  unfold classifyNonTree.
  destruct (JsSet.has v (onStackC st)); [intro E; injection E as <-; eauto |].
  destruct (ltNum _ _ && ltInf _ _); [intro E; injection E as <-; eauto |].
  destruct (ancestorWalk walkFuel st u (parentOf st v)) as [b |];
    [| discriminate].
  intro E. injection E as <-. eauto.
Qed.

Lemma nonTree_loop_types (u v : NodeId) (eids : list EdgeId) :
  forall st st',
    forEachM (fun st eid => classifyNonTree walkFuel u v eid st) eids st
      = Some st' ->
    disc st' = disc st /\
    (forall id, typed st id -> typed st' id) /\
    (forall id, In id eids -> typed st' id) /\
    (forall id, typed st' id -> typed st id \/ In id eids).
Proof.
  induction eids as [| eid eids IH]; intros st st' E; cbn [forEachM] in E.
  - injection E as <-. repeat split; auto; try (intros ? []).
  - destruct (classifyNonTree walkFuel u v eid st) as [s1 |] eqn:E1;
      [| discriminate].
    apply classifyNonTree_types in E1. destruct E1 as (t & ->).
    destruct (IH _ _ E) as (Ed & Hm & Hall & Hback).
    cbn [disc type set_type] in Ed, Hm, Hback.
    split; [exact Ed |]. split; [| split].
    + intros id Hid. apply Hm. rewrite JsMap_has_set, Hid. apply orb_true_r.
    + intros id [<- | Hin]; [| exact (Hall id Hin)].
      apply Hm. rewrite JsMap_has_set, keqb_refl. reflexivity.
    + intros id Hid. destruct (Hback id Hid) as [H1 | H1]; [| right; right; exact H1].
      rewrite JsMap_has_set in H1. apply orb_true_iff in H1.
      destruct H1 as [H1 | H1]; [| left; exact H1].
      right. left. symmetry. apply keqb_eq. exact H1.
Qed.

Lemma dfsClassify_covers (fuel : nat) :
  forall u st st',
    dfsClassify g walkFuel fuel u st = Some st' -> sound st ->
    later st st' /\ seen st' u /\ served st' u /\ sound st'.
Proof.
  induction fuel as [| fuel IH]; intros u st st' E Hsound;
    cbn [dfsClassify] in E; [discriminate |].
  destruct (forEachM (classifyArc (dfsClassify g walkFuel fuel) g walkFuel u)
              (JsMap.get u (adjacencyList g) ?? []) (discover u st))
    as [s2 |] eqn:Eloop; [| discriminate].
  injection E as <-.
  change (JsMap.get u (adjacencyList g) ?? []) with (getSuccessors g u) in Eloop.
  assert (Hloop : forall vs a b,
            forEachM (classifyArc (dfsClassify g walkFuel fuel) g walkFuel u)
              vs a = Some b ->
            sound a ->
            later a b /\ sound b /\
            forall v, In v vs ->
              forall id, In id (getEdgeIdsBetween g u v) -> typed b id).
  { induction vs as [| v vs IHvs]; intros a b Eab Sa; cbn [forEachM] in Eab.
    - injection Eab as <-. repeat split; auto; try (intros ? []).
    - destruct (classifyArc (dfsClassify g walkFuel fuel) g walkFuel u a v)
        as [a' |] eqn:Earc; [| discriminate].
      assert (Harc : later a a' /\ sound a' /\
                     forall id, In id (getEdgeIdsBetween g u v) -> typed a' id).
      { unfold classifyArc in Earc.
        destruct (getEdgeIdsBetween g u v) as [| first rest] eqn:Eb.
        - injection Earc as <-. repeat split; auto; try (intros ? []).
        - assert (Hvalid : forall id, In id (first :: rest) ->
                    JsMap.has id (edges g) = true).
          { intros id Hin. apply (bucket_is_edge u v). rewrite Eb. exact Hin. }
          destruct (JsMap.has v (disc a)) eqn:Ev; cbn [negb] in Earc.
          + apply nonTree_loop_types in Earc.
            destruct Earc as (Ed & Hm & Hall & Hback).
            split; [| split].
            * split; [exact Hm |]. rewrite Ed. split; auto.
            * intros id Hid. destruct (Hback id Hid) as [H1 | H1]; auto.
            * exact Hall.
          + cbv zeta in Earc.
            destruct (dfsClassify g walkFuel fuel v _) as [a1 |] eqn:Erec;
              [| discriminate].
            apply IH in Erec.
            * destruct Erec as ((Tm & Sm & Sv) & Hv & Hsv & S1).
              cbn [type disc set_type set_parent] in Tm, Sm, Sv.
              apply nonTree_loop_types in Earc.
              destruct Earc as (Ed & Hm & Hall & Hback).
              split; [| split].
              -- split; [| split].
                 ++ intros id Hid. apply Hm, Tm.
                    rewrite JsMap_has_set, Hid. apply orb_true_r.
                 ++ intros x Hx. rewrite Ed. auto.
                 ++ intros x Hx. rewrite Ed in Hx.
                    destruct (Sv x Hx) as [H1 | H1]; [left; exact H1 |].
                    right. intros w Hw id Hid. apply Hm. exact (H1 w Hw id Hid).
              -- intros id Hid. destruct (Hback id Hid) as [H1 | H1].
                 ++ exact (S1 id H1).
                 ++ apply Hvalid. right. exact H1.
              -- intros id [<- | Hin]; [| exact (Hall id Hin)].
                 apply Hm, Tm. rewrite JsMap_has_set, keqb_refl. reflexivity.
            * cbn [type set_type set_parent]. intros id Hid.
              rewrite JsMap_has_set in Hid. apply orb_true_iff in Hid.
              destruct Hid as [Hid | Hid]; [| exact (Sa id Hid)].
              apply keqb_eq in Hid. subst id. apply Hvalid. left. reflexivity. }
      destruct Harc as ((Tm1 & Sm1 & Sv1) & S1 & Hv1).
      destruct (IHvs a' b Eab S1) as ((Tm2 & Sm2 & Sv2) & S2 & Hv2).
      split; [| split; [exact S2 |]].
      + split; [auto |]. split; [auto |].
        intros x Hx. destruct (Sv2 x Hx) as [H1 | H1]; [| right; exact H1].
        destruct (Sv1 x H1) as [H2 | H2]; [left; exact H2 |].
        right. intros w Hw id Hid. apply Tm2. exact (H2 w Hw id Hid).
      + intros w [<- | Hw] id Hid; [apply Tm2, Hv1; exact Hid |].
        exact (Hv2 w Hw id Hid). }
  destruct (Hloop _ _ _ Eloop Hsound) as ((Tm & Sm & Sv) & S2 & Hall).
  cbn [type disc discover] in Tm, Sm, Sv.
  assert (Hu : JsMap.has u (disc s2) = true).
  { apply Sm. rewrite JsMap_has_set, keqb_refl. reflexivity. }
  cbn [type disc finish].
  split; [| split; [exact Hu | split; [exact Hall | exact S2]]].
  split; [exact Tm |]. split.
  - intros x Hx. apply Sm. rewrite JsMap_has_set, Hx. apply orb_true_r.
  - intros x Hx. destruct (Sv x Hx) as [H1 | H1]; [| right; exact H1].
    rewrite JsMap_has_set in H1. apply orb_true_iff in H1.
    destruct H1 as [H1 | H1]; [| left; exact H1].
    apply keqb_eq in H1. subst x. right. exact Hall.
Qed.
Lemma classifyRoots_cover (fuel : nat) (us : list NodeId) :
  forall a b,
    forEachM (fun st u =>
      if negb (JsMap.has u (disc st)) then dfsClassify g walkFuel fuel u st
      else Some st) us a = Some b ->
    sound a -> (forall x, seen a x -> served a x) ->
    sound b /\ (forall x, seen b x -> served b x) /\
    (forall x, In x us -> seen b x) /\
    (forall x, seen a x -> seen b x).
Proof.
  induction us as [| u us IH]; intros a b E Sa Qa; cbn [forEachM] in E.
  - injection E as <-. repeat split; auto; try (intros ? []).
  - destruct (JsMap.has u (disc a)) eqn:Hu; cbn [negb] in E.
    + destruct (IH a b E Sa Qa) as (Sb & Qb & Hall & Hm).
      split; [exact Sb |]. split; [exact Qb |]. split; [| exact Hm].
      intros x [<- | Hx]; [apply Hm; exact Hu | exact (Hall x Hx)].
    + destruct (dfsClassify g walkFuel fuel u a) as [a1 |] eqn:E1;
        [| discriminate].
      destruct (dfsClassify_covers _ _ _ E1 Sa)
        as ((Tm & Sm & Sv) & Hu1 & Hs1 & S1).
      assert (Q1 : forall x, seen a1 x -> served a1 x).
      { intros x Hx. destruct (Sv x Hx) as [H1 | H1]; [| exact H1].
        intros w Hw id Hid. apply Tm. exact (Qa x H1 w Hw id Hid). }
      destruct (IH a1 b E S1 Q1) as (Sb & Qb & Hall & Hm).
      split; [exact Sb |]. split; [exact Qb |]. split; [| auto].
      intros x [<- | Hx]; [apply Hm; exact Hu1 | exact (Hall x Hx)].
Qed.

Lemma classifyCross_keys (es : list (Edge EdgeMeta)) :
  forall st st',
    forEachM (fun st edge =>
      if edgeTypeIsCross (JsMap.get (edge_id edge) (type st)) then
        classifyNonTree walkFuel (edge_from edge) (edge_to edge)
          (edge_id edge) st
      else Some st) es st = Some st' ->
    forall id, JsMap.has id (type st') = JsMap.has id (type st).
Proof.
  induction es as [| e es IH]; intros st st' E id; cbn [forEachM] in E.
  - injection E as <-. reflexivity.
  - destruct (edgeTypeIsCross (JsMap.get (edge_id e) (type st))) eqn:Ec.
    + destruct (classifyNonTree walkFuel (edge_from e) (edge_to e)
                  (edge_id e) st) as [s1 |] eqn:E1; [| discriminate].
      apply classifyNonTree_types in E1. destruct E1 as (t & ->).
      rewrite (IH _ _ E id). cbn [type set_type]. rewrite JsMap_has_set.
      key_cases id (edge_id e); [| reflexivity].
      unfold JsMap.has. destruct (JsMap.get (edge_id e) (type st));
        [reflexivity | discriminate].
    + exact (IH _ _ E id).
Qed.
End ClassifyCoverage.

(** X11. On a built graph [classifyEdges()] terminates (two units of fuel
    per node and two to spare suffice) and its result has a classification
    for an identifier exactly when that identifier is the id of an edge of
    the graph. *)
Theorem classifyEdges_classifies_exactly_the_edges
    (NodeMeta EdgeMeta : Type) (g : DirectedGraph NodeMeta EdgeMeta)
    (fuel : nat) :
  Built g -> 2 * JsMap.size (nodes g) + 2 <= fuel ->
  exists ec,
    classifyEdges fuel g = Some ec /\
    (forall id, JsMap.has id ec = true <->
                exists e, In e (getEdges g) /\ edge_id e = id).
Proof.
  intros B Hf. pose proof (Built_WellFormed B) as W.
  pose proof (Built_EdgeStore B) as St.
  destruct (@classifyEdges_total _ _ g W fuel Hf) as (ec & Ec).
  exists ec. split; [exact Ec |].
  unfold classifyEdges in Ec.
  destruct (forEachM _ (JsMap.keys (nodes g)) classifyInit) as [s1 |] eqn:E1;
    [| discriminate].
  destruct (forEachM _ (JsMap.values (edges g)) s1) as [s2 |] eqn:E2;
    [| discriminate].
  cbn [option_map] in Ec. injection Ec as <-.
  destruct (@classifyRoots_cover _ _ g St fuel fuel _ _ _ E1)
    as (S1 & Q1 & Hall & _).
  { intros id Hid. discriminate Hid. }
  { intros x Hx. discriminate Hx. }
  pose proof (@classifyCross_keys _ fuel _ _ _ E2) as Hk.
  assert (Hedge : forall id, JsMap.has id (edges g) = true <->
                    exists e, In e (getEdges g) /\ edge_id e = id).
  { intro id. split.
    - intro Hh. apply has_get_some in Hh. destruct Hh as (e & Ee).
      exists e. split; [| exact (proj1 ((es_edge St) _ _ Ee))].
      apply (JsMap_In_values e (edges g) (es_keys St)). eauto.
    - intros (e & He & <-).
      apply (JsMap_In_values e (edges g) (es_keys St)) in He.
      destruct He as (id & Ee).
      destruct ((es_edge St) _ _ Ee) as [-> _].
      apply get_some_has with (y := e). exact Ee. }
  intro id. rewrite Hk, <- Hedge. split; [apply S1 |].
  intro Hh. apply has_get_some in Hh. destruct Hh as (e & Ee).
  destruct ((es_edge St) _ _ Ee) as [_ Hin].
  assert (He : In e (JsMap.values (edges g))).
  { apply (JsMap_In_values e (edges g) (es_keys St)). eauto. }
  pose proof ((wf_edges W) e He) as Harc.
  pose proof (@source_is_node _ _ g W _ _ Harc) as Hsrc.
  exact (Q1 _ (Hall _ Hsrc) _ Harc _ Hin).
Qed.

Lemma classifyEdges_classifies_exactly_the_edges_witness :
  exists ec,
    classifyEdges 6 (exampleAB false) = Some ec /\
    (forall id, JsMap.has id ec = true <->
                exists e, In e (getEdges (exampleAB false)) /\ edge_id e = id).
Proof.
  refine (@classifyEdges_classifies_exactly_the_edges unit unit
            (exampleAB false) 6 _ _).
  - unfold exampleAB, runM. repeat constructor.
  - vm_compute. lia.
Defined.

(** ** [findCycles] *)

Section FoldMembers.
Context {Acc X I : Type}.
Variable step : Acc -> X -> Acc.
Variable sel : Acc -> list I.
Variable P : X -> I -> Prop.
Hypothesis step_spec : forall a x i, In i (sel (step a x)) <-> In i (sel a) \/ P x i.

(** What a loop that only appends has collected. *)
Lemma fold_members (xs : list X) :
  forall a i, In i (sel (fold_left step xs a)) <->
              In i (sel a) \/ exists x, In x xs /\ P x i.
Proof.
  induction xs as [| x xs IH]; intros a i; cbn [fold_left].
  - split; [auto | intros [H | (x & [] & _)]; exact H].
  - rewrite IH, step_spec. split.
    + intros [[H | H] | (y & Hy & Hp)]; eauto.
      * right. exists x. split; [left; reflexivity | exact H].
      * right. exists y. split; [right; exact Hy | exact Hp].
    + intros [H | (y & [<- | Hy] & Hp)]; eauto.
Qed.
End FoldMembers.

Section FindCycles.
Context {NodeMeta EdgeMeta : Type}.
Variable g : DirectedGraph NodeMeta EdgeMeta.
Hypothesis g_wf : WellFormed g.
Hypothesis g_es : EdgeStore g.
Variable edgeClass : JsMap EdgeId EdgeType.

Local Abbreviation cycleOf scc :=
  {| cycle_nodes := scc_nodes scc;
     cycle_edges := fst (collectCycleEdges g edgeClass scc);
     cycle_backEdges := snd (collectCycleEdges g edgeClass scc) |}.

(** The loop of [findCycles] keeps the cyclic components, in order. *)
Lemma findCyclesIn_filter (sccs : list SCC) :
  findCyclesIn g sccs edgeClass
    = map (fun scc => cycleOf scc) (filter (fun c => negb (isAcyclic c)) sccs).
Proof.
  unfold findCyclesIn.
  enough (Hgen : forall acc,
            fold_left (fun cycles scc =>
              if isAcyclic scc then cycles
              else
                let a := collectCycleEdges g edgeClass scc in
                cycles ++ [{| cycle_nodes := scc_nodes scc;
                              cycle_edges := fst a;
                              cycle_backEdges := snd a |}]) sccs acc
            = acc ++ map (fun scc => cycleOf scc)
                       (filter (fun c => negb (isAcyclic c)) sccs)).
  { exact (Hgen []). }
  induction sccs as [| c sccs IH]; intro acc; cbn [fold_left filter map].
  - rewrite app_nil_r. reflexivity.
  - rewrite IH. destruct (isAcyclic c); cbn [negb map]; [reflexivity |].
    cbv zeta. rewrite <- app_assoc. reflexivity.
Qed.

(** The edge picked by an identifier of the bucket of [(u, v)]. *)
Lemma bucket_edge (u v : NodeId) (eid : EdgeId) :
  In eid (getEdgeIdsBetween g u v) ->
  exists e, JsMap.get eid (edges g) = Some e /\ edge_id e = eid /\
            edge_from e = u /\ edge_to e = v.
Proof.
  unfold getEdgeIdsBetween. intro Hin.
  destruct (JsMap.get (getEdgeKey u v) (edgeIndex g)) as [ids |] eqn:E;
    [| destruct Hin].
  destruct ((es_bucket g_es) _ _ E) as (_ & _ & Hm).
  destruct (Hm eid Hin) as (e & Ee & Ek).
  apply getEdgeKey_inj in Ek. destruct Ek as [Ef Et].
  exists e. split; [exact Ee |].
  split; [exact (proj1 ((es_edge g_es) _ _ Ee)) | auto].
Qed.

Lemma collectCycleEdges_spec (scc : SCC) (id : EdgeId) :
  (In id (fst (collectCycleEdges g edgeClass scc)) <->
   exists e, In e (getEdges g) /\ edge_id e = id /\
             In (edge_from e) (scc_nodes scc) /\
             In (edge_to e) (scc_nodes scc)) /\
  (In id (snd (collectCycleEdges g edgeClass scc)) <->
   In id (fst (collectCycleEdges g edgeClass scc)) /\
   JsMap.get id edgeClass = Some back).
Proof.
  set (hit := fun (eid : EdgeId) (i : EdgeId) =>
                exists e, JsMap.get eid (edges g) = Some e /\ edge_id e = i).
  set (isBack := fun i : EdgeId => edgeTypeIsBack (JsMap.get i edgeClass) = true).
  assert (S1 : forall a eid i,
            In i (fst (collectEdge g edgeClass a eid)) <->
            In i (fst a) \/ hit eid i).
  { intros a eid i. unfold collectEdge, hit.
    destruct (JsMap.get eid (edges g)) as [e |]; cbn [fst].
    - rewrite in_app_iff. cbn [In]. split.
      + intros [H | [<- | []]]; eauto.
      + intros [H | (e' & E & <-)]; auto. injection E as <-. auto.
    - split; [auto | intros [H | (e' & E & _)]; [exact H | discriminate]]. }
  assert (S2 : forall a eid i,
            In i (snd (collectEdge g edgeClass a eid)) <->
            In i (snd a) \/ (hit eid i /\ isBack i)).
  { intros a eid i. unfold collectEdge, hit, isBack.
    destruct (JsMap.get eid (edges g)) as [e |]; cbn [snd].
    - destruct (edgeTypeIsBack (JsMap.get (edge_id e) edgeClass)) eqn:Eb.
      + rewrite in_app_iff. cbn [In]. split.
        * intros [H | [<- | []]]; eauto.
        * intros [H | ((e' & E & <-) & _)]; auto. injection E as <-. auto.
      + split; [auto |]. intros [H | ((e' & E & <-) & Hb)]; [exact H |].
        injection E as <-. congruence.
    - split; [auto | intros [H | ((e' & E & _) & _)]; [exact H | discriminate]]. }
  set (arc := fun (u v : NodeId) (i : EdgeId) =>
                existsb (keqb v) (scc_nodes scc) = true /\
                exists eid, In eid (getEdgeIdsBetween g u v) /\ hit eid i).
  set (inner := fun (u : NodeId) (acc : list EdgeId * list EdgeId)
                    (successor : NodeId) =>
                  if existsb (keqb successor) (scc_nodes scc)
                  then fold_left (collectEdge g edgeClass)
                         (getEdgeIdsBetween g u successor) acc
                  else acc).
  assert (A1 : forall u a v i,
            In i (fst (inner u a v)) <-> In i (fst a) \/ arc u v i).
  { intros u a v i. unfold inner, arc.
    destruct (existsb (keqb v) (scc_nodes scc)).
    - rewrite (fold_members (collectEdge g edgeClass) fst hit S1). split.
      + intros [H | H]; auto.
      + intros [H | [_ H]]; auto.
    - split; [auto | intros [H | [H _]]; [exact H | discriminate]]. }
  assert (A2 : forall u a v i,
            In i (snd (inner u a v)) <-> In i (snd a) \/ (arc u v i /\ isBack i)).
  { intros u a v i. unfold inner, arc.
    destruct (existsb (keqb v) (scc_nodes scc)).
    - rewrite (fold_members (collectEdge g edgeClass) snd
                 (fun eid i => hit eid i /\ isBack i) S2). split.
      + intros [H | (eid & Hin & Hh & Hb)]; eauto 8.
      + intros [H | ([_ (eid & Hin & Hh)] & Hb)]; eauto 8.
    - split; [auto | intros [H | [[H _] _]]; [exact H | discriminate]]. }
  set (node := fun (u : NodeId) (i : EdgeId) =>
                 exists v, In v (getSuccessors g u) /\ arc u v i).
  set (outer := fun (acc : list EdgeId * list EdgeId) (u : NodeId) =>
                  fold_left (inner u) (getSuccessors g u) acc).
  assert (N1 : forall a u i,
            In i (fst (outer a u)) <-> In i (fst a) \/ node u i).
  { intros a u i. unfold outer, node.
    apply (fold_members (inner u) fst (arc u) (A1 u)). }
  assert (N2 : forall a u i,
            In i (snd (outer a u)) <-> In i (snd a) \/ (node u i /\ isBack i)).
  { intros a u i. unfold outer, node.
    rewrite (fold_members (inner u) snd (fun v i => arc u v i /\ isBack i)
               (A2 u)). split.
    - intros [H | (v & Hv & Ha & Hb)]; eauto 8.
    - intros [H | ((v & Hv & Ha) & Hb)]; eauto 8. }
  assert (F1 : forall i,
            In i (fst (collectCycleEdges g edgeClass scc)) <->
            exists u, In u (scc_nodes scc) /\ node u i).
  { intro i. unfold collectCycleEdges.
    change (In i (fst (fold_left outer (scc_nodes scc) ([], []))) <->
            exists u, In u (scc_nodes scc) /\ node u i).
    rewrite (fold_members outer fst node N1). cbn [fst In]. tauto. }
  assert (F2 : forall i,
            In i (snd (collectCycleEdges g edgeClass scc)) <->
            exists u, In u (scc_nodes scc) /\ node u i /\ isBack i).
  { intro i. unfold collectCycleEdges.
    change (In i (snd (fold_left outer (scc_nodes scc) ([], []))) <->
            exists u, In u (scc_nodes scc) /\ node u i /\ isBack i).
    rewrite (fold_members outer snd (fun u i => node u i /\ isBack i) N2).
    cbn [snd In]. tauto. }
  assert (Hback : isBack id <-> JsMap.get id edgeClass = Some back).
  { unfold isBack, edgeTypeIsBack.
    destruct (JsMap.get id edgeClass) as [[| | |] |]; split; congruence. }
  split.
  - rewrite F1. unfold node, arc, hit. split.
    + intros (u & Hu & v & Hv & Hinc & eid & Hin & e & Ee & Ei).
      destruct (bucket_edge u v eid Hin) as (e' & Ee' & _ & Ef & Et).
      assert (e' = e) by congruence. subst e'.
      exists e. split.
      { apply (JsMap_In_values e (edges g) (es_keys g_es)). eauto. }
      split; [exact Ei |]. rewrite Ef, Et. split; [exact Hu |].
      apply (mem_In v (scc_nodes scc)). exact Hinc.
    + intros (e & He & Ei & Hf & Ht).
      pose proof ((wf_edges g_wf) e He) as Harc.
      apply (JsMap_In_values e (edges g) (es_keys g_es)) in He.
      destruct He as (eid & Ee).
      exists (edge_from e). split; [exact Hf |].
      exists (edge_to e). split; [exact Harc |].
      split; [apply (mem_In (edge_to e) (scc_nodes scc)); exact Ht |].
      exists eid. split; [exact (proj2 ((es_edge g_es) _ _ Ee)) |].
      exists e. auto.
  - rewrite F2, F1, <- Hback. split.
    + intros (u & Hu & Hn & Hb). eauto.
    + intros [(u & Hu & Hn) Hb]. eauto.
Qed.
End FindCycles.

Section CyclesAndOrder.
Context {NodeMeta EdgeMeta : Type}.
Variable g : DirectedGraph NodeMeta EdgeMeta.
Hypothesis g_built : Built g.
Variable fuel : nat.
Hypothesis fuel_enough : 2 * JsMap.size (nodes g) + 2 <= fuel.

(** What the analyses return on a built graph, side by side. *)
Lemma analyses_return :
  exists l ec P,
    findSCCs fuel g = Some l /\ SccResult g l /\
    classifyEdges fuel g = Some ec /\
    topologicalSort fuel g
      = Some (if length P =? length (JsMap.keys (nodes g))
              then Some P else None) /\
    ((length P =? length (JsMap.keys (nodes g))) = true <->
     forall c, In c l -> isAcyclic c = true) /\
    findCycles fuel g None = Some (findCyclesIn g l ec) /\
    (findCyclesIn g l ec = [] <->
     (length P =? length (JsMap.keys (nodes g))) = true).
Proof.
  pose proof (Built_WellFormed g_built) as W.
  assert (HfN : length (JsMap.keys (nodes g)) < fuel).
  { unfold JsMap.keys. rewrite length_map. unfold JsMap.size in fuel_enough.
    lia. }
  destruct (sort_and_components W HfN)
    as (P & ind & l & Et & _ & _ & _ & Es & R & Hiff).
  destruct (@classifyEdges_total _ _ g W fuel fuel_enough) as (ec & Ec).
  exists l, ec, P. split; [exact Es |]. split; [exact R |].
  split; [exact Ec |]. split; [exact Et |]. split; [exact Hiff |].
  split; [unfold findCycles; rewrite Ec, Es; reflexivity |].
  rewrite findCyclesIn_filter, Hiff. split.
  - intros Hnil c Hc. apply map_eq_nil in Hnil.
    destruct (isAcyclic c) eqn:Ea; [reflexivity | exfalso].
    assert (Hin : In c (filter (fun c => negb (isAcyclic c)) l)).
    { apply filter_In. rewrite Ea. auto. }
    rewrite Hnil in Hin. destruct Hin.
  - intros Hall. rewrite filter_none; [reflexivity |].
    intros c Hc. rewrite (Hall c Hc). reflexivity.
Qed.
End CyclesAndOrder.

(** X12. On a built graph [findCycles()] returns one entry per component
    of [findSCCs()] whose [isAcyclic] flag is false, in the same order and
    with that component's nodes; it returns no entry exactly when
    [topologicalSort()] returns an order.  The [edges] of an entry are
    exactly the ids of the graph's edges with both endpoints among the
    entry's nodes, and its [backEdges] are exactly those of them that
    [classifyEdges()] classified as back. *)
Theorem findCycles_lists_cyclic_components
    (NodeMeta EdgeMeta : Type) (g : DirectedGraph NodeMeta EdgeMeta)
    (fuel : nat) :
  Built g -> 2 * JsMap.size (nodes g) + 2 <= fuel ->
  exists cs l ec,
    findCycles fuel g None = Some cs /\
    findSCCs fuel g = Some l /\
    classifyEdges fuel g = Some ec /\
    map cycle_nodes cs = map scc_nodes (filter (fun c => negb (isAcyclic c)) l) /\
    (cs = [] <-> exists order, topologicalSort fuel g = Some (Some order)) /\
    (forall c id, In c cs ->
       (In id (cycle_edges c) <->
        exists e, In e (getEdges g) /\ edge_id e = id /\
                  In (edge_from e) (cycle_nodes c) /\
                  In (edge_to e) (cycle_nodes c)) /\
       (In id (cycle_backEdges c) <->
        In id (cycle_edges c) /\ JsMap.get id ec = Some back)).
Proof.
  intros B Hf. pose proof (Built_WellFormed B) as W.
  pose proof (Built_EdgeStore B) as St.
  destruct (analyses_return B Hf)
    as (l & ec & P & Es & R & Ec & Et & Hiff & Ecs & Hnil).
  exists (findCyclesIn g l ec), l, ec.
  split; [exact Ecs |]. split; [exact Es |]. split; [exact Ec |].
  split; [| split].
  - rewrite findCyclesIn_filter, map_map. reflexivity.
  - rewrite Hnil, Et.
    destruct (length P =? length (JsMap.keys (nodes g))); split;
      try discriminate; eauto.
    intros (order & E). discriminate.
  - intros c id Hc. rewrite findCyclesIn_filter in Hc.
    apply in_map_iff in Hc. destruct Hc as (scc & <- & _).
    cbn [cycle_nodes cycle_edges cycle_backEdges].
    exact (@collectCycleEdges_spec _ _ g W St ec scc id).
Qed.

Lemma findCycles_lists_cyclic_components_witness :
  exists cs l ec,
    findCycles 6 (exampleAB false) None = Some cs /\
    findSCCs 6 (exampleAB false) = Some l /\
    classifyEdges 6 (exampleAB false) = Some ec /\
    map cycle_nodes cs = map scc_nodes (filter (fun c => negb (isAcyclic c)) l) /\
    (cs = [] <->
     exists order, topologicalSort 6 (exampleAB false) = Some (Some order)) /\
    (forall c id, In c cs ->
       (In id (cycle_edges c) <->
        exists e, In e (getEdges (exampleAB false)) /\ edge_id e = id /\
                  In (edge_from e) (cycle_nodes c) /\
                  In (edge_to e) (cycle_nodes c)) /\
       (In id (cycle_backEdges c) <->
        In id (cycle_edges c) /\ JsMap.get id ec = Some back)).
Proof.
  refine (@findCycles_lists_cyclic_components unit unit (exampleAB false) 6 _ _).
  - unfold exampleAB, runM. repeat constructor.
  - vm_compute. lia.
Defined.

(** X13. On a built graph, whenever [analyze()] returns a result, the
    result's [sccs], [edgeClassifications], [topologicalOrder], [cycles]
    and [condensationGraph] are what [findSCCs()], [classifyEdges()],
    [topologicalSort()], [findCycles()] and [buildCondensationGraph()]
    return on their own, its counts are the numbers of nodes and edges, and
    its [isAcyclic] flag is true exactly when the order is not null, exactly
    when [cycles] is empty, exactly when every component is flagged
    acyclic. *)
Theorem analyze_is_consistent
    (NodeMeta EdgeMeta : Type) (g : DirectedGraph NodeMeta EdgeMeta)
    (fuel : nat) (a : GraphAnalysis EdgeMeta) :
  Built g -> 2 * JsMap.size (nodes g) + 2 <= fuel ->
  analyze fuel g = Some (inr a) ->
  ga_nodeCount a = length (getNodes g) /\
  ga_edgeCount a = length (getEdges g) /\
  findSCCs fuel g = Some (ga_sccs a) /\
  classifyEdges fuel g = Some (ga_edgeClassifications a) /\
  topologicalSort fuel g = Some (ga_topologicalOrder a) /\
  findCycles fuel g None = Some (ga_cycles a) /\
  (exists cg, ga_condensationGraph a = Some cg /\
              buildCondensationGraph fuel g None = Some (inr cg)) /\
  (ga_isAcyclic a = true <-> ga_topologicalOrder a <> None) /\
  (ga_isAcyclic a = true <-> ga_cycles a = []) /\
  (ga_isAcyclic a = true <->
   forall c, In c (ga_sccs a) -> isAcyclic c = true).
Proof.
  intros B Hf Ea. pose proof (Built_WellFormed B) as W.
  destruct (analyses_return B Hf)
    as (l & ec & P & Es & R & Ec & Et & Hiff & Ecs & Hnil).
  assert (Hl : length l < fuel).
  { pose proof (@findSCCs_length _ _ g W fuel l Es). lia. }
  destruct (@condense_spec _ _ g W l ec fuel R Hl) as (cg & Ecg & _).
  assert (Ebn : buildCondensationGraph fuel g None = Some (inr cg)).
  { unfold buildCondensationGraph. rewrite Es, Ec. exact Ecg. }
  unfold analyze in Ea. rewrite Es, Ec in Ea. cbv zeta in Ea.
  change (findCycles fuel g
            (Some {| pre_sccs := Some l; pre_edgeClassifications := Some ec |}))
    with (Some (findCyclesIn g l ec)) in Ea.
  change (buildCondensationGraph fuel g
            (Some {| pre_sccs := Some l; pre_edgeClassifications := Some ec |}))
    with (condense fuel g l ec) in Ea.
  rewrite Et, Ecg in Ea. injection Ea as <-.
  cbn [ga_nodeCount ga_edgeCount ga_isAcyclic ga_sccs ga_cycles
       ga_topologicalOrder ga_condensationGraph ga_edgeClassifications].
  split; [unfold getNodes, JsMap.values, JsMap.size; rewrite length_map;
          reflexivity |].
  split; [unfold getEdges, JsMap.values, JsMap.size; rewrite length_map;
          reflexivity |].
  split; [exact Es |]. split; [exact Ec |]. split; [exact Et |].
  split; [exact Ecs |].
  split; [exists cg; split; [reflexivity | exact Ebn] |].
  rewrite Hnil, <- Hiff.
  destruct (length P =? length (JsMap.keys (nodes g)));
    repeat split; congruence.
Qed.

Lemma analyze_is_consistent_witness :
  exists a,
    analyze 6 (exampleAB false) = Some (inr a) /\
    ga_nodeCount a = length (getNodes (exampleAB false)) /\
    ga_edgeCount a = length (getEdges (exampleAB false)) /\
    findSCCs 6 (exampleAB false) = Some (ga_sccs a) /\
    classifyEdges 6 (exampleAB false) = Some (ga_edgeClassifications a) /\
    topologicalSort 6 (exampleAB false) = Some (ga_topologicalOrder a) /\
    findCycles 6 (exampleAB false) None = Some (ga_cycles a) /\
    (exists cg, ga_condensationGraph a = Some cg /\
                buildCondensationGraph 6 (exampleAB false) None
                  = Some (inr cg)) /\
    (ga_isAcyclic a = true <-> ga_topologicalOrder a <> None) /\
    (ga_isAcyclic a = true <-> ga_cycles a = []) /\
    (ga_isAcyclic a = true <->
     forall c, In c (ga_sccs a) -> isAcyclic c = true).
Proof.
  eexists. split; [vm_compute; reflexivity |].
  refine (@analyze_is_consistent unit unit (exampleAB false) 6 _ _ _ _).
  - unfold exampleAB, runM. repeat constructor.
  - vm_compute. lia.
  - vm_compute. reflexivity.
Defined.

(** ** Breadth-first search finds exactly the walks *)

Section ClosedSets.
Variable succs : NodeId -> list NodeId.

(** A walk that starts inside a set closed under successors stays inside. *)
Lemma walk_stays_inside (S : list NodeId) :
  (forall x y, In x S -> In y (succs x) -> In y S) ->
  forall p x, isWalk succs p -> hd_error p = Some x -> In x S ->
    forall y, In y p -> In y S.
Proof.
  intros Hclosed. induction p as [| a p IH]; intros x Hw Hhd Hx y Hy;
    [destruct Hy |].
  injection Hhd as ->. destruct Hy as [<- | Hy]; [exact Hx |].
  destruct p as [| b p]; [destruct Hy |].
  destruct Hw as [Hab Hw].
  apply (IH b Hw eq_refl (Hclosed _ _ Hx Hab) y Hy).
Qed.

Lemma last_In (p : list NodeId) (x0 : NodeId) : p <> [] -> In (last p x0) p.
Proof.
  induction p as [| a p IH]; [congruence |]. intros _.
  destruct p as [| b p]; [left; reflexivity |].
  right. apply IH. discriminate.
Qed.
End ClosedSets.

Section BFSComplete.
Variable succs : NodeId -> list NodeId.
Variables from to : NodeId.

Local Abbreviation Inv := (BfsInv succs from to).

(** When the search of [shortestPath] runs dry, no walk reaches [to]. *)
Lemma pathLoop_none (fuel : nat) :
  forall d seen parent P W,
    Inv d seen parent P W ->
    pathLoop succs fuel to seen parent (P ++ W) (length P) = Some None ->
    forall p, ~ walkFromTo succs from to p.
Proof.
  induction fuel as [| fuel IH]; intros d seen parent P W I; cbn [pathLoop];
    [discriminate |].
  rewrite nth_error_at_length. destruct W as [| u W0]; cbn [hd_error].
  - intros _ p (Hw & Hhd & Hlast).
    apply (bfs_target I). rewrite app_nil_r.
    assert (Hp : p <> []) by (destruct p; [discriminate | congruence]).
    rewrite <- Hlast.
    apply (@walk_stays_inside succs P) with (p := p) (x := from); auto.
    + intros x y Hx Hy. pose proof (proj1 ((bfs_closed I) x y Hx Hy)) as X.
      rewrite app_nil_r in X. exact X.
    + pose proof (proj1 (bfs_from I)) as X. rewrite app_nil_r in X. exact X.
    + apply last_In. exact Hp.
  - pose proof (@pathScan_spec succs from to P u (succs u) (incl_refl _)
                  d seen parent W0 I) as Sc.
    destruct (pathScan to u (succs u) seen parent (P ++ u :: W0))
      as [parent' | [[seen' parent'] q']].
    + destruct (reconstruct fuel parent' (Some to) []); discriminate.
    + destruct Sc as (d' & W0' & -> & I' & Hmono & Hall).
      destruct (queue_advance P W0' u) as [-> ->].
      apply IH with (d := d'). apply BfsInv_advance; assumption.
Qed.
End BFSComplete.

Section BFSTerminates.
Variable succs : NodeId -> list NodeId.
Variable U : list NodeId.
Hypothesis U_closed : forall u, In u U -> incl (succs u) U.
Variable to : NodeId.

Lemma reachScan_queue (vs : list NodeId) :
  incl vs U ->
  forall seen q,
    NoDup q -> incl q U -> (forall x, In x seen <-> In x q) ->
    match reachScan to vs seen q with
    | inl _ => True
    | inr (seen', q') =>
        NoDup q' /\ incl q' U /\ (forall x, In x seen' <-> In x q') /\
        length q <= length q'
    end.
Proof.
  induction vs as [| v vs IH]; intros Hvs seen q ND Hq Hs; cbn [reachScan].
  - auto.
  - assert (Hvs' : incl vs U) by (intros x Hx; apply Hvs; right; exact Hx).
    destruct (JsSet.has v seen) eqn:Hv; [exact (IH Hvs' seen q ND Hq Hs) |].
    destruct (keqb v to); [exact I |].
    apply JsSet_has_false in Hv.
    assert (Hadd : JsSet.add v seen = seen ++ [v]).
    { unfold JsSet.add. apply JsSet_has_false in Hv. rewrite Hv. reflexivity. }
    specialize (IH Hvs' (JsSet.add v seen) (q ++ [v])).
    destruct (reachScan to vs (JsSet.add v seen) (q ++ [v])) as [| [seen' q']];
      [exact I |].
    destruct IH as (ND' & Hq' & Hs' & Hlen).
    + apply NoDup_app; [exact ND | repeat constructor; simpl; tauto |].
      intros x Hx [<- | []]. apply Hv, Hs. exact Hx.
    + intros x Hx. apply in_app_iff in Hx. destruct Hx as [Hx | [<- | []]];
        [exact (Hq x Hx) | apply Hvs; left; reflexivity].
    + intro x. rewrite Hadd, !in_app_iff, Hs. reflexivity.
    + rewrite length_app in Hlen. cbn [length] in Hlen.
      split; [exact ND' | split; [exact Hq' | split; [exact Hs' | lia]]].
Qed.

(** On a finite set of nodes the loop of [isReachable] returns. *)
Lemma reachLoop_total (fuel : nat) :
  forall seen q head,
    NoDup q -> incl q U -> (forall x, In x seen <-> In x q) ->
    length U - head < fuel ->
    exists b, reachLoop succs fuel to seen q head = Some b.
Proof.
  induction fuel as [| fuel IH]; intros seen q head ND Hq Hs Hf; [lia |].
  cbn [reachLoop]. destruct (nth_error q head) as [u |] eqn:Eu; [| eauto].
  assert (Hu : In u U) by (apply Hq; exact (nth_error_In _ _ Eu)).
  assert (Hh : head < length q) by (apply nth_error_Some; congruence).
  pose proof (NoDup_incl_length ND Hq) as Hlen.
  pose proof (@reachScan_queue (succs u) (U_closed u Hu) seen q ND Hq Hs) as Sc.
  destruct (reachScan to (succs u) seen q) as [| [seen' q']]; [eauto |].
  destruct Sc as (ND' & Hq' & Hs' & _).
  apply IH; auto. lia.
Qed.
End BFSTerminates.

(** X14. [isReachable(from, to)] answers whether a walk along the successor
    function leads from [from] to [to] (the one-node walk when they are
    equal): on a finite set of nodes closed under successors it returns,
    and its answer is true exactly when such a walk exists. *)
Theorem isReachable_iff_walk
    (succs : NodeId -> list NodeId) (U : list NodeId) (fuel : nat)
    (from to : NodeId) :
  (forall u, In u U -> incl (succs u) U) -> In from U -> length U < fuel ->
  exists b,
    isReachable succs fuel from to = Some b /\
    (b = true <-> exists p, walkFromTo succs from to p).
Proof.
  intros Hclosed Hfrom Hf. unfold isReachable.
  destruct (keqb_spec from to) as [<- | Hne].
  - exists true. split; [reflexivity |]. split; [| reflexivity].
    intros _. exists [from]. repeat split.
  - destruct (@reachLoop_total succs U Hclosed to fuel [from] [from] 0)
      as (b & Eb).
    + repeat constructor. simpl. tauto.
    + intros x [<- | []]. exact Hfrom.
    + tauto.
    + lia.
    + exists b. split; [exact Eb |].
      pose proof (@reachLoop_to_pathLoop succs from to fuel _ _ _ [] [from]
                    (BfsInv_init succs Hne)) as Sim.
      cbn [app length] in Sim. rewrite Eb in Sim. destruct b.
      * split; [| reflexivity]. intros _.
        destruct Sim as (fuel' & p & Hp). exists p.
        exact (proj1 (@pathLoop_shortest succs from to fuel' _ _ _ [] [from] p
                        (BfsInv_init succs Hne) Hp)).
      * split; [discriminate |]. intros (p & Hp). exfalso.
        exact (@pathLoop_none succs from to fuel _ _ _ [] [from]
                 (BfsInv_init succs Hne) Sim p Hp).
Qed.

Lemma isReachable_iff_walk_witness :
  exists b,
    isReachable diamond 5 "A"%string "D"%string = Some b /\
    (b = true <-> exists p, walkFromTo diamond "A"%string "D"%string p).
Proof.
  refine (@isReachable_iff_walk diamond
            ["A"%string; "B"%string; "C"%string; "D"%string] 5
            "A"%string "D"%string _ _ _).
  - intros u [<- | [<- | [<- | [<- | []]]]]; vm_compute; tauto.
  - simpl. auto.
  - simpl. lia.
Defined.

(** X15. When [shortestPath(from, to)] returns a path, the path is a walk
    along the successor function from [from] to [to] and no such walk has
    fewer nodes; when it returns null, no such walk exists; and on a finite
    set of nodes closed under successors it does return. *)
Theorem shortestPath_is_a_shortest_walk
    (succs : NodeId -> list NodeId) (from to : NodeId) :
  (forall fuel p, shortestPath succs fuel from to = Some (Some p) ->
     walkFromTo succs from to p /\
     forall p', walkFromTo succs from to p' -> length p <= length p') /\
  (forall fuel, shortestPath succs fuel from to = Some None ->
     forall p', ~ walkFromTo succs from to p') /\
  (forall U, (forall u, In u U -> incl (succs u) U) -> In from U ->
     exists fuel r, shortestPath succs fuel from to = Some r).
Proof.
  unfold shortestPath. destruct (keqb_spec from to) as [<- | Hne].
  - split; [| split].
    + intros fuel p E. injection E as <-. split; [repeat split |].
      intros p' (_ & Hhd & _). destruct p'; [discriminate | simpl; lia].
    + intros fuel E. discriminate.
    + intros U _ _. exists 0. eauto.
  - pose proof (BfsInv_init succs Hne) as I0. split; [| split].
    + intros fuel p E.
      exact (@pathLoop_shortest succs from to fuel _ _ _ [] [from] p I0 E).
    + intros fuel E.
      exact (@pathLoop_none succs from to fuel _ _ _ [] [from] I0 E).
    + intros U Hclosed Hfrom.
      destruct (@reachLoop_total succs U Hclosed to (S (length U))
                  [from] [from] 0) as (b & Eb).
      * repeat constructor. simpl. tauto.
      * intros x [<- | []]. exact Hfrom.
      * tauto.
      * lia.
      * pose proof (@reachLoop_to_pathLoop succs from to (S (length U))
                      _ _ _ [] [from] I0) as Sim.
        cbn [app length] in Sim. rewrite Eb in Sim. destruct b.
        -- destruct Sim as (fuel' & p & Hp). exists fuel', (Some p). exact Hp.
        -- exists (S (length U)), None. exact Sim.
Qed.

Lemma shortestPath_is_a_shortest_walk_witness :
  exists fuel r, shortestPath diamond fuel "A"%string "D"%string = Some r.
Proof.
  refine (proj2 (proj2 (@shortestPath_is_a_shortest_walk diamond
                          "A"%string "D"%string))
            ["A"%string; "B"%string; "C"%string; "D"%string] _ _).
  - intros u [<- | [<- | [<- | [<- | []]]]]; vm_compute; tauto.
  - simpl. auto.
Defined.

(** ** [findAllPaths] enumerates the simple paths *)

Section SimplePaths.
Variable succs : NodeId -> list NodeId.
Variable to : NodeId.

Lemma last_default (x a b : NodeId) (l : list NodeId) :
  last (x :: l) a = last (x :: l) b.
Proof.
  revert x. induction l as [| y l IH]; intro x; [reflexivity |].
  change (last (y :: l) a = last (y :: l) b). apply IH.
Qed.

Lemma JsSet_delete_added (v : NodeId) (s : JsSet NodeId) :
  ~ In v s -> JsSet.delete v (JsSet.add v s) = s.
Proof.
  intro Hv. unfold JsSet.add.
  assert (Hh : JsSet.has v s = false) by (apply JsSet_has_false; exact Hv).
  rewrite Hh. unfold JsSet.delete. rewrite filter_app. cbn [filter].
  rewrite keqb_refl. cbn [negb]. rewrite app_nil_r.
  clear Hh. induction s as [| x s IH]; cbn [filter]; [reflexivity |].
  destruct (keqb_spec v x) as [-> | N].
  - exfalso. apply Hv. left. reflexivity.
  - cbn [negb]. rewrite IH; [reflexivity |]. intro H. apply Hv. right. exact H.
Qed.

(** [ext] continues a path that stands at [u]: it walks on to [to], through
    fresh nodes only, in fewer than [n] steps. *)
Local Abbreviation continues visited u ext n :=
  (isWalk succs (u :: ext) /\ last (u :: ext) to = to /\ NoDup ext /\
   (forall x, In x ext -> ~ In x visited) /\ length ext < n).

Lemma allPathsDfs_exact (remaining : nat) :
  forall u path paths visited,
    In u visited ->
    exists new,
      allPathsDfs succs remaining to u path (paths, visited)
        = (paths ++ new, visited) /\
      forall q, In q new <->
        exists ext, q = path ++ ext /\ continues visited u ext remaining.
Proof.
  induction remaining as [| r IH]; intros u path paths visited Hu;
    cbn [allPathsDfs].
  - exists []. rewrite app_nil_r. split; [reflexivity |].
    intro q. split; [intros [] | intros (ext & _ & _ & _ & _ & _ & Hl); lia].
  - destruct (keqb_spec u to) as [-> | Hne].
    + exists [path]. cbn [fst snd]. split; [reflexivity |].
      intro q. split.
      * intros [<- | []]. exists []. rewrite app_nil_r.
        repeat split; [constructor | intros x [] | simpl; lia].
      * intros (ext & -> & _ & Hlast & _ & Hfresh & _).
        destruct ext as [| v ext]; [rewrite app_nil_r; left; reflexivity |].
        exfalso. apply (Hfresh (last (v :: ext) to)).
        -- apply last_In. discriminate.
        -- change (last (to :: v :: ext) to) with (last (v :: ext) to) in Hlast.
           rewrite Hlast. exact Hu.
    + enough (Hloop : forall vs paths,
                exists new,
                  fold_left (fun st v =>
                    if JsSet.has v (snd st) then st
                    else
                      let st' := allPathsDfs succs r to v (path ++ [v])
                                   (fst st, JsSet.add v (snd st)) in
                      (fst st', JsSet.delete v (snd st')))
                    vs (paths, visited) = (paths ++ new, visited) /\
                  forall q, In q new <->
                    exists v ext, In v vs /\ ~ In v visited /\
                      q = path ++ v :: ext /\
                      continues (JsSet.add v visited) v ext r).
      { destruct (Hloop (succs u) paths) as (new & E & Hnew).
        exists new. split; [exact E |]. intro q. rewrite Hnew. split.
        - intros (v & ext & Hv & Hfresh & -> & Hw & Hlast & ND & Hdis & Hlen).
          exists (v :: ext). split; [reflexivity |].
          split; [split; [exact Hv | exact Hw] |].
          split; [exact Hlast |].
          split; [constructor; [| exact ND] |].
          { intro Hin. apply (Hdis v Hin). apply JsSet_In_add. auto. }
          split; [| simpl; lia].
          intros x [<- | Hx]; [exact Hfresh |].
          intro Hxv. apply (Hdis x Hx). apply JsSet_In_add. auto.
        - intros (ext & -> & Hw & Hlast & ND & Hdis & Hlen).
          destruct ext as [| v ext]; [simpl in Hlast; congruence |].
          destruct Hw as [Hv Hw]. inversion ND as [| ? ? Hnv ND']; subst.
          exists v, ext. split; [exact Hv |].
          split; [apply Hdis; left; reflexivity |].
          split; [reflexivity |].
          split; [exact Hw |]. split; [exact Hlast |]. split; [exact ND' |].
          split; [| simpl in Hlen; lia].
          intros x Hx Hin. apply JsSet_In_add in Hin.
          destruct Hin as [-> | Hin]; [exact (Hnv Hx) |].
          exact (Hdis x (or_intror Hx) Hin). }
      induction vs as [| v vs IHvs]; intro paths0; cbn [fold_left].
      * exists []. rewrite app_nil_r. split; [reflexivity |].
        intro q. split; [intros [] | intros (v & ext & [] & _)].
      * cbn [snd fst].
        destruct (JsSet.has v visited) eqn:Hv.
        -- destruct (IHvs paths0) as (new & E & Hnew).
           exists new. split; [exact E |]. intro q. rewrite Hnew.
           apply JsSet_has_In in Hv. split.
           ++ intros (w & ext & Hw & Hrest). exists w, ext. split; [right |]; auto.
           ++ intros (w & ext & [<- | Hw] & Hfresh & Hrest);
                [contradiction | exists w, ext; auto].
        -- apply JsSet_has_false in Hv.
           destruct (IH v (path ++ [v]) paths0 (JsSet.add v visited))
             as (new1 & E1 & Hnew1); [apply JsSet_In_add; auto |].
           destruct (IHvs (paths0 ++ new1)) as (new2 & E2 & Hnew2).
           exists (new1 ++ new2). rewrite app_assoc. split.
           { cbv zeta.
             match goal with
             | |- context [allPathsDfs ?a ?b ?c ?d ?e ?f] =>
                 replace (allPathsDfs a b c d e f)
                   with (paths0 ++ new1, JsSet.add v visited)
                   by (symmetry; exact E1)
             end.
             cbn [fst snd]. rewrite (@JsSet_delete_added v visited Hv). exact E2. }
           intro q. rewrite in_app_iff, Hnew1, Hnew2. split.
           ++ intros [(ext & -> & Hc) | (w & ext & Hw & Hrest)].
              ** exists v, ext. split; [left; reflexivity |].
                 split; [exact Hv |]. rewrite <- app_assoc. auto.
              ** exists w, ext. split; [right; exact Hw | exact Hrest].
           ++ intros (w & ext & [<- | Hw] & Hfresh & -> & Hc).
              ** left. exists ext. rewrite <- app_assoc. auto.
              ** right. exists w, ext. auto.
Qed.
End SimplePaths.

(** X16. [findAllPaths(from, to, maxDepth)] throws when [maxDepth] is
    negative.  Otherwise it returns exactly the simple paths from [from]
    to [to] with at most [maxDepth] edges: a list of nodes is among the
    returned paths exactly when it is a walk along the successor function
    from [from] to [to], repeats no node and has at most [maxDepth]
    edges. *)
Theorem findAllPaths_returns_the_simple_paths
    (succs : NodeId -> list NodeId) (from to : NodeId) (maxDepth : Z) :
  if (maxDepth <? 0)%Z
  then findAllPaths succs from to maxDepth = inl MaxDepthNegative
  else exists paths,
    findAllPaths succs from to maxDepth = inr paths /\
    forall q, In q paths <->
      walkFromTo succs from to q /\ NoDup q /\
      (Z.of_nat (edgeCount q) <= maxDepth)%Z.
Proof.
  unfold findAllPaths. destruct (maxDepth <? 0)%Z eqn:Hneg; [reflexivity |].
  apply Z.ltb_ge in Hneg.
  destruct (@allPathsDfs_exact succs to (S (Z.to_nat maxDepth)) from [from]
              [] [from] (or_introl eq_refl)) as (new & E & Hnew).
  rewrite E. cbn [fst app]. exists new. split; [reflexivity |].
  intro q. rewrite Hnew. unfold walkFromTo, edgeCount. split.
  - intros (ext & -> & Hw & Hlast & ND & Hdis & Hlen).
    cbn [app hd_error length].
    split; [split; [exact Hw | split; [reflexivity |]] |].
    { rewrite (last_default from from to). exact Hlast. }
    split; [constructor; [| exact ND] |].
    + intro Hin. apply (Hdis from Hin). left. reflexivity.
    + lia.
  - intros ((Hw & Hhd & Hlast) & ND & Hlen).
    destruct q as [| x ext]; [discriminate |]. injection Hhd as ->.
    apply NoDup_cons_iff in ND. destruct ND as [Hnf ND'].
    exists ext. split; [reflexivity |].
    split; [exact Hw |].
    split; [rewrite (last_default from to from); exact Hlast |].
    split; [exact ND' |].
    split.
    + intros x Hx [<- | []]. exact (Hnf Hx).
    + cbn [length] in Hlen. lia.
Qed.

(** ** [transitiveClosure] *)

Section Closure.
Variable succs : NodeId -> list NodeId.
Variable U : list NodeId.
Hypothesis U_closed : forall u, In u U -> incl (succs u) U.
Variable s : NodeId.

(** The three containers of the loop move together: [seen] and [q] are
    [s] followed by [reach]. *)
Lemma closureScan_spec (u : NodeId) (vs : list NodeId) :
  incl vs (succs u) -> (exists p, walkFromTo succs s u p) -> In u U ->
  forall reach,
    NoDup (s :: reach) -> incl (s :: reach) U ->
    (forall x, In x (s :: reach) -> exists p, walkFromTo succs s x p) ->
    exists new,
      closureScan vs (s :: reach, reach, s :: reach)
        = (s :: reach ++ new, reach ++ new, s :: reach ++ new) /\
      NoDup (s :: reach ++ new) /\ incl (s :: reach ++ new) U /\
      (forall x, In x (s :: reach ++ new) -> exists p, walkFromTo succs s x p) /\
      (forall v, In v vs -> In v (s :: reach ++ new)).
Proof.
  intros Hvs (pu & Hpu) Hu.
  induction vs as [| v vs IH]; intros reach ND Hq Hreach; cbn [closureScan].
  - exists []. rewrite app_nil_r. repeat split; auto. intros v [].
  - assert (Hvs' : incl vs (succs u)) by (intros x Hx; apply Hvs; right; exact Hx).
    assert (Hv : In v (succs u)) by (apply Hvs; left; reflexivity).
    destruct (JsSet.has v (s :: reach)) eqn:Hseen.
    + destruct (IH Hvs' reach ND Hq Hreach) as (new & E & ND' & Hq' & Hr' & Hall).
      exists new. split; [exact E |]. split; [exact ND' |].
      split; [exact Hq' |]. split; [exact Hr' |].
      intros x [<- | Hx]; [| exact (Hall x Hx)].
      apply JsSet_has_In in Hseen. destruct Hseen as [<- | Hin];
        [left; reflexivity | right; apply in_app_iff; auto].
    + apply JsSet_has_false in Hseen.
      assert (Hnr : ~ In v reach) by (intro H; apply Hseen; right; exact H).
      assert (E1 : JsSet.add v (s :: reach) = s :: reach ++ [v]).
      { unfold JsSet.add. apply JsSet_has_false in Hseen. rewrite Hseen.
        reflexivity. }
      assert (E2 : JsSet.add v reach = reach ++ [v]).
      { unfold JsSet.add. apply JsSet_has_false in Hnr. rewrite Hnr.
        reflexivity. }
      rewrite E1, E2. change ((s :: reach) ++ [v]) with (s :: reach ++ [v]).
      destruct (IH Hvs' (reach ++ [v])) as (new & E & ND' & Hq' & Hr' & Hall).
      * change (NoDup ((s :: reach) ++ [v])).
        apply NoDup_app; [exact ND | repeat constructor; simpl; tauto |].
        intros x Hx [<- | []]. exact (Hseen Hx).
      * change (incl ((s :: reach) ++ [v]) U).
        intros x Hx. apply in_app_iff in Hx.
        destruct Hx as [Hx | [<- | []]]; [exact (Hq x Hx) |].
        exact (U_closed u Hu v Hv).
      * intros x Hx. change (In x ((s :: reach) ++ [v])) in Hx.
        apply in_app_iff in Hx.
        destruct Hx as [Hx | [<- | []]]; [exact (Hreach x Hx) |].
        exists (pu ++ [v]). exact (@walkFromTo_snoc succs s u v pu Hpu Hv).
      * rewrite <- !app_assoc in *. cbn [app] in *.
        exists (v :: new). split; [exact E |]. split; [exact ND' |].
        split; [exact Hq' |]. split; [exact Hr' |].
        intros x [<- | Hx]; [| exact (Hall x Hx)].
        right. apply in_app_iff. right. left. reflexivity.
Qed.

Lemma closureLoop_spec (fuel : nat) :
  forall reach P W,
    s :: reach = P ++ W ->
    NoDup (s :: reach) -> incl (s :: reach) U ->
    (forall x, In x (s :: reach) -> exists p, walkFromTo succs s x p) ->
    (forall x y, In x P -> In y (succs x) -> In y (s :: reach)) ->
    length U - length P < fuel ->
    exists r,
      closureLoop succs fuel (s :: reach, reach, s :: reach) (length P)
        = Some r /\
      forall v, In v r <-> v <> s /\ exists p, walkFromTo succs s v p.
Proof.
  induction fuel as [| fuel IH]; intros reach P W Eq ND Hq Hreach Hclosed Hf;
    [lia |].
  cbn [closureLoop]. cbv beta iota.
  assert (Hnth : nth_error (s :: reach) (length P) = hd_error W)
    by (rewrite Eq; apply nth_error_at_length).
  destruct W as [| u W0]; cbn [hd_error] in Hnth.
  - rewrite app_nil_r in Eq. subst P.
    exists reach. split; [rewrite Hnth; reflexivity |]. intro v. split.
    + intro Hv. split; [| apply Hreach; right; exact Hv].
      intros ->. inversion ND; contradiction.
    + intros [Hne (p & Hw & Hhd & Hlast)].
      assert (Hin : In v (s :: reach)).
      { rewrite <- Hlast.
        apply (@walk_stays_inside succs (s :: reach) Hclosed p s Hw Hhd
                 (or_introl eq_refl)).
        apply last_In. destruct p; [discriminate | discriminate]. }
      destruct Hin as [E | Hin]; [congruence | exact Hin].
  - assert (Huq : In u (s :: reach)) by (rewrite Eq; in_list; auto).
    destruct (@closureScan_spec u (succs u) (incl_refl _) (Hreach u Huq)
                (Hq u Huq) reach ND Hq Hreach)
      as (new & E & ND' & Hq' & Hr' & Hall).
    pose proof (NoDup_incl_length ND Hq) as Hlen.
    assert (Hlp : length P < length (s :: reach)).
    { rewrite Eq, length_app. simpl. lia. }
    destruct (IH (reach ++ new) (P ++ [u]) (W0 ++ new)) as (r & Er & Hr);
      auto.
    + change (s :: reach ++ new) with ((s :: reach) ++ new).
      rewrite Eq, <- !app_assoc. reflexivity.
    + intros x y Hx Hy. apply in_app_iff in Hx.
      destruct Hx as [Hx | [<- | []]].
      * change (In y ((s :: reach) ++ new)). apply in_app_iff. left.
        exact (Hclosed x y Hx Hy).
      * exact (Hall y Hy).
    + rewrite length_app. simpl. lia.
    + rewrite length_app in Er. cbn [length] in Er.
      rewrite Nat.add_1_r in Er. exists r. split; [| exact Hr].
      rewrite Hnth, E. exact Er.
Qed.
End Closure.

Section ClosureMap.
Variable succs : NodeId -> list NodeId.
Variable U : list NodeId.
Hypothesis U_closed : forall u, In u U -> incl (succs u) U.
Variable fuel : nat.
Hypothesis fuel_enough : length U < fuel.

Local Abbreviation right_set s r :=
  (forall v, In v r <-> v <> s /\ exists p, walkFromTo succs s v p).

Lemma closure_fold (nodes : list NodeId) :
  incl nodes U ->
  forall m : JsMap NodeId (JsSet NodeId),
    (forall s r, JsMap.get s m = Some r -> right_set s r) ->
    exists m',
      forEachM (fun closure s =>
        match closureLoop succs fuel ([s], JsSet.empty, [s]) 0 with
        | None => None
        | Some reach => Some (JsMap.set s reach closure)
        end) nodes m = Some m' /\
      (forall s, JsMap.has s m' = true <-> In s nodes \/ JsMap.has s m = true) /\
      (forall s r, JsMap.get s m' = Some r -> right_set s r).
Proof.
  induction nodes as [| s nodes IH]; intros Hn m Hm; cbn [forEachM].
  - exists m. split; [reflexivity |]. split; [| exact Hm].
    intro s. cbn [In]. tauto.
  - assert (Hs : In s U) by (apply Hn; left; reflexivity).
    destruct (@closureLoop_spec succs U U_closed s fuel [] [] [s] eq_refl)
      as (r & Er & Hr).
    + repeat constructor. simpl. tauto.
    + intros x [<- | []]. exact Hs.
    + intros x [<- | []]. exists [s]. repeat split.
    + intros x y [].
    + simpl. lia.
    + cbn [length] in Er.
      destruct (IH (fun x Hx => Hn x (or_intror Hx)) (JsMap.set s r m))
        as (m' & E & Hkeys & Hvals).
      * intros s' r'. rewrite JsMap_get_set. key_cases s' s.
        -- intro E0. injection E0 as <-. exact Hr.
        -- apply Hm.
      * exists m'. split; [| split; [| exact Hvals]].
        { change (closureLoop succs fuel ([s], JsSet.empty, [s]) 0)
            with (closureLoop succs fuel ([s], [], [s]) 0).
          match goal with
          | |- context [closureLoop ?a ?b ?c ?d] =>
              replace (closureLoop a b c d) with (Some r)
                by (symmetry; exact Er)
          end.
          exact E. }
        intro x. rewrite Hkeys, JsMap_has_set. cbn [In].
        key_cases x s; cbn [orb]; [tauto |].
        split; [tauto |]. intros [[Es | H0] | H0]; [congruence | tauto | tauto].
Qed.
End ClosureMap.

(** X17. On a finite set of nodes closed under successors
    [transitiveClosure(nodes)] returns a map whose keys are exactly the
    given nodes; the set stored for a node [s] holds exactly the nodes
    other than [s] that a walk from [s] reaches, so [s] itself is never a
    member, even when it lies on a cycle. *)
Theorem transitiveClosure_is_reachability
    (succs : NodeId -> list NodeId) (U : list NodeId) (fuel : nat)
    (nodes : list NodeId) :
  (forall u, In u U -> incl (succs u) U) -> incl nodes U -> length U < fuel ->
  exists closure,
    transitiveClosure succs fuel nodes = Some closure /\
    (forall s, JsMap.has s closure = true <-> In s nodes) /\
    (forall s reach, JsMap.get s closure = Some reach ->
       forall v, In v reach <->
                 v <> s /\ exists p, walkFromTo succs s v p).
Proof.
  intros Hclosed Hn Hf. unfold transitiveClosure.
  destruct (@closure_fold succs U Hclosed fuel Hf nodes Hn JsMap.empty)
    as (m' & E & Hkeys & Hvals).
  - intros s r E0. discriminate E0.
  - exists m'. split; [exact E |]. split; [| exact Hvals].
    intro s. rewrite Hkeys. split; [intros [H | H]; [exact H | discriminate] | auto].
Qed.

Lemma transitiveClosure_is_reachability_witness :
  exists closure,
    transitiveClosure diamond 5 ["A"%string; "B"%string] = Some closure /\
    (forall s, JsMap.has s closure = true <-> In s ["A"%string; "B"%string]) /\
    (forall s reach, JsMap.get s closure = Some reach ->
       forall v, In v reach <->
                 v <> s /\ exists p, walkFromTo diamond s v p).
Proof.
  refine (@transitiveClosure_is_reachability diamond
            ["A"%string; "B"%string; "C"%string; "D"%string] 5
            ["A"%string; "B"%string] _ _ _).
  - intros u [<- | [<- | [<- | [<- | []]]]]; vm_compute; tauto.
  - intros x [<- | [<- | []]]; simpl; auto.
  - simpl. lia.
Defined.

(** ** [isBipartite]: a positive answer comes with a proper partition *)

Section NeighbourMap.
Variable succs : NodeId -> list NodeId.

(** [m'] has the keys of [m] and larger buckets. *)
Local Abbreviation grows m m' :=
  ((forall x, JsMap.has x m' = JsMap.has x m) /\
   (forall x (b : JsSet NodeId), JsMap.get x m = Some b ->
      exists b', JsMap.get x m' = Some b' /\ incl b b')).

Lemma addNeighbor_grows (k x : NodeId) (m : JsMap NodeId (JsSet NodeId)) :
  grows m (addNeighbor k x m) /\
  (JsMap.has k m = true ->
   exists b, JsMap.get k (addNeighbor k x m) = Some b /\ In x b).
Proof.
  unfold addNeighbor. destruct (JsMap.get k m) as [b |] eqn:Ek.
  - split; [split |].
    + intro y. rewrite JsMap_has_set. key_cases y k; [| reflexivity].
      unfold JsMap.has. rewrite Ek. reflexivity.
    + intros y c Ey. rewrite JsMap_get_set. key_cases y k.
      * exists (JsSet.add x b). split; [reflexivity |].
        assert (c = b) by congruence. subst c.
        intros z Hz. apply JsSet_In_add. auto.
      * exists c. split; [exact Ey | apply incl_refl].
    + intros _. exists (JsSet.add x b). rewrite JsMap_get_set_same.
      split; [reflexivity | apply JsSet_In_add; auto].
  - split; [split |].
    + reflexivity.
    + intros y c Ey. exists c. split; [exact Ey | apply incl_refl].
    + unfold JsMap.has. rewrite Ek. discriminate.
Qed.

Lemma grows_trans (a b c : JsMap NodeId (JsSet NodeId)) :
  grows a b -> grows b c -> grows a c.
Proof.
  intros [K1 B1] [K2 B2]. split.
  - intro x. rewrite K2. apply K1.
  - intros x s Es. destruct (B1 x s Es) as (s1 & E1 & I1).
    destruct (B2 x s1 E1) as (s2 & E2 & I2).
    exists s2. split; [exact E2 |]. intros z Hz. apply I2, I1. exact Hz.
Qed.

Lemma neighborScan_grows (u : NodeId) (vs : list NodeId) :
  forall m m',
    neighborScan u vs m = inr m' ->
    grows m m' /\
    (JsMap.has u m = true ->
     forall v, In v vs -> exists b, JsMap.get u m' = Some b /\ In v b).
Proof.
  induction vs as [| v vs IH]; intros m m' E; cbn [neighborScan] in E.
  - injection E as <-. split; [split; [reflexivity |] |].
    + intros x b Eb. exists b. split; [exact Eb | apply incl_refl].
    + intros _ v [].
  - cbv zeta in E. destruct (keqb u v); [discriminate |].
    destruct (addNeighbor_grows u v m) as [G1 H1].
    destruct (addNeighbor_grows v u (addNeighbor u v m)) as [G2 _].
    destruct (IH _ _ E) as [G3 H3].
    pose proof (@grows_trans _ _ _ G1 G2) as G12.
    split; [exact (@grows_trans _ _ _ G12 G3) |].
    intros Hu w [<- | Hw].
    + destruct (H1 Hu) as (b & Eb & Hin).
      destruct ((proj2 G2) u b Eb) as (b2 & Eb2 & I2).
      destruct ((proj2 G3) u b2 Eb2) as (b3 & Eb3 & I3).
      exists b3. split; [exact Eb3 |]. apply I3, I2. exact Hin.
    + apply H3; [| exact Hw]. rewrite (proj1 G12). exact Hu.
Qed.

Lemma buildNeighbors_grows (nodes : list NodeId) :
  forall m m',
    buildNeighbors succs nodes m = inr m' ->
    grows m m' /\
    (forall u, In u nodes -> JsMap.has u m = true ->
     forall v, In v (succs u) -> exists b, JsMap.get u m' = Some b /\ In v b).
Proof.
  induction nodes as [| u nodes IH]; intros m m' E; cbn [buildNeighbors] in E.
  - injection E as <-. split; [split; [reflexivity |] |].
    + intros x b Eb. exists b. split; [exact Eb | apply incl_refl].
    + intros u [].
  - destruct (neighborScan u (succs u) m) as [| m1] eqn:E1; [discriminate |].
    destruct (neighborScan_grows _ _ _ E1) as [G1 H1].
    destruct (IH _ _ E) as [G2 H2].
    split; [exact (@grows_trans _ _ _ G1 G2) |].
    intros w [<- | Hw] Hh v Hv.
    + destruct (H1 Hh v Hv) as (b & Eb & Hin).
      destruct ((proj2 G2) u b Eb) as (b2 & Eb2 & I2).
      exists b2. split; [exact Eb2 | apply I2; exact Hin].
    + apply (H2 w Hw); [| exact Hv]. rewrite (proj1 G1). exact Hh.
Qed.
End NeighbourMap.

Section Colouring.
Variable nb : JsMap NodeId (JsSet NodeId).

(** Colours are 0 or 1 and the two sets list the nodes of each colour. *)
Local Abbreviation sorted2 st :=
  ((forall x c, JsMap.get x (color st) = Some c -> c <= 1) /\
   (forall x, In x (setA st) <-> JsMap.get x (color st) = Some 0) /\
   (forall x, In x (setB st) <-> JsMap.get x (color st) = Some 1)).
(** Every neighbour of a node of [D] has the other colour. *)
Local Abbreviation proper st D :=
  (forall x, In x D ->
     exists b cx, JsMap.get x nb = Some b /\
                  JsMap.get x (color st) = Some cx /\
                  forall y, In y b -> JsMap.get y (color st) = Some (1 - cx)).
Local Abbreviation keeps st st' :=
  (forall x c, JsMap.get x (color st) = Some c ->
               JsMap.get x (color st') = Some c).
Local Abbreviation painted st x := (JsMap.has x (color st) = true).

Lemma colorScan_spec (cu : nat) (vs : list NodeId) :
  cu <= 1 ->
  forall st st',
    sorted2 st -> colorScan cu vs st = inr st' ->
    sorted2 st' /\ keeps st st' /\
    (exists new, bq st' = bq st ++ new /\
       (forall x, painted st' x -> painted st x \/ In x new) /\
       (forall x, In x new -> painted st' x)) /\
    (forall y, In y vs -> JsMap.get y (color st') = Some (1 - cu)).
Proof.
  intro Hcu. induction vs as [| v vs IH]; intros st st' T E;
    cbn [colorScan] in E.
  - injection E as <-. split; [exact T |]. split; [auto |]. split.
    + exists []. rewrite app_nil_r. split; [reflexivity |].
      split; [auto | intros x []].
    + intros y [].
  - destruct T as (T1 & TA & TB).
    destruct (JsMap.get v (color st)) as [c |] eqn:Ev.
    + destruct (Nat.eqb_spec c cu) as [Ec | Nc]; [discriminate |].
      destruct (IH st st' (conj T1 (conj TA TB)) E) as (T' & K & Hnew & Hall).
      split; [exact T' |]. split; [exact K |]. split; [exact Hnew |].
      intros y [<- | Hy]; [| exact (Hall y Hy)].
      apply K. rewrite Ev. f_equal. pose proof (T1 v c Ev). lia.
    + cbv zeta in E.
      match type of E with
      | colorScan _ _ ?s = _ => set (st1 := s) in E
      end.
      assert (Hget : forall x, JsMap.get x (color st1)
                       = if keqb x v then Some (1 - cu)
                         else JsMap.get x (color st)).
      { intro x. unfold st1. cbn [color]. apply JsMap_get_set. }
      assert (T1' : sorted2 st1).
      { split; [| split].
        - intros x c. rewrite Hget. key_cases x v.
          + intro E0. assert (Hc : c = 1 - cu) by congruence. lia.
          + apply T1.
        - intro x. rewrite Hget. unfold st1. cbn [setA].
          destruct (Nat.eqb_spec (1 - cu) 0) as [E0 | N0].
          + rewrite JsSet_In_add, TA. key_cases x v.
            * rewrite E0. tauto.
            * split; [intros [H | H]; [congruence | exact H] | auto].
          + rewrite TA. key_cases x v; [| reflexivity].
            rewrite Ev. split; [discriminate |]. intro H. congruence.
        - intro x. rewrite Hget. unfold st1. cbn [setB].
          destruct (Nat.eqb_spec (1 - cu) 0) as [E0 | N0].
          + rewrite TB. key_cases x v; [| reflexivity].
            rewrite Ev, E0. split; discriminate.
          + rewrite JsSet_In_add, TB. key_cases x v.
            * replace (1 - cu) with 1 by lia. tauto.
            * split; [intros [H | H]; [congruence | exact H] | auto]. }
      assert (K1 : keeps st st1).
      { intros x c Ex. rewrite Hget. key_cases x v; [congruence | exact Ex]. }
      destruct (IH st1 st' T1' E) as (T' & K & (new & Eq & Hp & Hn) & Hall).
      split; [exact T' |]. split; [auto |]. split.
      * exists (v :: new). unfold st1 in Eq. cbn [bq] in Eq.
        rewrite <- app_assoc in Eq. split; [exact Eq |]. split.
        -- intros x Hx. destruct (Hp x Hx) as [H | H]; [| right; right; exact H].
           unfold JsMap.has in H. rewrite Hget in H.
           key_cases x v; [right; left; reflexivity |].
           left. exact H.
        -- intros x [<- | Hx]; [| exact (Hn x Hx)].
           apply get_some_has with (y := 1 - cu). apply K.
           rewrite Hget, keqb_refl. reflexivity.
      * intros y [<- | Hy]; [| exact (Hall y Hy)].
        apply K. rewrite Hget, keqb_refl. reflexivity.
Qed.

Lemma colorLoop_spec (fuel : nat) :
  forall st P W D st',
    bq st = P ++ W -> sorted2 st -> proper st D ->
    (forall x, painted st x -> In x D \/ In x W) ->
    (forall x, In x W -> painted st x) ->
    colorLoop fuel nb st (length P) = Some (inr st') ->
    exists D',
      sorted2 st' /\ proper st' D' /\ keeps st st' /\
      (forall x, painted st' x -> In x D').
Proof.
  induction fuel as [| fuel IH]; intros st P W D st' Eq T Hprop Hpend Hw E;
    cbn [colorLoop] in E; [discriminate |].
  rewrite Eq, nth_error_at_length in E.
  destruct W as [| u W0]; cbn [hd_error] in E.
  - injection E as <-. exists D. split; [exact T |]. split; [exact Hprop |].
    split; [auto |]. intros x Hx. destruct (Hpend x Hx) as [H | []]. exact H.
  - destruct (JsMap.get u nb) as [vs |] eqn:Enb; [| discriminate].
    destruct (has_get_some _ _ (Hw u (or_introl eq_refl))) as (cu & Ecu).
    rewrite Ecu in E. cbn [nullish] in E.
    assert (Hcu : cu <= 1) by exact ((proj1 T) u cu Ecu).
    destruct (colorScan cu vs st) as [| st1] eqn:Escan; [discriminate |].
    destruct (@colorScan_spec cu vs Hcu st st1 T Escan)
      as (T1 & K1 & (new & Eq1 & Hp1 & Hn1) & Hall1).
    destruct (IH st1 (P ++ [u]) (W0 ++ new) (u :: D) st') as (D' & T' & Hprop' & K' & Hall').
    + rewrite Eq1, Eq, <- !app_assoc. reflexivity.
    + exact T1.
    + intros x [<- | Hx].
      * exists vs, cu. split; [exact Enb |]. split; [exact (K1 _ _ Ecu) |].
        exact Hall1.
      * destruct (Hprop x Hx) as (b & cx & Eb & Ex & Hb).
        exists b, cx. split; [exact Eb |]. split; [exact (K1 _ _ Ex) |].
        intros y Hy. exact (K1 _ _ (Hb y Hy)).
    + intros x Hx. destruct (Hp1 x Hx) as [H | H].
      * destruct (Hpend x H) as [H1 | [<- | H1]];
          [left; right; exact H1 | left; left; reflexivity |].
        right. apply in_app_iff. left. exact H1.
      * right. apply in_app_iff. right. exact H.
    + intros x Hx. apply in_app_iff in Hx. destruct Hx as [Hx | Hx].
      * destruct (has_get_some _ _ (Hw x (or_intror Hx))) as (c & Ec).
        apply get_some_has with (y := c). exact (K1 _ _ Ec).
      * exact (Hn1 x Hx).
    + rewrite length_app. cbn [length]. rewrite Nat.add_1_r. exact E.
    + exists D'. split; [exact T' |]. split; [exact Hprop' |].
      split; [| exact Hall']. intros x c Ex. exact (K' _ _ (K1 _ _ Ex)).
Qed.

Lemma colorAll_spec (fuel : nat) (nodes : list NodeId) :
  forall st D st',
    sorted2 st -> proper st D -> (forall x, painted st x -> In x D) ->
    colorAll fuel nb nodes st = Some (inr st') ->
    exists D',
      sorted2 st' /\ proper st' D' /\ (forall x, painted st' x -> In x D') /\
      keeps st st' /\ (forall x, In x nodes -> painted st' x).
Proof.
  induction nodes as [| s nodes IH]; intros st D st' T Hprop Hall E;
    cbn [colorAll] in E.
  - injection E as <-. exists D. repeat split; auto; try apply T;
      try (intros x []).
  - destruct (JsMap.has s (color st)) eqn:Hs.
    + destruct (IH st D st' T Hprop Hall E) as (D' & T' & P' & A' & K' & N').
      exists D'. split; [exact T' |]. split; [exact P' |]. split; [exact A' |].
      split; [exact K' |]. intros x [<- | Hx]; [| exact (N' x Hx)].
      destruct (has_get_some _ _ Hs) as (c & Ec).
      apply get_some_has with (y := c). exact (K' _ _ Ec).
    + match type of E with
      | match colorLoop _ _ ?s0 _ with _ => _ end = _ => set (st0 := s0) in E
      end.
      destruct (colorLoop fuel nb st0 0) as [[r | st1] |] eqn:Eloop;
        [discriminate | | discriminate].
      destruct T as (T1 & TA & TB).
      apply JsMap_has_false in Hs.
      assert (Hget : forall x, JsMap.get x (color st0)
                       = if keqb x s then Some 0 else JsMap.get x (color st)).
      { intro x. unfold st0. cbn [color]. apply JsMap_get_set. }
      assert (K0 : keeps st st0).
      { intros x c Ex. rewrite Hget. key_cases x s; [congruence | exact Ex]. }
      destruct (@colorLoop_spec fuel st0 [] [s] D st1) as (D1 & T1' & P1 & K1 & A1).
      * reflexivity.
      * split; [| split].
        -- intros x c. rewrite Hget. key_cases x s.
           ++ intro E0. assert (Hc : c = 0) by congruence. lia.
           ++ apply T1.
        -- intro x. rewrite Hget. unfold st0. cbn [setA].
           rewrite JsSet_In_add, TA. key_cases x s; [tauto |].
           split; [intros [H | H]; [congruence | exact H] | auto].
        -- intro x. rewrite Hget. unfold st0. cbn [setB]. rewrite TB.
           key_cases x s; [| reflexivity].
           rewrite Hs. split; discriminate.
      * intros x Hx. destruct (Hprop x Hx) as (b & cx & Eb & Ex & Hb).
        exists b, cx. split; [exact Eb |]. split; [exact (K0 _ _ Ex) |].
        intros y Hy. exact (K0 _ _ (Hb y Hy)).
      * intros x Hx. unfold JsMap.has in Hx. rewrite Hget in Hx.
        key_cases x s; [right; left; reflexivity |].
        left. apply Hall. exact Hx.
      * intros x [<- | []]. unfold JsMap.has. rewrite Hget, keqb_refl.
        reflexivity.
      * exact Eloop.
      * destruct (IH st1 D1 st' T1' P1 A1 E) as (D' & T' & P' & A' & K' & N').
        exists D'. split; [exact T' |]. split; [exact P' |].
        split; [exact A' |]. split.
        -- intros x c Ex. exact (K' _ _ (K1 _ _ (K0 _ _ Ex))).
        -- intros x [<- | Hx]; [| exact (N' x Hx)].
           apply get_some_has with (y := 0). apply K', K1.
           rewrite Hget, keqb_refl. reflexivity.
Qed.
End Colouring.

(** X18. When [isBipartite(nodes)] answers true it returns a partition
    [(A, B)] that is proper: [A] and [B] are disjoint, together they hold
    exactly the given nodes, and every edge that leaves a given node joins
    a node of [A] and a node of [B]. *)
Theorem isBipartite_partition_is_proper
    (succs : NodeId -> list NodeId) (fuel : nat) (nodes : list NodeId)
    (r : Bipartite) :
  isBipartite succs fuel nodes = Some (inr r) ->
  bip_isBipartite r = true ->
  exists A B,
    bip_partition r = Some (A, B) /\
    (forall x, In x A \/ In x B <-> In x nodes) /\
    (forall x, ~ (In x A /\ In x B)) /\
    (forall u v, In u nodes -> In v (succs u) ->
       (In u A /\ In v B) \/ (In u B /\ In v A)).
Proof.
  unfold isBipartite. cbv zeta.
  set (nb0 := fold_left (fun m u => JsMap.set u JsSet.empty m) nodes JsMap.empty).
  assert (Hnb0 : forall x, JsMap.has x nb0 = true <-> In x nodes).
  { intro x. unfold JsMap.has, nb0.
    rewrite (JsMap_build_get (fun _ : NodeId => @JsSet.empty NodeId)).
    rewrite <- (mem_In x nodes).
    destruct (existsb (keqb x) nodes); cbn; split; congruence. }
  destruct (buildNeighbors succs nodes nb0) as [| nb] eqn:Enb.
  { intros E Ht. injection E as <-. discriminate Ht. }
  destruct (buildNeighbors_grows _ _ _ Enb) as [[Gk Gb] Hedge].
  match goal with
  | |- match colorAll _ _ _ ?s0 with _ => _ end = _ -> _ => set (st0 := s0)
  end.
  destruct (colorAll fuel nb nodes st0) as [[[| e] | st] |] eqn:Ecol;
    intros E Ht; try discriminate; injection E as <-; try discriminate Ht.
  destruct (@colorAll_spec nb fuel nodes st0 [] st)
    as (D & (T1 & TA & TB) & Hprop & Hall & _ & Hnodes).
  { split; [| split].
    - intros x c Ex. discriminate Ex.
    - intro x. split; [intros [] | discriminate].
    - intro x. split; [intros [] | discriminate]. }
  { intros x []. }
  { intros x Hx. discriminate Hx. }
  { exact Ecol. }
  exists (setA st), (setB st). split; [reflexivity |].
  split; [| split].
  - intro x. rewrite TA, TB. split.
    + intro Hc. apply Hnb0. rewrite <- Gk.
      assert (Hp : JsMap.has x (color st) = true).
      { unfold JsMap.has. destruct Hc as [-> | ->]; reflexivity. }
      destruct (Hprop x (Hall x Hp)) as (b & _ & Eb & _).
      unfold JsMap.has. rewrite Eb. reflexivity.
    + intro Hx. destruct (has_get_some _ _ (Hnodes x Hx)) as (c & Ec).
      pose proof (T1 x c Ec) as Hc. rewrite Ec.
      destruct c as [| [| c]]; [auto | auto | lia].
  - intros x [Ha Hb]. apply TA in Ha. apply TB in Hb. congruence.
  - intros u v Hu Hv.
    destruct (Hedge u Hu (proj2 (Hnb0 u) Hu) v Hv) as (b & Eb & Hin).
    destruct (Hprop u (Hall u (Hnodes u Hu))) as (b' & cu & Eb' & Ecu & Hb').
    assert (b' = b) by congruence. subst b'.
    pose proof (Hb' v Hin) as Ecv. pose proof (T1 u cu Ecu) as Hcu.
    rewrite !TA, !TB.
    destruct cu as [| [| cu]]; [left | right | lia]; auto.
Qed.

Lemma isBipartite_partition_is_proper_witness :
  exists A B,
    Some (["A"%string; "D"%string], ["B"%string; "C"%string]) = Some (A, B) /\
    (forall x, In x A \/ In x B <->
               In x ["A"%string; "B"%string; "C"%string; "D"%string]) /\
    (forall x, ~ (In x A /\ In x B)) /\
    (forall u v, In u ["A"%string; "B"%string; "C"%string; "D"%string] ->
       In v (diamond u) -> (In u A /\ In v B) \/ (In u B /\ In v A)).
Proof.
  refine (@isBipartite_partition_is_proper diamond 10
            ["A"%string; "B"%string; "C"%string; "D"%string]
            {| bip_isBipartite := true;
               bip_partition :=
                 Some (["A"%string; "D"%string], ["B"%string; "C"%string]) |}
            _ _).
  - vm_compute. reflexivity.
  - reflexivity.
Defined.

(** ** [longestPathDAG] *)

Section OrderValidation.
Variable succs : NodeId -> list NodeId.

Lemma forEachE_unit_all {E A : Type} (f : unit -> A -> E + unit) (l : list A) :
  forEachE f l tt = inr tt -> forall x, In x l -> f tt x = inr tt.
Proof.
  induction l as [| a l IH]; cbn [forEachE]; intros E0 x Hx; [destruct Hx |].
  destruct (f tt a) as [e | []] eqn:Ea; [discriminate |].
  destruct Hx as [<- | Hx]; [exact Ea | exact (IH E0 x Hx)].
Qed.

(** What the edge check of [longestPathDAG] establishes. *)
Lemma checkEdges_forward (pos : JsMap NodeId nat) (nodes : list NodeId)
    (t : unit) :
  checkEdges succs pos nodes = inr t ->
  forall u v, In u nodes -> In v (succs u) ->
    exists pu pv, JsMap.get u pos = Some pu /\ JsMap.get v pos = Some pv /\
                  pu < pv.
Proof.
  destruct t. unfold checkEdges. intros E u v Hu Hv.
  pose proof (forEachE_unit_all _ _ E u Hu) as Eu. cbv beta in Eu.
  pose proof (forEachE_unit_all _ _ Eu v Hv) as Ev.
  unfold checkEdge in Ev.
  destruct (JsMap.get u pos) as [pu |]; [| discriminate].
  destruct (JsMap.get v pos) as [pv |]; [| discriminate].
  destruct (Nat.leb_spec pv pu); [discriminate |].
  exists pu, pv. auto.
Qed.

(** Positions grow along a walk that stays among the checked nodes. *)
Lemma walk_positions_grow (pos : JsMap NodeId nat) (nodes : list NodeId) :
  (forall u v, In u nodes -> In v (succs u) ->
     exists pu pv, JsMap.get u pos = Some pu /\ JsMap.get v pos = Some pv /\
                   pu < pv) ->
  forall p x,
    isWalk succs (x :: p) -> (forall y, In y (x :: p) -> In y nodes) ->
    p <> [] ->
    (JsMap.get x pos ?? 0) < (JsMap.get (last (x :: p) x) pos ?? 0).
Proof.
  intros Hfw. induction p as [| y p IH]; intros x Hw Hin Hne; [congruence |].
  destruct Hw as [Hxy Hw].
  destruct (Hfw x y (Hin x (or_introl eq_refl)) Hxy)
    as (px & py & Ex & Ey & Hlt).
  rewrite Ex. cbn [nullish].
  destruct p as [| z p].
  - cbn [last]. rewrite Ey. exact Hlt.
  - assert (IH' := IH y Hw (fun w Hw' => Hin w (or_intror Hw'))
                      ltac:(discriminate)).
    rewrite Ey in IH'. cbn [nullish] in IH'.
    change (last (x :: y :: z :: p) x) with (last (y :: z :: p) x).
    rewrite (last_default y x y). lia.
Qed.
End OrderValidation.

(** X19. [longestPathDAG] never returns a path for a cyclic input: when
    some walk with at least one edge through the given nodes returns to
    its start, the call throws, whatever order is supplied. *)
Theorem longestPathDAG_rejects_cycles
    (succs : NodeId -> list NodeId) (fuel : nat) (nodes : list NodeId)
    (order : list (option NodeId)) (x : NodeId) (p : list NodeId) :
  isWalk succs (x :: p) -> p <> [] -> last (x :: p) x = x ->
  (forall y, In y (x :: p) -> In y nodes) ->
  exists e, longestPathDAG succs fuel nodes order = Some (inl e).
Proof.
  intros Hw Hne Hlast Hin. unfold longestPathDAG.
  destruct (orderPositions order 0 JsMap.empty) as [e | pos]; [eauto |].
  destruct (negb (JsMap.size pos =? length nodes)); [eauto |].
  destruct (checkEdges succs pos nodes) as [e | t] eqn:Ec; [eauto |].
  exfalso.
  pose proof (@walk_positions_grow succs pos nodes
                (@checkEdges_forward succs pos nodes t Ec) p x Hw Hin Hne) as Hlt.
  rewrite Hlast in Hlt. lia.
Qed.

Lemma longestPathDAG_rejects_cycles_witness :
  exists e,
    longestPathDAG (fun _ => ["A"%string]) 3 ["A"%string] [Some "A"%string]
      = Some (inl e).
Proof.
  refine (@longestPathDAG_rejects_cycles (fun _ => ["A"%string]) 3
            ["A"%string] [Some "A"%string] "A"%string ["A"%string] _ _ _ _).
  - simpl. auto.
  - discriminate.
  - reflexivity.
  - intros y [<- | [<- | []]]; simpl; auto.
Defined.

Section ValidOrder.
Variable succs : NodeId -> list NodeId.

Lemma JsMap_size_set_fresh {V : Type} (k : NodeId) (v : V) (m : JsMap NodeId V) :
  JsMap.get k m = None -> JsMap.size (JsMap.set k v m) = S (JsMap.size m).
Proof.
  unfold JsMap.size. induction m as [| [k' v'] m IH]; cbn [JsMap.get JsMap.set];
    [reflexivity |].
  destruct (keqb k k'); [discriminate |]. intro E. cbn [length].
  rewrite (IH E). reflexivity.
Qed.

(** The position map of an order without undefined or repeated entries. *)
Lemma orderPositions_defined (l : list NodeId) :
  forall i pos0,
    NoDup l -> (forall x, In x l -> JsMap.get x pos0 = None) ->
    exists pos,
      orderPositions (map Some l) i pos0 = inr pos /\
      JsMap.size pos = JsMap.size pos0 + length l /\
      (forall x, In x l -> JsMap.get x pos = Some (i + posIn x l)) /\
      (forall x, ~ In x l -> JsMap.get x pos = JsMap.get x pos0).
Proof.
  induction l as [| a l IH]; intros i pos0 ND Hfresh;
    cbn [map orderPositions].
  - exists pos0. split; [reflexivity |]. split; [simpl; lia |].
    split; [intros x [] | reflexivity].
  - apply NoDup_cons_iff in ND. destruct ND as [Ha ND].
    destruct (IH (S i) (JsMap.set a i pos0) ND) as (pos & E & Hs & Hin & Hout).
    { intros x Hx. rewrite JsMap_get_set_other.
      - apply Hfresh. right. exact Hx.
      - intros ->. exact (Ha Hx). }
    exists pos. split; [exact E |]. split; [| split].
    + rewrite Hs, JsMap_size_set_fresh; [simpl; lia |].
      apply Hfresh. left. reflexivity.
    + intros x [<- | Hx].
      * rewrite (Hout a Ha), JsMap_get_set_same. cbn [posIn].
        rewrite keqb_refl. f_equal. lia.
      * rewrite (Hin x Hx). cbn [posIn].
        destruct (keqb_spec x a) as [-> | N]; [contradiction |].
        f_equal. lia.
    + intros x Hx. rewrite Hout.
      * apply JsMap_get_set_other. intros ->. apply Hx. left. reflexivity.
      * intro H. apply Hx. right. exact H.
Qed.

Lemma forEachE_unit_ok {E A : Type} (f : unit -> A -> E + unit) (l : list A) :
  (forall x, In x l -> f tt x = inr tt) -> forEachE f l tt = inr tt.
Proof.
  induction l as [| a l IH]; intro Hf; cbn [forEachE]; [reflexivity |].
  rewrite (Hf a (or_introl eq_refl)). apply IH.
  intros x Hx. apply Hf. right. exact Hx.
Qed.

Lemma checkEdges_ok (pos : JsMap NodeId nat) (nodes : list NodeId) :
  (forall u v, In u nodes -> In v (succs u) ->
     exists pu pv, JsMap.get u pos = Some pu /\ JsMap.get v pos = Some pv /\
                   pu < pv) ->
  checkEdges succs pos nodes = inr tt.
Proof.
  intro Hfw. unfold checkEdges. apply forEachE_unit_ok. intros u Hu.
  apply forEachE_unit_ok. intros v Hv. unfold checkEdge.
  destruct (Hfw u v Hu Hv) as (pu & pv & -> & -> & Hlt).
  destruct (Nat.leb_spec pv pu); [lia | reflexivity].
Qed.

Lemma definedEntries_map_Some (l : list NodeId) :
  definedEntries (map Some l) = l.
Proof.
  unfold definedEntries. induction l as [| a l IH]; cbn [map flat_map app];
    [reflexivity | rewrite IH; reflexivity].
Qed.
End ValidOrder.

Section WalkShape.
Variable succs : NodeId -> list NodeId.

Lemma isWalk_snoc_inv (q : list NodeId) (y v : NodeId) :
  isWalk succs (q ++ [y; v]) -> isWalk succs (q ++ [y]) /\ In v (succs y).
Proof.
  induction q as [| a q IH]; cbn [app].
  - simpl. tauto.
  - intro Hw. destruct q as [| b q].
    + cbn [app] in *. destruct Hw as [Hab Hw]. destruct (IH Hw) as [_ Hv].
      split; [simpl; tauto | exact Hv].
    + cbn [app] in *. destruct Hw as [Hab Hw]. destruct (IH Hw) as [Hw' Hv].
      split; [split; assumption | exact Hv].
Qed.
End WalkShape.

Section LongestPath.
Variable succs : NodeId -> list NodeId.
Variable ord : list NodeId.
Hypothesis ord_nodup : NoDup ord.
Hypothesis forward : forall u v,
  In u ord -> In v (succs u) -> In v ord /\ posIn u ord < posIn v ord.

Local Abbreviation rank x := (posIn x ord).
Local Abbreviation State :=
  (JsMap NodeId nat * JsMap NodeId (option NodeId))%type.

(** Along a walk through the order the rank grows. *)
Lemma walk_last_rank (q : list NodeId) (y : NodeId) :
  isWalk succs (q ++ [y]) -> (forall x, In x q -> In x ord) ->
  forall x, In x q -> rank x < rank y.
Proof.
  induction q as [| a q IH]; intros Hw Hin x Hx; [destruct Hx |].
  destruct q as [| b q].
  - destruct Hx as [<- | []]. cbn [app] in Hw. destruct Hw as [Hay _].
    exact (proj2 (forward a y (Hin a (or_introl eq_refl)) Hay)).
  - cbn [app] in Hw. destruct Hw as [Hab Hw].
    assert (Hb : rank b < rank y \/ b = y).
    { left. apply (IH Hw (fun z Hz => Hin z (or_intror Hz)) b).
      left. reflexivity. }
    destruct Hx as [<- | Hx].
    + pose proof (proj2 (forward a b (Hin a (or_introl eq_refl)) Hab)).
      destruct Hb as [Hb | ->]; lia.
    + exact (IH Hw (fun z Hz => Hin z (or_intror Hz)) x Hx).
Qed.

Lemma rank_prefix (Pfx Rest : list NodeId) (u x : NodeId) :
  ord = Pfx ++ u :: Rest ->
  rank u = length Pfx /\ (In x Pfx -> rank x < length Pfx) /\
  ~ In u Pfx.
Proof.
  intro Eo. pose proof ord_nodup as ND. rewrite Eo in ND |- *.
  assert (Hu : ~ In u Pfx).
  { intro H. apply NoDup_remove_2 in ND. apply ND. apply in_app_iff. auto. }
  split; [| split; [| exact Hu]].
  - rewrite posIn_app_fresh; [| exact Hu]. cbn [posIn]. rewrite keqb_refl. lia.
  - clear Hu ND Eo. induction Pfx as [| a Pfx IH]; intro Hx; [destruct Hx |].
    cbn [posIn app length]. destruct Hx as [<- | Hx].
    + rewrite keqb_refl. lia.
    + destruct (keqb x a); [lia |]. specialize (IH Hx). lia.
Qed.

(** What the [for] loop over the successors of [u] does to the tables. *)
Lemma relax_fold (u : NodeId) (du : nat) (vs : list NodeId) :
  forall st : State,
    let st' := fold_left (relax u du) vs st in
    (forall x, ~ In x vs ->
       JsMap.get x (fst st') = JsMap.get x (fst st) /\
       JsMap.get x (snd st') = JsMap.get x (snd st)) /\
    (forall x d, JsMap.get x (fst st) = Some d ->
       exists d', JsMap.get x (fst st') = Some d' /\ d <= d') /\
    (forall v, In v vs ->
       exists d', JsMap.get v (fst st') = Some d' /\ du + 1 <= d') /\
    (forall x,
       (JsMap.get x (fst st') = JsMap.get x (fst st) /\
        JsMap.get x (snd st') = JsMap.get x (snd st)) \/
       (JsMap.get x (fst st') = Some (du + 1) /\
        JsMap.get x (snd st') = Some (Some u) /\ In x vs)).
Proof.
  induction vs as [| v vs IH]; intro st; cbn [fold_left]; cbv zeta.
  - split; [auto |]. split; [eauto |]. split; [intros v [] | auto].
  - set (st1 := relax u du st v).
    assert (H1 : (forall x, x <> v ->
                    JsMap.get x (fst st1) = JsMap.get x (fst st) /\
                    JsMap.get x (snd st1) = JsMap.get x (snd st)) /\
                 (exists d', JsMap.get v (fst st1) = Some d' /\ du + 1 <= d') /\
                 (forall d, JsMap.get v (fst st) = Some d ->
                    exists d', JsMap.get v (fst st1) = Some d' /\ d <= d') /\
                 ((JsMap.get v (fst st1) = JsMap.get v (fst st) /\
                   JsMap.get v (snd st1) = JsMap.get v (snd st)) \/
                  (JsMap.get v (fst st1) = Some (du + 1) /\
                   JsMap.get v (snd st1) = Some (Some u)))).
    { unfold st1, relax. cbv zeta.
      destruct (JsMap.get v (fst st)) as [dv |] eqn:Ev.
      - destruct (Nat.ltb_spec dv (du + 1)) as [Hlt | Hge]; cbn [fst snd].
        + split; [intros x Hx; rewrite !JsMap_get_set_other; auto |].
          rewrite !JsMap_get_set_same.
          split; [eexists; split; [reflexivity | lia] |].
          split; [| auto].
          intros d E. injection E as <-. eexists. split; [reflexivity | lia].
        + split; [auto |]. rewrite Ev.
          split; [eexists; split; [reflexivity | lia] |].
          split; [| auto].
          intros d E. injection E as <-. eexists. split; [reflexivity | lia].
      - cbn [fst snd].
        split; [intros x Hx; rewrite !JsMap_get_set_other; auto |].
        rewrite !JsMap_get_set_same.
        split; [eexists; split; [reflexivity | lia] |].
        split; [intros d E; discriminate | auto]. }
    destruct H1 as (Hother & (dv1 & Ev1 & Hv1) & Hmono1 & Hcase1).
    destruct (IH st1) as (Hout & Hmono & Hall & Hcase). cbv zeta in *.
    split; [| split; [| split]].
    + intros x Hx.
      assert (x <> v) by (intros ->; apply Hx; left; reflexivity).
      destruct (Hout x (fun H0 => Hx (or_intror H0))) as [E1 E2].
      destruct (Hother x H) as [E3 E4]. split; congruence.
    + intros x d Ex. destruct (keqb_spec x v) as [-> | N].
      * destruct (Hmono1 d Ex) as (d1 & Ed1 & Hle1).
        destruct (Hmono v d1 Ed1) as (d2 & Ed2 & Hle2).
        exists d2. split; [exact Ed2 | lia].
      * destruct (Hother x N) as [E3 _]. rewrite <- E3 in Ex.
        exact (Hmono x d Ex).
    + intros w [<- | Hw]; [| exact (Hall w Hw)].
      destruct (Hmono v dv1 Ev1) as (d2 & Ed2 & Hle2).
      exists d2. split; [exact Ed2 | lia].
    + intro x. destruct (Hcase x) as [[E1 E2] | (E1 & E2 & Hin)];
        [| right; split; [exact E1 | split; [exact E2 | right; exact Hin]]].
      destruct (keqb_spec x v) as [-> | N].
      * destruct Hcase1 as [[E3 E4] | [E3 E4]].
        -- left. split; congruence.
        -- right. split; [congruence |]. split; [congruence | left; reflexivity].
      * destruct (Hother x N) as [E3 E4]. left. split; congruence.
Qed.
(** Every entry of [dist] is backed by the parent pointers: a root has
    distance 0, any other node sits one step after its parent, and parents
    are nodes of [Pfx], the part of the order already handled. *)
Local Abbreviation chained st Pfx :=
  (forall v d, JsMap.get v (fst st) = Some d ->
     d <= rank v /\ In v ord /\
     match JsMap.get v (snd st) with
     | Some None => d = 0
     | Some (Some u) =>
         In u Pfx /\ In v (succs u) /\
         JsMap.get u (fst st) = Some (d - 1) /\ 1 <= d
     | None => False
     end).
(** [dist] is at least the length of every walk whose nodes before the
    last one are in [Pfx]. *)
Local Abbreviation optimal st Pfx :=
  ((forall x, In x Pfx -> JsMap.has x (fst st) = true) /\
   forall p v, p <> [] -> isWalk succs (p ++ [v]) ->
     (forall x, In x p -> In x Pfx) ->
     exists d, JsMap.get v (fst st) = Some d /\ length p <= d).

Lemma longestStep_keeps (Pfx Rest : list NodeId) (u : NodeId) (st : State) :
  ord = Pfx ++ u :: Rest ->
  chained st Pfx -> optimal st Pfx ->
  chained (longestStep succs st u) (Pfx ++ [u]) /\
  optimal (longestStep succs st u) (Pfx ++ [u]).
Proof.
  intros Eo C [Ohas Owalk].
  destruct (rank_prefix Pfx Rest u u Eo) as (Hru & _ & Hnu).
  assert (Hrp : forall x, In x Pfx -> rank x < length Pfx).
  { intros x. exact (proj1 (proj2 (rank_prefix Pfx Rest u x Eo))). }
  assert (Huo : In u ord) by (rewrite Eo; in_list; auto).
  assert (Hpo : forall x, In x Pfx -> In x ord).
  { intros x Hx. rewrite Eo. in_list. auto. }
  assert (Hsucc : forall v, In v (succs u) -> v <> u /\ ~ In v Pfx /\ In v ord).
  { intros v Hv. destruct (forward u v Huo Hv) as [Hvo Hlt].
    split; [intros ->; lia |]. split; [| exact Hvo].
    intro Hin. pose proof (Hrp v Hin). lia. }
  unfold longestStep. cbv zeta.
  set (st1 := if negb (JsMap.has u (fst st))
              then (JsMap.set u 0 (fst st), JsMap.set u None (snd st))
              else st).
  assert (F1 : forall x, x <> u ->
                 JsMap.get x (fst st1) = JsMap.get x (fst st) /\
                 JsMap.get x (snd st1) = JsMap.get x (snd st)).
  { intros x Hx. unfold st1. destruct (negb (JsMap.has u (fst st)));
      cbn [fst snd]; [| auto].
    rewrite !JsMap_get_set_other; auto. }
  assert (M1 : forall x d, JsMap.get x (fst st) = Some d ->
                 JsMap.get x (fst st1) = Some d).
  { intros x d Ex. unfold st1. unfold JsMap.has.
    destruct (JsMap.get u (fst st)) as [d0 |] eqn:Eu; cbn [negb]; [exact Ex |].
    cbn [fst]. rewrite JsMap_get_set_other; [exact Ex | congruence]. }
  assert (F2 : exists du, JsMap.get u (fst st1) = Some du /\ du <= rank u /\
                 (forall p, p <> [] -> isWalk succs (p ++ [u]) ->
                    (forall x, In x p -> In x Pfx) -> length p <= du) /\
                 match JsMap.get u (snd st1) with
                 | Some None => du = 0
                 | Some (Some w) =>
                     In w Pfx /\ In u (succs w) /\
                     JsMap.get w (fst st1) = Some (du - 1) /\ 1 <= du
                 | None => False
                 end).
  { unfold st1. unfold JsMap.has.
    destruct (JsMap.get u (fst st)) as [d0 |] eqn:Eu; cbn [negb fst snd].
    - exists d0. split; [exact Eu |].
      destruct (C u d0 Eu) as (Hle & _ & Hpar). split; [exact Hle |].
      split; [| exact Hpar].
      intros p Hp Hw Hin. destruct (Owalk p u Hp Hw Hin) as (d & Ed & Hl).
      congruence.
    - exists 0. rewrite !JsMap_get_set_same. split; [reflexivity |].
      split; [lia |]. split; [| reflexivity].
      intros p Hp Hw Hin. destruct (Owalk p u Hp Hw Hin) as (d & Ed & _).
      congruence. }
  destruct F2 as (du & Edu & Hdu & Hopt_u & Hpar_u).
  assert (C1 : chained st1 Pfx).
  { intros v d Ev. destruct (keqb_spec v u) as [-> | N].
    - assert (d = du) by congruence. subst d.
      split; [exact Hdu |]. split; [exact Huo | exact Hpar_u].
    - destruct (F1 v N) as [E1 E2]. rewrite E1 in Ev. rewrite E2.
      destruct (C v d Ev) as (Hle & Hvo & Hpar).
      split; [exact Hle |]. split; [exact Hvo |].
      destruct (JsMap.get v (snd st)) as [[w |] |]; auto.
      destruct Hpar as (Hw & Hvw & Ew & Hd).
      split; [exact Hw |]. split; [exact Hvw |]. split; [| exact Hd].
      exact (M1 _ _ Ew). }
  rewrite Edu. cbn [nullish].
  destruct (relax_fold u du (succs u) st1) as (Hout & Hmono & Hall & Hcase).
  cbv zeta in Hout, Hmono, Hall, Hcase.
  set (st2 := fold_left (relax u du) (succs u) st1) in *.
  assert (Hu2 : JsMap.get u (fst st2) = Some du).
  { destruct (Hout u) as [E1 _]; [| congruence].
    intro Hin. destruct (Hsucc u Hin) as [H _]. congruence. }
  assert (Hp2 : forall w, In w Pfx ->
                  JsMap.get w (fst st2) = JsMap.get w (fst st1)).
  { intros w Hw. destruct (Hout w) as [E1 _]; [| exact E1].
    intro Hin. destruct (Hsucc w Hin) as (_ & H & _). exact (H Hw). }
  split.
  - intros v d Ev. destruct (Hcase v) as [[E1 E2] | (E1 & E2 & Hin)].
    + rewrite E1 in Ev. rewrite E2.
      destruct (C1 v d Ev) as (Hle & Hvo & Hpar).
      split; [exact Hle |]. split; [exact Hvo |].
      destruct (JsMap.get v (snd st1)) as [[w |] |]; auto.
      destruct Hpar as (Hw & Hvw & Ew & Hd).
      split; [apply in_app_iff; auto |]. split; [exact Hvw |].
      split; [| exact Hd]. rewrite (Hp2 w Hw). exact Ew.
    + assert (d = du + 1) by congruence. subst d.
      destruct (forward u v Huo Hin) as [Hvo Hlt].
      split; [lia |]. split; [exact Hvo |]. rewrite E2.
      split; [apply in_app_iff; right; left; reflexivity |].
      split; [exact Hin |]. split; [| lia].
      rewrite Hu2. f_equal. lia.
  - split.
    + intros x Hx. apply in_app_iff in Hx. destruct Hx as [Hx | [<- | []]].
      * destruct (has_get_some _ _ (Ohas x Hx)) as (d & Ed).
        destruct (Hmono x d (M1 _ _ Ed)) as (d' & Ed' & _).
        apply get_some_has with (y := d'). exact Ed'.
      * apply get_some_has with (y := du). exact Hu2.
    + intros p v Hp Hw Hin.
      destruct (exists_last Hp) as (p' & y & ->).
      rewrite <- app_assoc in Hw. cbn [app] in Hw.
      destruct (isWalk_snoc_inv succs p' y v Hw) as [Hw' Hyv].
      assert (Hp'o : forall x, In x p' -> In x ord).
      { intros x Hx. specialize (Hin x (in_or_app _ _ _ (or_introl Hx))).
        apply in_app_iff in Hin. destruct Hin as [H | [<- | []]]; auto. }
      pose proof (walk_last_rank p' y Hw' Hp'o) as Hrk.
      assert (Hy : In y (Pfx ++ [u])) by (apply Hin; in_list; auto).
      rewrite length_app. cbn [length].
      apply in_app_iff in Hy. destruct Hy as [Hy | [<- | []]].
      * assert (Hall' : forall x, In x (p' ++ [y]) -> In x Pfx).
        { intros x Hx. apply in_app_iff in Hx.
          destruct Hx as [Hx | [<- | []]]; [| exact Hy].
          specialize (Hin x (in_or_app _ _ _ (or_introl Hx))).
          apply in_app_iff in Hin. destruct Hin as [H | [<- | []]]; [exact H |].
          pose proof (Hrk u Hx). pose proof (Hrp y Hy). lia. }
        destruct (Owalk (p' ++ [y]) v) as (d & Ed & Hl).
        -- destruct p'; discriminate.
        -- rewrite <- app_assoc. exact Hw.
        -- exact Hall'.
        -- rewrite length_app in Hl. cbn [length] in Hl.
           destruct (Hmono v d (M1 _ _ Ed)) as (d' & Ed' & Hle).
           exists d'. split; [exact Ed' | lia].
      * assert (Hall' : forall x, In x p' -> In x Pfx).
        { intros x Hx.
          specialize (Hin x (in_or_app _ _ _ (or_introl Hx))).
          apply in_app_iff in Hin. destruct Hin as [H | [<- | []]]; [exact H |].
          pose proof (Hrk u Hx). lia. }
        destruct (Hall v Hyv) as (d' & Ed' & Hle).
        exists d'. split; [exact Ed' |].
        destruct p' as [| a p']; [simpl; lia |].
        pose proof (Hopt_u (a :: p') ltac:(discriminate) Hw' Hall'). lia.
Qed.

Lemma longestFold_keeps (Rest : list NodeId) :
  forall Pfx (st : State),
    ord = Pfx ++ Rest -> chained st Pfx -> optimal st Pfx ->
    chained (fold_left (longestStep succs) Rest st) ord /\
    optimal (fold_left (longestStep succs) Rest st) ord.
Proof.
  induction Rest as [| u Rest IH]; intros Pfx st Eo C O; cbn [fold_left].
  - rewrite app_nil_r in Eo. subst Pfx. split; assumption.
  - destruct (longestStep_keeps Pfx Rest u st Eo C O) as [C' O'].
    apply (IH (Pfx ++ [u])); [| exact C' | exact O'].
    rewrite <- app_assoc. exact Eo.
Qed.

Lemma isWalk_extend (q : list NodeId) (y v : NodeId) :
  isWalk succs (q ++ [y]) -> In v (succs y) -> isWalk succs (q ++ [y; v]).
Proof.
  induction q as [| a q IH]; cbn [app]; intros Hw Hv.
  - simpl. auto.
  - destruct q as [| b q]; cbn [app] in *.
    + destruct Hw as [Hab _]. split; [exact Hab |]. simpl. auto.
    + destruct Hw as [Hab Hw]. split; [exact Hab |]. exact (IH Hw Hv).
Qed.

Lemma rank_bound (x : NodeId) : In x ord -> rank x < length ord.
Proof.
  clear ord_nodup forward.
  induction ord as [| a l IH]; intro Hx; [destruct Hx |].
  cbn [posIn length]. destruct (keqb_spec x a) as [-> | N]; [lia |].
  destruct Hx as [-> | Hx]; [congruence |]. specialize (IH Hx). lia.
Qed.

(** The [while] loop that follows the parent pointers from [v] stops after
    [d] steps, where [d] is the distance of [v], and has then put a walk of
    [d] edges that ends at [v] in front of [path]. *)
Lemma unwindPath_chain (st : State) :
  chained st ord ->
  forall d v fuel path,
    JsMap.get v (fst st) = Some d -> d + 2 <= fuel ->
    exists q,
      unwindPath fuel (snd st) (Some v) path = Some (q ++ v :: path) /\
      length q = d /\ isWalk succs (q ++ [v]) /\
      (forall x, In x (q ++ [v]) -> In x ord).
Proof.
  intro C. induction d as [d IH] using lt_wf_ind.
  intros v fuel path Ev Hf.
  destruct fuel as [| fuel]; [lia |]. cbn [unwindPath].
  destruct (C v d Ev) as (_ & Hvo & Hpar).
  destruct (JsMap.get v (snd st)) as [[u |] |]; [| | contradiction].
  - destruct Hpar as (_ & Hvu & Eu & Hd). cbn [nullish].
    destruct (IH (d - 1) ltac:(lia) u fuel (v :: path) Eu ltac:(lia))
      as (q & E & Hl & Hw & Hin).
    exists (q ++ [u]). split; [| split; [| split]].
    + rewrite E, <- app_assoc. reflexivity.
    + rewrite length_app, Hl. simpl. lia.
    + rewrite <- app_assoc. cbn [app]. apply isWalk_extend; assumption.
    + intros x Hx. apply in_app_iff in Hx. destruct Hx as [Hx | [<- | []]];
        [exact (Hin x Hx) | exact Hvo].
  - subst d. cbn [nullish]. destruct fuel as [| fuel]; [lia |].
    cbn [unwindPath]. exists []. split; [reflexivity |].
    split; [reflexivity |]. split; [simpl; exact I |].
    intros x [<- | []]. exact Hvo.
Qed.
End LongestPath.

Section PickEnd.
Variable dist : JsMap NodeId nat.

(** The scan for the end node keeps the largest distance seen and a node
    that has it. *)
Lemma pickEnd_fold (l : list NodeId) :
  forall be,
    let be' := fold_left (pickEnd dist) l be in
    fst be <= fst be' /\
    (forall x, In x l -> JsMap.get x dist ?? 0 <= fst be') /\
    (be' = be \/
     exists e, In e l /\ snd be' = Some e /\ fst be' = JsMap.get e dist ?? 0).
Proof.
  induction l as [| a l IH]; intro be; cbv zeta; cbn [fold_left].
  - split; [lia |]. split; [intros x [] | left; reflexivity].
  - destruct (IH (pickEnd dist be a)) as (Hle & Hmax & Hend).
    cbv zeta in Hle, Hmax, Hend.
    assert (Hstep : fst be <= fst (pickEnd dist be a) /\
                    JsMap.get a dist ?? 0 <= fst (pickEnd dist be a) /\
                    (pickEnd dist be a = be \/
                     pickEnd dist be a = (JsMap.get a dist ?? 0, Some a))).
    { unfold pickEnd. cbv zeta.
      destruct (Nat.ltb_spec (fst be) (JsMap.get a dist ?? 0));
        cbn [fst]; repeat split; auto; lia. }
    destruct Hstep as (H1 & H2 & H3).
    split; [lia |]. split.
    + intros x [<- | Hx]; [lia | exact (Hmax x Hx)].
    + destruct Hend as [Hend | (e & He & E1 & E2)].
      * rewrite Hend. destruct H3 as [-> | ->]; [left; reflexivity |].
        right. exists a. cbn [fst snd]. split; [left; reflexivity | auto].
      * right. exists e. split; [right; exact He | auto].
Qed.
End PickEnd.

(** X20. Given the nodes of a graph in a topological order (no repeats,
    every edge from an earlier to a later node), [longestPathDAG] returns a
    path of the graph whose number of edges is the returned length, and no
    walk through the nodes has more edges. *)
Theorem longestPathDAG_finds_a_longest_path
    (succs : NodeId -> list NodeId) (fuel : nat) (nodes ord : list NodeId) :
  NoDup ord ->
  length ord = length nodes ->
  (forall x, In x nodes <-> In x ord) ->
  (forall u v, In u ord -> In v (succs u) ->
     In v ord /\ posIn u ord < posIn v ord) ->
  length nodes < fuel ->
  exists r,
    longestPathDAG succs fuel nodes (map Some ord) = Some (inr r) /\
    isWalk succs (lp_path r) /\
    (forall x, In x (lp_path r) -> In x nodes) /\
    (nodes <> [] -> length (lp_path r) = lp_length r + 1) /\
    (nodes = [] -> lp_path r = [] /\ lp_length r = 0) /\
    (forall p, isWalk succs p -> (forall x, In x p -> In x nodes) ->
       edgeCount p <= lp_length r).
Proof.
  intros ND Hlen Hsame Hfw Hfuel. unfold longestPathDAG.
  destruct (@orderPositions_defined ord 0 JsMap.empty ND (fun x _ => eq_refl))
    as (pos & -> & Hsize & Hpos & _).
  replace (JsMap.size pos =? length nodes) with true
    by (symmetry; apply Nat.eqb_eq; rewrite Hsize; simpl; lia).
  cbn [negb].
  rewrite (@checkEdges_ok succs pos nodes).
  2:{ intros u v Hu Hv. apply Hsame in Hu.
      destruct (Hfw u v Hu Hv) as [Hvo Hlt].
      exists (0 + posIn u ord), (0 + posIn v ord).
      split; [exact (Hpos u Hu) |]. split; [exact (Hpos v Hvo) | lia]. }
  rewrite definedEntries_map_Some.
  destruct (@longestFold_keeps succs ord ND Hfw ord [] (JsMap.empty, JsMap.empty)
              eq_refl) as [C [Ohas Owalk]].
  { intros v d Ev. discriminate. }
  { split; [intros x [] |]. intros p v Hp _ Hin. destruct p as [| a p];
      [congruence |]. destruct (Hin a (or_introl eq_refl)). }
  destruct (fold_left (longestStep succs) ord (JsMap.empty, JsMap.empty))
    as [dist parent].
  cbn [fst snd] in C, Ohas, Owalk.
  destruct (hd_error ord) as [e0 |] eqn:Eh.
  - assert (He0 : In e0 ord).
    { destruct ord as [| a l]; [discriminate |]. injection Eh as <-.
      left. reflexivity. }
    destruct (@pickEnd_fold dist ord (JsMap.get e0 dist ?? 0, Some e0))
      as (_ & Hmax & Hend).
    cbv zeta in Hmax, Hend.
    assert (Hpick : exists e, In e ord /\
              fold_left (pickEnd dist) ord (JsMap.get e0 dist ?? 0, Some e0)
              = (JsMap.get e dist ?? 0, Some e)).
    { destruct Hend as [-> | (e & He & E1 & E2)]; [exists e0; auto |].
      exists e. split; [exact He |].
      destruct (fold_left (pickEnd dist) ord _) as [b en].
      cbn [fst snd] in E1, E2. congruence. }
    destruct Hpick as (e & He & Epick). rewrite Epick in Hmax |- *.
    cbn [fst] in Hmax.
    destruct (has_get_some _ _ (Ohas e He)) as (d & Ed).
    rewrite Ed in Hmax |- *. cbn [nullish] in Hmax |- *.
    pose proof (@rank_bound ord e He) as Hrk.
    destruct (C e d Ed) as (Hdr & _ & _).
    destruct (@unwindPath_chain succs ord (dist, parent) C d e fuel [] Ed
                ltac:(lia)) as (q & Eq & Hq & Hw & Hin).
    cbn [snd] in Eq. rewrite Eq.
    exists {| lp_length := d; lp_path := q ++ [e] |}. cbn [lp_length lp_path].
    split; [reflexivity |]. split; [exact Hw |].
    split; [intros x Hx; apply Hsame; exact (Hin x Hx) |].
    split; [intros _; rewrite length_app, Hq; reflexivity |].
    split.
    + intros ->. destruct ord; [destruct He | discriminate].
    + intros p Hp Hpin. unfold edgeCount.
      destruct p as [| a p]; [simpl; lia |].
      destruct (@exists_last _ (a :: p) ltac:(discriminate)) as (p' & v & E).
      rewrite E in *. rewrite length_app. cbn [length].
      destruct p' as [| b p']; [simpl; lia |].
      destruct (Owalk (b :: p') v ltac:(discriminate) Hp) as (d' & Ed' & Hl).
      { intros x Hx. apply Hsame. apply Hpin. in_list. auto. }
      assert (Hv : In v ord) by (apply Hsame; apply Hpin; in_list; auto).
      specialize (Hmax v Hv). rewrite Ed' in Hmax. cbn [nullish] in Hmax.
      lia.
  - destruct ord as [| a l]; [| discriminate].
    destruct nodes as [| n nodes']; [| discriminate].
    cbn [fold_left]. destruct fuel as [| fuel']; [simpl in Hfuel; lia |].
    cbn [unwindPath].
    exists {| lp_length := 0; lp_path := [] |}. cbn [lp_length lp_path].
    split; [reflexivity |]. split; [exact I |].
    split; [intros x [] |]. split; [congruence |]. split; [auto |].
    intros p _ Hpin. destruct p as [| a p]; [unfold edgeCount; simpl; lia |].
    destruct (Hpin a (or_introl eq_refl)).
Qed.

Lemma longestPathDAG_finds_a_longest_path_witness :
  exists r,
    longestPathDAG diamond 5 ["A"%string; "B"%string; "C"%string; "D"%string]
      (map Some ["A"%string; "B"%string; "C"%string; "D"%string])
    = Some (inr r) /\
    isWalk diamond (lp_path r) /\
    forall p, isWalk diamond p ->
      (forall x, In x p ->
         In x ["A"%string; "B"%string; "C"%string; "D"%string]) ->
      edgeCount p <= lp_length r.
Proof.
  destruct (@longestPathDAG_finds_a_longest_path diamond 5
              ["A"%string; "B"%string; "C"%string; "D"%string]
              ["A"%string; "B"%string; "C"%string; "D"%string])
    as (r & E & Hw & _ & _ & _ & Hmax).
  - repeat constructor; simpl; intuition discriminate.
  - reflexivity.
  - intro x. tauto.
  - intros u v [<- | [<- | [<- | [<- | []]]]] Hv; vm_compute in Hv;
      repeat (destruct Hv as [<- | Hv]); try contradiction;
      (split; [simpl; tauto | vm_compute; lia]).
  - simpl. lia.
  - exists r. auto.
Defined.

(** ** The components of [findSCCs] are strongly connected *)

Section Reaching.
Variable succs : NodeId -> list NodeId.

Local Abbreviation reaches u v := (exists p, walkFromTo succs u v p).

Lemma reaches_refl (u : NodeId) : reaches u u.
Proof. exists [u]. repeat split. Qed.

Lemma reaches_cons (u v w : NodeId) :
  In v (succs u) -> reaches v w -> reaches u w.
Proof.
  intros Huv (q & Hw & Hhd & Hl). destruct q as [| b q]; [discriminate |].
  injection Hhd as ->. exists (u :: v :: q). split; [| split].
  - split; assumption.
  - reflexivity.
  - change (last (v :: q) u = w). rewrite (last_default v u v q). exact Hl.
Qed.

Lemma reaches_trans (u v w : NodeId) :
  reaches u v -> reaches v w -> reaches u w.
Proof.
  intros (p & Hp) Hvw. revert u Hp.
  induction p as [| a p IH]; intros u (Hw & Hhd & Hl); [discriminate |].
  injection Hhd as ->. destruct p as [| b p].
  - simpl in Hl. subst v. exact Hvw.
  - destruct Hw as [Hub Hw]. apply (@reaches_cons u b w Hub). apply IH.
    split; [exact Hw |]. split; [reflexivity |].
    change (last (b :: p) u = v) in Hl. rewrite <- Hl. apply last_default.
Qed.
End Reaching.

Section StronglyConnected.
Context {NodeMeta EdgeMeta : Type}.
Variable g : DirectedGraph NodeMeta EdgeMeta.
Hypothesis g_wf : WellFormed g.

Local Abbreviation N := (JsMap.keys (nodes g)).
Local Abbreviation succs := (getSuccessors g).
Local Abbreviation reaches u v := (exists p, walkFromTo succs u v p).
(** The nodes of every component pushed so far reach one another. *)
Local Abbreviation connected s :=
  (forall c, In c (sccs s) -> forall x y,
     In x (scc_nodes c) -> In y (scc_nodes c) -> reaches x y).
(** On entry to [strongConnect(v)] every node on the stack reaches [v]. *)
Local Abbreviation entered s0 v :=
  (forall y, In y (stack s0) -> reaches y v).
(** The nodes put on the stack since the entry to [strongConnect(v)] and
    still there are reached from [v] and reach it. *)
Local Abbreviation tied s0 v s :=
  (forall x, In x (stack s) -> ~ In x (stack s0) ->
     reaches v x /\ reaches x v).
(** [lowlink(v)] is the index of [v], or the index of a node that was on
    the stack at the entry and that [v] reaches. *)
Local Abbreviation anchored s0 v s :=
  (lowOf s v = currentIndex s0 \/
   exists y, In y (stack s0) /\ reaches v y /\ indexOf s0 y = lowOf s v).

Lemma loop_stack_old (s0 s : TarjanState) (v : NodeId) (done : list NodeId)
    (y : NodeId) :
  TarjanInv g s0 -> TarjanLoop g s0 v s done -> In y (stack s0) ->
  indexOf s y = indexOf s0 y /\ indexOf s y < currentIndex s0.
Proof.
  intros I0 T Hy.
  pose proof ((tj_stack_visited I0) y Hy) as Hv.
  rewrite (indexOf_old s0 s y ((tl_index_old T) y Hv)).
  split; [reflexivity | exact ((tj_index_lt I0) y Hv)].
Qed.

Lemma loop_stack_new (s0 s : TarjanState) (v : NodeId) (done : list NodeId)
    (y : NodeId) :
  TarjanInv g s0 -> TarjanLoop g s0 v s done -> In y (stack s) ->
  In y (stack s0) \/ currentIndex s0 <= indexOf s y.
Proof.
  intros I0 T Hy. destruct (tl_stack T) as (above & Es & Hab & _).
  rewrite Es in Hy. apply in_app_iff in Hy. destruct Hy as [Hy | [<- | Hy]].
  - right. specialize (Hab y Hy). lia.
  - right. rewrite (indexOf_get _ _ (tl_index_v T)). lia.
  - left. exact Hy.
Qed.

(** [lowlink.set(v, min(lowlink(v), index(w)))] for [w] on the stack. *)
Lemma conn_onstack (s0 s s' : TarjanState) (v : NodeId) (done : list NodeId)
    (w : NodeId) :
  TarjanInv g s0 -> TarjanLoop g s0 v s done ->
  In w (stack s) -> In w (succs v) ->
  tied s0 v s -> anchored s0 v s ->
  lowlinkMin v (JsMap.get w (index s)) s = Some s' ->
  tied s0 v s' /\ anchored s0 v s'.
Proof.
  intros I0 T Hw Hvw Tie Anc E.
  destruct (tl_low_v T) as (L & HL & HLle & _).
  assert (Hwv : visited s w) by (apply (tj_stack_visited (tl_inv T)); exact Hw).
  apply visited_get in Hwv. destruct Hwv as [iw Hiw].
  rewrite Hiw, (lowlinkMin_eq v iw s HL) in E. injection E as <-.
  assert (HlowOld : lowOf s v = L) by (unfold lowOf; rewrite HL; reflexivity).
  split; [exact Tie |].
  assert (Hlow : lowOf (setLow v (Nat.min L iw) s) v = Nat.min L iw).
  { unfold lowOf. cbn [setLow lowlink]. rewrite JsMap_get_set_same. reflexivity. }
  rewrite Hlow. destruct (Nat.le_gt_cases L iw) as [Hle | Hgt].
  - rewrite Nat.min_l by exact Hle. rewrite <- HlowOld. exact Anc.
  - rewrite Nat.min_r by lia. right. exists w.
    pose proof (indexOf_get _ _ Hiw) as Hiw'.
    destruct (@loop_stack_new s0 s v done w I0 T Hw) as [H0 | Hnew]; [| lia].
    split; [exact H0 |]. split.
    + apply (@reaches_cons succs v w w Hvw). apply reaches_refl.
    + destruct (@loop_stack_old s0 s v done w I0 T H0) as [Ei _]. lia.
Qed.

(** The recursive call [strongConnect(w)] followed by
    [lowlink.set(v, min(lowlink(v), lowlink(w)))]. *)
Lemma conn_call (s0 s s1 s2 : TarjanState) (v : NodeId) (done : list NodeId)
    (w : NodeId) :
  TarjanInv g s0 -> TarjanLoop g s0 v s done -> TarjanPost g s w s1 ->
  In w (succs v) ->
  entered s0 v -> tied s0 v s -> anchored s0 v s ->
  tied s w s1 -> anchored s w s1 ->
  lowlinkMin v (JsMap.get w (lowlink s1)) s1 = Some s2 ->
  tied s0 v s2 /\ anchored s0 v s2.
Proof.
  intros I0 T Q Hvw Ent Tie Anc TieW AncW E.
  pose proof (tl_inv T) as I. pose proof (tp_inv Q) as I1.
  destruct (tl_low_v T) as (L & HL & HLle & _).
  pose proof (TarjanLoop_visited_v T) as Hvs.
  assert (HL1 : JsMap.get v (lowlink s1) = Some L).
  { rewrite ((tp_low_old Q) v Hvs). exact HL. }
  assert (Hwv : visited s1 w).
  { apply visited_get. eexists. exact (tp_index_v Q). }
  assert (Hwl : exists Lw, JsMap.get w (lowlink s1) = Some Lw).
  { apply has_get_some. rewrite (tj_low_keys I1). exact Hwv. }
  destruct Hwl as [Lw HLw].
  assert (HlowW : lowOf s1 w = Lw) by (unfold lowOf; rewrite HLw; reflexivity).
  rewrite HLw, (lowlinkMin_eq v Lw s1 HL1) in E. injection E as <-.
  assert (HlowOld : lowOf s v = L) by (unfold lowOf; rewrite HL; reflexivity).
  assert (Hci : currentIndex s0 < currentIndex s).
  { pose proof ((tj_index_lt I) v Hvs) as X.
    rewrite (indexOf_get _ _ (tl_index_v T)) in X. exact X. }
  assert (Hdown : forall y, In y (stack s) -> reaches y v).
  { intros y Hy. destruct (in_dec key_eq_dec y (stack s0)) as [H0 | Hn0].
    - exact (Ent y H0).
    - exact (proj2 (Tie y Hy Hn0)). }
  split.
  - intros x Hx Hn0. cbn [setLow stack] in Hx.
    destruct (in_dec key_eq_dec x (stack s)) as [Hs | Hns].
    + exact (Tie x Hs Hn0).
    + destruct (TieW x Hx Hns) as [Hwx Hxw]. split.
      * exact (@reaches_cons succs v w x Hvw Hwx).
      * apply (@reaches_trans succs x w v Hxw).
        destruct AncW as [Eroot | (y & Hy & Hwy & _)].
        -- exfalso. destruct (tp_stack Q) as (new & Es1 & _ & _ & Hroot).
           rewrite (Hroot Eroot) in Es1. cbn [app] in Es1.
           apply Hns. rewrite <- Es1. exact Hx.
        -- exact (@reaches_trans succs w y v Hwy (Hdown y Hy)).
  - assert (Hlow : lowOf (setLow v (Nat.min L Lw) s1) v = Nat.min L Lw).
    { unfold lowOf. cbn [setLow lowlink]. rewrite JsMap_get_set_same.
      reflexivity. }
    rewrite Hlow. destruct (Nat.le_gt_cases L Lw) as [Hle | Hgt].
    + rewrite Nat.min_l by exact Hle. rewrite <- HlowOld. exact Anc.
    + rewrite Nat.min_r by lia. right.
      destruct AncW as [Eroot | (y & Hy & Hwy & Ey)]; [lia |].
      exists y.
      destruct (@loop_stack_new s0 s v done y I0 T Hy) as [H0 | Hnew]; [| lia].
      split; [exact H0 |]. split.
      * exact (@reaches_cons succs v w y Hvw Hwy).
      * destruct (@loop_stack_old s0 s v done y I0 T H0) as [Ei _]. lia.
Qed.

(** The end of [strongConnect(v)]: the nodes popped together form a
    component whose nodes reach one another through [v]. *)
Lemma conn_close (s0 s s' : TarjanState) (v : NodeId) :
  TarjanInv g s0 -> TarjanLoop g s0 v s (succs v) ->
  connected s -> tied s0 v s -> anchored s0 v s ->
  closeComponent g v s = Some s' ->
  connected s' /\ tied s0 v s' /\ anchored s0 v s'.
Proof.
  intros I0 T Con Tie Anc E.
  destruct (tl_low_v T) as (L & HL & HLle & _).
  pose proof (tl_index_v T) as Hiv.
  destruct (tl_stack T) as (above & Es & Hab & _).
  assert (HlowOld : lowOf s v = L) by (unfold lowOf; rewrite HL; reflexivity).
  unfold closeComponent in E. rewrite HL, Hiv in E. cbn [optNatEqb] in E.
  destruct (Nat.eqb_spec L (currentIndex s0)) as [EL | NL].
  - assert (Hva : ~ In v above).
    { intro C. specialize (Hab v C).
      rewrite (indexOf_get _ _ Hiv) in Hab. lia. }
    rewrite Es, (popComponent_spec v above (stack s0) (onStack s) [] Hva) in E.
    cbn [app] in E. injection E as <-. cbn [sccs stack].
    assert (Hthrough : forall x, In x (above ++ [v]) ->
              reaches v x /\ reaches x v).
    { intros x Hx. apply in_app_iff in Hx. destruct Hx as [Hx | [<- | []]].
      - apply Tie.
        + rewrite Es. apply in_app_iff. left. exact Hx.
        + intro H0. specialize (Hab x Hx).
          destruct (@loop_stack_old s0 s v (succs v) x I0 T H0). lia.
      - split; apply reaches_refl. }
    split; [| split].
    + intros c Hc x y Hx Hy. apply in_app_iff in Hc.
      destruct Hc as [Hc | [<- | []]]; [exact (Con c Hc x y Hx Hy) |].
      cbn [scc_nodes] in Hx, Hy.
      exact (@reaches_trans succs x v y (proj2 (Hthrough x Hx))
               (proj1 (Hthrough y Hy))).
    + intros x Hx Hn. contradiction.
    + left. exact (eq_trans HlowOld EL).
  - injection E as <-. auto.
Qed.

Lemma conn_loop (f : nat) (s0 : TarjanState) (v : NodeId) :
  (forall s w, TarjanInv g s -> In w N -> ~ visited s w ->
               unvisitedCount g s < f -> connected s -> entered s w ->
               exists s', strongConnect g f w s = Some s' /\
                          TarjanPost g s w s' /\ connected s' /\
                          tied s w s' /\ anchored s w s') ->
  TarjanInv g s0 -> unvisitedCount g s0 <= f -> entered s0 v ->
  forall vs done s,
    done ++ vs = succs v -> TarjanLoop g s0 v s done ->
    connected s -> tied s0 v s -> anchored s0 v s ->
    exists s', forEachM (visitSuccessor (strongConnect g f) v) vs s = Some s' /\
               TarjanLoop g s0 v s' (succs v) /\ connected s' /\
               tied s0 v s' /\ anchored s0 v s'.
Proof.
  intros IHf I0 Hf Ent. induction vs as [| w vs IH];
    intros done s E T Con Tie Anc; cbn [forEachM].
  - rewrite app_nil_r in E. subst done. exists s. auto.
  - assert (Hw : In w (succs v)).
    { rewrite <- E. apply in_app_iff. right. left. reflexivity. }
    assert (HwN : In w N) by (apply (wf_succ g_wf v); exact Hw).
    assert (E' : (done ++ [w]) ++ vs = succs v).
    { rewrite <- app_assoc. exact E. }
    unfold visitSuccessor at 1.
    destruct (JsMap.has w (index s)) eqn:Hvis; cbn [negb].
    + destruct (JsSet.has w (onStack s)) eqn:Hos.
      * apply (tj_onStack (tl_inv T)) in Hos.
        destruct (@TarjanLoop_onstack _ _ g s0 s v done w I0 T Hos)
          as (s' & El & T').
        rewrite El.
        destruct (@conn_onstack s0 s s' v done w I0 T Hos Hw Tie Anc El)
          as [Tie' Anc'].
        destruct (lowlinkMin_tidy _ _ _ El) as (Esc & _ & _).
        apply (IH _ _ E' T'); [| exact Tie' | exact Anc'].
        rewrite Esc. exact Con.
      * assert (Hns : ~ In w (stack s)).
        { intro C. apply (tj_onStack (tl_inv T)) in C. congruence. }
        exact (IH _ _ E' (@TarjanLoop_skip _ _ g s0 s v done w T Hvis Hns)
                 Con Tie Anc).
    + assert (Hnv : ~ visited s w) by (unfold visited; congruence).
      assert (EntW : entered s w).
      { intros y Hy. apply (@reaches_trans succs y v w).
        - destruct (in_dec key_eq_dec y (stack s0)) as [H0 | Hn0].
          + exact (Ent y H0).
          + exact (proj2 (Tie y Hy Hn0)).
        - apply (@reaches_cons succs v w w Hw). apply reaches_refl. }
      destruct (IHf s w (tl_inv T) HwN Hnv) as (s1 & E1 & Q & Con1 & Tie1 & Anc1);
        [pose proof (tl_count T); lia | exact Con | exact EntW |].
      rewrite E1.
      destruct (@TarjanLoop_call _ _ g s0 s s1 v done w I0 T Q)
        as (s2 & El & T').
      rewrite El.
      destruct (@conn_call s0 s s1 s2 v done w I0 T Q Hw Ent Tie Anc Tie1 Anc1 El)
        as [Tie' Anc'].
      destruct (lowlinkMin_tidy _ _ _ El) as (Esc & _ & _).
      apply (IH _ _ E' T'); [| exact Tie' | exact Anc'].
      rewrite Esc. exact Con1.
Qed.

Lemma strongConnect_conn (fuel : nat) :
  forall s v, TarjanInv g s -> In v N -> ~ visited s v ->
              unvisitedCount g s < fuel -> connected s -> entered s v ->
              exists s', strongConnect g fuel v s = Some s' /\
                         TarjanPost g s v s' /\ connected s' /\
                         tied s v s' /\ anchored s v s'.
Proof.
  induction fuel as [| f IH]; intros s v I Hv Hn Hf Con Ent; [lia |].
  cbn [strongConnect].
  destruct (@conn_loop f s v IH I ltac:(lia) Ent (succs v) [] (pushNode v s)
              eq_refl (TarjanLoop_init I Hn Hv)) as (s1 & -> & T & Con1 & Tie1 & Anc1).
  - exact Con.
  - intros x [<- | Hx] Hn0; [| contradiction]. split; apply reaches_refl.
  - left. unfold lowOf. cbn [pushNode lowlink]. rewrite JsMap_get_set_same.
    reflexivity.
  - destruct (TarjanLoop_close I T) as (s' & E & Q). rewrite E.
    destruct (@conn_close s s1 s' v I T Con1 Tie1 Anc1 E) as (C2 & T2 & A2).
    exists s'. auto.
Qed.

Lemma findSCCs_conn_loop (fuel : nat) :
  length N < fuel ->
  forall l s, incl l N -> TarjanInv g s -> stack s = [] -> connected s ->
    exists s',
      forEachM (fun st nodeId =>
                  if negb (JsMap.has nodeId (index st))
                  then strongConnect g fuel nodeId st else Some st) l s
        = Some s' /\ connected s'.
Proof.
  intro Hf. induction l as [| v l IH]; intros s Hl I Hs Con; cbn [forEachM].
  - exists s. auto.
  - assert (Hv : In v N) by (apply Hl; left; reflexivity).
    assert (Hl' : incl l N) by (intros x Hx; apply Hl; right; exact Hx).
    destruct (JsMap.has v (index s)) eqn:Hvis; cbn [negb].
    + exact (IH s Hl' I Hs Con).
    + assert (Hnv : ~ visited s v) by (unfold visited; congruence).
      destruct (@strongConnect_conn fuel s v I Hv Hnv) as (s1 & -> & Q & Con1 & _).
      { pose proof (unvisitedCount_bound g s). lia. }
      { exact Con. }
      { rewrite Hs. intros y []. }
      assert (Hs1 : stack s1 = []).
      { destruct (tp_stack Q) as (new & Es & _ & _ & Hroot).
        rewrite Es, Hs, app_nil_r. apply Hroot.
        pose proof (tp_low_le Q).
        assert (currentIndex s <= lowOf s1 v).
        { apply (tp_low_bound Q); [lia |]. rewrite Hs. intros x []. }
        lia. }
      exact (IH s1 Hl' (tp_inv Q) Hs1 Con1).
Qed.

(** The nodes of a component returned by [findSCCs] reach one another. *)
Lemma findSCCs_connected (fuel : nat) (l : list SCC) :
  length N < fuel -> findSCCs fuel g = Some l ->
  forall c, In c l -> forall x y,
    In x (scc_nodes c) -> In y (scc_nodes c) -> reaches x y.
Proof.
  intros Hf. unfold findSCCs.
  destruct (@findSCCs_conn_loop fuel Hf N tarjanInit (incl_refl N)
              (TarjanInv_init g) eq_refl) as (s & -> & Con).
  - intros c [].
  - cbn [option_map]. intro E. injection E as <-. exact Con.
Qed.

(** A walk never leads from a component to a later one. *)
Lemma walk_component_le (l : list SCC) :
  SccResult g l ->
  forall p u v, walkFromTo succs u v p ->
    forall i c, nth_error l i = Some c -> In u (scc_nodes c) ->
      exists j c', j <= i /\ nth_error l j = Some c' /\ In v (scc_nodes c').
Proof.
  intro R. induction p as [| a p IH]; intros u v (Hw & Hhd & Hl) i c Hi Hu;
    [discriminate |].
  injection Hhd as ->. destruct p as [| b p].
  - simpl in Hl. subst v. exists i, c. auto.
  - destruct Hw as [Hub Hw].
    destruct ((sr_closed R) u b i c Hi Hu Hub) as (j & c' & Hj & Hc' & Hb).
    destruct (IH b v) with (i := j) (c := c') as (k & c'' & Hk & Hc'' & Hv);
      [| exact Hc' | exact Hb |].
    + split; [exact Hw |]. split; [reflexivity |].
      change (last (b :: p) u = v) in Hl. rewrite <- Hl. apply last_default.
    + exists k, c''. split; [lia | auto].
Qed.
End StronglyConnected.

(** X21. On a built graph the components returned by [findSCCs()] are the
    strongly connected components: two nodes of the graph lie in the same
    component exactly when a walk along the edges leads from each of them
    to the other. *)
Theorem findSCCs_components_are_strongly_connected
    (NodeMeta EdgeMeta : Type) (g : DirectedGraph NodeMeta EdgeMeta)
    (fuel : nat) :
  Built g -> JsMap.size (nodes g) < fuel ->
  exists l,
    findSCCs fuel g = Some l /\
    forall x y, hasNode g x = true -> hasNode g y = true ->
      ((exists c, In c l /\ In x (scc_nodes c) /\ In y (scc_nodes c)) <->
       (exists p q, walkFromTo (getSuccessors g) x y p /\
                    walkFromTo (getSuccessors g) y x q)).
Proof.
  intros B Hf. pose proof (Built_WellFormed B) as W.
  assert (HfN : length (JsMap.keys (nodes g)) < fuel).
  { unfold JsMap.keys. rewrite length_map. exact Hf. }
  destruct (findSCCs_spec W HfN) as (l & Es & R).
  exists l. split; [exact Es |]. intros x y Hx Hy. split.
  - intros (c & Hc & Hxc & Hyc).
    destruct (@findSCCs_connected _ _ g W fuel l HfN Es c Hc x y Hxc Hyc)
      as [p Hp].
    destruct (@findSCCs_connected _ _ g W fuel l HfN Es c Hc y x Hyc Hxc)
      as [q Hq].
    exists p, q. split; assumption.
  - intros (p & q & Hp & Hq).
    apply JsMap_has_In_keys in Hx. apply JsMap_has_In_keys in Hy.
    destruct ((sr_cover R) x Hx) as (i & c & Hi & Hxc).
    destruct ((sr_cover R) y Hy) as (j & d & Hj & Hyd).
    destruct (@walk_component_le _ _ g l R p x y Hp i c Hi Hxc)
      as (j' & d' & Hle1 & Hj' & Hyd').
    destruct (@walk_component_le _ _ g l R q y x Hq j d Hj Hyd)
      as (i' & c' & Hle2 & Hi' & Hxc').
    pose proof ((sr_unique R) y j' j d' d Hj' Hyd' Hj Hyd) as E1.
    pose proof ((sr_unique R) x i' i c' c Hi' Hxc' Hi Hxc) as E2.
    assert (i = j) by lia. subst j.
    assert (d = c) by congruence. subst d.
    exists c. split; [exact (nth_error_In _ _ Hi) | auto].
Qed.

Lemma findSCCs_components_are_strongly_connected_witness :
  exists l,
    findSCCs 3 exampleCycle = Some l /\
    forall x y, hasNode exampleCycle x = true ->
      hasNode exampleCycle y = true ->
      ((exists c, In c l /\ In x (scc_nodes c) /\ In y (scc_nodes c)) <->
       (exists p q, walkFromTo (getSuccessors exampleCycle) x y p /\
                    walkFromTo (getSuccessors exampleCycle) y x q)).
Proof.
  refine (@findSCCs_components_are_strongly_connected unit unit
            exampleCycle 3 _ _).
  - unfold exampleCycle, exampleAB, runM. repeat constructor.
  - vm_compute. lia.
Defined.

(** ** An edge classified 'back' closes a cycle *)

Section BackEdges.
Context {NodeMeta EdgeMeta : Type}.
Variable g : DirectedGraph NodeMeta EdgeMeta.
Hypothesis g_es : EdgeStore g.
Variable walkFuel : nat.

Local Abbreviation succs := (getSuccessors g).
Local Abbreviation reaches u v := (exists p, walkFromTo succs u v p).
Local Abbreviation seen st x := (JsMap.has x (disc st) = true).
(** Every identifier typed 'back' is an edge whose target reaches its
    source. *)
Local Abbreviation backOK st :=
  (forall id, JsMap.get id (type st) = Some back ->
     exists e, JsMap.get id (edges g) = Some e /\
               reaches (edge_to e) (edge_from e)).
(** The nodes on the stack have been discovered. *)
Local Abbreviation stackSeen st :=
  (forall x, In x (onStackC st) -> seen st x).

Lemma classifyNonTree_back (u v : NodeId) (eid : EdgeId)
    (st st' : ClassifyState) :
  classifyNonTree walkFuel u v eid st = Some st' ->
  onStackC st' = onStackC st /\ disc st' = disc st /\
  forall id, JsMap.get id (type st') = Some back ->
    JsMap.get id (type st) = Some back \/ (id = eid /\ In v (onStackC st)).
Proof.
  unfold classifyNonTree.
  destruct (JsSet.has v (onStackC st)) eqn:Hs.
  - intro E. injection E as <-. cbn [onStackC disc type set_type].
    split; [reflexivity |]. split; [reflexivity |].
    intros id. rewrite JsMap_get_set.
    destruct (keqb_spec id eid) as [-> | Nid]; [| auto].
    intros _. right. split; [reflexivity |]. apply JsSet_has_In. exact Hs.
  - destruct (ltNum _ _ && ltInf _ _).
    + intro E. injection E as <-. cbn [onStackC disc type set_type].
      split; [reflexivity |]. split; [reflexivity |].
      intros id. rewrite JsMap_get_set.
      destruct (keqb id eid); [discriminate | auto].
    + destruct (ancestorWalk walkFuel st u (parentOf st v)) as [b |];
        [| discriminate].
      intro E. injection E as <-. cbn [onStackC disc type set_type].
      split; [reflexivity |]. split; [reflexivity |].
      intros id. rewrite JsMap_get_set.
      destruct (keqb id eid); [destruct b; discriminate | auto].
Qed.

Lemma nonTree_loop_back (u v : NodeId) (eids : list EdgeId) :
  forall st st',
    forEachM (fun st eid => classifyNonTree walkFuel u v eid st) eids st
      = Some st' ->
    onStackC st' = onStackC st /\ disc st' = disc st /\
    forall id, JsMap.get id (type st') = Some back ->
      JsMap.get id (type st) = Some back \/
      (In id eids /\ In v (onStackC st)).
Proof.
  induction eids as [| eid eids IH]; intros st st' E; cbn [forEachM] in E.
  - injection E as <-. auto.
  - destruct (classifyNonTree walkFuel u v eid st) as [s1 |] eqn:E1;
      [| discriminate].
    apply classifyNonTree_back in E1. destruct E1 as (Eo1 & Ed1 & Hb1).
    destruct (IH _ _ E) as (Eo & Ed & Hb).
    split; [congruence |]. split; [congruence |].
    intros id Hid. destruct (Hb id Hid) as [H1 | [Hin Hv]].
    + destruct (Hb1 id H1) as [H2 | [-> Hv]]; [left; exact H2 |].
      right. split; [left; reflexivity | exact Hv].
    + right. split; [right; exact Hin |]. rewrite <- Eo1. exact Hv.
Qed.

(** The parallel edges from [u] to [v], classified while every node on the
    stack reaches [u]. *)
Lemma nonTree_loop_backOK (u v : NodeId) (eids : list EdgeId)
    (st st' : ClassifyState) :
  forEachM (fun st eid => classifyNonTree walkFuel u v eid st) eids st
    = Some st' ->
  incl eids (getEdgeIdsBetween g u v) ->
  (In v (onStackC st) -> reaches v u) ->
  backOK st ->
  backOK st' /\ onStackC st' = onStackC st /\ disc st' = disc st.
Proof.
  intros E Hin Hchain B. apply nonTree_loop_back in E.
  destruct E as (Eo & Ed & Hb). split; [| auto].
  intros id Hid. destruct (Hb id Hid) as [H1 | [Hi Hv]]; [exact (B id H1) |].
  destruct (@bucket_edge _ _ g g_es u v id (Hin id Hi))
    as (e & Ee & _ & Ef & Et).
  exists e. split; [exact Ee |]. rewrite Ef, Et. exact (Hchain Hv).
Qed.

Lemma dfsClassify_back (fuel : nat) :
  forall u st st',
    dfsClassify g walkFuel fuel u st = Some st' ->
    backOK st -> stackSeen st -> ~ seen st u ->
    (forall x, In x (onStackC st) -> reaches x u) ->
    backOK st' /\ onStackC st' = onStackC st /\
    (forall x, seen st x -> seen st' x).
Proof.
  induction fuel as [| fuel IH]; intros u st st' E B SS Hnew Hchain;
    cbn [dfsClassify] in E; [discriminate |].
  destruct (forEachM (classifyArc (dfsClassify g walkFuel fuel) g walkFuel u)
              (JsMap.get u (adjacencyList g) ?? []) (discover u st))
    as [s2 |] eqn:Eloop; [| discriminate].
  injection E as <-.
  change (JsMap.get u (adjacencyList g) ?? []) with (getSuccessors g u) in Eloop.
  assert (Hfresh : ~ In u (onStackC st)).
  { intro C. apply Hnew. exact (SS u C). }
  assert (Hloop : forall vs a b,
            incl vs (succs u) ->
            forEachM (classifyArc (dfsClassify g walkFuel fuel) g walkFuel u)
              vs a = Some b ->
            backOK a -> stackSeen a ->
            (forall x, In x (onStackC a) -> reaches x u) ->
            backOK b /\ onStackC b = onStackC a /\
            (forall x, seen a x -> seen b x)).
  { induction vs as [| v vs IHvs]; intros a b Hvs Eab Ba SSa Ca;
      cbn [forEachM] in Eab.
    - injection Eab as <-. auto.
    - destruct (classifyArc (dfsClassify g walkFuel fuel) g walkFuel u a v)
        as [a' |] eqn:Earc; [| discriminate].
      assert (Huv : In v (succs u)) by (apply Hvs; left; reflexivity).
      assert (Harc : backOK a' /\ onStackC a' = onStackC a /\
                     (forall x, seen a x -> seen a' x)).
      { unfold classifyArc in Earc.
        destruct (getEdgeIdsBetween g u v) as [| first rest] eqn:Eb.
        - injection Earc as <-. auto.
        - destruct (JsMap.has v (disc a)) eqn:Ev; cbn [negb] in Earc.
          + destruct (@nonTree_loop_backOK u v (first :: rest) a a' Earc)
              as (B' & Eo & Ed).
            * rewrite Eb. apply incl_refl.
            * intro Hv. exact (Ca v Hv).
            * exact Ba.
            * split; [exact B' |]. split; [exact Eo |]. rewrite Ed. auto.
          + cbv zeta in Earc.
            destruct (dfsClassify g walkFuel fuel v _) as [a1 |] eqn:Erec;
              [| discriminate].
            apply IH in Erec.
            * destruct Erec as (B1 & Eo1 & Sm1).
              cbn [onStackC disc set_type set_parent] in Eo1, Sm1.
              destruct (@nonTree_loop_backOK u v rest a1 a' Earc)
                as (B' & Eo & Ed).
              -- rewrite Eb. intros id Hid. right. exact Hid.
              -- rewrite Eo1. intro Hv. exact (Ca v Hv).
              -- exact B1.
              -- split; [exact B' |]. split; [congruence |].
                 rewrite Ed. exact Sm1.
            * cbn [type set_type set_parent]. intros id.
              rewrite JsMap_get_set.
              destruct (keqb id first); [discriminate | exact (Ba id)].
            * exact SSa.
            * cbn [disc set_type set_parent]. congruence.
            * cbn [onStackC set_type set_parent]. intros x Hx.
              apply (@reaches_trans succs x u v (Ca x Hx)).
              apply (@reaches_cons succs u v v Huv). apply reaches_refl. }
      destruct Harc as (B1 & Eo1 & Sm1).
      destruct (IHvs a' b (fun x Hx => Hvs x (or_intror Hx)) Eab B1)
        as (B2 & Eo2 & Sm2).
      + intros x Hx. rewrite Eo1 in Hx. exact (Sm1 x (SSa x Hx)).
      + intros x Hx. rewrite Eo1 in Hx. exact (Ca x Hx).
      + split; [exact B2 |]. split; [congruence | auto]. }
  destruct (Hloop (succs u) (discover u st) s2 (incl_refl _) Eloop)
    as (B2 & Eo2 & Sm2).
  - exact B.
  - cbn [onStackC disc discover]. intros x Hx. rewrite JsMap_has_set.
    apply JsSet_In_add in Hx. destruct Hx as [-> | Hx].
    + rewrite keqb_refl. reflexivity.
    + rewrite (SS x Hx). apply orb_true_r.
  - cbn [onStackC discover]. intros x Hx. apply JsSet_In_add in Hx.
    destruct Hx as [-> | Hx]; [apply reaches_refl | exact (Hchain x Hx)].
  - cbn [type onStackC disc finish]. split; [exact B2 |]. split.
    + rewrite Eo2. cbn [onStackC discover].
      apply JsSet_delete_added. exact Hfresh.
    + intros x Hx. apply Sm2. cbn [disc discover]. rewrite JsMap_has_set, Hx.
      apply orb_true_r.
Qed.

Lemma classifyRoots_back (fuel : nat) (us : list NodeId) :
  forall a b,
    forEachM (fun st u =>
      if negb (JsMap.has u (disc st)) then dfsClassify g walkFuel fuel u st
      else Some st) us a = Some b ->
    backOK a -> onStackC a = [] ->
    backOK b /\ onStackC b = [].
Proof.
  induction us as [| u us IH]; intros a b E Ba Ea; cbn [forEachM] in E.
  - injection E as <-. auto.
  - destruct (JsMap.has u (disc a)) eqn:Hu; cbn [negb] in E.
    + exact (IH a b E Ba Ea).
    + destruct (dfsClassify g walkFuel fuel u a) as [a1 |] eqn:E1;
        [| discriminate].
      destruct (@dfsClassify_back fuel u a a1 E1 Ba) as (B1 & Eo1 & _).
      * rewrite Ea. intros x [].
      * congruence.
      * rewrite Ea. intros x [].
      * apply (IH a1 b E B1). congruence.
Qed.

Lemma classifyCross_back (es : list (Edge EdgeMeta)) :
  forall st st',
    forEachM (fun st edge =>
      if edgeTypeIsCross (JsMap.get (edge_id edge) (type st)) then
        classifyNonTree walkFuel (edge_from edge) (edge_to edge)
          (edge_id edge) st
      else Some st) es st = Some st' ->
    backOK st -> onStackC st = [] -> backOK st'.
Proof.
  induction es as [| e es IH]; intros st st' E B Eo; cbn [forEachM] in E.
  - injection E as <-. exact B.
  - destruct (edgeTypeIsCross (JsMap.get (edge_id e) (type st))).
    + destruct (classifyNonTree walkFuel (edge_from e) (edge_to e)
                  (edge_id e) st) as [s1 |] eqn:E1; [| discriminate].
      apply classifyNonTree_back in E1. destruct E1 as (Eo1 & _ & Hb1).
      apply (IH _ _ E); [| congruence].
      intros id Hid. destruct (Hb1 id Hid) as [H1 | [_ Hv]]; [exact (B id H1) |].
      rewrite Eo in Hv. destruct Hv.
    + exact (IH _ _ E B Eo).
Qed.
End BackEdges.

(** X22. On a built graph every edge that [classifyEdges()] classifies
    'back' closes a cycle: its identifier is the id of an edge of the graph,
    and a walk along the edges leads from the target of that edge to its
    source. *)
Theorem classifyEdges_back_edge_closes_a_cycle
    (NodeMeta EdgeMeta : Type) (g : DirectedGraph NodeMeta EdgeMeta)
    (fuel : nat) :
  Built g -> 2 * JsMap.size (nodes g) + 2 <= fuel ->
  exists ec,
    classifyEdges fuel g = Some ec /\
    forall id, JsMap.get id ec = Some back ->
      exists e p,
        In e (getEdges g) /\ edge_id e = id /\
        hasEdge g (edge_from e) (edge_to e) = true /\
        walkFromTo (getSuccessors g) (edge_to e) (edge_from e) p.
Proof.
  intros B Hf. pose proof (Built_WellFormed B) as W.
  pose proof (Built_EdgeStore B) as St.
  destruct (@classifyEdges_total _ _ g W fuel Hf) as (ec & Ec).
  exists ec. split; [exact Ec |].
  unfold classifyEdges in Ec.
  destruct (forEachM _ (JsMap.keys (nodes g)) classifyInit) as [s1 |] eqn:E1;
    [| discriminate].
  destruct (forEachM _ (JsMap.values (edges g)) s1) as [s2 |] eqn:E2;
    [| discriminate].
  cbn [option_map] in Ec. injection Ec as <-.
  destruct (@classifyRoots_back _ _ g St fuel fuel _ _ _ E1) as (B1 & Eo1).
  { intros id Hid. discriminate Hid. }
  { reflexivity. }
  pose proof (@classifyCross_back _ _ g fuel _ _ _ E2 B1 Eo1) as B2.
  intros id Hid. destruct (B2 id Hid) as (e & Ee & p & Hp).
  assert (He : In e (JsMap.values (edges g))).
  { apply (JsMap_In_values e (edges g) (es_keys St)). eauto. }
  exists e, p. split; [exact He |].
  split; [exact (proj1 ((es_edge St) _ _ Ee)) |].
  split; [| exact Hp].
  apply (wf_index W). exact ((wf_edges W) e He).
Qed.

Lemma classifyEdges_back_edge_closes_a_cycle_witness :
  exists ec,
    classifyEdges 6 exampleCycle = Some ec /\
    forall id, JsMap.get id ec = Some back ->
      exists e p,
        In e (getEdges exampleCycle) /\ edge_id e = id /\
        hasEdge exampleCycle (edge_from e) (edge_to e) = true /\
        walkFromTo (getSuccessors exampleCycle) (edge_to e) (edge_from e) p.
Proof.
  refine (@classifyEdges_back_edge_closes_a_cycle unit unit exampleCycle 6 _ _).
  - unfold exampleCycle, exampleAB, runM. repeat constructor.
  - vm_compute. lia.
Defined.
